(** * codoc-webapp: a shallow embedding of the request orchestration

    The development follows the repository file by file:
    - [JS]         the fragment of JavaScript values and string operations
                   the routes rely on (truthiness, property access,
                   split/join, includes);
    - [Net]        outbound HTTP as an explicit request log plus an oracle
                   that answers each request;
    - [Groq]       src/app/api/groq/groq-client.ts (credential rotation),
                   one call at a time;
    - [Interleaved] the same client with other calls in flight while a
                   call awaits;
    - [GitHub]     parseGitHubUrl and getGitHubHeaders, which both GitHub
                   routes define in the same words;
    - [Tree]       src/app/api/github/tree/route.ts;
    - [Encoding]   the two codecs of Node's Buffer the content route calls;
    - [Content]    src/app/api/github/content/route.ts;
    - [GenContent] the generate-content route;
    - [Layout]     the chapter cache of DocumentationLayout.tsx;
    - [Scenario]   concrete configurations, networks and requests;
    - [GenOutline] src/app/api/groq/generate-outline/route.ts;
    - [Docs]       outline and batch generation of DocumentationLayout.tsx;
    - [Stats]      the file statistics of DocumentationLayout.tsx;
    - [InterleavedContent], [InterleavedOutline]
                   the two chat routes with other calls in flight;
    - [Served]     the component in front of the generate-content route.
    The modules whose names end in Facts, [TreeCount] and [TreeRun] hold
    the vocabulary of the properties, which follow the definitions.

    A JavaScript string is represented by the Rocq string that holds its
    UTF-8 encoding.  Equality, concatenation, substring search and
    splitting on an ASCII separator commute with that encoding.  What
    depends on the code units or on the Unicode tables is taken from the
    platform as a parameter: [toLowerCase], [slice] on strings, [URL],
    [localeCompare], [JSON.parse], [trim] and the regular expression of
    the outline route.  Objects are association lists with distinct keys.
    Console output is not modelled. *)

From stdpp Require Import base gmap strings list pretty sorting.
From Equations Require Import Equations.
From Stdlib Require Import ZArith QArith Ascii String Lia Bool.
From Stdlib Require Import Strings.Byte.

Set Warnings "-register-all".

Open Scope string_scope.
Open Scope Z_scope.

(* ===================================================================== *)
(** ** JavaScript values and string operations *)
(* ===================================================================== *)

Module JS.

(** The double-quote character, for the template literals that contain it. *)
Definition dquote : string := String (ascii_of_nat 34) EmptyString.
(** The line feed. *)
Definition nl : string := String (ascii_of_nat 10) EmptyString.

(** [s.split(c)] for a one-character separator.  The empty string splits
    into one empty segment, as in JavaScript. *)
Fixpoint split (c : ascii) (s : string) : list string :=
  match s with
  | EmptyString => [EmptyString]
  | String a rest =>
      if Ascii.eqb a c then EmptyString :: split c rest
      else match split c rest with
           | h :: t => String a h :: t
           | [] => [String a EmptyString]
           end
  end.

(** [parts.join(sep)]. *)
Definition join (sep : string) (parts : list string) : string :=
  String.concat sep parts.

(** [hay.includes(needle)]. *)
Fixpoint includes (needle hay : string) : bool :=
  if String.prefix needle hay then true
  else match hay with
       | EmptyString => false
       | String _ rest => includes needle rest
       end.

(** Whether the character occurs in the string. *)
Fixpoint has_char (c : ascii) (s : string) : bool :=
  match s with
  | EmptyString => false
  | String a rest => Ascii.eqb a c || has_char c rest
  end.

(** [String.prototype.toLowerCase] maps every cased code point and is a
    parameter of the functions that call it.  On a string of ASCII
    characters it lowers the letters A to Z and keeps every other
    character: that is [ascii_lowercase], which states this fact and
    stands in for the platform function in the concrete runs, all of them
    on ASCII text. *)
Definition lower_ascii (a : ascii) : ascii :=
  let n := nat_of_ascii a in
  if (Nat.leb 65 n && Nat.leb n 90)%bool then ascii_of_nat (n + 32) else a.

Fixpoint ascii_lowercase (s : string) : string :=
  match s with
  | EmptyString => EmptyString
  | String a rest => String (lower_ascii a) (ascii_lowercase rest)
  end.

(** Whether every character of the string is an ASCII character. *)
Fixpoint is_ascii (s : string) : bool :=
  match s with
  | EmptyString => true
  | String a rest => Nat.ltb (nat_of_ascii a) 128 && is_ascii rest
  end.

(** [arr.pop()] read as a value: the last element, if any. *)
Definition pop {A} (l : list A) : option A := last l.

(** [arr.slice(0, -1)]. *)
Definition slice_init {A} (l : list A) : list A := removelast l.

(** [arr.includes(x)] on an array of strings. *)
Definition arr_includes (x : string) (l : list string) : bool :=
  existsb (String.eqb x) l.

(** JSON-shaped values.  Numbers are the integers (status codes, sizes);
    fractional numbers do not occur in the data the claims are about. *)
Inductive JValue : Type :=
| JUndefined
| JNull
| JBool (b : bool)
| JNum (n : Z)
| JStr (s : string)
| JArr (items : list JValue)
| JObj (fields : list (string * JValue)).

(** ToBoolean. *)
Definition truthy (v : JValue) : bool :=
  match v with
  | JUndefined | JNull => false
  | JBool b => b
  | JNum n => negb (n =? 0)
  | JStr s => negb (String.eqb s EmptyString)
  | JArr _ | JObj _ => true
  end.

Fixpoint assoc (k : string) (fields : list (string * JValue)) : JValue :=
  match fields with
  | [] => JUndefined
  | (k', v) :: rest => if String.eqb k k' then v else assoc k rest
  end.

(** What a thrown value looks like to [error instanceof Error ? error.message : ...]. *)
Inductive Exn : Type :=
| ErrorMsg (message : string)
| NonError.

(** [v.k]: a TypeError on undefined and null, the field of an object, and
    undefined for the own-property names the routes read on any other
    value. *)
Definition get (v : JValue) (k : string) : Exn + JValue :=
  match v with
  | JUndefined => inl (ErrorMsg ("Cannot read properties of undefined (reading '" ++ k ++ "')"))
  | JNull => inl (ErrorMsg ("Cannot read properties of null (reading '" ++ k ++ "')"))
  | JObj fields => inr (assoc k fields)
  | _ => inr JUndefined
  end.

(** [const { k } = source] where [source] is the text of the expression
    that holds [v]: the TypeError of V8 on undefined and null, the field
    otherwise. *)
Definition destructure (source : string) (v : JValue) (k : string) : Exn + JValue :=
  match v with
  | JUndefined =>
      inl (ErrorMsg ("Cannot destructure property '" ++ k ++ "' of '" ++ source
                       ++ "' as it is undefined."))
  | JNull =>
      inl (ErrorMsg ("Cannot destructure property '" ++ k ++ "' of '" ++ source
                       ++ "' as it is null."))
  | JObj fields => inr (assoc k fields)
  | _ => inr JUndefined
  end.

(** [v?.k]. *)
Definition get_opt (v : JValue) (k : string) : JValue :=
  match v with
  | JObj fields => assoc k fields
  | _ => JUndefined
  end.

(** [v?.[0]]. *)
Definition index0_opt (v : JValue) : JValue :=
  match v with
  | JArr (x :: _) => x
  | JStr (String a _) => JStr (String a EmptyString)
  | JObj fields => assoc "0" fields
  | _ => JUndefined
  end.

(** [a || b] on values. *)
Definition or_else (a b : JValue) : JValue := if truthy a then a else b.

(** ToString, as a template literal applies it. *)
Fixpoint toString (v : JValue) : string :=
  match v with
  | JUndefined => "undefined"
  | JNull => "null"
  | JBool true => "true"
  | JBool false => "false"
  | JNum n => pretty n
  | JStr s => s
  | JArr items =>
      join "," (map (fun x => match x with
                              | JUndefined | JNull => EmptyString
                              | _ => toString x
                              end) items)
  | JObj _ => "[object Object]"
  end.

End JS.

(* ===================================================================== *)
(** ** Outbound HTTP *)
(* ===================================================================== *)

Module Net.
Import JS.

(** What a request body carries before [JSON.stringify]. *)
Inductive Body : Type :=
| NoBody
| ChatBody (model : string) (messages : list (string * string))
           (temperature : Q) (max_tokens : Z)
| JsonBody (v : JValue).

Record Request : Type := mkRequest {
  req_method : string;
  req_url : string;
  req_headers : list (string * string);
  req_body : Body
}.

(** A body as [json()] sees it.  [NotJson e readable]: [json()] rejects
    with [e]; when [readable] is false the body could not be read to its
    end, and [text()] rejects with [e] as well. *)
Inductive Parsed : Type :=
| NotJson (e : Exn) (readable : bool)
| Json (v : JValue).

(** [text()]: the text is not looked at, only whether reading succeeds. *)
Definition text (p : Parsed) : Exn + unit :=
  match p with
  | NotJson e false => inl e
  | _ => inr tt
  end.

Record Response : Type := mkResponse {
  status : Z;
  body : Parsed
}.

(** [response.ok]. *)
Definition ok (r : Response) : bool := (200 <=? status r) && (status r <=? 299).

Inductive Outcome : Type :=
| Rejected (e : Exn)
| Responded (r : Response).

(** The environment: what the network answers to a request, given the
    requests already made. *)
Definition Network : Type := list Request -> Request -> Outcome.

End Net.

(* ===================================================================== *)
(** ** groq-client.ts: the credential-rotating chat client *)
(* ===================================================================== *)

Module Groq.
Import JS Net.

Definition GROQ_API_URL : string := "https://api.groq.com/openai/v1/chat/completions".
Definition GROQ_MODEL : string := "meta-llama/llama-4-scout-17b-16e-instruct".

(** The module-level variables [currentApiKeyIndex] and [allKeysExhausted]. *)
Record State : Type := mkState {
  currentApiKeyIndex : nat;
  allKeysExhausted : bool
}.

Definition initial : State := mkState 0 false.

(** The four environment variables the client reads. *)
Record ProcessEnv : Type := mkEnv {
  GROQ_API_KEY : option string;
  GROQ_API_KEY_ALTERNATIVE_1 : option string;
  GROQ_API_KEY_ALTERNATIVE_2 : option string;
  GROQ_API_KEY_ALTERNATIVE_3 : option string
}.

Record GroqMessage : Type := mkMessage {
  role : string;
  msg_content : string
}.

Record GroqRequestOptions : Type := mkOptions {
  messages : list GroqMessage;
  temperature : option Q;
  max_tokens : option Z
}.

Record GroqResponse : Type := mkGroqResponse {
  success : bool;
  content : option JValue;
  error : option string
}.

Definition failure (msg : string) : GroqResponse := mkGroqResponse false None (Some msg).
Definition succeeded (c : JValue) : GroqResponse := mkGroqResponse true (Some c) None.

(** [if (process.env.X) keys.push(process.env.X)]. *)
Definition push_if_set (v : option string) : list string :=
  match v with
  | Some s => if String.eqb s EmptyString then [] else [s]
  | None => []
  end.

Definition getApiKeys (env : ProcessEnv) : list string :=
  push_if_set (GROQ_API_KEY env)
  ++ push_if_set (GROQ_API_KEY_ALTERNATIVE_1 env)
  ++ push_if_set (GROQ_API_KEY_ALTERNATIVE_2 env)
  ++ push_if_set (GROQ_API_KEY_ALTERNATIVE_3 env).

Definition getCurrentApiKey (env : ProcessEnv) (st : State) : option string * State :=
  let keys := getApiKeys env in
  if Nat.eqb (List.length keys) 0 then (None, st)
  else
    let st :=
      if Nat.leb (List.length keys) (currentApiKeyIndex st) then mkState 0 true else st in
    (keys !! currentApiKeyIndex st, st).

Definition switchToNextKey (env : ProcessEnv) (st : State) : bool * State :=
  let keys := getApiKeys env in
  let st := mkState (S (currentApiKeyIndex st)) (allKeysExhausted st) in
  if Nat.leb (List.length keys) (currentApiKeyIndex st) then (false, mkState 0 true)
  else (true, st).

(** [error instanceof Error ? error.message : "Unknown error"]. *)
Definition exn_message (e : Exn) : string :=
  match e with
  | ErrorMsg m => m
  | NonError => "Unknown error"
  end.

Definition chat_request (apiKey : string) (opts : GroqRequestOptions) : Request :=
  mkRequest "POST" GROQ_API_URL
    [("Content-Type", "application/json"); ("Authorization", "Bearer " ++ apiKey)]
    (ChatBody GROQ_MODEL
       (map (fun m => (role m, msg_content m)) (messages opts))
       (default (5 # 10)%Q (temperature opts))
       (default 4000 (max_tokens opts))).

(** The key a logged chat request was sent with. *)
Definition bearer_of (r : Request) : option string :=
  match req_headers r with
  | [_; (_, v)] => Some (String.substring 7 (String.length v - 7) v)
  | _ => None
  end.

(** [attemptOnce], [attemptRequest] and [sendToGroq] below are a call
    during whose awaits no other call touches the two module variables;
    [Interleaved] has the same three functions with other calls in
    flight, and agrees with these when the others leave the variables
    alone. *)

(** One pass through the body of [attemptRequest]: either it returns, or it
    calls itself again after a successful switch. *)
Inductive Step : Type :=
| Done (r : GroqResponse) (st : State) (log : list Request)
| Retry (st : State) (log : list Request).

Definition attemptOnce (env : ProcessEnv) (net : Network) (opts : GroqRequestOptions)
    (st : State) (log : list Request) : Step :=
  let '(apiKey, st) := getCurrentApiKey env st in
  match apiKey with
  | None => Done (failure "No GROQ API keys configured") st log
  | Some key =>
      if String.eqb key EmptyString
      then Done (failure "No GROQ API keys configured") st log
      else
        let req := chat_request key opts in
        match net log req with
        | Rejected e => Done (failure (exn_message e)) st (log ++ [req])
        | Responded response =>
            if (status response =? 429) && negb (allKeysExhausted st) then
              let '(switched, st) := switchToNextKey env st in
              if switched then Retry st (log ++ [req])
              else Done (failure "All API keys exhausted due to rate limiting. Please try again later.")
                        st (log ++ [req])
            else if negb (ok response) then
              match text (body response) with
              | inl e => Done (failure (exn_message e)) st (log ++ [req])
              | inr _ =>
                  Done (failure ("Groq API error: " ++ pretty (status response)))
                       st (log ++ [req])
              end
            else
              match body response with
              | NotJson e _ => Done (failure (exn_message e)) st (log ++ [req])
              | Json data =>
                  match get data "choices" with
                  | inl e => Done (failure (exn_message e)) st (log ++ [req])
                  | inr choices =>
                      let c := get_opt (get_opt (index0_opt choices) "message") "content" in
                      if negb (truthy c)
                      then Done (failure "No content in Groq response") st (log ++ [req])
                      else Done (succeeded c) st (log ++ [req])
                  end
              end
        end
  end.

(** Keys still ahead of the cursor; a cursor past the end counts as one
    more than a full list, since [getCurrentApiKey] rewinds it. *)
Definition remaining (env : ProcessEnv) (st : State) : nat :=
  let n := List.length (getApiKeys env) in
  if Nat.ltb (currentApiKeyIndex st) n then n - currentApiKeyIndex st else S n.

Definition inspect {A} (a : A) : {b : A | a = b} := exist _ a eq_refl.

(** [attemptRequest]: the closure inside [sendToGroq].  The recursion is the
    source's tail call; it is well founded because every retry moves the
    cursor one key closer to the end of the list. *)
Equations attemptRequest (env : ProcessEnv) (net : Network) (opts : GroqRequestOptions)
    (st : State) (log : list Request) : GroqResponse * State * list Request
    by wf (remaining env st) lt :=
  attemptRequest env net opts st log with inspect (attemptOnce env net opts st log) := {
    | exist _ (Done r st' log') _ => (r, st', log')
    | exist _ (Retry st' log') H => attemptRequest env net opts st' log'
  }.
Next Obligation.
  revert H. clear attemptRequest.
  unfold attemptOnce, getCurrentApiKey, switchToNextKey, remaining.
  destruct (Nat.eqb_spec (List.length (getApiKeys env)) 0) as [|Hn]; [discriminate|].
  destruct (Nat.leb_spec (List.length (getApiKeys env)) (currentApiKeyIndex st)) as [Hge|Hlt];
    cbn [currentApiKeyIndex allKeysExhausted].
  - destruct (getApiKeys env !! 0%nat) as [key|]; [|discriminate].
    destruct (String.eqb key EmptyString); [discriminate|].
    destruct (net log _) as [e|response]; [discriminate|].
    rewrite andb_false_r.
    destruct (negb (ok response)); [destruct (text _); discriminate|].
    destruct (body response) as [e|data]; [discriminate|].
    destruct (get data "choices"); [discriminate|].
    destruct (negb (truthy _)); discriminate.
  - destruct (getApiKeys env !! currentApiKeyIndex st) as [key|]; [|discriminate].
    destruct (String.eqb key EmptyString); [discriminate|].
    destruct (net log _) as [e|response]; [discriminate|].
    destruct ((status response =? 429) && negb (allKeysExhausted st)).
    + destruct (Nat.leb_spec (List.length (getApiKeys env)) (S (currentApiKeyIndex st)));
        [discriminate|].
      intros [= <- <-]. cbn [currentApiKeyIndex].
      destruct (Nat.ltb_spec (S (currentApiKeyIndex st)) (List.length (getApiKeys env)));
        destruct (Nat.ltb_spec (currentApiKeyIndex st) (List.length (getApiKeys env))); lia.
    + destruct (negb (ok response)); [destruct (text _); discriminate|].
      destruct (body response) as [e|data]; [discriminate|].
      destruct (get data "choices"); [discriminate|].
      destruct (negb (truthy _)); discriminate.
Qed.

(** [sendToGroq]: reset the exhausted flag, then attempt. *)
Definition sendToGroq (env : ProcessEnv) (net : Network) (opts : GroqRequestOptions)
    (st : State) (log : list Request) : GroqResponse * State * list Request :=
  let st := mkState (currentApiKeyIndex st) false in
  attemptRequest env net opts st log.

(** The rotation states the process can be in: the initial one, and
    whatever a top-level call leaves behind. *)
Inductive reachable (env : ProcessEnv) : State -> Prop :=
| reach_initial : reachable env initial
| reach_send net opts st log :
    reachable env st ->
    reachable env (snd (fst (sendToGroq env net opts st log))).

(** Every request is answered with HTTP 429. *)
Definition all429 (net : Network) : Prop :=
  forall log req, exists b, net log req = Responded (mkResponse 429 b).

Definition exhausted_message : string :=
  "All API keys exhausted due to rate limiting. Please try again later.".

(** The keys the requests appended to the log were sent with. *)
Definition attempted_keys (log : list Request) : list (option string) :=
  map bearer_of log.

End Groq.

(* ===================================================================== *)
(** ** groq-client.ts: a call among other calls in flight *)
(* ===================================================================== *)

Module Interleaved.
Import JS Net Groq.

(** The three places at which [attemptRequest] is suspended: [fetch]
    (line 108), [response.text()] (line 142) and [response.json()]
    (line 150). *)
Inductive Await : Type :=
| AwaitFetch
| AwaitText
| AwaitJson.

(** What the other calls in flight do to [currentApiKeyIndex] and
    [allKeysExhausted] while this call is suspended, given the requests
    this call has sent and the place at which it waits.  The log records
    the requests of this call only. *)
Definition Others : Type := list Request -> Await -> State -> State.

(** No other call touches the module variables while this one waits. *)
Definition undisturbed (others : Others) : Prop :=
  forall log a st, others log a st = st.

Definition alone : Others := fun _ _ st => st.

(** One pass through the body of [attemptRequest].  Between two awaits the
    code runs without interruption; at an await the module variables
    become what the others leave of them. *)
Definition attemptOnce (env : ProcessEnv) (net : Network) (others : Others)
    (opts : GroqRequestOptions) (st : State) (log : list Request) : Step :=
  let '(apiKey, st) := getCurrentApiKey env st in
  match apiKey with
  | None => Done (failure "No GROQ API keys configured") st log
  | Some key =>
      if String.eqb key EmptyString
      then Done (failure "No GROQ API keys configured") st log
      else
        let req := chat_request key opts in
        let sent := (log ++ [req])%list in
        let st := others sent AwaitFetch st in
        match net log req with
        | Rejected e => Done (failure (exn_message e)) st sent
        | Responded response =>
            if (status response =? 429) && negb (allKeysExhausted st) then
              let '(switched, st) := switchToNextKey env st in
              if switched then Retry st sent
              else Done (failure "All API keys exhausted due to rate limiting. Please try again later.")
                        st sent
            else if negb (ok response) then
              let st := others sent AwaitText st in
              match text (body response) with
              | inl e => Done (failure (exn_message e)) st sent
              | inr _ =>
                  Done (failure ("Groq API error: " ++ pretty (status response))) st sent
              end
            else
              let st := others sent AwaitJson st in
              match body response with
              | NotJson e _ => Done (failure (exn_message e)) st sent
              | Json data =>
                  match get data "choices" with
                  | inl e => Done (failure (exn_message e)) st sent
                  | inr choices =>
                      let c := get_opt (get_opt (index0_opt choices) "message") "content" in
                      if negb (truthy c)
                      then Done (failure "No content in Groq response") st sent
                      else Done (succeeded c) st sent
                  end
              end
        end
  end.

(** [attemptRequest].  Among other calls the closure need not return: a
    call that is answered 429 every time while the others keep rewinding
    the cursor tries again for ever.  [fuel] bounds the number of passes,
    and [None] is a run that has not returned within the bound. *)
Fixpoint attemptRequest (fuel : nat) (env : ProcessEnv) (net : Network) (others : Others)
    (opts : GroqRequestOptions) (st : State) (log : list Request)
    : option (GroqResponse * State * list Request) :=
  match fuel with
  | O => None
  | S fuel =>
      match attemptOnce env net others opts st log with
      | Done r st' log' => Some (r, st', log')
      | Retry st' log' => attemptRequest fuel env net others opts st' log'
      end
  end.

(** [sendToGroq]: the flag is reset and the first request is sent before
    the call is suspended for the first time. *)
Definition sendToGroq (fuel : nat) (env : ProcessEnv) (net : Network) (others : Others)
    (opts : GroqRequestOptions) (st : State) (log : list Request)
    : option (GroqResponse * State * list Request) :=
  let st := mkState (currentApiKeyIndex st) false in
  attemptRequest fuel env net others opts st log.

End Interleaved.

(* ===================================================================== *)
(** ** What both GitHub routes share *)
(* ===================================================================== *)

Module GitHub.
Import JS Net.

(** The two fields of a parsed [URL] object the routes read. *)
Record URL : Type := mkURL {
  hostname : string;
  pathname : string
}.

Section WithURLParser.

(** [new URL(s)]: the platform's URL parser, [None] when it throws. *)
Variable URL_parse : string -> option URL.

(** [.filter(Boolean)] on an array of strings. *)
Definition filter_Boolean (l : list string) : list string :=
  List.filter (fun s => negb (String.eqb s EmptyString)) l.

Definition parseGitHubUrl (url : string) : option (string * string) :=
  match URL_parse url with
  | None => None
  | Some parsedUrl =>
      if negb (includes "github.com" (hostname parsedUrl)) then None
      else
        let parts := filter_Boolean (split "/" (pathname parsedUrl)) in
        if Nat.ltb (List.length parts) 2 then None
        else match parts with
             | owner :: repo :: _ => Some (owner, repo)
             | _ => None
             end
  end.

End WithURLParser.

(** [getGitHubHeaders], reading [process.env.GITHUB_TOKEN]. *)
Definition getGitHubHeaders (GITHUB_TOKEN : option string) : list (string * string) :=
  let headers := [("Accept", "application/vnd.github.v3+json"); ("User-Agent", "codoc-webapp")] in
  match GITHUB_TOKEN with
  | Some token =>
      if negb (String.eqb token EmptyString) && negb (String.eqb token "your_github_token_here")
      then headers ++ [("Authorization", "Bearer " ++ token)]
      else headers
  | None => headers
  end.

(** [fetch(url, { headers })]. *)
Definition get_request (GITHUB_TOKEN : option string) (url : string) : Request :=
  mkRequest "GET" url (getGitHubHeaders GITHUB_TOKEN) NoBody.

(** [error instanceof Error ? error.message : "Unknown error"]. *)
Definition exn_message (e : Exn) : string :=
  match e with
  | ErrorMsg m => m
  | NonError => "Unknown error"
  end.

(** A small parser for plain [http(s)://host/path] strings.  It agrees with
    the platform parser on such inputs and serves to run the routes on
    concrete URLs. *)
Definition strip_prefix (p s : string) : option string :=
  if String.prefix p s
  then Some (String.substring (String.length p) (String.length s - String.length p) s)
  else None.

Fixpoint until_slash (s : string) : string * string :=
  match s with
  | EmptyString => (EmptyString, "/")
  | String a rest =>
      if Ascii.eqb a "/"%char then (EmptyString, s)
      else let '(h, p) := until_slash rest in (String a h, p)
  end.

Definition plain_url_parse (s : string) : option URL :=
  let after_scheme :=
    match strip_prefix "https://" s with
    | Some r => Some r
    | None => strip_prefix "http://" s
    end in
  match after_scheme with
  | None => None
  | Some r =>
      let '(h, p) := until_slash r in
      if String.eqb h EmptyString then None else Some (mkURL h p)
  end.

End GitHub.

(* ===================================================================== *)
(** ** github/tree/route.ts *)
(* ===================================================================== *)

Module Tree.
Import JS Net GitHub.

Record GitHubTreeItem : Type := mkItem {
  item_path : string;
  item_mode : string;
  item_type : string;
  item_sha : string;
  item_size : option Z
}.

Inductive NodeType : Type := file | folder.

Inductive FileNode : Type :=
  mkFileNode (id name : string) (type : NodeType) (path : string)
             (children : option (list FileNode)).

Definition node_path (n : FileNode) : string :=
  match n with mkFileNode _ _ _ p _ => p end.
Definition node_name (n : FileNode) : string :=
  match n with mkFileNode _ nm _ _ _ => nm end.
Definition node_type (n : FileNode) : NodeType :=
  match n with mkFileNode _ _ t _ _ => t end.
Definition node_children (n : FileNode) : option (list FileNode) :=
  match n with mkFileNode _ _ _ _ c => c end.

(** Every path that occurs in a node or below it. *)
Fixpoint paths_of (n : FileNode) : list string :=
  match n with
  | mkFileNode _ _ _ p c =>
      p :: match c with
           | None => []
           | Some cs => List.concat (map paths_of cs)
           end
  end.

Definition paths_in (nodes : list FileNode) : list string :=
  List.concat (map paths_of nodes).

(** A node object on the heap: [children] holds references, so that a
    folder pushed to [root] and the same folder found through [nodeMap]
    are one object. *)
Record NodeObj : Type := mkObj {
  o_id : string;
  o_name : string;
  o_type : NodeType;
  o_path : string;
  o_children : option (list nat)
}.

Record BuildState : Type := mkBuild {
  heap : list NodeObj;
  root : list nat;
  nodeMap : gmap string nat
}.

Definition depth (p : string) : Z := Z.of_nat (List.length (split "/" p)).

Definition is_tree (item : GitHubTreeItem) : bool := String.eqb (item_type item) "tree".

Definition parentPath (p : string) : string := join "/" (slice_init (split "/" p)).

(** Folders before files. *)
Definition kind_rank (x : GitHubTreeItem) : Z := if is_tree x then 0 else 1.

(** The order on entries that the comparator refines, whatever the
    collation: shallower first, and folders first at equal depth. *)
Definition precedes (x y : GitHubTreeItem) : Prop :=
  depth (item_path x) < depth (item_path y)
  \/ (depth (item_path x) = depth (item_path y) /\ kind_rank x <= kind_rank y).

(** The object at address [a] is referenced from [root] or from the
    [children] array of some object. *)
Definition attached (st : BuildState) (a : nat) : Prop :=
  a ∈ root st
  \/ exists p o cs, heap st !! p = Some o /\ o_children o = Some cs /\ a ∈ cs.

(** The path is top-level, or its parent path is the path of a tree entry. *)
Definition placeable (items : list GitHubTreeItem) (q : string) : Prop :=
  parentPath q = EmptyString
  \/ exists t, t ∈ items /\ is_tree t = true /\ item_path t = parentPath q.

(** What holds of the loop state relative to the whole entry list: an
    object with a [children] array comes from a tree entry; [nodeMap] maps
    a path to an object of that path; every referenced object has a
    placeable path; references point forward in the heap. *)
Record well_formed (items : list GitHubTreeItem) (st : BuildState) : Prop := mkWellFormed {
  wf_folder : forall a o,
    heap st !! a = Some o -> o_children o <> None ->
    exists t, t ∈ items /\ is_tree t = true /\ item_path t = o_path o;
  wf_map : forall k a,
    nodeMap st !! k = Some a -> exists o, heap st !! a = Some o /\ o_path o = k;
  wf_attached : forall a,
    attached st a -> exists o, heap st !! a = Some o /\ placeable items (o_path o);
  wf_root : forall a, a ∈ root st -> (a < List.length (heap st))%nat;
  wf_children : forall p o cs c,
    heap st !! p = Some o -> o_children o = Some cs -> c ∈ cs ->
    (p < c < List.length (heap st))%nat
}.

Section WithCollation.

(** [String.prototype.localeCompare]: the platform's collation order. *)
Variable localeCompare : string -> string -> Z.

(** The comparator handed to [sort]. *)
Definition compare_items (a b : GitHubTreeItem) : Z :=
  let aDepth := depth (item_path a) in
  let bDepth := depth (item_path b) in
  if negb (aDepth =? bDepth) then aDepth - bDepth
  else if is_tree a && negb (is_tree b) then -1
  else if negb (is_tree a) && is_tree b then 1
  else localeCompare (item_path a) (item_path b).

(** [Array.prototype.sort] is a stable sort; for a consistent comparator
    its result is the one a stable insertion sort produces. *)
Fixpoint insert_item (x : GitHubTreeItem) (l : list GitHubTreeItem) : list GitHubTreeItem :=
  match l with
  | [] => [x]
  | y :: t => if compare_items x y <=? 0 then x :: y :: t else y :: insert_item x t
  end.

Definition sortedItems (items : list GitHubTreeItem) : list GitHubTreeItem :=
  foldr insert_item [] items.

(** [parent.children.push(node)] on the object at address [p]. *)
Definition push_child (h : list NodeObj) (p child : nat) : list NodeObj :=
  match h !! p with
  | Some parent =>
      match o_children parent with
      | Some cs =>
          <[p := mkObj (o_id parent) (o_name parent) (o_type parent) (o_path parent)
                       (Some (cs ++ [child])%list)]> h
      | None => h
      end
  | None => h
  end.

(** One iteration of the [for] loop. *)
Definition add_item (st : BuildState) (item : GitHubTreeItem) : BuildState :=
  let pathParts := split "/" (item_path item) in
  let name := default EmptyString (pop pathParts) in
  let parent_path := join "/" (slice_init pathParts) in
  let addr := List.length (heap st) in
  let node :=
    mkObj (item_sha item) name (if is_tree item then folder else file) (item_path item)
          (if is_tree item then Some [] else None) in
  let heap1 := (heap st ++ [node])%list in
  let nodeMap1 := <[item_path item := addr]> (nodeMap st) in
  if String.eqb parent_path EmptyString then mkBuild heap1 (root st ++ [addr])%list nodeMap1
  else
    match nodeMap1 !! parent_path with
    | Some p => mkBuild (push_child heap1 p addr) (root st) nodeMap1
    | None => mkBuild heap1 (root st) nodeMap1
    end.

Definition build (items : list GitHubTreeItem) : BuildState :=
  fold_left add_item (sortedItems items) (mkBuild [] [] ∅).

(** Reading the object graph back as a tree, to the given depth. *)
Fixpoint read_node (fuel : nat) (h : list NodeObj) (a : nat) : option FileNode :=
  match fuel with
  | O => None
  | S fuel' =>
      match h !! a with
      | None => None
      | Some o =>
          match o_children o with
          | None => Some (mkFileNode (o_id o) (o_name o) (o_type o) (o_path o) None)
          | Some cs =>
              match mapM (read_node fuel' h) cs with
              | Some nodes =>
                  Some (mkFileNode (o_id o) (o_name o) (o_type o) (o_path o) (Some nodes))
              | None => None
              end
          end
      end
  end.

Definition read_nodes (h : list NodeObj) (addrs : list nat) : option (list FileNode) :=
  mapM (read_node (List.length h) h) addrs.

(** [buildFileTree]: the value of [root] when the loop is over.  The heap
    never holds a cycle, so the read-back succeeds ([buildFileTree_reads]). *)
Definition buildFileTree (items : list GitHubTreeItem) : list FileNode :=
  default [] (read_nodes (heap (build items)) (root (build items))).

(** A JSON array read at the declared [GitHubTreeItem] interface. *)
Definition as_string (v : JValue) : option string :=
  match v with
  | JStr s => Some s
  | _ => None
  end.

Definition decode_item (v : JValue) : option GitHubTreeItem :=
  match v with
  | JObj f =>
      match as_string (assoc "path" f), as_string (assoc "type" f), as_string (assoc "sha" f) with
      | Some p, Some t, Some s =>
          Some (mkItem p (default EmptyString (as_string (assoc "mode" f))) t s
                       (match assoc "size" f with JNum n => Some n | _ => None end))
      | _, _, _ => None
      end
  | _ => None
  end.

Definition decode_items (v : JValue) : option (list GitHubTreeItem) :=
  match v with
  | JArr l => mapM decode_item l
  | _ => None
  end.

(** What the route answers.  [OutsideInterface] stands for a run in which
    the upstream tree listing does not have the shape of the declared
    [GitHubTreeResponse]; the embedding says nothing about such runs. *)
Inductive Reply : Type :=
| ErrorReply (status : Z) (error : string)
| TreeReply (owner repo : string) (branch : JValue) (tree : list FileNode) (truncated : JValue)
| OutsideInterface.

Variable URL_parse : string -> option URL.
Variable GITHUB_TOKEN : option string.

(** The [catch] block. *)
Definition caught (e : Exn) (log : list Request) : Reply * list Request :=
  (ErrorReply 500 (exn_message e), log).

(** The part of [POST] after the repository metadata has arrived. *)
Definition after_repo (net : Network) (owner repo : string) (repoData : JValue)
    (log : list Request) : Reply * list Request :=
  match get repoData "default_branch" with
  | inl e => caught e log
  | inr defaultBranch =>
      let req2 := get_request GITHUB_TOKEN
        ("https://api.github.com/repos/" ++ owner ++ "/" ++ repo ++ "/branches/"
           ++ toString defaultBranch) in
      match net log req2 with
      | Rejected e => caught e (log ++ [req2])
      | Responded branchResponse =>
          let log := (log ++ [req2])%list in
          if negb (ok branchResponse) then
            caught (ErrorMsg ("Failed to get branch info: " ++ pretty (status branchResponse))) log
          else
            match body branchResponse with
            | NotJson e _ => caught e log
            | Json branchData =>
                match get branchData "commit" with
                | inl e => caught e log
                | inr c1 =>
                match get c1 "commit" with
                | inl e => caught e log
                | inr c2 =>
                match get c2 "tree" with
                | inl e => caught e log
                | inr t =>
                match get t "sha" with
                | inl e => caught e log
                | inr treeSha =>
                    let req3 := get_request GITHUB_TOKEN
                      ("https://api.github.com/repos/" ++ owner ++ "/" ++ repo ++ "/git/trees/"
                         ++ toString treeSha ++ "?recursive=1") in
                    match net log req3 with
                    | Rejected e => caught e (log ++ [req3])
                    | Responded treeResponse =>
                        let log := (log ++ [req3])%list in
                        if negb (ok treeResponse) then
                          caught (ErrorMsg ("Failed to get tree: " ++ pretty (status treeResponse))) log
                        else
                          match body treeResponse with
                          | NotJson e _ => caught e log
                          | Json treeData =>
                              match get treeData "tree" with
                              | inl e => caught e log
                              | inr items =>
                                  match decode_items items with
                                  | None => (OutsideInterface, log)
                                  | Some items =>
                                      (TreeReply owner repo defaultBranch (buildFileTree items)
                                                 (get_opt treeData "truncated"), log)
                                  end
                              end
                          end
                    end
                end end end end
            end
      end
  end.

(** [POST]: [request] is the body of the incoming request as
    [request.json()] sees it. *)
Definition POST (net : Network) (request : Parsed) (log : list Request)
    : Reply * list Request :=
  match request with
  | NotJson e _ => caught e log
  | Json body =>
      match destructure "body" body "url" with
      | inl e => caught e log
      | inr url =>
          if negb (truthy url) then (ErrorReply 400 "GitHub URL is required", log)
          else
            match parseGitHubUrl URL_parse (toString url) with
            | None => (ErrorReply 400 "Invalid GitHub URL", log)
            | Some (owner, repo) =>
                let req1 := get_request GITHUB_TOKEN
                  ("https://api.github.com/repos/" ++ owner ++ "/" ++ repo) in
                match net log req1 with
                | Rejected e => caught e (log ++ [req1])
                | Responded repoResponse =>
                    let log := (log ++ [req1])%list in
                    if negb (ok repoResponse) then
                      if status repoResponse =? 404
                      then (ErrorReply 404 "Repository not found", log)
                      else caught (ErrorMsg ("GitHub API error: " ++ pretty (status repoResponse))) log
                    else
                      match Net.body repoResponse with
                      | NotJson e _ => caught e log
                      | Json repoData => after_repo net owner repo repoData log
                      end
                end
            end
      end
  end.

End WithCollation.

End Tree.

(* ===================================================================== *)
(** ** Node's Buffer: base64 and UTF-8 *)
(* ===================================================================== *)

(** [Buffer.from(s, "base64")], [buf.toString("utf-8")] and their inverses
    are platform code.  They are written here after the Node.js
    documentation (both base64 alphabets are accepted, characters outside
    them are skipped, decoding stops at the first padding character) and the
    WHATWG UTF-8 decoder (ill-formed input is replaced by U+FFFD, one
    replacement per maximal ill-formed prefix). *)
Module Encoding.

Definition Z_of_byte (b : byte) : Z := Z.of_N (Byte.to_N b).
Definition byte_of_Z (z : Z) : byte := default x00 (Byte.of_N (Z.to_N z)).
Definition Z_of_ascii (a : ascii) : Z := Z.of_N (N_of_ascii a).
Definition ascii_of_Z (z : Z) : ascii := ascii_of_N (Z.to_N z).

(** *** base64 *)

Definition unbase64 (c : ascii) : option Z :=
  let n := Z_of_ascii c in
  if (65 <=? n) && (n <=? 90) then Some (n - 65)
  else if (97 <=? n) && (n <=? 122) then Some (n - 71)
  else if (48 <=? n) && (n <=? 57) then Some (n + 4)
  else if (n =? 43) || (n =? 45) then Some 62
  else if (n =? 47) || (n =? 95) then Some 63
  else None.

Definition base64_char (v : Z) : ascii :=
  if v <? 26 then ascii_of_Z (v + 65)
  else if v <? 52 then ascii_of_Z (v + 71)
  else if v <? 62 then ascii_of_Z (v - 4)
  else if v =? 62 then "+"%char
  else "/"%char.

(** The six-bit values of the legal characters before the first [=]. *)
Fixpoint sextets (s : string) : list Z :=
  match s with
  | EmptyString => []
  | String c rest =>
      if Ascii.eqb c "="%char then []
      else match unbase64 c with
           | Some v => v :: sextets rest
           | None => sextets rest
           end
  end.

Fixpoint regroup (l : list Z) : list Z :=
  match l with
  | a :: b :: c :: d :: rest =>
      (a * 4 + b / 16) :: ((b mod 16) * 16 + c / 4) :: ((c mod 4) * 64 + d) :: regroup rest
  | [a; b; c] => [a * 4 + b / 16; (b mod 16) * 16 + c / 4]
  | [a; b] => [a * 4 + b / 16]
  | _ => []
  end.

Fixpoint base64_of (bs : list Z) : string :=
  match bs with
  | a :: b :: c :: rest =>
      String (base64_char (a / 4))
        (String (base64_char ((a mod 4) * 16 + b / 16))
           (String (base64_char ((b mod 16) * 4 + c / 64))
              (String (base64_char (c mod 64)) (base64_of rest))))
  | [a; b] =>
      String (base64_char (a / 4))
        (String (base64_char ((a mod 4) * 16 + b / 16))
           (String (base64_char ((b mod 16) * 4)) "="))
  | [a] =>
      String (base64_char (a / 4)) (String (base64_char ((a mod 4) * 16)) "==")
  | [] => EmptyString
  end.

(** A digit decodes to its own value and is not the padding character. *)
Definition digit_ok (v : Z) : bool :=
  match unbase64 (base64_char v) with
  | Some w => (w =? v) && negb (Ascii.eqb (base64_char v) "="%char)
  | None => false
  end.

(** [Buffer.from(s, "base64")]. *)
Definition Buffer_from_base64 (s : string) : list byte :=
  map byte_of_Z (regroup (sextets s)).

(** [buf.toString("base64")]. *)
Definition Buffer_toString_base64 (buf : list byte) : string :=
  base64_of (map Z_of_byte buf).

(** *** UTF-8 *)

(** The decoder between two characters, or inside one: the code point so
    far, the continuation bytes still needed, and the range the next byte
    must lie in. *)
Inductive DecoderState : Type :=
| Idle
| Pending (code_point : Z) (needed : nat) (lower upper : Z).

(** The range of the byte that follows a lead byte: narrowed after E0
    and F0 (no overlong forms), after ED (no surrogates) and after F4
    (nothing above U+10FFFF). *)
Definition second_lower (b0 : Z) : Z :=
  if b0 =? 0xE0 then 0xA0 else if b0 =? 0xF0 then 0x90 else 0x80.
Definition second_upper (b0 : Z) : Z :=
  if b0 =? 0xED then 0x9F else if b0 =? 0xF4 then 0x8F else 0xBF.

(** A byte met while no character is open. *)
Definition lead (b : Z) : list Z * DecoderState :=
  if b <=? 0x7F then ([b], Idle)
  else if (0xC2 <=? b) && (b <=? 0xDF) then ([], Pending (b mod 32) 0 0x80 0xBF)
  else if (0xE0 <=? b) && (b <=? 0xEF) then
    ([], Pending (b mod 16) 1 (second_lower b) (second_upper b))
  else if (0xF0 <=? b) && (b <=? 0xF4) then
    ([], Pending (b mod 8) 2 (second_lower b) (second_upper b))
  else ([0xFFFD], Idle).

(** The code points of a byte sequence; [needed] counts the continuation
    bytes after the next one. *)
Fixpoint utf8_decode_from (st : DecoderState) (bs : list Z) : list Z :=
  match bs with
  | [] => match st with
          | Idle => []
          | Pending _ _ _ _ => [0xFFFD]
          end
  | b :: rest =>
      match st with
      | Idle => let '(out, st') := lead b in (out ++ utf8_decode_from st' rest)%list
      | Pending cp needed lower upper =>
          if (lower <=? b) && (b <=? upper) then
            let cp' := cp * 64 + b mod 64 in
            match needed with
            | O => cp' :: utf8_decode_from Idle rest
            | S n => utf8_decode_from (Pending cp' n 0x80 0xBF) rest
            end
          else
            let '(out, st') := lead b in
            (0xFFFD :: out ++ utf8_decode_from st' rest)%list
      end
  end.

Definition utf8_decode (bs : list Z) : list Z := utf8_decode_from Idle bs.

Definition utf8_encode_one (cp : Z) : list Z :=
  if cp <=? 0x7F then [cp]
  else if cp <=? 0x7FF then [0xC0 + cp / 64; 0x80 + cp mod 64]
  else if cp <=? 0xFFFF then [0xE0 + cp / 4096; 0x80 + (cp / 64) mod 64; 0x80 + cp mod 64]
  else [0xF0 + cp / 262144; 0x80 + (cp / 4096) mod 64; 0x80 + (cp / 64) mod 64; 0x80 + cp mod 64].

Definition utf8_encode (cps : list Z) : list Z := flat_map utf8_encode_one cps.

(** [buf.toString("utf-8")]: the decoded string, held as its UTF-8 bytes. *)
Definition Buffer_toString_utf8 (buf : list byte) : string :=
  string_of_list_byte (map byte_of_Z (utf8_encode (utf8_decode (map Z_of_byte buf)))).

(** [Buffer.from(s, "utf-8")]. *)
Definition Buffer_from_utf8 (s : string) : list byte := list_byte_of_string s.

(** Well-formed UTF-8 byte sequences, after table 3-7 of the Unicode
    standard. *)
Definition between (lo hi b : Z) : bool := (lo <=? b) && (b <=? hi).

Fixpoint well_formed_utf8 (bs : list Z) : bool :=
  match bs with
  | [] => true
  | b0 :: r0 =>
      if between 0 0x7F b0 then well_formed_utf8 r0
      else match r0 with
      | [] => false
      | b1 :: r1 =>
          if between 0xC2 0xDF b0 then between 0x80 0xBF b1 && well_formed_utf8 r1
          else match r1 with
          | [] => false
          | b2 :: r2 =>
              if between 0xE0 0xEF b0 then
                between (second_lower b0) (second_upper b0) b1
                && between 0x80 0xBF b2 && well_formed_utf8 r2
              else match r2 with
              | [] => false
              | b3 :: r3 =>
                  between 0xF0 0xF4 b0
                  && between (second_lower b0) (second_upper b0) b1
                  && between 0x80 0xBF b2 && between 0x80 0xBF b3
                  && well_formed_utf8 r3
              end
          end
      end
  end.

End Encoding.

(* ===================================================================== *)
(** ** github/content/route.ts *)
(* ===================================================================== *)

Module Content.
Import JS Net GitHub Encoding.

Definition imageExtensions : list string :=
  ["png"; "jpg"; "jpeg"; "gif"; "svg"; "webp"; "ico"; "bmp"].
Definition videoExtensions : list string := ["mp4"; "webm"; "mov"; "avi"; "mkv"].
Definition pdfExtensions : list string := ["pdf"].

Definition isImage (extension : string) : bool := arr_includes extension imageExtensions.
Definition isVideo (extension : string) : bool := arr_includes extension videoExtensions.
Definition isPdf (extension : string) : bool := arr_includes extension pdfExtensions.

(** The body of a successful answer. *)
Record FileContent : Type := mkFileContent {
  name : JValue;
  path : JValue;
  size : JValue;
  extension : string;
  sha : JValue;
  content : option string;
  isMedia : bool;
  mediaType : option string;
  rawUrl : option string
}.

(** [OutsideInterface]: the upstream [content] field is an array or an
    object, which GitHub never sends; the embedding says nothing about
    such runs. *)
Inductive Reply : Type :=
| ErrorReply (status : Z) (error : string)
| FileReply (f : FileContent)
| OutsideInterface.

Inductive Decoded : Type :=
| Text (s : string)
| Throws
| NotModelled.

(** The [try] block: [Buffer.from(data.content, "base64").toString("utf-8")].
    [Buffer.from] throws a TypeError on undefined, null, booleans and
    numbers. *)
Definition decode_text (data_content : JValue) : Decoded :=
  match data_content with
  | JStr payload => Text (Buffer_toString_utf8 (Buffer_from_base64 payload))
  | JUndefined | JNull | JBool _ | JNum _ => Throws
  | JArr _ | JObj _ => NotModelled
  end.

Section WithPlatform.

(** [String.prototype.toLowerCase]. *)
Variable toLowerCase : string -> string.
Variable URL_parse : string -> option URL.
Variable GITHUB_TOKEN : option string.

(** [path.split(".").pop()?.toLowerCase()], or the empty string when that is falsy. *)
Definition extension_of (path : string) : string :=
  match pop (split "."%char path) with
  | Some last_part => toLowerCase last_part
  | None => EmptyString
  end.

Definition caught (e : Exn) (log : list Request) : Reply * list Request :=
  (ErrorReply 500 (exn_message e), log).

(** [data.type !== "file"]. *)
Definition is_file (v : JValue) : bool :=
  match v with
  | JStr s => String.eqb s "file"
  | _ => false
  end.

(** The part of [POST] after the upstream answer has been parsed. *)
Definition respond (owner repo : string) (path ref data : JValue) (log : list Request)
    : Reply * list Request :=
  match get data "type" with
  | inl e => caught e log
  | inr type =>
      if negb (is_file type) then (ErrorReply 400 "Path is not a file", log)
      else
        match path with
        | JStr p =>
            let extension := extension_of p in
            if isImage extension || isVideo extension || isPdf extension then
              let rawUrl := "https://raw.githubusercontent.com/" ++ owner ++ "/" ++ repo ++ "/"
                              ++ toString ref ++ "/" ++ p in
              (FileReply (mkFileContent (get_opt data "name") (get_opt data "path")
                            (get_opt data "size") extension (get_opt data "sha") None true
                            (Some (if isImage extension then "image"
                                   else if isVideo extension then "video" else "pdf"))
                            (Some rawUrl)), log)
            else
              match decode_text (get_opt data "content") with
              | Throws => (ErrorReply 500 "Unable to decode file content", log)
              | NotModelled => (OutsideInterface, log)
              | Text content =>
                  (FileReply (mkFileContent (get_opt data "name") (get_opt data "path")
                                (get_opt data "size") extension (get_opt data "sha")
                                (Some content) false None None), log)
              end
        | _ => caught (ErrorMsg "path.split is not a function") log
        end
  end.

(** [POST]: [request] is the body of the incoming request as
    [request.json()] sees it. *)
Definition POST (net : Network) (request : Parsed) (log : list Request)
    : Reply * list Request :=
  match request with
  | NotJson e _ => caught e log
  | Json body =>
      match destructure "body" body "url" with
      | inl e => caught e log
      | inr url =>
          let path := get_opt body "path" in
          let branch := get_opt body "branch" in
          if negb (truthy url) || negb (truthy path) then
            (ErrorReply 400 "GitHub URL and file path are required", log)
          else
            match parseGitHubUrl URL_parse (toString url) with
            | None => (ErrorReply 400 "Invalid GitHub URL", log)
            | Some (owner, repo) =>
                let ref := or_else branch (JStr "main") in
                let req := get_request GITHUB_TOKEN
                  ("https://api.github.com/repos/" ++ owner ++ "/" ++ repo ++ "/contents/"
                     ++ toString path ++ "?ref=" ++ toString ref) in
                match net log req with
                | Rejected e => caught e (log ++ [req])
                | Responded response =>
                    let log := (log ++ [req])%list in
                    if negb (ok response) then
                      if status response =? 404
                      then (ErrorReply 404 "File not found", log)
                      else caught (ErrorMsg ("GitHub API error: " ++ pretty (status response))) log
                    else
                      match Net.body response with
                      | NotJson e _ => caught e log
                      | Json data => respond owner repo path ref data log
                      end
                end
            end
      end
  end.

End WithPlatform.

End Content.

(* ===================================================================== *)
(** ** groq/generate-content/route.ts *)
(* ===================================================================== *)

Module GenContent.
Import JS Net Groq.

Inductive Reply : Type :=
| ErrorReply (status : Z) (error : option string)
| ContentReply (content : option JValue) (chapterId : JValue).

Definition reply_status (r : Reply) : Z :=
  match r with
  | ErrorReply s _ => s
  | ContentReply _ _ => 200
  end.

Definition no_files : string := "No specific files provided.".

Definition indent : string := "        ".

Definition prompt_of (chapter repoName : JValue) (context : string) : string :=
  "Generate detailed documentation content for the chapter " ++ dquote
    ++ toString (get_opt chapter "title") ++ dquote ++ " of the " ++ dquote
    ++ toString repoName ++ dquote ++ " project." ++ nl
  ++ nl
  ++ indent ++ "Chapter description: "
    ++ toString (or_else (get_opt chapter "description") (JStr "No description provided")) ++ nl
  ++ nl
  ++ indent ++ "Relevant source code files:" ++ nl
  ++ nl
  ++ indent ++ context ++ nl
  ++ nl
  ++ indent ++ "Write comprehensive documentation in Markdown format that:" ++ nl
  ++ indent ++ "1. Explains concepts clearly for developers" ++ nl
  ++ indent ++ "2. Includes code examples where relevant" ++ nl
  ++ indent ++ "3. Provides step-by-step instructions when applicable" ++ nl
  ++ indent ++ "4. Uses proper markdown formatting (headers, code blocks, lists)" ++ nl
  ++ indent ++ "5. Is practical and actionable" ++ nl
  ++ nl
  ++ indent ++ "Write the documentation content directly, starting with a brief introduction to this section." ++ nl
  ++ indent ++ "Do NOT include the chapter title as a header (it will be added separately)." ++ nl
  ++ indent ++ "Write in English.".

Definition system_message : GroqMessage :=
  mkMessage "system"
    "You are a technical documentation writer. Write clear, helpful documentation in Markdown format.".

Definition options_for (prompt : string) : GroqRequestOptions :=
  mkOptions [system_message; mkMessage "user" prompt] (Some (5 # 10)%Q) (Some 4000).

Section WithPlatform.

(** [s.slice(start, end)] on a string: its UTF-16 code units from [start]
    up to [end]. *)
Variable slice : nat -> nat -> string -> string.

(** [f.content.slice(0, 3000)] inside the template literal. *)
Definition sliced_content (c : JValue) : Exn + string :=
  match c with
  | JStr s => inr (slice 0 3000 s)
  | JArr l => inr (toString (JArr (firstn 3000 l)))
  | JUndefined => inl (ErrorMsg "Cannot read properties of undefined (reading 'slice')")
  | JNull => inl (ErrorMsg "Cannot read properties of null (reading 'slice')")
  | _ => inl (ErrorMsg "f.content.slice is not a function")
  end.

(** The arrow function handed to [map]. *)
Definition file_entry (f : JValue) : Exn + string :=
  match get f "path" with
  | inl e => inl e
  | inr p =>
      match get f "content" with
      | inl e => inl e
      | inr c =>
          match sliced_content c with
          | inl e => inl e
          | inr text => inr ("### " ++ toString p ++ nl ++ "```" ++ nl ++ text ++ nl ++ "```")
          end
      end
  end.

Fixpoint file_entries (l : list JValue) : Exn + list string :=
  match l with
  | [] => inr []
  | f :: rest =>
      match file_entry f with
      | inl e => inl e
      | inr s =>
          match file_entries rest with
          | inl e => inl e
          | inr ss => inr (s :: ss)
          end
      end
  end.

(** [files?.map(...).join("\n\n") || "No specific files provided."]. *)
Definition fileContext (files : JValue) : Exn + string :=
  match files with
  | JUndefined | JNull => inr no_files
  | JArr l =>
      match file_entries l with
      | inl e => inl e
      | inr entries =>
          let joined := join (nl ++ nl) entries in
          inr (if String.eqb joined EmptyString then no_files else joined)
      end
  | _ => inl (ErrorMsg "files?.map is not a function")
  end.

(** The call to [sendToGroq] and what the route makes of its result. *)
Definition generate (env : ProcessEnv) (net : Network) (chapter repoName : JValue)
    (context : string) (st : State) (log : list Request) : Reply * State * list Request :=
  let '(result, st, log) :=
    sendToGroq env net (options_for (prompt_of chapter repoName context)) st log in
  if negb (success result) then (ErrorReply 500 (error result), st, log)
  else (ContentReply (content result) (get_opt chapter "id"), st, log).

Definition caught (e : Exn) (st : State) (log : list Request) : Reply * State * list Request :=
  (ErrorReply 500 (Some (exn_message e)), st, log).

Definition POST (env : ProcessEnv) (net : Network) (request : Parsed)
    (st : State) (log : list Request) : Reply * State * list Request :=
  match request with
  | NotJson e _ => caught e st log
  | Json body =>
      match destructure "body" body "repoName" with
      | inl e => caught e st log
      | inr repoName =>
          let chapter := get_opt body "chapter" in
          let files := get_opt body "files" in
          if negb (truthy repoName) || negb (truthy chapter) then
            (ErrorReply 400 (Some "Repository name and chapter are required"), st, log)
          else
            match fileContext files with
            | inl e => caught e st log
            | inr context => generate env net chapter repoName context st log
            end
      end
  end.

End WithPlatform.

End GenContent.

(* ===================================================================== *)
(** ** components/DocumentationLayout.tsx: the chapter cache *)
(* ===================================================================== *)

Module Layout.
Import JS Net.
Import Tree.

Record RepoInfo : Type := mkRepoInfo {
  url : string;
  owner : string;
  repo : string;
  branch : string;
  tree : list FileNode
}.

(** [Chapter]; the functions modelled here read [id], [title] and
    [description] only, so [children] is left out. *)
Record Chapter : Type := mkChapter {
  id : string;
  title : string;
  description : option string
}.

Inductive ContentType : Type := welcome | file_view | chapter_view.

(** [ContentState]; the two file fields stay undefined in every state the
    chapter functions set and are left out. *)
Record ContentState : Type := mkContent {
  type : ContentType;
  chapterId : option string;
  chapterContent : option JValue;
  isLoading : option bool;
  error : option string
}.

(** [DocGenerationState]; [generatedContent] holds the own properties of
    the object, with whatever the endpoint sent as [content]. *)
Record DocGenerationState : Type := mkDocState {
  isGenerating : bool;
  isGeneratingContent : bool;
  currentGeneratingChapter : option string;
  chapters : list Chapter;
  generatedContent : gmap string JValue;
  doc_error : option string
}.

(** The three pieces of component state the chapter functions touch. *)
Record Component : Type := mkComponent {
  activeContent : ContentState;
  leftSidebarOpen : bool;
  docState : DocGenerationState
}.

Definition initial : Component :=
  mkComponent (mkContent welcome None None None None) false
              (mkDocState false false None [] ∅ None).

Definition keyFilePatterns : list string :=
  ["README.md"; "readme.md"; "README";
   "package.json"; "composer.json"; "requirements.txt"; "Cargo.toml"; "go.mod";
   "index.js"; "index.ts"; "main.js"; "main.ts"; "app.js"; "app.ts";
   "src/index.js"; "src/index.ts"; "src/main.js"; "src/main.ts"; "src/App.tsx"; "src/App.jsx";
   ".env.example"; "docker-compose.yml"; "Dockerfile"].

Definition json_headers : list (string * string) := [("Content-Type", "application/json")].

Definition content_request (info : RepoInfo) (n : FileNode) : Request :=
  mkRequest "POST" "/api/github/content" json_headers
    (JsonBody (JObj [("url", JStr (url info)); ("path", JStr (node_path n));
                     ("branch", JStr (branch info))])).

Definition opt_str (o : option string) : JValue :=
  match o with
  | Some s => JStr s
  | None => JUndefined
  end.

Definition generate_request (info : RepoInfo) (chapter : Chapter) (keyFiles : list JValue)
    : Request :=
  mkRequest "POST" "/api/groq/generate-content" json_headers
    (JsonBody (JObj [("repoName", JStr (repo info));
                     ("chapter", JObj [("id", JStr (id chapter)); ("title", JStr (title chapter));
                                       ("description", opt_str (description chapter))]);
                     ("files", JArr keyFiles)])).

(** The requests in a log that went to the generate-content endpoint. *)
Definition llm_requests (log : list Request) : list Request :=
  List.filter (fun r => String.eqb (req_url r) "/api/groq/generate-content") log.

Definition exn_message (e : Exn) : string :=
  match e with
  | ErrorMsg m => m
  | NonError => "Unknown error"
  end.

(** The names of the members of [Object.prototype]. *)
Definition Object_prototype : list string :=
  ["constructor"; "__defineGetter__"; "__defineSetter__"; "hasOwnProperty";
   "__lookupGetter__"; "__lookupSetter__"; "isPrototypeOf"; "propertyIsEnumerable";
   "toString"; "valueOf"; "__proto__"; "toLocaleString"].

(** What a property read on a plain object finds: an own property, else a
    member of [Object.prototype] of that name, else nothing. *)
Inductive Lookup : Type :=
| Own (v : JValue)
| Inherited
| Missing.

(** [docState.generatedContent[chapter.id]]. *)
Definition cached (c : Component) (chapter : Chapter) : Lookup :=
  match generatedContent (docState c) !! id chapter with
  | Some v => Own v
  | None => if arr_includes (id chapter) Object_prototype then Inherited else Missing
  end.

(** How a call leaves the component.
    [Crashed]: an updater handed to [setDocState] throws when React runs
    it; the render fails and the component is taken down.
    [OutsideInterface]: the cache lookup found a member of
    [Object.prototype], which is truthy and is put on display in place of
    a text; the embedding says nothing more about such runs. *)
Inductive Shown (A : Type) : Type :=
| Rendered (a : A)
| Crashed
| OutsideInterface.
Arguments Rendered {A} a.
Arguments Crashed {A}.
Arguments OutsideInterface {A}.

Definition show_error (c : Component) (chapter : Chapter) (e : Exn) : Component :=
  mkComponent (mkContent chapter_view (Some (id chapter)) None None (Some (exn_message e)))
              (leftSidebarOpen c) (docState c).

Section WithPlatform.

(** [String.prototype.toLowerCase]. *)
Variable toLowerCase : string -> string.

Definition is_key_file (n : FileNode) : bool :=
  let fileName := toLowerCase (node_name n) in
  let filePath := toLowerCase (node_path n) in
  existsb (fun p => String.eqb fileName (toLowerCase p) || String.eqb filePath (toLowerCase p))
          keyFilePatterns.

Fixpoint findFiles_node (n : FileNode) : list FileNode :=
  match n with
  | mkFileNode _ _ t _ c =>
      match t with
      | file => if is_key_file n then [n] else []
      | folder =>
          match c with
          | Some cs => flat_map findFiles_node cs
          | None => []
          end
      end
  end.

Definition findFiles (nodes : list FileNode) : list FileNode :=
  flat_map findFiles_node nodes.

(** The loop of [collectKeyFiles]; a file that fails to load is skipped. *)
Fixpoint fetch_key_files (info : RepoInfo) (net : Network) (nodes : list FileNode)
    (files : list JValue) (log : list Request) : list JValue * list Request :=
  match nodes with
  | [] => (files, log)
  | node :: rest =>
      let req := content_request info node in
      let files :=
        match net log req with
        | Rejected _ => files
        | Responded response =>
            match Net.body response with
            | NotJson _ _ => files
            | Json data =>
                match get data "content" with
                | inl _ => files
                | inr c =>
                    if ok response && truthy c
                    then (files ++ [JObj [("path", JStr (node_path node)); ("content", c)]])%list
                    else files
                end
            end
        end in
      fetch_key_files info net rest files (log ++ [req])
  end.

Definition collectKeyFiles (info : RepoInfo) (net : Network) (log : list Request)
    : list JValue * list Request :=
  let keyNodes := firstn 8 (findFiles (tree info)) in
  fetch_key_files info net keyNodes [] log.

(** The part of [generateChapterContent] after the cache has been looked
    at in vain. *)
Definition fetch_chapter (info : RepoInfo) (net : Network) (chapter : Chapter)
    (c : Component) (log : list Request) : Shown Component * list Request :=
  let c := mkComponent (mkContent chapter_view (Some (id chapter)) None (Some true) None)
                       false (docState c) in
  let '(keyFiles, log) := collectKeyFiles info net log in
  let req := generate_request info chapter keyFiles in
  match net log req with
  | Rejected e => (Rendered (show_error c chapter e), (log ++ [req])%list)
  | Responded response =>
      let log := (log ++ [req])%list in
      match Net.body response with
      | NotJson e _ => (Rendered (show_error c chapter e), log)
      | Json data =>
          if negb (ok response) then
            match get data "error" with
            | inl e => (Rendered (show_error c chapter e), log)
            | inr msg =>
                (Rendered (show_error c chapter
                   (ErrorMsg (toString (or_else msg (JStr "Failed to generate content"))))), log)
            end
          else
            (* [data.content] is read twice: by the updater of line 391 when
               React runs it, outside the [try], and at line 402 *)
            match get data "content" with
            | inl _ => (Crashed, log)
            | inr text =>
                let d := docState c in
                (Rendered (mkComponent
                   (mkContent chapter_view (Some (id chapter)) (Some text) None None)
                   (leftSidebarOpen c)
                   (mkDocState (isGenerating d) (isGeneratingContent d)
                               (currentGeneratingChapter d) (chapters d)
                               (<[id chapter := text]> (generatedContent d)) (doc_error d))),
                 log)
            end
      end
  end.

Definition generateChapterContent (info : RepoInfo) (net : Network) (chapter : Chapter)
    (c : Component) (log : list Request) : Shown Component * list Request :=
  match cached c chapter with
  | Own v =>
      if truthy v then
        (Rendered (mkComponent
           (mkContent chapter_view (Some (id chapter)) (Some v) None None)
           (leftSidebarOpen c) (docState c)), log)
      else fetch_chapter info net chapter c log
  | Inherited => (OutsideInterface, log)
  | Missing => fetch_chapter info net chapter c log
  end.

End WithPlatform.

End Layout.

(* ===================================================================== *)
(** ** Concrete configurations and networks used to run the model *)
(* ===================================================================== *)

Module Scenario.
Import JS Net.

(** [slice] on ASCII text, where code units are characters. *)
Definition ascii_slice (first last : nat) (s : string) : string :=
  String.substring first (last - first) s.

(** Two configured credentials. *)
Definition two_keys : Groq.ProcessEnv :=
  Groq.mkEnv (Some "key-0") (Some "key-1") None None.

(** A chat API that rate-limits every request. *)
Definition always429 : Network :=
  fun _ _ => Responded (mkResponse 429 (NotJson NonError true)).

Definition completion (text : string) : JValue :=
  JObj [("choices", JArr [JObj [("message", JObj [("content", JStr text)])]])].

(** A chat API that rate-limits the first credential only. *)
Definition first_key_limited : Network :=
  fun _ req =>
    match Groq.bearer_of req with
    | Some "key-0" => Responded (mkResponse 429 (NotJson NonError true))
    | _ => Responded (mkResponse 200 (Json (completion "ok")))
    end.

(** Other calls in flight.  [overtaken]: while this call waits for an
    answer, another call that was rate-limited moves the cursor one key
    on.  [rewound]: while this call waits for its first and for its
    second answer, another call exhausts the list, which puts the cursor
    back to 0, and a third one starts, which clears the flag. *)
Definition overtaken : Interleaved.Others :=
  fun _ a st =>
    match a with
    | Interleaved.AwaitFetch =>
        Groq.mkState (S (Groq.currentApiKeyIndex st)) (Groq.allKeysExhausted st)
    | _ => st
    end.

Definition rewound : Interleaved.Others :=
  fun log a st =>
    match a with
    | Interleaved.AwaitFetch =>
        if Nat.leb (List.length log) 2 then Groq.mkState 0 false else st
    | _ => st
    end.

(** A chat API that fails, and breaks the connection before the text of
    the failure has arrived. *)
Definition broken_503 : Network :=
  fun _ _ => Responded (mkResponse 503 (NotJson (ErrorMsg "terminated") false)).

(** A chat API that is down. *)
Definition always503 : Network :=
  fun _ _ => Responded (mkResponse 503 (NotJson NonError true)).

Definition no_messages : Groq.GroqRequestOptions := Groq.mkOptions [] None None.

(** No connectivity at all. *)
Definition offline : Network := fun _ _ => Rejected (ErrorMsg "fetch failed").

(** An upstream that knows no repository. *)
Definition always404 : Network :=
  fun _ _ => Responded (mkResponse 404 (Json (JObj [("message", JStr "Not Found")]))).

(** Collation by code units. *)
Definition code_unit_compare (a b : string) : Z :=
  match String.compare a b with
  | Lt => -1
  | Eq => 0
  | Gt => 1
  end.

Definition entry (path type : string) : Tree.GitHubTreeItem :=
  Tree.mkItem path "100644" type ("sha-of-" ++ path) None.

(** The listing of the nesting example. *)
Definition nested_listing : list Tree.GitHubTreeItem :=
  [entry "a/b.txt" "blob"; entry "a" "tree"; entry "c.txt" "blob"].

(** A listing whose first entry has no folder to go to. *)
Definition orphan_listing : list Tree.GitHubTreeItem :=
  [entry "x/y" "blob"; entry "c" "blob"].

Definition tree_request (url : string) : Parsed := Json (JObj [("url", JStr url)]).

(** An upstream that serves one text file, whatever is asked. *)
Definition file_payload (name payload : string) : JValue :=
  JObj [("type", JStr "file"); ("name", JStr name); ("path", JStr name);
        ("size", JNum 13); ("sha", JStr "980a0d5"); ("encoding", JStr "base64");
        ("content", JStr payload)].

Definition serves (name payload : string) : Network :=
  fun _ _ => Responded (mkResponse 200 (Json (file_payload name payload))).

(** A loaded repository without files, and one chapter of its outline. *)
Definition empty_repo : Layout.RepoInfo :=
  Layout.mkRepoInfo "https://github.com/octocat/Hello-World" "octocat" "Hello-World" "master" [].

Definition intro : Layout.Chapter := Layout.mkChapter "intro" "Introduction" None.

(** Bodies of generate-content requests. *)
Definition chapter_json : JValue :=
  JObj [("id", JStr "intro"); ("title", JStr "Introduction")].

Definition gen_request (repoName : JValue) (files : JValue) : Parsed :=
  Json (JObj [("repoName", repoName); ("chapter", chapter_json); ("files", files)]).

Definition content_request (url path : string) : Parsed :=
  Json (JObj [("url", JStr url); ("path", JStr path)]).

End Scenario.

(* ===================================================================== *)
(** ** Vocabulary for the further properties of the tree builder *)
(* ===================================================================== *)

Module TreeFacts.
Import JS Tree.

Definition node_id (n : FileNode) : string :=
  match n with mkFileNode i _ _ _ _ => i end.

(** A node and everything below it. *)
Fixpoint nodes_of (n : FileNode) : list FileNode :=
  n :: match node_children n with
       | None => []
       | Some cs => List.concat (map nodes_of cs)
       end.

Definition nodes_in (nodes : list FileNode) : list FileNode :=
  List.concat (map nodes_of nodes).

(** The entry lies at the top of the repository. *)
Definition top_level (x : GitHubTreeItem) : bool :=
  String.eqb (parentPath (item_path x)) EmptyString.

(** [pathParts[pathParts.length - 1]]. *)
Definition last_segment (p : string) : string :=
  default EmptyString (pop (split "/" p)).

(** The node the loop makes for an entry, children apart. *)
Definition node_of_entry (item : GitHubTreeItem) (n : FileNode) : Prop :=
  node_id n = item_sha item
  /\ node_name n = last_segment (item_path item)
  /\ node_path n = item_path item
  /\ node_type n = (if is_tree item then folder else file)
  /\ (node_children n = None <-> is_tree item = false).

(** The same for the object on the heap. *)
Definition object_of_entry (item : GitHubTreeItem) (o : NodeObj) : Prop :=
  o_id o = item_sha item
  /\ o_name o = last_segment (item_path item)
  /\ o_path o = item_path item
  /\ o_type o = (if is_tree item then folder else file)
  /\ (o_children o = None <-> is_tree item = false).

(** The paths of the objects [root] refers to, in order. *)
Definition root_paths (st : BuildState) : list string :=
  omap (fun a => o_path <$> heap st !! a) (root st).

(** Every folder of the listing is listed: each entry below the top has a
    tree entry at its parent path, and no blob or submodule shares the path
    of a tree entry some other entry lies in. *)
Definition folders_listed (items : list GitHubTreeItem) : Prop :=
  forall e, e ∈ items -> parentPath (item_path e) <> EmptyString ->
    (exists t, t ∈ items /\ item_path t = parentPath (item_path e))
    /\ (forall t, t ∈ items -> item_path t = parentPath (item_path e) -> is_tree t = true).

(** The object at the second address is the one at the first or lies
    below it through [children] arrays. *)
Inductive descends (h : list NodeObj) : nat -> nat -> Prop :=
| descends_refl a : descends h a a
| descends_step p o cs c a :
    h !! p = Some o -> o_children o = Some cs -> c ∈ cs ->
    descends h c a -> descends h p a.

(** What holds of the loop state besides [well_formed]: every object was
    made for an entry; the objects [root] refers to are top-level; an
    object a [children] array refers to lies directly in the folder. *)
Record entry_shaped (items : list GitHubTreeItem) (st : BuildState) : Prop := mkEntryShaped {
  es_object : forall a o,
    heap st !! a = Some o -> exists item, item ∈ items /\ object_of_entry item o;
  es_root : forall a o,
    a ∈ root st -> heap st !! a = Some o -> parentPath (o_path o) = EmptyString;
  es_child : forall p o cs c oc,
    heap st !! p = Some o -> o_children o = Some cs -> c ∈ cs ->
    heap st !! c = Some oc -> parentPath (o_path oc) = o_path o
}.

(** Every object on the heap lies at or below an object of [root]. *)
Definition covered (st : BuildState) : Prop :=
  forall a, (a < List.length (heap st))%nat ->
    exists r, r ∈ root st /\ descends (heap st) r a.

(** [nodeMap] has a binding for the path of every entry looped over. *)
Definition recorded (done : list GitHubTreeItem) (st : BuildState) : Prop :=
  forall x, x ∈ done -> is_Some (nodeMap st !! item_path x).

(** The node is what reading the object at the address gives. *)
Definition represents (h : list NodeObj) (a : nat) (n : FileNode) : Prop :=
  exists fuel, read_node fuel h a = Some n.

End TreeFacts.

(* ===================================================================== *)
(** ** Vocabulary for the further properties of the routes *)
(* ===================================================================== *)

Module RouteFacts.
Import JS Net GitHub.

(** A request as both GitHub routes send them: a GET without a body to
    the repository API, with the headers of [getGitHubHeaders]. *)
Definition github_get (GITHUB_TOKEN : option string) (r : Request) : Prop :=
  req_method r = "GET"
  /\ String.prefix "https://api.github.com/repos/" (req_url r) = true
  /\ req_headers r = getGitHubHeaders GITHUB_TOKEN
  /\ req_body r = NoBody.

(** The request names the v3 media type and the user agent, and carries
    no Authorization header but the bearer form of a real token. *)
Definition properly_authorized (GITHUB_TOKEN : option string) (r : Request) : Prop :=
  In ("Accept", "application/vnd.github.v3+json") (req_headers r)
  /\ In ("User-Agent", "codoc-webapp") (req_headers r)
  /\ (forall v, In ("Authorization", v) (req_headers r) ->
        exists t, GITHUB_TOKEN = Some t /\ t <> EmptyString
                  /\ t <> "your_github_token_here" /\ v = "Bearer " ++ t)
  /\ (forall t, GITHUB_TOKEN = Some t -> t <> EmptyString -> t <> "your_github_token_here" ->
        In ("Authorization", "Bearer " ++ t) (req_headers r)).

End RouteFacts.

(* ===================================================================== *)
(** ** Vocabulary for the further properties of the decoder *)
(* ===================================================================== *)

Module EncodingFacts.
Import Encoding.

(** A Unicode scalar value: a code point that is not a surrogate. *)
Definition scalar (cp : Z) : Prop :=
  0 <= cp <= 0x10FFFF /\ (cp < 0xD800 \/ 0xDFFF < cp).

(** Whatever bytes complete the character that is open, the code point
    that comes out is a scalar value. *)
Fixpoint pending_ok (needed : nat) (cp lower upper : Z) : Prop :=
  forall b, lower <= b <= upper ->
    match needed with
    | O => scalar (cp * 64 + b mod 64)
    | S n => pending_ok n (cp * 64 + b mod 64) 0x80 0xBF
    end.

Definition state_ok (st : DecoderState) : Prop :=
  match st with
  | Idle => True
  | Pending cp needed lower upper => pending_ok needed cp lower upper
  end.

Definition is_byte (b : Z) : Prop := 0 <= b < 256.

(** The text without the characters the base64 decoder passes over: what
    is left are digits and padding. *)
Fixpoint strip_foreign (s : string) : string :=
  match s with
  | EmptyString => EmptyString
  | String c rest =>
      if Ascii.eqb c "="%char || bool_decide (is_Some (unbase64 c))
      then String c (strip_foreign rest)
      else strip_foreign rest
  end.

End EncodingFacts.

(* ===================================================================== *)
(** ** Vocabulary for the further properties of the chat client *)
(* ===================================================================== *)

Module GroqFacts.
Import JS Net Groq.

(** The two shapes of a [GroqResponse]: a completion that is truthy and no
    error, or an error message and no completion. *)
Definition well_shaped (r : GroqResponse) : Prop :=
  (success r = true /\ error r = None
   /\ exists c, content r = Some c /\ truthy c = true)
  \/ (success r = false /\ content r = None /\ exists m, error r = Some m).

End GroqFacts.

(* ===================================================================== *)
(** ** Vocabulary for the further properties of the component *)
(* ===================================================================== *)

Module LayoutFacts.
Import JS Net Tree Layout.

(** The entry [collectKeyFiles] pushes for a node and its content. *)
Definition file_entry (n : FileNode) (c : JValue) : JValue :=
  JObj [("path", JStr (node_path n)); ("content", c)].

(** What an answer delivers to [collectKeyFiles]: the [content] of a 2xx
    answer with a JSON body, when that content is truthy. *)
Definition delivered (o : Outcome) : option JValue :=
  match o with
  | Rejected _ => None
  | Responded r =>
      match Net.body r with
      | NotJson _ _ => None
      | Json data =>
          if ok r && truthy (get_opt data "content") then Some (get_opt data "content")
          else None
      end
  end.

(** The request for a node is sent after the requests for the nodes
    before it; [asked] is what the network answers to it. *)
Definition asked (info : RepoInfo) (net : Network) (log : list Request)
    (nodes : list FileNode) (i : nat) (n : FileNode) : Outcome :=
  net (log ++ map (content_request info) (take i nodes))%list (content_request info n).

(** One entry for each node whose answer delivers a content, in the order
    of the nodes. *)
Definition loaded (info : RepoInfo) (net : Network) (log : list Request)
    (nodes : list FileNode) : list JValue :=
  omap (fun x => x)
       (imap (fun i n => file_entry n <$> delivered (asked info net log nodes i n)) nodes).

(** A file node whose name or path is one of the key file patterns. *)
Definition key_file (toLowerCase : string -> string) (n : FileNode) : Prop :=
  node_type n = file /\ is_key_file toLowerCase n = true.

End LayoutFacts.

(* ===================================================================== *)
(** ** The generate-outline route (api/groq/generate-outline/route.ts) *)
(* ===================================================================== *)

Module GenOutline.
Import JS Net Groq.

Inductive Reply : Type :=
| ErrorReply (status : Z) (error : option string)
| OutlineReply (chapters : JValue).

Definition reply_status (r : Reply) : Z :=
  match r with
  | ErrorReply s _ => s
  | OutlineReply _ => 200
  end.

(** [files.length] on a truthy value. *)
Definition length_of (v : JValue) : JValue :=
  match v with
  | JArr l => JNum (Z.of_nat (List.length l))
  | JStr s => JNum (Z.of_nat (String.length s))
  | JObj fields => assoc "length" fields
  | _ => JUndefined
  end.

(** [v === 0]. *)
Definition is_zero (v : JValue) : bool :=
  match v with
  | JNum n => n =? 0
  | _ => false
  end.

Definition indent : string := "        ".
Definition indent12 : string := "            ".

Definition prompt_of (repoName : JValue) (context : string) : string :=
  "Analyze this repository " ++ dquote ++ toString repoName ++ dquote
    ++ " and generate a documentation outline." ++ nl
  ++ nl
  ++ indent ++ "Based on these key files:" ++ nl
  ++ nl
  ++ indent ++ context ++ nl
  ++ nl
  ++ indent ++ "Generate a JSON array of documentation chapters. Each chapter should have:" ++ nl
  ++ indent ++ "- id: a unique slug (e.g., " ++ dquote ++ "getting-started" ++ dquote ++ ")" ++ nl
  ++ indent ++ "- title: human-readable title" ++ nl
  ++ indent ++ "- description: brief description of what this chapter covers" ++ nl
  ++ indent ++ "- children: optional array of sub-chapters with same structure (id, title, description)" ++ nl
  ++ nl
  ++ indent ++ "Focus on practical documentation that helps developers understand and use this project." ++ nl
  ++ indent ++ "Include chapters like: Getting Started, Installation, Project Structure, Key Features, API Reference, Configuration, etc." ++ nl
  ++ nl
  ++ indent ++ "IMPORTANT: Return ONLY valid JSON array, no markdown, no explanation." ++ nl
  ++ nl
  ++ indent ++ "Example format:" ++ nl
  ++ indent ++ "[" ++ nl
  ++ indent ++ "{" ++ nl
  ++ indent12 ++ dquote ++ "id" ++ dquote ++ ": " ++ dquote ++ "getting-started" ++ dquote ++ "," ++ nl
  ++ indent12 ++ dquote ++ "title" ++ dquote ++ ": " ++ dquote ++ "Getting Started" ++ dquote ++ "," ++ nl
  ++ indent12 ++ dquote ++ "description" ++ dquote ++ ": " ++ dquote
    ++ "Introduction and quick start guide" ++ dquote ++ "," ++ nl
  ++ indent12 ++ dquote ++ "children" ++ dquote ++ ": [" ++ nl
  ++ indent12 ++ "{" ++ dquote ++ "id" ++ dquote ++ ": " ++ dquote ++ "installation" ++ dquote
    ++ ", " ++ dquote ++ "title" ++ dquote ++ ": " ++ dquote ++ "Installation" ++ dquote
    ++ ", " ++ dquote ++ "description" ++ dquote ++ ": " ++ dquote ++ "How to install" ++ dquote
    ++ "}," ++ nl
  ++ indent12 ++ "{" ++ dquote ++ "id" ++ dquote ++ ": " ++ dquote ++ "quick-start" ++ dquote
    ++ ", " ++ dquote ++ "title" ++ dquote ++ ": " ++ dquote ++ "Quick Start" ++ dquote
    ++ ", " ++ dquote ++ "description" ++ dquote ++ ": " ++ dquote ++ "First steps" ++ dquote
    ++ "}" ++ nl
  ++ indent12 ++ "]" ++ nl
  ++ indent ++ "}" ++ nl
  ++ indent ++ "]".

Definition system_message : GroqMessage :=
  mkMessage "system"
    "You are a technical documentation expert. Generate structured documentation outlines in JSON format only.".

Definition options_for (prompt : string) : GroqRequestOptions :=
  mkOptions [system_message; mkMessage "user" prompt] (Some (3 # 10)%Q) (Some 2000).

Definition parse_failure : string := "Failed to parse documentation outline".

Section WithPlatform.

(** [JSON.parse], [None] when it throws. *)
Variable JSON_parse : string -> option JValue.
(** The first capture group of the match of the fence pattern (three
    backquotes, an optional json tag, white space, the shortest text up to
    the next three backquotes), [None] when the pattern does not match. *)
Variable fenced : string -> option string.
(** [String.prototype.trim]. *)
Variable trim : string -> string.
(** [s.slice(start, end)] on a string: its UTF-16 code units from [start]
    up to [end]. *)
Variable slice : nat -> nat -> string -> string.

(** [f.content.slice(0, 2000)] inside the template literal. *)
Definition sliced_content (c : JValue) : Exn + string :=
  match c with
  | JStr s => inr (slice 0 2000 s)
  | JArr l => inr (toString (JArr (firstn 2000 l)))
  | JUndefined => inl (ErrorMsg "Cannot read properties of undefined (reading 'slice')")
  | JNull => inl (ErrorMsg "Cannot read properties of null (reading 'slice')")
  | _ => inl (ErrorMsg "f.content.slice is not a function")
  end.

(** The arrow function handed to [map]. *)
Definition file_entry (f : JValue) : Exn + string :=
  match get f "path" with
  | inl e => inl e
  | inr p =>
      match get f "content" with
      | inl e => inl e
      | inr c =>
          match sliced_content c with
          | inl e => inl e
          | inr text => inr ("### " ++ toString p ++ nl ++ "```" ++ nl ++ text ++ nl ++ "```")
          end
      end
  end.

Fixpoint file_entries (l : list JValue) : Exn + list string :=
  match l with
  | [] => inr []
  | f :: rest =>
      match file_entry f with
      | inl e => inl e
      | inr s =>
          match file_entries rest with
          | inl e => inl e
          | inr ss => inr (s :: ss)
          end
      end
  end.

(** [files.map(...).join("\n\n")]. *)
Definition fileContext (files : JValue) : Exn + string :=
  match files with
  | JArr l =>
      match file_entries l with
      | inl e => inl e
      | inr entries => inr (join (nl ++ nl) entries)
      end
  | _ => inl (ErrorMsg "files.map is not a function")
  end.


(** The inner [try] block: any exception in it becomes the fixed error. *)
Definition parse_outline (content : JValue) : Reply :=
  match content with
  | JStr s =>
      let jsonStr := match fenced s with
                     | Some inner => trim inner
                     | None => trim s
                     end in
      match JSON_parse jsonStr with
      | Some chapters => OutlineReply chapters
      | None => ErrorReply 500 (Some parse_failure)
      end
  | _ => ErrorReply 500 (Some parse_failure)
  end.

(** The call to [sendToGroq] and what the route makes of its result. *)
Definition generate (env : ProcessEnv) (net : Network) (repoName : JValue)
    (context : string) (st : State) (log : list Request) : Reply * State * list Request :=
  let '(result, st, log) :=
    sendToGroq env net (options_for (prompt_of repoName context)) st log in
  if negb (success result) then (ErrorReply 500 (error result), st, log)
  else (parse_outline (default JUndefined (content result)), st, log).

Definition caught (e : Exn) (st : State) (log : list Request) : Reply * State * list Request :=
  (ErrorReply 500 (Some (exn_message e)), st, log).

Definition POST (env : ProcessEnv) (net : Network) (request : Parsed)
    (st : State) (log : list Request) : Reply * State * list Request :=
  match request with
  | NotJson e _ => caught e st log
  | Json body =>
      match destructure "body" body "repoName" with
      | inl e => caught e st log
      | inr repoName =>
          let files := get_opt body "files" in
          if negb (truthy repoName) || negb (truthy files) || is_zero (length_of files) then
            (ErrorReply 400 (Some "Repository name and files are required"), st, log)
          else
            match fileContext files with
            | inl e => caught e st log
            | inr context => generate env net repoName context st log
            end
      end
  end.

End WithPlatform.

End GenOutline.

(* ===================================================================== *)
(** ** The component: outline and batch generation (DocumentationLayout.tsx) *)
(* ===================================================================== *)

Module Docs.
Import JS Net Tree Layout.

(** [Chapter] with its [children]. *)
Inductive ChapterNode : Type :=
  mkNode (chapter : Chapter) (children : option (list ChapterNode)).

Definition chapter_of (n : ChapterNode) : Chapter :=
  match n with mkNode c _ => c end.
Definition sub_chapters (n : ChapterNode) : option (list ChapterNode) :=
  match n with mkNode _ cs => cs end.

(** [flattenChapters]: every chapter, followed by what its children
    flatten to. *)
Fixpoint flatten_node (n : ChapterNode) : list ChapterNode :=
  n :: match sub_chapters n with
       | Some cs => flat_map flatten_node cs
       | None => []
       end.

Definition flattenChapters (chapters : list ChapterNode) : list ChapterNode :=
  flat_map flatten_node chapters.

(** [findChapter]: the chapter itself, or the first hit among the
    children, before the next chapter is looked at. *)
Fixpoint find_node (i : string) (n : ChapterNode) : option ChapterNode :=
  match n with
  | mkNode c cs =>
      if String.eqb (id c) i then Some n
      else match cs with
           | Some l =>
               (fix go (l : list ChapterNode) : option ChapterNode :=
                  match l with
                  | [] => None
                  | x :: rest =>
                      match find_node i x with
                      | Some found => Some found
                      | None => go rest
                      end
                  end) l
           | None => None
           end
  end.

Fixpoint findChapter (chapters : list ChapterNode) (i : string) : option ChapterNode :=
  match chapters with
  | [] => None
  | x :: rest =>
      match find_node i x with
      | Some found => Some found
      | None => findChapter rest i
      end
  end.

(** A JSON value read at the declared [Chapter] interface: [id] and
    [title] are strings, [description] a string or absent, [children] an
    array of chapters or absent. *)
Definition as_optional_string (v : JValue) : option (option string) :=
  match v with
  | JUndefined => Some None
  | JStr s => Some (Some s)
  | _ => None
  end.

Fixpoint decode_chapter (v : JValue) : option ChapterNode :=
  match v with
  | JObj fields =>
      match as_string (assoc "id" fields), as_string (assoc "title" fields),
            as_optional_string (assoc "description" fields) with
      | Some i, Some t, Some d =>
          (* [assoc "children" fields], read as an optional array of chapters *)
          match (fix children_of (fs : list (string * JValue))
                   : option (option (list ChapterNode)) :=
                   match fs with
                   | [] => Some None
                   | (k, c) :: rest =>
                       if String.eqb "children" k then
                         match c with
                         | JUndefined => Some None
                         | JArr l =>
                             match (fix all (l : list JValue) : option (list ChapterNode) :=
                                      match l with
                                      | [] => Some []
                                      | x :: xs =>
                                          match decode_chapter x, all xs with
                                          | Some n, Some ns => Some (n :: ns)
                                          | _, _ => None
                                          end
                                      end) l with
                             | Some ns => Some (Some ns)
                             | None => None
                             end
                         | _ => None
                         end
                       else children_of rest
                   end) fields with
          | Some cs => Some (mkNode (mkChapter i t d) cs)
          | None => None
          end
      | _, _, _ => None
      end
  | _ => None
  end.

Definition decode_chapters (v : JValue) : option (list ChapterNode) :=
  match v with
  | JArr l => mapM decode_chapter l
  | _ => None
  end.

(** [DocGenerationState] with the outline as a tree. *)
Record DocState : Type := mkDocs {
  isGenerating : bool;
  isGeneratingContent : bool;
  currentGeneratingChapter : option string;
  chapters : list ChapterNode;
  generatedContent : gmap string JValue;
  doc_error : option string
}.

Definition initial : DocState := mkDocs false false None [] ∅ None.

Definition outline_request (info : RepoInfo) (keyFiles : list JValue) : Request :=
  mkRequest "POST" "/api/groq/generate-outline" json_headers
    (JsonBody (JObj [("repoName", JStr (repo info)); ("files", JArr keyFiles)])).

(** [generateSingleChapterContent]: the content of the answer, or [null]
    when anything goes wrong. *)
Definition generateSingleChapterContent (info : RepoInfo) (net : Network)
    (chapter : ChapterNode) (keyFiles : list JValue) (log : list Request)
    : JValue * list Request :=
  let req := generate_request info (chapter_of chapter) keyFiles in
  match net log req with
  | Rejected _ => (JNull, (log ++ [req])%list)
  | Responded response =>
      let log := (log ++ [req])%list in
      match Net.body response with
      | NotJson _ _ => (JNull, log)
      | Json data =>
          if negb (ok response) then (JNull, log)
          else match get data "content" with
               | inl _ => (JNull, log)
               | inr c => (c, log)
               end
      end
  end.

(** One iteration of the loop over [allChapters]. *)
Definition generate_one (info : RepoInfo) (net : Network) (keyFiles : list JValue)
    (acc : DocState * list Request) (chapter : ChapterNode) : DocState * list Request :=
  let '(d, log) := acc in
  let d := mkDocs (isGenerating d) (isGeneratingContent d)
                  (Some (title (chapter_of chapter))) (chapters d)
                  (generatedContent d) (doc_error d) in
  let '(content, log) := generateSingleChapterContent info net chapter keyFiles log in
  if truthy content then
    (mkDocs (isGenerating d) (isGeneratingContent d) (currentGeneratingChapter d) (chapters d)
            (<[id (chapter_of chapter) := content]> (generatedContent d)) (doc_error d), log)
  else (d, log).

(** The [catch] block of [generateDocumentation]. *)
Definition failed (d : DocState) (e : Exn) : DocState :=
  mkDocs false false (currentGeneratingChapter d) (chapters d) (generatedContent d)
         (Some (exn_message e)).

(** The component state the chapter functions of [Layout] work on: the
    outline without the children, which they do not read. *)
Record View : Type := mkView {
  activeContent : ContentState;
  leftSidebarOpen : bool;
  docState : DocState
}.

Definition as_component (v : View) : Component :=
  let d := docState v in
  mkComponent (activeContent v) (leftSidebarOpen v)
    (mkDocState (isGenerating d) (isGeneratingContent d) (currentGeneratingChapter d)
                (map chapter_of (chapters d)) (generatedContent d) (doc_error d)).

Section WithPlatform.

(** [String.prototype.toLowerCase]. *)
Variable toLowerCase : string -> string.

(** [generateDocumentation].  [None] stands for a run in which the
    outline that arrives does not have the shape of the declared [Chapter]
    interface; the embedding says nothing about such runs. *)
Definition generateDocumentation (info : RepoInfo) (net : Network)
    (d : DocState) (log : list Request) : option DocState * list Request :=
  let d := mkDocs true (isGeneratingContent d) (currentGeneratingChapter d) (chapters d)
                  (generatedContent d) None in
  let '(keyFiles, log) := collectKeyFiles toLowerCase info net log in
  if Nat.eqb (List.length keyFiles) 0 then
    (Some (failed d (ErrorMsg "No key files found to generate documentation")), log)
  else
    let req := outline_request info keyFiles in
    match net log req with
    | Rejected e => (Some (failed d e), (log ++ [req])%list)
    | Responded response =>
        let log := (log ++ [req])%list in
        match Net.body response with
        | NotJson e _ => (Some (failed d e), log)
        | Json data =>
            if negb (ok response) then
              match get data "error" with
              | inl e => (Some (failed d e), log)
              | inr msg =>
                  (Some (failed d (ErrorMsg (toString
                           (or_else msg (JStr "Failed to generate documentation"))))), log)
              end
            else
              match get data "chapters" with
              | inl e => (Some (failed d e), log)
              | inr cs =>
                  match decode_chapters (or_else cs (JArr [])) with
                  | None => (None, log)
                  | Some outline =>
                      let d := mkDocs false true (currentGeneratingChapter d) outline
                                      (generatedContent d) (doc_error d) in
                      let '(d, log) :=
                        fold_left (generate_one info net keyFiles) (flattenChapters outline)
                                  (d, log) in
                      (Some (mkDocs (isGenerating d) false None (chapters d)
                                    (generatedContent d) (doc_error d)), log)
                  end
              end
        end
    end.

(** What a call of [generateChapterContent] makes of the view. *)
Definition with_component (v : View) (c : Component) : View :=
  let d := docState v in
  mkView (Layout.activeContent c) (Layout.leftSidebarOpen c)
         (mkDocs (isGenerating d) (isGeneratingContent d) (currentGeneratingChapter d)
                 (chapters d) (Layout.generatedContent (Layout.docState c)) (doc_error d)).

(** [handleChapterClick]. *)
Definition handleChapterClick (info : RepoInfo) (net : Network) (chapterId : string)
    (v : View) (log : list Request) : Shown View * list Request :=
  match findChapter (chapters (docState v)) chapterId with
  | Some chapter =>
      match generateChapterContent toLowerCase info net (chapter_of chapter)
                                   (as_component v) log with
      | (Rendered c, log) => (Rendered (with_component v c), log)
      | (Crashed, log) => (Crashed, log)
      | (OutsideInterface, log) => (OutsideInterface, log)
      end
  | None => (Rendered v, log)
  end.

End WithPlatform.

End Docs.

(* ===================================================================== *)
(** ** Further concrete runs *)
(* ===================================================================== *)

Module FurtherScenario.
Import JS Net.

(** An environment in which no credential is set: one variable is present
    but empty. *)
Definition no_keys : Groq.ProcessEnv :=
  Groq.mkEnv None (Some EmptyString) None None.

(** The node of the nesting example that lies in the folder. *)
Definition nested_file : Tree.FileNode :=
  Tree.mkFileNode "sha-of-a/b.txt" "b.txt" Tree.file "a/b.txt" None.

(** The base64 text of the two bytes of [hi], broken by a line feed. *)
Definition wrapped_hi : string := "aG" ++ nl ++ "k=".

(** A generate-content endpoint that answers with a text. *)
Definition answers_text : Network :=
  fun _ _ => Responded (mkResponse 200 (Json (JObj [("success", JBool true);
                                                   ("content", JStr "# Intro");
                                                   ("chapterId", JStr "intro")]))).

(** Stand-ins for the platform functions of the outline route in a run
    whose completion is the text of the empty array, without fence and
    without white space around it. *)
Definition parses_empty_array (s : string) : option JValue :=
  if String.eqb s "[]" then Some (JArr []) else None.
Definition unfenced (s : string) : option string := None.
Definition already_trimmed (s : string) : string := s.

(** A chat API that completes with the text of the empty array. *)
Definition completes_empty_outline : Network :=
  fun _ _ => Responded (mkResponse 200 (Json (Scenario.completion "[]"))).

(** The body of a generate-outline request with one file. *)
Definition outline_body : Parsed :=
  Json (JObj [("repoName", JStr "Hello-World");
              ("files", JArr [JObj [("path", JStr "README.md"); ("content", JStr "# Hello")]])]).


(** A repository with one key file. *)
Definition readme_node : Tree.FileNode :=
  Tree.mkFileNode "sha-of-README.md" "README.md" Tree.file "README.md" None.

Definition readme_repo : Layout.RepoInfo :=
  Layout.mkRepoInfo "https://github.com/octocat/Hello-World" "octocat" "Hello-World" "master"
    [readme_node].

(** An outline of two chapters, the second a child of the first. *)
Definition install : Docs.ChapterNode :=
  Docs.mkNode (Layout.mkChapter "install" "Installation" (Some "How to install")) None.

Definition intro_node : Docs.ChapterNode :=
  Docs.mkNode Scenario.intro (Some [install]).

Definition outline_json : JValue :=
  JArr [JObj [("id", JStr "intro"); ("title", JStr "Introduction");
              ("children", JArr [JObj [("id", JStr "install"); ("title", JStr "Installation");
                                       ("description", JStr "How to install")]])]].

Definition is_intro (v : JValue) : bool :=
  match v with
  | JStr i => String.eqb i "intro"
  | _ => false
  end.

(** The three routes as the component sees them: the content route
    serves a text, the outline route the outline above, and the
    generate-content route answers for the chapter [intro] only. *)
Definition doc_backend : Network :=
  fun _ req =>
    if String.eqb (req_url req) "/api/github/content" then
      Responded (mkResponse 200 (Json (JObj [("success", JBool true);
                                             ("content", JStr "# Hello")])))
    else if String.eqb (req_url req) "/api/groq/generate-outline" then
      Responded (mkResponse 200 (Json (JObj [("success", JBool true);
                                             ("chapters", outline_json)])))
    else
      match req_body req with
      | JsonBody body =>
          if is_intro (get_opt (get_opt body "chapter") "id") then
            Responded (mkResponse 200 (Json (JObj [("success", JBool true);
                                                   ("content", JStr "# Intro");
                                                   ("chapterId", JStr "intro")])))
          else Responded (mkResponse 500 (Json (JObj [("error", JStr "Groq API error: 503")])))
      | _ => Rejected NonError
      end.

Definition readme_files : list JValue :=
  [JObj [("path", JStr "README.md"); ("content", JStr "# Hello")]].

(** The documentation state and the requests after a run against
    [doc_backend]. *)
Definition documented : Docs.DocState :=
  Docs.mkDocs false false None [intro_node] (<["intro" := JStr "# Intro"]> ∅) None.

Definition documented_log : list Request :=
  [Layout.content_request readme_repo readme_node;
   Docs.outline_request readme_repo readme_files;
   Layout.generate_request readme_repo Scenario.intro readme_files;
   Layout.generate_request readme_repo (Docs.chapter_of install) readme_files].

End FurtherScenario.

(* ===================================================================== *)
(** ** Vocabulary for counting the nodes of the hierarchy *)
(* ===================================================================== *)

Module TreeCount.
Import JS Tree TreeFacts.

(** The [children] array of the object at [p] refers to [c]. *)
Definition child (h : list NodeObj) (p c : nat) : Prop :=
  exists o cs, h !! p = Some o /\ o_children o = Some cs /\ c ∈ cs.

(** The addresses met when the object at [a] is read, in the order of
    [nodes_of]. *)
Fixpoint walk (fuel : nat) (h : list NodeObj) (a : nat) : list nat :=
  match fuel with
  | O => []
  | S fuel' =>
      match h !! a with
      | None => []
      | Some o =>
          a :: match o_children o with
               | None => []
               | Some cs => cs ≫= walk fuel' h
               end
      end
  end.

(** The same for the whole state. *)
Definition listing (st : BuildState) : list nat :=
  root st ≫= walk (List.length (heap st)) (heap st).

(** No object is referred to twice: [root] and every [children] array
    hold no address twice, no address is in two of them. *)
Record single_parent (st : BuildState) : Prop := mkSingleParent {
  sp_root : NoDup (root st);
  sp_apart : forall p c, child (heap st) p c -> c ∉ root st;
  sp_parent : forall p p' c, child (heap st) p c -> child (heap st) p' c -> p = p';
  sp_kids : forall p o cs, heap st !! p = Some o -> o_children o = Some cs -> NoDup cs
}.

(** The entries the objects at the given addresses were made for, the
    objects being made in the order of the sorted list. *)
Definition entries_at (sorted : list GitHubTreeItem) (addrs : list nat)
    : list GitHubTreeItem :=
  addrs ≫= (fun a => option_list (sorted !! a)).

End TreeCount.

(* ===================================================================== *)
(** ** The component: file statistics (DocumentationLayout.tsx) *)
(* ===================================================================== *)

Module Stats.
Import JS Tree.

Record Counts : Type := mkCounts {
  fileCount : nat;
  folderCount : nat
}.

(** [countNodes], threading the two counters. *)
Fixpoint count_node (n : FileNode) (acc : Counts) : Counts :=
  match n with
  | mkFileNode _ _ t _ c =>
      match t with
      | folder =>
          let acc := mkCounts (fileCount acc) (S (folderCount acc)) in
          match c with
          | Some cs => fold_left (fun acc n => count_node n acc) cs acc
          | None => acc
          end
      | file => mkCounts (S (fileCount acc)) (folderCount acc)
      end
  end.

Definition countNodes (nodes : list FileNode) (acc : Counts) : Counts :=
  fold_left (fun acc n => count_node n acc) nodes acc.

Definition is_folder (n : FileNode) : bool :=
  match node_type n with
  | folder => true
  | file => false
  end.

(** No file node of the list has a [children] array. *)
Definition childless_files (nodes : list FileNode) : Prop :=
  forall m, In m nodes -> node_type m = file -> node_children m = None.

(** The [useMemo] block. *)
Definition stats (tree : list FileNode) : Counts := countNodes tree (mkCounts 0 0).

End Stats.

(* ===================================================================== *)
(** ** A run of the tree route *)
(* ===================================================================== *)

Module TreeRun.
Import JS Net.

(** An upstream that answers the three requests of the tree route in
    turn: the repository, its default branch, the tree of that branch. *)
Definition listing_json : JValue :=
  JArr [JObj [("path", JStr "a/b.txt"); ("mode", JStr "100644"); ("type", JStr "blob");
              ("sha", JStr "sha-of-a/b.txt")];
        JObj [("path", JStr "a"); ("mode", JStr "040000"); ("type", JStr "tree");
              ("sha", JStr "sha-of-a")]].

Definition github_backend : Network :=
  fun log _ =>
    match log with
    | [] => Responded (mkResponse 200 (Json (JObj [("default_branch", JStr "master")])))
    | [_] =>
        Responded (mkResponse 200 (Json (JObj [("commit",
          JObj [("commit", JObj [("tree", JObj [("sha", JStr "7fd1a60")])])])])))
    | _ =>
        Responded (mkResponse 200 (Json (JObj [("sha", JStr "7fd1a60");
                                               ("tree", listing_json);
                                               ("truncated", JBool false)])))
    end.

Definition listing_items : list Tree.GitHubTreeItem :=
  [Tree.mkItem "a/b.txt" "100644" "blob" "sha-of-a/b.txt" None;
   Tree.mkItem "a" "040000" "tree" "sha-of-a" None].

End TreeRun.
(* ===================================================================== *)
(** ** The two chat routes among other calls in flight *)
(* ===================================================================== *)

(** The generate-content route, its call to [sendToGroq] overlapping with
    the calls of other requests the server is answering. *)
Module InterleavedContent.
Import JS Net Groq GenContent.

Section WithPlatform.

Variable slice : nat -> nat -> string -> string.

Definition generate (fuel : nat) (env : ProcessEnv) (net : Network)
    (others : Interleaved.Others) (chapter repoName : JValue) (context : string)
    (st : State) (log : list Request) : option (Reply * State * list Request) :=
  match Interleaved.sendToGroq fuel env net others
          (options_for (prompt_of chapter repoName context)) st log with
  | None => None
  | Some (result, st, log) =>
      if negb (success result) then Some (ErrorReply 500 (error result), st, log)
      else Some (ContentReply (content result) (get_opt chapter "id"), st, log)
  end.

Definition POST (fuel : nat) (env : ProcessEnv) (net : Network)
    (others : Interleaved.Others) (request : Parsed) (st : State) (log : list Request)
    : option (Reply * State * list Request) :=
  match request with
  | NotJson e _ => Some (caught e st log)
  | Json body =>
      match destructure "body" body "repoName" with
      | inl e => Some (caught e st log)
      | inr repoName =>
          let chapter := get_opt body "chapter" in
          let files := get_opt body "files" in
          if negb (truthy repoName) || negb (truthy chapter) then
            Some (ErrorReply 400 (Some "Repository name and chapter are required"), st, log)
          else
            match fileContext slice files with
            | inl e => Some (caught e st log)
            | inr context => generate fuel env net others chapter repoName context st log
            end
      end
  end.

End WithPlatform.

End InterleavedContent.

(** The generate-outline route in the same situation. *)
Module InterleavedOutline.
Import JS Net Groq GenOutline.

Section WithPlatform.

Variable JSON_parse : string -> option JValue.
Variable fenced : string -> option string.
Variable trim : string -> string.
Variable slice : nat -> nat -> string -> string.

Definition generate (fuel : nat) (env : ProcessEnv) (net : Network)
    (others : Interleaved.Others) (repoName : JValue) (context : string)
    (st : State) (log : list Request) : option (Reply * State * list Request) :=
  match Interleaved.sendToGroq fuel env net others
          (options_for (prompt_of repoName context)) st log with
  | None => None
  | Some (result, st, log) =>
      if negb (success result) then Some (ErrorReply 500 (error result), st, log)
      else Some (parse_outline JSON_parse fenced trim (default JUndefined (content result)),
                 st, log)
  end.

Definition POST (fuel : nat) (env : ProcessEnv) (net : Network)
    (others : Interleaved.Others) (request : Parsed) (st : State) (log : list Request)
    : option (Reply * State * list Request) :=
  match request with
  | NotJson e _ => Some (caught e st log)
  | Json body =>
      match destructure "body" body "repoName" with
      | inl e => Some (caught e st log)
      | inr repoName =>
          let files := get_opt body "files" in
          if negb (truthy repoName) || negb (truthy files) || is_zero (length_of files) then
            Some (ErrorReply 400 (Some "Repository name and files are required"), st, log)
          else
            match fileContext slice files with
            | inl e => Some (caught e st log)
            | inr context => generate fuel env net others repoName context st log
            end
      end
  end.

End WithPlatform.

End InterleavedOutline.

(* ===================================================================== *)
(** ** The component in front of the routes of the repository *)
(* ===================================================================== *)

Module Served.
Import JS Net Tree Layout Docs.

(** [NextResponse.json] of what the generate-content route answers, as
    [fetch] hands it to the component. *)
Definition NextResponse_json (r : GenContent.Reply) : Response :=
  match r with
  | GenContent.ErrorReply s e =>
      mkResponse s (Json (JObj [("error", opt_str e)]))
  | GenContent.ContentReply c i =>
      mkResponse 200 (Json (JObj [("success", JBool true);
                                  ("content", default JUndefined c);
                                  ("chapterId", i)]))
  end.

(** Behind /api/groq/generate-content stands the route of this
    repository: every answer that arrives from there is the answer of a
    run of its [POST], whatever the request body, the configured keys,
    the chat API and the other calls in flight. *)
Definition served_by_route (net : Network) : Prop :=
  forall log req r,
    req_url req = "/api/groq/generate-content" ->
    net log req = Responded r ->
    exists slice fuel env upstream others request st sent reply st' sent',
      InterleavedContent.POST slice fuel env upstream others request st sent
        = Some (reply, st', sent')
      /\ r = NextResponse_json reply.

(** The states of the component in front of that route: the state it is
    mounted with, and what [generateDocumentation] and a click on a
    chapter make of a state.  The batch and a click can overlap; a state
    update of either then applies to the state of that moment, which is
    what the last two rules describe: one iteration of the loop of the
    batch, and the part of a chapter view after its cache lookup.
    Everything else the component does (file views, the side bars) leaves
    [docState] as it is. *)
Inductive reachable (toLowerCase : string -> string) (info : RepoInfo) : View -> Prop :=
| reach_mounted :
    reachable toLowerCase info
      (mkView (mkContent welcome None None None None) false Docs.initial)
| reach_generated net v d log log' :
    served_by_route net ->
    reachable toLowerCase info v ->
    generateDocumentation toLowerCase info net (docState v) log = (Some d, log') ->
    reachable toLowerCase info (mkView (activeContent v) (leftSidebarOpen v) d)
| reach_clicked net chapterId v v' log log' :
    served_by_route net ->
    reachable toLowerCase info v ->
    handleChapterClick toLowerCase info net chapterId v log = (Rendered v', log') ->
    reachable toLowerCase info v'
| reach_viewed v a l :
    reachable toLowerCase info v ->
    reachable toLowerCase info (mkView a l (docState v))
| reach_iteration net keyFiles chapter v d log log' :
    served_by_route net ->
    reachable toLowerCase info v ->
    generate_one info net keyFiles (docState v, log) chapter = (d, log') ->
    reachable toLowerCase info (mkView (activeContent v) (leftSidebarOpen v) d)
| reach_stored net chapter v c log log' :
    served_by_route net ->
    reachable toLowerCase info v ->
    fetch_chapter toLowerCase info net chapter (as_component v) log = (Rendered c, log') ->
    reachable toLowerCase info (with_component v c).

End Served.

(* ===================================================================== *)
(** * Properties *)
(* ===================================================================== *)

(** ** Values *)

Section ValueFacts.
Import JS.

(** Where a property read succeeds, destructuring gives the same value. *)
Lemma destructure_get source v k x :
  get v k = inr x -> destructure source v k = inr x.
Proof. destruct v; cbn; congruence. Qed.

Lemma destructure_inr source v k x :
  destructure source v k = inr x -> get v k = inr x.
Proof. destruct v; cbn; congruence. Qed.

Lemma destructure_get_opt source v k x :
  destructure source v k = inr x -> x = get_opt v k.
Proof. destruct v; cbn; congruence. Qed.

End ValueFacts.

(** ** Credential rotation *)

Section GroqProperties.
Import JS Net Groq.

Variable env : ProcessEnv.
Variable net : Network.
Variable opts : GroqRequestOptions.

Local Abbreviation keys := (getApiKeys env).

Lemma push_if_set_nonempty v k : In k (push_if_set v) -> String.eqb k EmptyString = false.
Proof.
  destruct v as [s|]; cbn; [|tauto].
  destruct (String.eqb s EmptyString) eqn:E; cbn; [tauto|].
  intros [<-|[]]. exact E.
Qed.

Lemma getApiKeys_nonempty k : In k keys -> String.eqb k EmptyString = false.
Proof.
  unfold getApiKeys. rewrite !in_app_iff.
  intros [H|[H|[H|H]]]; eapply push_if_set_nonempty; eassumption.
Qed.

Lemma lookup_key_nonempty i k : keys !! i = Some k -> String.eqb k EmptyString = false.
Proof.
  intros H. apply getApiKeys_nonempty, list_elem_of_In.
  eapply list_elem_of_lookup_2; eassumption.
Qed.

(** The defining equation of the closure, with the bookkeeping of the
    well-founded recursion removed. *)
Lemma attemptRequest_eq st log :
  attemptRequest env net opts st log =
  match attemptOnce env net opts st log with
  | Done r st' log' => (r, st', log')
  | Retry st' log' => attemptRequest env net opts st' log'
  end.
Proof.
  rewrite attemptRequest_unfold_eq at 1. unfold attemptRequest_unfold.
  destruct (inspect (attemptOnce env net opts st log)) as [[r st' log'|st' log'] e];
    cbn; rewrite e; reflexivity.
Qed.

(** With the cursor inside the list, [getCurrentApiKey] only reads. *)
Lemma getCurrentApiKey_in_range st :
  (currentApiKeyIndex st < List.length keys)%nat ->
  getCurrentApiKey env st = (keys !! currentApiKeyIndex st, st).
Proof.
  intros Hlt. unfold getCurrentApiKey.
  destruct (Nat.eqb_spec (List.length keys) 0); [lia|].
  destruct (Nat.leb_spec (List.length keys) (currentApiKeyIndex st)); [lia|].
  reflexivity.
Qed.

(** One rate-limited attempt while the flag is down: either the cursor
    moves on, or the list is exhausted. *)
Lemma attemptOnce_429 k key log b :
  keys !! k = Some key ->
  net log (chat_request key opts) = Responded (mkResponse 429 b) ->
  attemptOnce env net opts (mkState k false) log =
  if Nat.leb (List.length keys) (S k)
  then Done (failure exhausted_message) (mkState 0 true) (log ++ [chat_request key opts])
  else Retry (mkState (S k) false) (log ++ [chat_request key opts]).
Proof.
  intros Hk Hnet. unfold attemptOnce.
  rewrite getCurrentApiKey_in_range
    by (cbn; eapply lookup_lt_Some; eassumption).
  cbn [currentApiKeyIndex allKeysExhausted]. rewrite Hk.
  rewrite (lookup_key_nonempty _ _ Hk), Hnet. cbn [status].
  change ((429 =? 429) && negb false) with true. cbv iota.
  unfold switchToNextKey. cbn [currentApiKeyIndex allKeysExhausted].
  destruct (Nat.leb (List.length keys) (S k)); reflexivity.
Qed.

Lemma attemptRequest_all429 :
  all429 net ->
  forall n k log,
    (List.length keys - k = n)%nat -> (k < List.length keys)%nat ->
    attemptRequest env net opts (mkState k false) log =
    (failure exhausted_message, mkState 0 true,
     (log ++ map (fun key => chat_request key opts) (drop k keys))%list).
Proof.
  intros Hnet n. induction n as [|n IH]; intros k log Hn Hlt; [lia|].
  destruct (lookup_lt_is_Some_2 keys k Hlt) as [key Hk].
  destruct (Hnet log (chat_request key opts)) as [b Hb].
  rewrite attemptRequest_eq, (attemptOnce_429 k key log b Hk Hb).
  rewrite (drop_S _ _ _ Hk). cbn [map].
  destruct (Nat.leb_spec (List.length keys) (S k)) as [Hend|Hmore].
  - rewrite drop_ge by lia. reflexivity.
  - rewrite IH by lia. rewrite <- app_assoc. reflexivity.
Qed.

(** What one pass leaves of the cursor. *)
Lemma attemptOnce_keeps_range st log :
  (currentApiKeyIndex st < List.length keys)%nat ->
  match attemptOnce env net opts st log with
  | Done _ st' _ | Retry st' _ => (currentApiKeyIndex st' < List.length keys)%nat
  end.
Proof.
  intros Hlt. unfold attemptOnce. rewrite getCurrentApiKey_in_range by assumption.
  destruct (keys !! currentApiKeyIndex st) as [key|]; [|assumption].
  destruct (String.eqb key EmptyString); [assumption|].
  destruct (net log _) as [e|response]; [assumption|].
  destruct ((status response =? 429) && negb (allKeysExhausted st)).
  - unfold switchToNextKey. cbn [currentApiKeyIndex allKeysExhausted].
    destruct (Nat.leb_spec (List.length keys) (S (currentApiKeyIndex st))); cbn; lia.
  - destruct (negb (ok response)); [destruct (text _); assumption|].
    destruct (body response) as [e|data]; [assumption|].
    destruct (get data "choices"); [assumption|].
    destruct (negb (truthy _)); assumption.
Qed.

Lemma attemptRequest_keeps_range st log :
  (currentApiKeyIndex st < List.length keys)%nat ->
  (currentApiKeyIndex (snd (fst (attemptRequest env net opts st log))) < List.length keys)%nat.
Proof.
  remember (remaining env st) as n eqn:Hn.
  revert st log Hn. induction n as [n IH] using lt_wf_ind. intros st log Hn Hlt.
  rewrite attemptRequest_eq.
  pose proof (attemptOnce_keeps_range st log Hlt) as Hstep.
  destruct (attemptOnce env net opts st log) as [r st' log'|st' log'] eqn:E; [exact Hstep|].
  eapply (IH (remaining env st')); [|reflexivity|exact Hstep].
  subst n. clear - E Hlt Hstep. unfold remaining.
  apply Nat.ltb_lt in Hlt as Hl1. apply Nat.ltb_lt in Hstep as Hl2. rewrite Hl1, Hl2.
  revert E. unfold attemptOnce. rewrite getCurrentApiKey_in_range by assumption.
  destruct (keys !! currentApiKeyIndex st) as [key|]; [|discriminate].
  destruct (String.eqb key EmptyString); [discriminate|].
  destruct (net log _) as [e|response]; [discriminate|].
  destruct ((status response =? 429) && negb (allKeysExhausted st)).
  - unfold switchToNextKey. cbn [currentApiKeyIndex allKeysExhausted].
    destruct (Nat.leb_spec (List.length keys) (S (currentApiKeyIndex st))); [discriminate|].
    intros [= <- _]. cbn. lia.
  - destruct (negb (ok response)); [destruct (text _); discriminate|].
    destruct (body response) as [e|data]; [discriminate|].
    destruct (get data "choices"); [discriminate|].
    destruct (negb (truthy _)); discriminate.
Qed.

(** A pass sends at most one request; after a retry the cursor is still
    inside the list and one step further. *)
Lemma attemptOnce_log st log :
  match attemptOnce env net opts st log with
  | Done _ _ log' => log' = log \/ (exists req, log' = (log ++ [req])%list /\ keys <> [])
  | Retry st' log' =>
      (exists req, log' = (log ++ [req])%list)
      /\ (currentApiKeyIndex st < List.length keys)%nat
      /\ currentApiKeyIndex st' = S (currentApiKeyIndex st)
      /\ (currentApiKeyIndex st' < List.length keys)%nat
  end.
Proof.
  unfold attemptOnce, getCurrentApiKey.
  destruct (Nat.eqb_spec (List.length keys) 0) as [Hz|Hnz]; [now left|].
  assert (Hne : keys <> []) by (intros E; rewrite E in Hnz; cbn in Hnz; lia).
  destruct (Nat.leb_spec (List.length keys) (currentApiKeyIndex st)) as [Hge|Hlt];
    cbn [currentApiKeyIndex allKeysExhausted].
  - destruct (keys !! 0%nat) as [key|]; [|now left].
    destruct (String.eqb key EmptyString); [now left|].
    destruct (net log _) as [e|response]; [right; eauto|].
    rewrite andb_false_r.
    destruct (negb (ok response)); [destruct (text _); right; eauto|].
    destruct (body response) as [e|data]; [right; eauto|].
    destruct (get data "choices"); [right; eauto|].
    destruct (negb (truthy _)); right; eauto.
  - destruct (keys !! currentApiKeyIndex st) as [key|]; [|now left].
    destruct (String.eqb key EmptyString); [now left|].
    destruct (net log _) as [e|response]; [right; eauto|].
    destruct ((status response =? 429) && negb (allKeysExhausted st)).
    + unfold switchToNextKey. cbn [currentApiKeyIndex allKeysExhausted].
      destruct (Nat.leb_spec (List.length keys) (S (currentApiKeyIndex st)));
        [right; eauto|].
      cbn [currentApiKeyIndex]. eauto 10.
    + destruct (negb (ok response)); [destruct (text _); right; eauto|].
      destruct (body response) as [e|data]; [right; eauto|].
      destruct (get data "choices"); [right; eauto|].
      destruct (negb (truthy _)); right; eauto.
Qed.

(** From a cursor inside the list, the closure sends no more requests than
    there are keys from the cursor on. *)
Lemma attemptRequest_bounded_in_range n st log :
  (List.length keys - currentApiKeyIndex st = n)%nat ->
  (currentApiKeyIndex st < List.length keys)%nat ->
  exists added,
    snd (attemptRequest env net opts st log) = (log ++ added)%list
    /\ (List.length added <= n)%nat.
Proof.
  revert st log. induction n as [|n IH]; intros st log Hn Hlt; [lia|].
  rewrite attemptRequest_eq. pose proof (attemptOnce_log st log) as Hstep.
  destruct (attemptOnce env net opts st log) as [r st' log'|st' log'].
  - destruct Hstep as [->|(req & -> & _)]; cbn [snd].
    + exists []. rewrite app_nil_r. split; [reflexivity|cbn; lia].
    + exists [req]. split; [reflexivity|cbn; lia].
  - destruct Hstep as ((req & ->) & _ & Hnext & Hlt').
    destruct (Nat.eq_dec n 0) as [->|Hpos]; [lia|].
    destruct n as [|m]; [congruence|].
    destruct (IH st' (log ++ [req])%list ltac:(lia) Hlt') as (added & -> & Hlen).
    exists (req :: added). rewrite <- app_assoc. split; [reflexivity|cbn; lia].
Qed.

(** Whatever the cursor and whatever the network answers, a top-level call
    sends at most one request per configured key. *)
Lemma sendToGroq_requests_bounded st log :
  exists added,
    snd (sendToGroq env net opts st log) = (log ++ added)%list
    /\ (List.length added <= List.length keys)%nat.
Proof.
  unfold sendToGroq.
  destruct (Nat.lt_ge_cases (currentApiKeyIndex st) (List.length keys)) as [Hlt|Hge].
  - destruct (attemptRequest_bounded_in_range _ (mkState (currentApiKeyIndex st) false) log
                eq_refl Hlt) as (added & E & Hlen).
    exists added. split; [exact E|]. cbn [currentApiKeyIndex] in Hlen. lia.
  - rewrite attemptRequest_eq.
    pose proof (attemptOnce_log (mkState (currentApiKeyIndex st) false) log) as Hstep.
    destruct (attemptOnce env net opts _ log) as [r st' log'|st' log'].
    + destruct Hstep as [->|(req & -> & Hne)]; cbn [snd].
      * exists []. rewrite app_nil_r. split; [reflexivity|cbn; lia].
      * exists [req]. split; [reflexivity|]. destruct keys; [congruence|cbn; lia].
    + destruct Hstep as (_ & Hlt & _). cbn [currentApiKeyIndex] in Hlt. lia.
Qed.

Lemma substring_all s : String.substring 0 (String.length s) s = s.
Proof. induction s as [|a s IH]; cbn; [reflexivity|]. now rewrite IH. Qed.

Lemma bearer_of_chat_request key : bearer_of (chat_request key opts) = Some key.
Proof.
  unfold bearer_of, chat_request. cbn [req_headers]. f_equal.
  change ("Bearer " ++ key) with
    (String "B" (String "e" (String "a" (String "r" (String "e" (String "r" (String " " key))))))).
  cbn [String.length Nat.sub String.substring]. rewrite Nat.sub_0_r. apply substring_all.
Qed.

Lemma attempted_keys_chat_requests l :
  attempted_keys (map (fun key => chat_request key opts) l) = map Some l.
Proof.
  unfold attempted_keys. rewrite map_map.
  apply map_ext. intros key. apply bearer_of_chat_request.
Qed.

(** *** A call that no other call disturbs *)

(** A retry moves the cursor one key closer to the end of the list. *)
Lemma attemptOnce_retry_remaining st log st' log' :
  attemptOnce env net opts st log = Retry st' log' ->
  (remaining env st' < remaining env st)%nat.
Proof.
  intros E. pose proof (attemptOnce_log st log) as Hstep. rewrite E in Hstep.
  destruct Hstep as (_ & Hlt & Hnext & Hlt'). unfold remaining.
  apply Nat.ltb_lt in Hlt as ->. apply Nat.ltb_lt in Hlt' as Hb. rewrite Hb. lia.
Qed.

Lemma remaining_bounds st :
  (0 < remaining env st <= S (List.length keys))%nat.
Proof.
  unfold remaining. destruct (Nat.ltb_spec (currentApiKeyIndex st) (List.length keys)); lia.
Qed.

(** When the others leave the module variables alone, a pass among them
    is the pass of the call on its own. *)
Lemma attemptOnce_undisturbed others st log :
  Interleaved.undisturbed others ->
  Interleaved.attemptOnce env net others opts st log = attemptOnce env net opts st log.
Proof.
  intros Hquiet. unfold Interleaved.attemptOnce, attemptOnce.
  destruct (getCurrentApiKey env st) as [[key|] st1]; [|reflexivity].
  destruct (String.eqb key EmptyString); [reflexivity|].
  cbv zeta. rewrite !Hquiet. reflexivity.
Qed.

(** So is the closure, once the bound exceeds the passes it needs. *)
Lemma attemptRequest_undisturbed others :
  Interleaved.undisturbed others ->
  forall fuel st log,
    (remaining env st <= fuel)%nat ->
    Interleaved.attemptRequest fuel env net others opts st log
    = Some (attemptRequest env net opts st log).
Proof.
  intros Hquiet fuel. induction fuel as [|fuel IH]; intros st log Hfuel.
  - pose proof (remaining_bounds st). lia.
  - cbn [Interleaved.attemptRequest].
    rewrite (attemptOnce_undisturbed _ _ _ Hquiet), attemptRequest_eq.
    destruct (attemptOnce env net opts st log) as [r st' log'|st' log'] eqn:E; [reflexivity|].
    apply IH. pose proof (attemptOnce_retry_remaining _ _ _ _ E). lia.
Qed.

Lemma sendToGroq_undisturbed others fuel st log :
  Interleaved.undisturbed others ->
  (List.length keys < fuel)%nat ->
  Interleaved.sendToGroq fuel env net others opts st log
  = Some (sendToGroq env net opts st log).
Proof.
  intros Hquiet Hfuel. unfold Interleaved.sendToGroq, sendToGroq.
  apply attemptRequest_undisturbed; [exact Hquiet|].
  pose proof (remaining_bounds (mkState (currentApiKeyIndex st) false)). lia.
Qed.

(** C1 (amended): take a call that no other call overlaps: while it
    waits for an answer, no other sendToGroq call touches
    currentApiKeyIndex or allKeysExhausted.  With N > 0 credentials and
    the cursor at position k < N when the call starts, such a call, when
    it is rate-limited on every request, sends exactly one request for
    each credential from position k to the end of the list, in order, and
    then fails with the all-keys-exhausted error, leaving the cursor at
    0.  These are N - k requests, and all N credentials when k = 0.
    Whatever the cursor, such a call returns after at most N requests
    (the bound on the passes of the closure being larger than N). *)
Theorem sendToGroq_all429_from_cursor others fuel st log :
  Interleaved.undisturbed others ->
  (List.length keys < fuel)%nat ->
  (currentApiKeyIndex st < List.length keys)%nat ->
  all429 net ->
  Interleaved.sendToGroq fuel env net others opts st log =
    Some (failure exhausted_message, mkState 0 true,
          (log ++ map (fun key => chat_request key opts)
                      (drop (currentApiKeyIndex st) keys))%list)
  /\ attempted_keys (map (fun key => chat_request key opts) (drop (currentApiKeyIndex st) keys))
     = map Some (drop (currentApiKeyIndex st) keys)
  /\ List.length (drop (currentApiKeyIndex st) keys)
     = (List.length keys - currentApiKeyIndex st)%nat
  /\ (currentApiKeyIndex st = 0%nat -> drop (currentApiKeyIndex st) keys = keys)
  /\ (forall st0 log0, exists r st' added,
        Interleaved.sendToGroq fuel env net others opts st0 log0
        = Some (r, st', (log0 ++ added)%list)
        /\ (List.length added <= List.length keys)%nat).
Proof.
  intros Hquiet Hfuel Hlt Hnet. split; [|split; [|split; [|split]]].
  - rewrite (sendToGroq_undisturbed _ _ _ _ Hquiet Hfuel). f_equal.
    unfold sendToGroq. cbn [currentApiKeyIndex].
    eapply attemptRequest_all429; [exact Hnet|reflexivity|exact Hlt].
  - apply attempted_keys_chat_requests.
  - apply length_drop.
  - intros ->. reflexivity.
  - intros st0 log0. rewrite (sendToGroq_undisturbed _ _ _ _ Hquiet Hfuel).
    destruct (sendToGroq_requests_bounded st0 log0) as (added & E & Hlen).
    destruct (sendToGroq env net opts st0 log0) as [[r st'] log'].
    cbn [snd] in E. subst log'. eauto.
Qed.

(** One attempt that is answered with a failure status other than 429:
    nothing changes but the log, and the error carries the status when
    the text of the answer can be read. *)
Lemma attemptOnce_non429 st log key r :
  keys !! currentApiKeyIndex st = Some key ->
  net log (chat_request key opts) = Responded r ->
  ok r = false ->
  status r <> 429 ->
  attemptOnce env net opts st log =
  Done (failure (match text (body r) with
                 | inl e => exn_message e
                 | inr _ => "Groq API error: " ++ pretty (status r)
                 end)) st (log ++ [chat_request key opts]).
Proof.
  intros Hkey Hnet Hok H429. unfold attemptOnce.
  rewrite getCurrentApiKey_in_range by (eapply lookup_lt_Some; eassumption).
  rewrite Hkey, (lookup_key_nonempty _ _ Hkey), Hnet.
  apply Z.eqb_neq in H429. rewrite H429, Hok. cbn [andb negb].
  destruct (text (body r)); reflexivity.
Qed.

(** A whole call: if the first j requests are rate-limited and the next
    one fails with another status, the cursor has moved exactly j keys,
    once for each 429 and not for the failure that ends the call. *)
Lemma attemptRequest_rotates_on_429_only j :
  forall k log key r,
    keys !! (k + j)%nat = Some key ->
    (forall i, (i < j)%nat -> exists ki b,
        keys !! (k + i)%nat = Some ki
        /\ net (log ++ map (fun key => chat_request key opts) (take i (drop k keys)))%list
               (chat_request ki opts) = Responded (mkResponse 429 b)) ->
    net (log ++ map (fun key => chat_request key opts) (take j (drop k keys)))%list
        (chat_request key opts) = Responded r ->
    ok r = false ->
    status r <> 429 ->
    text (body r) = inr tt ->
    attemptRequest env net opts (mkState k false) log =
      (failure ("Groq API error: " ++ pretty (status r)), mkState (k + j) false,
       (log ++ map (fun key => chat_request key opts) (take (S j) (drop k keys)))%list).
Proof.
  induction j as [|j IH]; intros k log key r Hkey Hlimited Hnet Hok H429 Hread.
  - rewrite Nat.add_0_r in *. cbn [take map] in Hnet. rewrite app_nil_r in Hnet.
    rewrite attemptRequest_eq,
      (attemptOnce_non429 (mkState k false) log key r Hkey Hnet Hok H429), Hread.
    rewrite (drop_S _ _ _ Hkey). reflexivity.
  - destruct (Hlimited 0%nat ltac:(lia)) as (k0 & b & Hk0 & Hnet0).
    rewrite Nat.add_0_r in Hk0. cbn [take map] in Hnet0. rewrite app_nil_r in Hnet0.
    rewrite attemptRequest_eq, (attemptOnce_429 k k0 log b Hk0 Hnet0).
    assert (Hlen : (k + S j < List.length keys)%nat) by (eapply lookup_lt_Some; eassumption).
    destruct (Nat.leb_spec (List.length keys) (S k)) as [Hend|_]; [lia|].
    rewrite (drop_S _ _ _ Hk0) in *. cbn [take map] in *.
    rewrite (IH (S k) (log ++ [chat_request k0 opts])%list key r).
    + rewrite <- app_assoc. do 2 f_equal. f_equal. lia.
    + rewrite <- Hkey. f_equal. lia.
    + intros i Hi. destruct (Hlimited (S i) ltac:(lia)) as (ki & b' & Hki & Hneti).
      exists ki, b'. split; [rewrite <- Hki; f_equal; lia|].
      cbn [take map] in Hneti. rewrite <- app_assoc. exact Hneti.
    + rewrite <- app_assoc. exact Hnet.
    + exact Hok.
    + exact H429.
    + exact Hread.
Qed.

(** The same attempt among other calls: they may move the module
    variables while the call waits, the call itself writes nothing. *)
Lemma interleaved_attemptOnce_non429 others st log key r :
  keys !! currentApiKeyIndex st = Some key ->
  net log (chat_request key opts) = Responded r ->
  ok r = false ->
  status r <> 429 ->
  Interleaved.attemptOnce env net others opts st log =
  Done (failure (match text (body r) with
                 | inl e => exn_message e
                 | inr _ => "Groq API error: " ++ pretty (status r)
                 end))
       (others (log ++ [chat_request key opts])%list Interleaved.AwaitText
          (others (log ++ [chat_request key opts])%list Interleaved.AwaitFetch st))
       (log ++ [chat_request key opts]).
Proof.
  intros Hkey Hnet Hok H429. unfold Interleaved.attemptOnce.
  rewrite getCurrentApiKey_in_range by (eapply lookup_lt_Some; eassumption).
  rewrite Hkey, (lookup_key_nonempty _ _ Hkey). cbv zeta. rewrite Hnet.
  apply Z.eqb_neq in H429. rewrite H429, Hok. cbn [andb negb].
  destruct (text (body r)); reflexivity.
Qed.

(** C8 (amended): when the chat API answers the request of an attempt
    with a status that is neither 2xx nor 429, the attempt fails and
    leaves both module variables as they were; for the first attempt of
    a top-level call, the cursor after the call is the cursor before it,
    and exactly one request was sent.  The error carries the status when
    the text of the answer can be read; when reading it fails, the error
    is the message of that failure and names no status.  With other calls
    in flight the same holds of what the call itself does: it fails with
    the same error after the one request, and the module variables are
    what the others made of them while it waited.  The request of an
    attempt carries the key under the cursor, which lies inside the key
    list in every reachable state ([reachable_in_range]); a call that
    fails this way after some rate-limited attempts has moved the cursor
    once for each of those ([attemptRequest_rotates_on_429_only]). *)
Theorem non429_failure_keeps_cursor st log key r :
  keys !! currentApiKeyIndex st = Some key ->
  net log (chat_request key opts) = Responded r ->
  ok r = false ->
  status r <> 429 ->
  exists msg,
    (text (body r) = inr tt -> msg = "Groq API error: " ++ pretty (status r))
    /\ (forall e, text (body r) = inl e -> msg = exn_message e)
    /\ attemptRequest env net opts st log
       = (failure msg, st, (log ++ [chat_request key opts])%list)
    /\ sendToGroq env net opts st log
       = (failure msg, mkState (currentApiKeyIndex st) false,
          (log ++ [chat_request key opts])%list)
    /\ (forall others fuel, (0 < fuel)%nat ->
          Interleaved.sendToGroq fuel env net others opts st log
          = Some (failure msg,
                  others (log ++ [chat_request key opts])%list Interleaved.AwaitText
                    (others (log ++ [chat_request key opts])%list Interleaved.AwaitFetch
                       (mkState (currentApiKeyIndex st) false)),
                  (log ++ [chat_request key opts])%list)).
Proof.
  intros Hkey Hnet Hok H429.
  exists (match text (body r) with
          | inl e => exn_message e
          | inr _ => "Groq API error: " ++ pretty (status r)
          end).
  split; [intros ->; reflexivity|]. split; [intros e ->; reflexivity|].
  split; [|split].
  - now rewrite attemptRequest_eq, (attemptOnce_non429 st log key r).
  - unfold sendToGroq.
    now rewrite attemptRequest_eq, (attemptOnce_non429 (mkState _ false) log key r).
  - intros others fuel Hfuel. destruct fuel as [|fuel]; [lia|].
    unfold Interleaved.sendToGroq. cbn [Interleaved.attemptRequest].
    now rewrite (interleaved_attemptOnce_non429 others (mkState _ false) log key r).
Qed.

End GroqProperties.

Section GroqRuns.
Import JS Net Groq Scenario.

(** The cursor of a reachable state points into the key list. *)
Lemma reachable_in_range env st :
  reachable env st -> (0 < List.length (getApiKeys env))%nat ->
  (currentApiKeyIndex st < List.length (getApiKeys env))%nat.
Proof.
  intros Hreach Hpos. induction Hreach as [|net opts st log _ IH]; [exact Hpos|].
  unfold sendToGroq. apply attemptRequest_keeps_range. exact IH.
Qed.

Lemma always429_all429 : all429 always429.
Proof. intros log req. eexists. reflexivity. Qed.

Lemma alone_undisturbed : Interleaved.undisturbed Interleaved.alone.
Proof. intros log a st. reflexivity. Qed.

(** After a call in which the first credential is rate-limited and the
    second answers, the cursor rests on the second credential. *)
Lemma cursor_rests_on_second_key :
  sendToGroq two_keys first_key_limited no_messages initial [] =
  (succeeded (JStr "ok"), mkState 1 false,
   [chat_request "key-0" no_messages; chat_request "key-1" no_messages]).
Proof. vm_compute. reflexivity. Qed.

Lemma second_key_state_reachable : reachable two_keys (mkState 1 false).
Proof.
  pose proof (reach_send two_keys first_key_limited no_messages initial []
                (reach_initial two_keys)) as H.
  rewrite cursor_rests_on_second_key in H. exact H.
Qed.

(** C1 (as stated) fails: from the reachable state with the cursor on the
    second of two credentials, a call that is rate-limited on every
    request sends one request, for the second credential only, and not one
    for each of the two. *)
Lemma rotation_not_independent_of_cursor :
  reachable two_keys (mkState 1 false)
  /\ (0 < List.length (getApiKeys two_keys))%nat
  /\ all429 always429
  /\ fst (fst (sendToGroq two_keys always429 no_messages (mkState 1 false) []))
     = failure exhausted_message
  /\ attempted_keys (snd (sendToGroq two_keys always429 no_messages (mkState 1 false) []))
     = [Some "key-1"]
  /\ snd (sendToGroq two_keys always429 no_messages (mkState 1 false) [])
     <> map (fun key => chat_request key no_messages) (getApiKeys two_keys).
Proof.
  split; [exact second_key_state_reachable|].
  split; [cbn; lia|].
  split; [exact always429_all429|].
  split; [vm_compute; reflexivity|].
  split; [vm_compute; reflexivity|].
  vm_compute. discriminate.
Qed.

(** The condition of C1 (amended) is needed.  Two credentials, every
    request answered 429: when another call has moved the cursor on while
    this one waited for its first answer, this call finds the list
    exhausted after one request instead of two; and when the others have
    put the cursor back while it waited, it sends three requests with two
    keys. *)
Lemma overlap_changes_the_rotation :
  all429 always429
  /\ Interleaved.sendToGroq 3 two_keys always429 overtaken no_messages initial []
     = Some (failure exhausted_message, mkState 0 true, [chat_request "key-0" no_messages])
  /\ Interleaved.sendToGroq 3 two_keys always429 rewound no_messages initial []
     = Some (failure exhausted_message, mkState 0 true,
             [chat_request "key-0" no_messages; chat_request "key-1" no_messages;
              chat_request "key-1" no_messages]).
Proof.
  split; [exact always429_all429|]. split; vm_compute; reflexivity.
Qed.

Lemma sendToGroq_all429_from_cursor_witness :
  Interleaved.undisturbed Interleaved.alone
  /\ (List.length (getApiKeys two_keys) < 3)%nat
  /\ (currentApiKeyIndex (mkState 1 false) < List.length (getApiKeys two_keys))%nat
  /\ all429 always429
  /\ Interleaved.sendToGroq 3 two_keys always429 Interleaved.alone no_messages
       (mkState 1 false) [] =
       Some (failure exhausted_message, mkState 0 true, [chat_request "key-1" no_messages]).
Proof.
  assert (Hfuel : (List.length (getApiKeys two_keys) < 3)%nat) by (cbn; lia).
  assert (Hcursor : (currentApiKeyIndex (mkState 1 false)
                     < List.length (getApiKeys two_keys))%nat) by (cbn; lia).
  split; [exact alone_undisturbed|]. split; [exact Hfuel|].
  split; [exact Hcursor|]. split; [exact always429_all429|].
  exact (proj1 (sendToGroq_all429_from_cursor two_keys always429 no_messages
                  Interleaved.alone 3 (mkState 1 false) []
                  alone_undisturbed Hfuel Hcursor always429_all429)).
Defined.

(** C8 (as stated) fails: a 503 whose text cannot be read is reported with
    the message of the read failure, which does not carry the status. *)
Lemma unread_failure_loses_the_status :
  getApiKeys two_keys !! currentApiKeyIndex (mkState 1 false) = Some "key-1"
  /\ broken_503 [] (chat_request "key-1" no_messages)
     = Responded (mkResponse 503 (NotJson (ErrorMsg "terminated") false))
  /\ ok (mkResponse 503 (NotJson (ErrorMsg "terminated") false)) = false
  /\ sendToGroq two_keys broken_503 no_messages (mkState 1 false) [] =
       (failure "terminated", mkState 1 false, [chat_request "key-1" no_messages])
  /\ includes "503" "terminated" = false
  /\ fst (fst (sendToGroq two_keys broken_503 no_messages (mkState 1 false) []))
     <> failure "Groq API error: 503".
Proof.
  split; [reflexivity|]. split; [reflexivity|]. split; [reflexivity|].
  split; [vm_compute; reflexivity|]. split; [vm_compute; reflexivity|].
  vm_compute. discriminate.
Qed.

Lemma non429_failure_keeps_cursor_witness :
  getApiKeys two_keys !! currentApiKeyIndex (mkState 1 false) = Some "key-1"
  /\ always503 [] (chat_request "key-1" no_messages)
     = Responded (mkResponse 503 (NotJson NonError true))
  /\ ok (mkResponse 503 (NotJson NonError true)) = false
  /\ status (mkResponse 503 (NotJson NonError true)) <> 429
  /\ sendToGroq two_keys always503 no_messages (mkState 1 false) [] =
       (failure "Groq API error: 503", mkState 1 false, [chat_request "key-1" no_messages])
  /\ exists msg,
       (text (body (mkResponse 503 (NotJson NonError true))) = inr tt ->
        msg = "Groq API error: " ++ pretty (status (mkResponse 503 (NotJson NonError true))))
       /\ sendToGroq two_keys always503 no_messages (mkState 1 false) [] =
            (failure msg, mkState 1 false, [chat_request "key-1" no_messages]).
Proof.
  assert (Hstatus : status (mkResponse 503 (NotJson NonError true)) <> 429) by (cbn; lia).
  split; [reflexivity|]. split; [reflexivity|]. split; [reflexivity|].
  split; [exact Hstatus|]. split; [vm_compute; reflexivity|].
  destruct (non429_failure_keeps_cursor two_keys always503 no_messages
              (mkState 1 false) [] "key-1" (mkResponse 503 (NotJson NonError true))
              eq_refl eq_refl eq_refl Hstatus)
    as (msg & Hread & _ & _ & Hsend & _).
  exists msg. split; [exact Hread|exact Hsend].
Defined.

End GroqRuns.

(** ** Paths: split, join and the parent of a path *)

Section PathFacts.
Import JS.

Variable c : ascii.

Lemma split_not_nil s : split c s <> [].
Proof.
  destruct s as [|a s]; cbn; [discriminate|].
  destruct (Ascii.eqb a c); [discriminate|].
  destruct (split c s); discriminate.
Qed.

Lemma split_parts_free s : Forall (fun p => has_char c p = false) (split c s).
Proof.
  induction s as [|a s IH]; cbn.
  - repeat constructor.
  - destruct (Ascii.eqb a c) eqn:E.
    + constructor; [reflexivity|exact IH].
    + destruct (split c s) as [|h t]; [repeat constructor; cbn; now rewrite E|].
      inversion IH as [|? ? Hh Ht]; subst.
      constructor; [cbn; now rewrite E|exact Ht].
Qed.

Lemma split_free s : has_char c s = false -> split c s = [s].
Proof.
  induction s as [|a s IH]; cbn; [reflexivity|].
  destruct (Ascii.eqb a c); cbn; [discriminate|].
  intros H. now rewrite (IH H).
Qed.

Lemma append_cons a s t : String a s ++ t = String a (s ++ t).
Proof. reflexivity. Qed.

Lemma split_app_sep s rest :
  has_char c s = false ->
  split c (s ++ String c rest) = s :: split c rest.
Proof.
  induction s as [|a s IH].
  - intros _. change (EmptyString ++ String c rest) with (String c rest).
    cbn. now rewrite Ascii.eqb_refl.
  - rewrite append_cons. cbn. destruct (Ascii.eqb a c); cbn; [discriminate|].
    intros H. now rewrite (IH H).
Qed.

Lemma split_join l :
  l <> [] -> Forall (fun p => has_char c p = false) l ->
  split c (join (String c EmptyString) l) = l.
Proof.
  induction l as [|x l IH]; [congruence|]. intros _ Hfree.
  inversion Hfree as [|? ? Hx Hl]; subst.
  destruct l as [|y l].
  - cbn. now apply split_free.
  - change (join (String c EmptyString) (x :: y :: l))
      with (x ++ String c EmptyString ++ join (String c EmptyString) (y :: l)).
    change (String c EmptyString ++ join (String c EmptyString) (y :: l))
      with (String c (join (String c EmptyString) (y :: l))).
    rewrite split_app_sep by assumption.
    now rewrite IH.
Qed.

End PathFacts.

Section ParentPath.
Import JS Tree.

Lemma Forall_removelast {A} (P : A -> Prop) (l : list A) :
  Forall P l -> Forall P (removelast l).
Proof.
  induction 1 as [|x l Hx Hl IH]; cbn; [constructor|].
  destruct l; [constructor|]. constructor; assumption.
Qed.

Lemma length_removelast {A} (l : list A) :
  l <> [] -> S (List.length (removelast l)) = List.length l.
Proof.
  induction l as [|x l IH]; [congruence|]. intros _.
  destruct l as [|y l]; [reflexivity|].
  change (removelast (x :: y :: l)) with (x :: removelast (y :: l)).
  cbn [List.length]. now rewrite IH.
Qed.

(** A non-empty parent path has exactly one segment less than the path. *)
Lemma depth_parentPath p :
  parentPath p <> EmptyString -> depth (parentPath p) = depth p - 1.
Proof.
  unfold parentPath, depth, slice_init. intros Hne.
  assert (Hnil : removelast (split "/" p) <> []).
  { intros E. apply Hne. now rewrite E. }
  rewrite split_join;
    [|exact Hnil|apply Forall_removelast, split_parts_free].
  pose proof (length_removelast (split "/" p) (split_not_nil _ _)). lia.
Qed.

Lemma parentPath_neq p : parentPath p <> EmptyString -> parentPath p <> p.
Proof.
  intros Hne E. pose proof (depth_parentPath p Hne) as H. rewrite E in H. lia.
Qed.

End ParentPath.

(** ** The tree builder: sorting *)

Section SortProperties.
Import JS Tree.

Variable localeCompare : string -> string -> Z.

Local Abbreviation compare := (compare_items localeCompare).
Local Abbreviation insert := (insert_item localeCompare).
Local Abbreviation sorted := (sortedItems localeCompare).

Lemma compare_le_precedes x y : compare x y <= 0 -> precedes x y.
Proof.
  unfold compare_items, precedes, kind_rank.
  destruct (Z.eqb_spec (depth (item_path x)) (depth (item_path y))) as [E|N]; cbn.
  - intros H. right. split; [exact E|].
    destruct (is_tree x), (is_tree y); cbn in *; lia.
  - intros H. left. lia.
Qed.

Lemma compare_gt_precedes x y : 0 < compare x y -> precedes y x.
Proof.
  unfold compare_items, precedes, kind_rank.
  destruct (Z.eqb_spec (depth (item_path x)) (depth (item_path y))) as [E|N]; cbn.
  - intros H. right. split; [now symmetry|].
    destruct (is_tree x), (is_tree y); cbn in *; lia.
  - intros H. left. lia.
Qed.

Lemma precedes_trans x y z : precedes x y -> precedes y z -> precedes x z.
Proof. unfold precedes. intros [H1|[H1 H1']] [H2|[H2 H2']]; [left|left|left|right]; lia. Qed.

Lemma insert_perm x l : insert x l ≡ₚ x :: l.
Proof.
  induction l as [|y l IH]; cbn; [reflexivity|].
  destruct (compare x y <=? 0); [reflexivity|].
  rewrite IH. apply Permutation_swap.
Qed.

Lemma sortedItems_perm items : sorted items ≡ₚ items.
Proof.
  induction items as [|x l IH]; cbn; [reflexivity|].
  fold (sorted l). now rewrite insert_perm, IH.
Qed.

Lemma insert_sorted x l :
  StronglySorted precedes l -> StronglySorted precedes (insert x l).
Proof.
  induction 1 as [|y l Hl IH Hy]; cbn.
  - repeat constructor.
  - destruct (Z.leb_spec (compare x y) 0) as [Hle|Hgt].
    + apply compare_le_precedes in Hle.
      constructor; [constructor; assumption|].
      constructor; [exact Hle|].
      eapply Forall_impl; [exact Hy|]. intros z Hz. eapply precedes_trans; eassumption.
    + apply compare_gt_precedes in Hgt.
      constructor; [exact IH|].
      rewrite insert_perm. constructor; assumption.
Qed.

Lemma sortedItems_sorted items : StronglySorted precedes (sorted items).
Proof.
  induction items as [|x l IH]; cbn; [constructor|].
  apply insert_sorted, IH.
Qed.

Lemma StronglySorted_lookup_lt {A} (R : A -> A -> Prop) (l : list A) i j x y :
  StronglySorted R l -> l !! i = Some x -> l !! j = Some y -> (i < j)%nat -> R x y.
Proof.
  intros Hs. revert i j. induction Hs as [|z l Hl IH Hz]; intros i j Hi Hj Hlt.
  - discriminate.
  - destruct j as [|j]; [lia|]. destruct i as [|i].
    + cbn in Hi, Hj. injection Hi as <-.
      rewrite Forall_forall in Hz. apply Hz.
      eapply list_elem_of_lookup_2; eassumption.
    + cbn in Hi, Hj. eapply IH; [eassumption..|lia].
Qed.

(** In the sorted list, an entry that strictly precedes another comes first. *)
Lemma sorted_position items i j x y :
  sorted items !! i = Some x -> sorted items !! j = Some y ->
  ~ precedes y x -> (i < j)%nat.
Proof.
  intros Hi Hj Hnot.
  destruct (Nat.lt_trichotomy i j) as [Hlt|[->|Hgt]]; [exact Hlt|exfalso..].
  - rewrite Hi in Hj. injection Hj as <-. apply Hnot. right. split; [reflexivity|]. lia.
  - apply Hnot.
    eapply (StronglySorted_lookup_lt precedes); [apply sortedItems_sorted|eassumption..].
Qed.

(** C3: for the entries a/b.txt (blob), a (tree), c.txt (blob), the built
    hierarchy has the folder a and the file c.txt at the root and b.txt as
    the only child of a; in the sorted list, of two entries at the same
    depth a tree entry stands before a non-tree entry, and the entry whose
    path is the non-empty parent path of another stands before it. *)
Theorem buildFileTree_nests_and_orders :
  (forall sha_b sha_a sha_c mode_b mode_a mode_c size_b size_a size_c,
     buildFileTree localeCompare
       [mkItem "a/b.txt" mode_b "blob" sha_b size_b;
        mkItem "a" mode_a "tree" sha_a size_a;
        mkItem "c.txt" mode_c "blob" sha_c size_c]
     = [mkFileNode sha_a "a" folder "a"
          (Some [mkFileNode sha_b "b.txt" file "a/b.txt" None]);
        mkFileNode sha_c "c.txt" file "c.txt" None])
  /\ (forall items i j x y,
        sorted items !! i = Some x -> sorted items !! j = Some y ->
        depth (item_path x) = depth (item_path y) ->
        is_tree x = true -> is_tree y = false ->
        (i < j)%nat)
  /\ (forall items i j p ch,
        sorted items !! i = Some p -> sorted items !! j = Some ch ->
        parentPath (item_path ch) <> EmptyString ->
        item_path p = parentPath (item_path ch) ->
        (i < j)%nat)
  /\ (forall items, sorted items ≡ₚ items).
Proof.
  split; [|split; [|split]].
  - intros. vm_compute. reflexivity.
  - intros items i j x y Hi Hj Hd Hx Hy. eapply sorted_position; [eassumption..|].
    unfold precedes, kind_rank. rewrite Hx, Hy. lia.
  - intros items i j p ch Hi Hj Hne Hp. eapply sorted_position; [eassumption..|].
    pose proof (depth_parentPath _ Hne) as Hd. rewrite <- Hp in Hd.
    unfold precedes. lia.
  - apply sortedItems_perm.
Qed.

End SortProperties.

(** ** The tree builder: the loop *)

Section BuildProperties.
Import JS Tree.

Variable items : list GitHubTreeItem.

Lemma push_child_length h p c : List.length (push_child h p c) = List.length h.
Proof.
  unfold push_child. destruct (h !! p) as [o|]; [|reflexivity].
  destruct (o_children o); [|reflexivity]. apply length_insert.
Qed.

(** [push] changes one [children] array and nothing else. *)
Lemma push_child_lookup h p c a o' :
  push_child h p c !! a = Some o' ->
  exists o, h !! a = Some o /\ o_path o' = o_path o
    /\ (o_children o' = o_children o
        \/ (a = p /\ exists cs, o_children o = Some cs /\ o_children o' = Some (cs ++ [c])%list)).
Proof.
  unfold push_child. destruct (h !! p) as [parent|] eqn:Hp; [|eauto].
  destruct (o_children parent) as [cs|] eqn:Hcs; [|eauto].
  destruct (decide (p = a)) as [->|Hne].
  - rewrite list_lookup_insert_eq by (eapply lookup_lt_Some; eassumption).
    intros [= <-]. exists parent. cbn. eauto 10.
  - rewrite list_lookup_insert_ne by assumption. eauto.
Qed.

Lemma push_child_lookup_fwd h p c a o :
  h !! a = Some o ->
  exists o', push_child h p c !! a = Some o' /\ o_path o' = o_path o.
Proof.
  intros Ha. unfold push_child. destruct (h !! p) as [parent|] eqn:Hp; [|eauto].
  destruct (o_children parent) as [cs|] eqn:Hcs; [|eauto].
  destruct (decide (p = a)) as [->|Hne].
  - rewrite list_lookup_insert_eq by (eapply lookup_lt_Some; eassumption).
    rewrite Ha in Hp. injection Hp as <-. eexists. split; [reflexivity|reflexivity].
  - rewrite list_lookup_insert_ne by assumption. eauto.
Qed.

Lemma well_formed_empty : well_formed items (mkBuild [] [] ∅).
Proof.
  constructor; cbn.
  - intros a o H. try rewrite lookup_nil in H; discriminate H.
  - intros k a H. try rewrite lookup_empty in H; discriminate H.
  - intros a [H|(p & o & cs & H & _)].
    + apply elem_of_nil in H as [].
    + try rewrite lookup_nil in H; discriminate H.
  - intros a H. apply elem_of_nil in H as [].
  - intros p o cs c H. try rewrite lookup_nil in H; discriminate H.
Qed.

(** Allocating the object of an entry and registering it in [nodeMap]. *)
Lemma alloc_well_formed st item name :
  item ∈ items -> well_formed items st ->
  well_formed items
    (mkBuild (heap st ++ [mkObj (item_sha item) name (if is_tree item then folder else file)
                                (item_path item) (if is_tree item then Some [] else None)])
             (root st) (<[item_path item := List.length (heap st)]> (nodeMap st))).
Proof.
  intros Hin [Hfolder Hmap Hatt Hroot Hch].
  constructor; cbn [heap root nodeMap].
  - intros a o Ha Hsome. apply lookup_snoc_Some in Ha as [[_ Ha]|[_ <-]]; [eauto|].
    cbn in *. exists item. destruct (is_tree item); [auto|congruence].
  - intros k a Hk. apply lookup_insert_Some in Hk as [[<- <-]|[_ Hk]].
    + eexists. split; [apply list_lookup_middle; reflexivity|reflexivity].
    + destruct (Hmap _ _ Hk) as (o & Ho & Hp). exists o. split; [|exact Hp].
      rewrite lookup_app_l by (eapply lookup_lt_Some; eassumption). exact Ho.
  - intros a Hatt'.
    assert (Hold : attached st a).
    { destruct Hatt' as [Hr|(p & o & cs & Hp & Hcs & Hc)]; [left; exact Hr|].
      apply lookup_snoc_Some in Hp as [[_ Hp]|[_ <-]].
      - right. eauto 10.
      - cbn in Hcs. destruct (is_tree item); [|discriminate].
        injection Hcs as <-. apply elem_of_nil in Hc as []. }
    destruct (Hatt _ Hold) as (o & Ho & Hgood). exists o. split; [|exact Hgood].
    rewrite lookup_app_l by (eapply lookup_lt_Some; eassumption). exact Ho.
  - intros a Ha. rewrite length_app. cbn. specialize (Hroot _ Ha). lia.
  - intros p o cs c Hp Hcs Hc. rewrite length_app. cbn.
    apply lookup_snoc_Some in Hp as [[_ Hp]|[_ <-]].
    + specialize (Hch _ _ _ _ Hp Hcs Hc). lia.
    + cbn in Hcs. destruct (is_tree item); [|discriminate].
      injection Hcs as <-. apply elem_of_nil in Hc as [].
Qed.

(** [root.push(node)]. *)
Lemma root_push_well_formed st a o :
  well_formed items st ->
  heap st !! a = Some o -> placeable items (o_path o) ->
  well_formed items (mkBuild (heap st) (root st ++ [a]) (nodeMap st)).
Proof.
  intros [Hfolder Hmap Hatt Hroot Hch] Ha Hgood.
  constructor; cbn [heap root nodeMap]; try assumption.
  - intros b [Hb|Hb].
    + apply elem_of_app in Hb as [Hb|Hb]; [apply Hatt; left; exact Hb|].
      apply list_elem_of_singleton in Hb as ->. eauto.
    + apply Hatt. right. exact Hb.
  - intros b Hb. apply elem_of_app in Hb as [Hb|Hb]; [auto|].
    apply list_elem_of_singleton in Hb as ->. eapply lookup_lt_Some; eassumption.
Qed.

(** [parent.children.push(node)]. *)
Lemma push_child_well_formed st p c oc :
  well_formed items st ->
  (p < c)%nat -> heap st !! c = Some oc ->
  (forall o, heap st !! p = Some o -> o_children o <> None -> placeable items (o_path oc)) ->
  well_formed items (mkBuild (push_child (heap st) p c) (root st) (nodeMap st)).
Proof.
  intros [Hfolder Hmap Hatt Hroot Hch] Hlt Hc Hgood.
  constructor; cbn [heap root nodeMap].
  - intros a o' Ha Hsome.
    destruct (push_child_lookup _ _ _ _ _ Ha) as (o & Ho & Hpath & Hkids).
    rewrite Hpath. apply (Hfolder a o Ho).
    destruct Hkids as [E|(_ & cs & E & _)]; congruence.
  - intros k a Hk. destruct (Hmap _ _ Hk) as (o & Ho & Hp).
    destruct (push_child_lookup_fwd (heap st) p c a o Ho) as (o' & Ho' & Hp').
    exists o'. split; [exact Ho'|congruence].
  - intros a Hatt'.
    assert (Hcase : attached st a \/
                    (a = c /\ exists o, heap st !! p = Some o /\ o_children o <> None)).
    { destruct Hatt' as [Hr|(q & o' & cs' & Hq & Hcs' & Hin)]; [left; left; exact Hr|].
      destruct (push_child_lookup _ _ _ _ _ Hq) as (o & Ho & _ & Hkids).
      destruct Hkids as [E|(-> & cs & E & E')].
      - left. right. exists q, o, cs'. rewrite <- E. auto.
      - rewrite E' in Hcs'. injection Hcs' as <-.
        apply elem_of_app in Hin as [Hin|Hin].
        + left. right. eauto 10.
        + apply list_elem_of_singleton in Hin as ->. right. split; [reflexivity|].
          exists o. split; [exact Ho|congruence]. }
    destruct Hcase as [Hold|(-> & o & Ho & Hsome)].
    + destruct (Hatt _ Hold) as (o & Ho & Hg).
      destruct (push_child_lookup_fwd (heap st) p c a o Ho) as (o' & Ho' & Hp').
      exists o'. split; [exact Ho'|]. now rewrite Hp'.
    + destruct (push_child_lookup_fwd (heap st) p c c oc Hc) as (o' & Ho' & Hp').
      exists o'. split; [exact Ho'|]. rewrite Hp'. eapply Hgood; eassumption.
  - intros a Ha. rewrite push_child_length. auto.
  - intros q o' cs' b Hq Hcs' Hin. rewrite push_child_length.
    destruct (push_child_lookup _ _ _ _ _ Hq) as (o & Ho & _ & Hkids).
    destruct Hkids as [E|(-> & cs & E & E')].
    + eapply Hch; [exact Ho|rewrite <- E; exact Hcs'|exact Hin].
    + rewrite E' in Hcs'. injection Hcs' as <-.
      apply elem_of_app in Hin as [Hin|Hin]; [eapply Hch; eassumption|].
      apply list_elem_of_singleton in Hin as ->.
      split; [exact Hlt|]. eapply lookup_lt_Some; eassumption.
Qed.

Lemma add_item_well_formed st item :
  item ∈ items -> well_formed items st -> well_formed items (add_item st item).
Proof.
  intros Hin Hwf. unfold add_item.
  set (name := default EmptyString (pop (split "/" (item_path item)))).
  set (node := mkObj (item_sha item) name (if is_tree item then folder else file)
                     (item_path item) (if is_tree item then Some [] else None)).
  fold (parentPath (item_path item)).
  pose proof (alloc_well_formed st item name Hin Hwf) as Hwf1. fold node in Hwf1.
  assert (Hnode : (heap st ++ [node])%list !! List.length (heap st) = Some node)
    by (apply list_lookup_middle; reflexivity).
  destruct (String.eqb_spec (parentPath (item_path item)) EmptyString) as [Hroot|Hne].
  - apply (root_push_well_formed _ _ node Hwf1 Hnode). left. exact Hroot.
  - destruct (_ !! parentPath (item_path item)) as [p|] eqn:Hlook; [|exact Hwf1].
    assert (Hold : nodeMap st !! parentPath (item_path item) = Some p).
    { apply lookup_insert_Some in Hlook as [[E _]|[_ H]]; [|exact H].
      exfalso. cbn in E. now apply (parentPath_neq (item_path item)). }
    destruct (wf_map _ _ Hwf _ _ Hold) as (po & Hpo & Hpath).
    apply (push_child_well_formed _ _ _ node Hwf1); cbn [heap].
    + eapply lookup_lt_Some; eassumption.
    + exact Hnode.
    + intros o Ho Hsome. right. cbn [o_path node].
      destruct (wf_folder _ _ Hwf1 _ _ Ho Hsome) as (t & Ht & Htree & Htp).
      exists t. split; [exact Ht|]. split; [exact Htree|].
      rewrite Htp. cbn [heap] in Ho.
      rewrite lookup_app_l in Ho by (eapply lookup_lt_Some; eassumption).
      congruence.
Qed.

(** The loop allocates an object for the entry and never drops one. *)
Lemma add_item_keeps st item a o :
  heap st !! a = Some o ->
  exists o', heap (add_item st item) !! a = Some o' /\ o_path o' = o_path o.
Proof.
  intros Ha. unfold add_item.
  set (node := mkObj _ _ _ _ _).
  assert (H1 : (heap st ++ [node])%list !! a = Some o)
    by (rewrite lookup_app_l by (eapply lookup_lt_Some; eassumption); exact Ha).
  destruct (String.eqb _ EmptyString); cbn [heap]; [eauto|].
  destruct (<[_:=_]> (nodeMap st) !! _) as [p|]; cbn [heap]; [|eauto].
  apply push_child_lookup_fwd. exact H1.
Qed.

Lemma add_item_allocates st item :
  exists o', heap (add_item st item) !! List.length (heap st) = Some o'
             /\ o_path o' = item_path item.
Proof.
  unfold add_item.
  set (node := mkObj _ _ _ _ _).
  assert (H1 : (heap st ++ [node])%list !! List.length (heap st) = Some node)
    by (apply list_lookup_middle; reflexivity).
  destruct (String.eqb _ EmptyString); cbn [heap]; [eauto|].
  destruct (<[_:=_]> (nodeMap st) !! _) as [p|]; cbn [heap]; [|eauto].
  destruct (push_child_lookup_fwd _ p (List.length (heap st)) _ _ H1) as (o' & Ho' & Hp).
  eauto.
Qed.

Lemma fold_add_item_keeps l st a o :
  heap st !! a = Some o ->
  exists o', heap (fold_left add_item l st) !! a = Some o' /\ o_path o' = o_path o.
Proof.
  revert st o. induction l as [|x l IH]; intros st o Ha; cbn; [eauto|].
  destruct (add_item_keeps st x a o Ha) as (o1 & H1 & P1).
  destruct (IH _ _ H1) as (o2 & H2 & P2). exists o2. split; [exact H2|congruence].
Qed.

Lemma fold_add_item_allocates l st x :
  x ∈ l ->
  exists a o, heap (fold_left add_item l st) !! a = Some o /\ o_path o = item_path x.
Proof.
  revert st. induction l as [|y l IH]; intros st Hx; [apply elem_of_nil in Hx as []|].
  cbn. apply elem_of_cons in Hx as [->|Hx]; [|apply IH; exact Hx].
  destruct (add_item_allocates st y) as (o1 & H1 & P1).
  destruct (fold_add_item_keeps l _ _ _ H1) as (o2 & H2 & P2).
  exists (List.length (heap st)), o2. split; [exact H2|congruence].
Qed.

Lemma fold_add_item_well_formed l st :
  Forall (fun x => x ∈ items) l -> well_formed items st ->
  well_formed items (fold_left add_item l st).
Proof.
  intros Hall. revert st. induction Hall as [|x l Hx _ IH]; intros st Hwf; cbn; [exact Hwf|].
  apply IH, add_item_well_formed; assumption.
Qed.

End BuildProperties.

(** ** The tree builder: reading the hierarchy back *)

Section ReadBack.
Import JS Tree.

Variable h : list NodeObj.

Hypothesis forward : forall p o cs c,
  h !! p = Some o -> o_children o = Some cs -> c ∈ cs -> (p < c < List.length h)%nat.

(** References point forward, so the object graph is a forest and reading
    it takes at most one unit of fuel per heap cell. *)
Lemma read_node_total fuel a :
  (a < List.length h)%nat -> (List.length h - a <= fuel)%nat ->
  is_Some (read_node fuel h a).
Proof.
  revert a. induction fuel as [|fuel IH]; intros a Ha Hfuel; [lia|].
  cbn [read_node].
  destruct (lookup_lt_is_Some_2 h a Ha) as [o Ho]. rewrite Ho.
  destruct (o_children o) as [cs|] eqn:Hcs; [|eauto].
  assert (Hall : is_Some (mapM (read_node fuel h) cs)).
  { apply mapM_is_Some, Forall_forall. intros c Hc.
    destruct (forward _ _ _ _ Ho Hcs Hc). apply IH; lia. }
  destruct Hall as [nodes ->]. eauto.
Qed.

End ReadBack.

Section ReadBackPaths.
Import JS Tree.

Variable h : list NodeObj.

(** Every path in a node that was read back is the path of the object
    read, or of an object some [children] array refers to. *)
Lemma read_node_paths fuel a n q :
  read_node fuel h a = Some n -> In q (paths_of n) ->
  exists b o, h !! b = Some o /\ o_path o = q
    /\ (b = a \/ exists p po cs, h !! p = Some po /\ o_children po = Some cs /\ b ∈ cs).
Proof.
  revert a n q. induction fuel as [|fuel IH]; intros a n q; [discriminate|].
  cbn [read_node]. destruct (h !! a) as [o|] eqn:Ho; [|discriminate].
  destruct (o_children o) as [cs|] eqn:Hcs.
  - destruct (mapM (read_node fuel h) cs) as [nodes|] eqn:Hm; [|discriminate].
    intros [= <-]. cbn [paths_of]. intros [<-|Hq]; [eauto 10|].
    apply in_concat in Hq as (ps & Hps & Hq).
    apply in_map_iff in Hps as (m & <- & Hm').
    apply mapM_Some_1 in Hm.
    apply list_elem_of_In, list_elem_of_lookup_1 in Hm' as [i Hi].
    destruct (Forall2_lookup_r _ _ _ _ _ Hm Hi) as (c & Hc & Hread).
    destruct (IH _ _ _ Hread Hq) as (b & ob & Hb & Hpath & Hwhere).
    exists b, ob. split; [exact Hb|]. split; [exact Hpath|]. right.
    destruct Hwhere as [->|Hdeep]; [|exact Hdeep].
    exists a, o, cs. split; [exact Ho|]. split; [exact Hcs|].
    eapply list_elem_of_lookup_2; eassumption.
  - intros [= <-]. cbn [paths_of]. intros [<-|[]]. eauto 10.
Qed.

End ReadBackPaths.

Section OrphanEntries.
Import JS Tree.

Variable localeCompare : string -> string -> Z.

Lemma build_well_formed items : well_formed items (build localeCompare items).
Proof.
  unfold build. apply fold_add_item_well_formed; [|apply well_formed_empty].
  apply Forall_forall. intros x Hx. now rewrite sortedItems_perm in Hx.
Qed.

(** The read-back in [buildFileTree] never fails. *)
Lemma buildFileTree_reads items :
  read_nodes (heap (build localeCompare items)) (root (build localeCompare items))
  = Some (buildFileTree localeCompare items).
Proof.
  unfold buildFileTree.
  pose proof (build_well_formed items) as Hwf.
  assert (Hsome : is_Some (read_nodes (heap (build localeCompare items))
                                      (root (build localeCompare items)))).
  { unfold read_nodes. apply mapM_is_Some, Forall_forall. intros a Ha.
    apply read_node_total; [apply (wf_children _ _ Hwf)|apply (wf_root _ _ Hwf a Ha)|lia]. }
  destruct Hsome as [nodes ->]. reflexivity.
Qed.

(** Every path of the returned hierarchy belongs to a referenced object. *)
Lemma buildFileTree_paths_attached items q :
  In q (paths_in (buildFileTree localeCompare items)) ->
  exists a o, heap (build localeCompare items) !! a = Some o /\ o_path o = q
    /\ attached (build localeCompare items) a.
Proof.
  pose proof (buildFileTree_reads items) as Hread. unfold read_nodes in Hread.
  apply mapM_Some_1 in Hread.
  unfold paths_in. intros Hq.
  apply in_concat in Hq as (ps & Hps & Hq).
  apply in_map_iff in Hps as (n & <- & Hn).
  apply list_elem_of_In, list_elem_of_lookup_1 in Hn as [i Hi].
  destruct (Forall2_lookup_r _ _ _ _ _ Hread Hi) as (r & Hr & Hnode).
  destruct (read_node_paths _ _ _ _ _ Hnode Hq) as (b & o & Hb & Hpath & Hwhere).
  exists b, o. split; [exact Hb|]. split; [exact Hpath|].
  destruct Hwhere as [->|Hdeep]; [left|right; exact Hdeep].
  eapply list_elem_of_lookup_2; eassumption.
Qed.

(** C9: an entry whose parent path is non-empty and is the path of no
    tree entry of the list is left out of the result: an object is made
    for it, but no object carrying its path is pushed to the root list or
    to a children array, its path occurs nowhere in the returned
    hierarchy, and the function returns normally. *)
Theorem orphan_entry_omitted items e :
  e ∈ items ->
  parentPath (item_path e) <> EmptyString ->
  (forall t, t ∈ items -> is_tree t = true -> item_path t <> parentPath (item_path e)) ->
  (exists a o, heap (build localeCompare items) !! a = Some o /\ o_path o = item_path e)
  /\ (forall a o, heap (build localeCompare items) !! a = Some o ->
               o_path o = item_path e -> ~ attached (build localeCompare items) a)
  /\ ~ In (item_path e) (paths_in (buildFileTree localeCompare items))
  /\ read_nodes (heap (build localeCompare items)) (root (build localeCompare items))
     = Some (buildFileTree localeCompare items).
Proof.
  intros Hin Hne Horphan.
  assert (Hnot : ~ placeable items (item_path e)).
  { intros [Hroot|(t & Ht & Htree & Hpath)]; [contradiction|].
    exact (Horphan t Ht Htree Hpath). }
  assert (Hfree : forall a o, heap (build localeCompare items) !! a = Some o ->
                  o_path o = item_path e -> ~ attached (build localeCompare items) a).
  { intros a o Ha Hpath Hatt.
    destruct (wf_attached _ _ (build_well_formed items) a Hatt) as (o' & Ho' & Hgood).
    rewrite Ha in Ho'. injection Ho' as <-. rewrite Hpath in Hgood. contradiction. }
  split.
  { unfold build. apply fold_add_item_allocates. now rewrite sortedItems_perm. }
  split; [exact Hfree|]. split; [|apply buildFileTree_reads].
  intros Hq. apply buildFileTree_paths_attached in Hq as (a & o & Ha & Hpath & Hatt).
  exact (Hfree a o Ha Hpath Hatt).
Qed.

End OrphanEntries.

Section TreeRuns.
Import JS Tree Scenario.

Lemma buildFileTree_nests_and_orders_witness :
  sortedItems code_unit_compare nested_listing !! 0%nat = Some (entry "a" "tree")
  /\ sortedItems code_unit_compare nested_listing !! 2%nat = Some (entry "a/b.txt" "blob")
  /\ item_path (entry "a" "tree") = parentPath (item_path (entry "a/b.txt" "blob"))
  /\ (0 < 2)%nat.
Proof.
  split; [reflexivity|]. split; [reflexivity|]. split; [reflexivity|].
  refine (proj1 (proj2 (proj2 (buildFileTree_nests_and_orders code_unit_compare)))
            nested_listing 0%nat 2%nat (entry "a" "tree") (entry "a/b.txt" "blob") _ _ _ _).
  - reflexivity.
  - reflexivity.
  - vm_compute. discriminate.
  - reflexivity.
Defined.

Lemma orphan_entry_omitted_witness :
  entry "x/y" "blob" ∈ orphan_listing
  /\ parentPath "x/y" = "x"
  /\ (forall t, t ∈ orphan_listing -> is_tree t = false)
  /\ (exists a o, heap (build code_unit_compare orphan_listing) !! a = Some o
                  /\ o_path o = "x/y")
  /\ buildFileTree code_unit_compare orphan_listing
     = [mkFileNode "sha-of-c" "c" file "c" None]
  /\ ~ In "x/y" (paths_in (buildFileTree code_unit_compare orphan_listing)).
Proof.
  assert (Hin : entry "x/y" "blob" ∈ orphan_listing) by apply list_elem_of_here.
  assert (Hfiles : forall t, t ∈ orphan_listing -> is_tree t = false).
  { intros t Ht.
    apply elem_of_cons in Ht as [->|Ht]; [reflexivity|].
    apply elem_of_cons in Ht as [->|Ht]; [reflexivity|].
    apply elem_of_nil in Ht as []. }
  split; [exact Hin|]. split; [reflexivity|]. split; [exact Hfiles|].
  destruct (orphan_entry_omitted code_unit_compare orphan_listing (entry "x/y" "blob"))
    as (Hobj & _ & Hout & _).
  - exact Hin.
  - vm_compute. discriminate.
  - intros t Ht Htree. rewrite (Hfiles t Ht) in Htree. discriminate Htree.
  - split; [exact Hobj|]. split; [reflexivity|exact Hout].
Defined.

End TreeRuns.

(** ** The two GitHub routes *)

Section RouteProperties.
Import JS Net GitHub.

Variable localeCompare : string -> string -> Z.
Variable toLowerCase : string -> string.
Variable URL_parse : string -> option URL.
Variable GITHUB_TOKEN : option string.
Variable net : Network.

Lemma parseGitHubUrl_rejects s u :
  URL_parse s = Some u ->
  includes "github.com" (hostname u) = false
  \/ (List.length (filter_Boolean (split "/" (pathname u))) < 2)%nat ->
  parseGitHubUrl URL_parse s = None.
Proof.
  intros Hparse Hbad. unfold parseGitHubUrl. rewrite Hparse.
  destruct (includes "github.com" (hostname u)); [|reflexivity]. cbn [negb].
  destruct Hbad as [Hhost|Hpath]; [discriminate|].
  apply Nat.ltb_lt in Hpath. now rewrite Hpath.
Qed.

Lemma truthy_nonempty s : s <> EmptyString -> truthy (JStr s) = true.
Proof.
  intros Hne. cbn. destruct (String.eqb_spec s EmptyString); [contradiction|reflexivity].
Qed.

(** C4: for a URL string (a URL is not the empty string) that parses to
    a host without the substring github.com, or to a path with fewer than
    two non-empty segments, the tree route answers 400 Invalid GitHub URL
    without any outbound request, and so does the content route for a
    request that names a file; a content request that names no file is
    refused before its URL is looked at, with 400 and the missing-field
    message, also without any outbound request. *)
Theorem invalid_url_rejected_before_network s u body log :
  URL_parse s = Some u ->
  s <> EmptyString ->
  includes "github.com" (hostname u) = false
  \/ (List.length (filter_Boolean (split "/" (pathname u))) < 2)%nat ->
  get body "url" = inr (JStr s) ->
  Tree.POST localeCompare URL_parse GITHUB_TOKEN net (Json body) log
    = (Tree.ErrorReply 400 "Invalid GitHub URL", log)
  /\ Content.POST toLowerCase URL_parse GITHUB_TOKEN net (Json body) log
    = (if truthy (get_opt body "path")
       then Content.ErrorReply 400 "Invalid GitHub URL"
       else Content.ErrorReply 400 "GitHub URL and file path are required", log).
Proof.
  intros Hparse Hne Hbad Hurl.
  pose proof (parseGitHubUrl_rejects s u Hparse Hbad) as Hnone.
  pose proof (truthy_nonempty s Hne) as Htruthy.
  apply (destructure_get "body") in Hurl.
  split.
  - unfold Tree.POST. rewrite Hurl, Htruthy. cbn [negb toString]. now rewrite Hnone.
  - unfold Content.POST. rewrite Hurl, Htruthy. cbn [negb orb toString].
    destruct (truthy (get_opt body "path")); cbn [negb]; [|reflexivity].
    now rewrite Hnone.
Qed.

(** C7: when the upstream answers the repository-metadata request of a
    tree fetch with 404, the tree route answers 404 with the error text
    Repository not found. *)
Theorem tree_POST_repository_not_found body url owner repo log r :
  get body "url" = inr url ->
  truthy url = true ->
  parseGitHubUrl URL_parse (toString url) = Some (owner, repo) ->
  net log (get_request GITHUB_TOKEN ("https://api.github.com/repos/" ++ owner ++ "/" ++ repo))
    = Responded r ->
  status r = 404 ->
  Tree.POST localeCompare URL_parse GITHUB_TOKEN net (Json body) log
    = (Tree.ErrorReply 404 "Repository not found",
       (log ++ [get_request GITHUB_TOKEN
                  ("https://api.github.com/repos/" ++ owner ++ "/" ++ repo)])%list).
Proof.
  intros Hurl Htruthy Hparsed Hnet Hstatus.
  apply (destructure_get "body") in Hurl.
  unfold Tree.POST. rewrite Hurl, Htruthy. cbn [negb]. rewrite Hparsed, Hnet.
  unfold ok. rewrite Hstatus. reflexivity.
Qed.

End RouteProperties.

Section RouteRuns.
Import JS Net GitHub Scenario.

Lemma invalid_url_rejected_before_network_witness :
  plain_url_parse "https://example.com/owner/repo" = Some (mkURL "example.com" "/owner/repo")
  /\ includes "github.com" "example.com" = false
  /\ Tree.POST code_unit_compare plain_url_parse None offline
       (content_request "https://example.com/owner/repo" "README") []
     = (Tree.ErrorReply 400 "Invalid GitHub URL", [])
  /\ Content.POST ascii_lowercase plain_url_parse None offline
       (content_request "https://example.com/owner/repo" "README") []
     = (Content.ErrorReply 400 "Invalid GitHub URL", []).
Proof.
  split; [reflexivity|]. split; [reflexivity|].
  refine (invalid_url_rejected_before_network code_unit_compare ascii_lowercase
            plain_url_parse None offline
            "https://example.com/owner/repo" (mkURL "example.com" "/owner/repo")
            (JObj [("url", JStr "https://example.com/owner/repo"); ("path", JStr "README")])
            [] _ _ _ _).
  - reflexivity.
  - discriminate.
  - left. reflexivity.
  - reflexivity.
Defined.

Lemma tree_POST_repository_not_found_witness :
  parseGitHubUrl plain_url_parse "https://github.com/octocat/Hello-World"
    = Some ("octocat", "Hello-World")
  /\ status (mkResponse 404 (Json (JObj [("message", JStr "Not Found")]))) = 404
  /\ Tree.POST code_unit_compare plain_url_parse None always404
       (tree_request "https://github.com/octocat/Hello-World") []
     = (Tree.ErrorReply 404 "Repository not found",
        [get_request None "https://api.github.com/repos/octocat/Hello-World"]).
Proof.
  split; [reflexivity|]. split; [reflexivity|].
  refine (tree_POST_repository_not_found code_unit_compare plain_url_parse None always404
            (JObj [("url", JStr "https://github.com/octocat/Hello-World")])
            (JStr "https://github.com/octocat/Hello-World") "octocat" "Hello-World" []
            (mkResponse 404 (Json (JObj [("message", JStr "Not Found")]))) _ _ _ _ _).
  - reflexivity.
  - reflexivity.
  - reflexivity.
  - reflexivity.
  - reflexivity.
Defined.

End RouteRuns.

(** ** The content route: extensions *)

Section ExtensionProperties.
Import JS Net GitHub Encoding Content.

Variable toLowerCase : string -> string.


Variable URL_parse : string -> option URL.
Variable GITHUB_TOKEN : option string.
Variable net : Network.


End ExtensionProperties.

Section ExtensionRuns.
Import JS Net GitHub Encoding Content Scenario.




End ExtensionRuns.

(** ** The chapter cache *)

Section CacheProperties.
Import JS Net Layout.

Variable toLowerCase : string -> string.
Variable info : RepoInfo.
Variable net : Network.

(** A chapter whose id maps to a truthy text in the cache is shown from
    the cache, and nothing is sent. *)
Lemma cached_text_is_shown chapter c log text :
  generatedContent (docState c) !! id chapter = Some text ->
  truthy text = true ->
  generateChapterContent toLowerCase info net chapter c log
    = (Rendered (mkComponent (mkContent chapter_view (Some (id chapter)) (Some text) None None)
                             (leftSidebarOpen c) (docState c)), log).
Proof.
  intros Hcached Htruthy. unfold generateChapterContent, cached.
  now rewrite Hcached, Htruthy.
Qed.

End CacheProperties.

(** ** The generate-content route *)

Section GenerateProperties.
Import JS Net Groq GenContent.

Variable slice : nat -> nat -> string -> string.
Variable env : ProcessEnv.
Variable net : Network.



End GenerateProperties.

Section GenerateRuns.
Import JS Net Groq GenContent Scenario.



(** The run of the same request to its end: the second credential answers. *)
Lemma generate_content_proceeds :
  fst (fst (POST ascii_slice two_keys first_key_limited (gen_request (JStr "Hello-World") (JArr []))
                 initial []))
  = ContentReply (Some (JStr "ok")) (JStr "intro").
Proof. vm_compute. reflexivity. Qed.

End GenerateRuns.

(** ** Buffers: base64 *)

(** Goals about division and remainder by constants. *)
Ltac euclid := Z.to_euclidean_division_equations; lia.

Section Base64Properties.
Import Encoding.

Lemma Z_of_byte_range b : 0 <= Z_of_byte b < 256.
Proof. unfold Z_of_byte. pose proof (Byte.to_N_bounded b). lia. Qed.

Lemma byte_of_Z_of_byte b : byte_of_Z (Z_of_byte b) = b.
Proof. unfold byte_of_Z, Z_of_byte. now rewrite N2Z.id, Byte.of_to_N. Qed.

Lemma bytes_of_Z_of_bytes buf : map byte_of_Z (map Z_of_byte buf) = buf.
Proof.
  rewrite map_map. rewrite <- (map_id buf) at 2.
  apply map_ext. exact byte_of_Z_of_byte.
Qed.

(** The sixty-four digits decode to their own values, and none is the
    padding character. *)
Lemma digits_ok : forallb digit_ok (seqZ 0 64) = true.
Proof. vm_compute. reflexivity. Qed.

Lemma sextets_digit v s :
  0 <= v < 64 -> sextets (String (base64_char v) s) = v :: sextets s.
Proof.
  intros Hv.
  assert (Hok : digit_ok v = true).
  { pose proof digits_ok as H. rewrite forallb_forall in H. apply H.
    apply list_elem_of_In, elem_of_seqZ. lia. }
  unfold digit_ok in Hok. cbn [sextets].
  destruct (unbase64 (base64_char v)) as [w|]; [|discriminate].
  apply andb_true_iff in Hok as [Hw Hpad]. apply Z.eqb_eq in Hw as ->.
  apply negb_true_iff in Hpad. now rewrite Hpad.
Qed.

Lemma sextets_padding s : sextets (String "="%char s) = [].
Proof. reflexivity. Qed.

(** Induction on a list three elements at a time. *)
Lemma list_ind3 {A} (P : list A -> Prop) :
  P [] -> (forall a, P [a]) -> (forall a b, P [a; b]) ->
  (forall a b c l, P l -> P (a :: b :: c :: l)) ->
  forall l, P l.
Proof.
  intros H0 H1 H2 H3.
  assert (H : forall l, P l /\ (forall a, P (a :: l)) /\ (forall a b, P (a :: b :: l))).
  { induction l as [|x l (IH0 & IH1 & IH2)]; repeat split; auto. }
  intros l. apply H.
Qed.

Lemma regroup_base64_of bs :
  Forall (fun b => 0 <= b < 256) bs -> regroup (sextets (base64_of bs)) = bs.
Proof.
  induction bs as [|a|a b|a b c l IH] using list_ind3; intros Hrange.
  - reflexivity.
  - inversion Hrange as [|? ? Ha _]; subst.
    cbn [base64_of]. rewrite !sextets_digit by euclid.
    rewrite sextets_padding. cbn [regroup]. f_equal. euclid.
  - inversion Hrange as [|? ? Ha Hr]; subst. inversion Hr as [|? ? Hb _]; subst.
    cbn [base64_of]. rewrite !sextets_digit by euclid.
    rewrite sextets_padding. cbn [regroup]. f_equal; [euclid|]. f_equal. euclid.
  - inversion Hrange as [|? ? Ha Hr]; subst. inversion Hr as [|? ? Hb Hr']; subst.
    inversion Hr' as [|? ? Hc Hl]; subst.
    cbn [base64_of]. rewrite !sextets_digit by euclid.
    cbn [regroup]. rewrite (IH Hl).
    f_equal; [euclid|]. f_equal; [euclid|]. f_equal. euclid.
Qed.

(** Encoding a buffer to base64 and decoding it again gives the buffer. *)
Lemma Buffer_base64_roundtrip buf :
  Buffer_from_base64 (Buffer_toString_base64 buf) = buf.
Proof.
  unfold Buffer_from_base64, Buffer_toString_base64.
  rewrite regroup_base64_of; [apply bytes_of_Z_of_bytes|].
  apply Forall_forall. intros z Hz. apply list_elem_of_In, in_map_iff in Hz as (b & <- & _).
  apply Z_of_byte_range.
Qed.

End Base64Properties.

(** ** Buffers: UTF-8 *)

Section Utf8Properties.
Import Encoding.

(** Replace every comparison in the goal by its outcome. *)
Ltac decide_comparisons :=
  repeat match goal with
         | |- context [?a <=? ?b] => destruct (Z.leb_spec a b); try lia
         | |- context [?a =? ?b] => destruct (Z.eqb_spec a b); try lia
         end;
  cbn [andb orb negb].

Lemma decode_ascii b r :
  0 <= b <= 0x7F ->
  utf8_decode_from Idle (b :: r) = b :: utf8_decode_from Idle r.
Proof. intros Hb. cbn [utf8_decode_from]. unfold lead. decide_comparisons. reflexivity. Qed.

Lemma decode_two b0 b1 r :
  0xC2 <= b0 <= 0xDF -> 0x80 <= b1 <= 0xBF ->
  utf8_decode_from Idle (b0 :: b1 :: r)
  = ((b0 mod 32) * 64 + b1 mod 64) :: utf8_decode_from Idle r.
Proof.
  intros H0 H1. cbn [utf8_decode_from]. unfold lead. decide_comparisons.
  cbn [app utf8_decode_from]. decide_comparisons. reflexivity.
Qed.

Lemma decode_three b0 b1 b2 r :
  0xE0 <= b0 <= 0xEF -> second_lower b0 <= b1 <= second_upper b0 -> 0x80 <= b2 <= 0xBF ->
  utf8_decode_from Idle (b0 :: b1 :: b2 :: r)
  = (((b0 mod 16) * 64 + b1 mod 64) * 64 + b2 mod 64) :: utf8_decode_from Idle r.
Proof.
  intros H0 H1 H2.
  cbn [utf8_decode_from]. unfold lead, second_lower, second_upper in *.
  destruct (Z.eqb_spec b0 0xE0), (Z.eqb_spec b0 0xED), (Z.eqb_spec b0 0xF0),
    (Z.eqb_spec b0 0xF4); try lia;
    decide_comparisons; cbn [app utf8_decode_from]; decide_comparisons; reflexivity.
Qed.

Lemma decode_four b0 b1 b2 b3 r :
  0xF0 <= b0 <= 0xF4 -> second_lower b0 <= b1 <= second_upper b0 ->
  0x80 <= b2 <= 0xBF -> 0x80 <= b3 <= 0xBF ->
  utf8_decode_from Idle (b0 :: b1 :: b2 :: b3 :: r)
  = ((((b0 mod 8) * 64 + b1 mod 64) * 64 + b2 mod 64) * 64 + b3 mod 64)
    :: utf8_decode_from Idle r.
Proof.
  intros H0 H1 H2 H3.
  cbn [utf8_decode_from]. unfold lead, second_lower, second_upper in *.
  destruct (Z.eqb_spec b0 0xE0), (Z.eqb_spec b0 0xED), (Z.eqb_spec b0 0xF0),
    (Z.eqb_spec b0 0xF4); try lia;
    decide_comparisons; cbn [app utf8_decode_from]; decide_comparisons; reflexivity.
Qed.

Lemma encode_ascii b : 0 <= b <= 0x7F -> utf8_encode_one b = [b].
Proof. intros Hb. unfold utf8_encode_one. decide_comparisons. reflexivity. Qed.

Lemma encode_two b0 b1 :
  0xC2 <= b0 <= 0xDF -> 0x80 <= b1 <= 0xBF ->
  utf8_encode_one ((b0 mod 32) * 64 + b1 mod 64) = [b0; b1].
Proof.
  intros H0 H1. unfold utf8_encode_one.
  destruct (Z.leb_spec ((b0 mod 32) * 64 + b1 mod 64) 0x7F); [euclid|].
  destruct (Z.leb_spec ((b0 mod 32) * 64 + b1 mod 64) 0x7FF); [|euclid].
  f_equal; [euclid|]. f_equal. euclid.
Qed.

Lemma encode_three b0 b1 b2 :
  0xE0 <= b0 <= 0xEF -> second_lower b0 <= b1 <= second_upper b0 -> 0x80 <= b2 <= 0xBF ->
  utf8_encode_one (((b0 mod 16) * 64 + b1 mod 64) * 64 + b2 mod 64) = [b0; b1; b2].
Proof.
  unfold second_lower, second_upper. intros H0 H1 H2. unfold utf8_encode_one.
  set (cp := ((b0 mod 16) * 64 + b1 mod 64) * 64 + b2 mod 64).
  assert (Hcp : 0x800 <= cp <= 0xFFFF).
  { subst cp. destruct (Z.eqb_spec b0 0xE0), (Z.eqb_spec b0 0xED), (Z.eqb_spec b0 0xF0),
      (Z.eqb_spec b0 0xF4); try lia; euclid. }
  destruct (Z.leb_spec cp 0x7F); [lia|].
  destruct (Z.leb_spec cp 0x7FF); [lia|].
  destruct (Z.leb_spec cp 0xFFFF); [|lia].
  assert (Hb1 : 0x80 <= b1 <= 0xBF).
  { destruct (Z.eqb_spec b0 0xE0), (Z.eqb_spec b0 0xED), (Z.eqb_spec b0 0xF0),
      (Z.eqb_spec b0 0xF4); lia. }
  subst cp. f_equal; [euclid|]. f_equal; [euclid|]. f_equal. euclid.
Qed.

Lemma encode_four b0 b1 b2 b3 :
  0xF0 <= b0 <= 0xF4 -> second_lower b0 <= b1 <= second_upper b0 ->
  0x80 <= b2 <= 0xBF -> 0x80 <= b3 <= 0xBF ->
  utf8_encode_one ((((b0 mod 8) * 64 + b1 mod 64) * 64 + b2 mod 64) * 64 + b3 mod 64)
  = [b0; b1; b2; b3].
Proof.
  unfold second_lower, second_upper. intros H0 H1 H2 H3. unfold utf8_encode_one.
  set (cp := (((b0 mod 8) * 64 + b1 mod 64) * 64 + b2 mod 64) * 64 + b3 mod 64).
  assert (Hcp : 0x10000 <= cp).
  { subst cp. destruct (Z.eqb_spec b0 0xE0), (Z.eqb_spec b0 0xED), (Z.eqb_spec b0 0xF0),
      (Z.eqb_spec b0 0xF4); try lia; euclid. }
  destruct (Z.leb_spec cp 0x7F); [lia|].
  destruct (Z.leb_spec cp 0x7FF); [lia|].
  destruct (Z.leb_spec cp 0xFFFF); [lia|].
  assert (Hb1 : 0x80 <= b1 <= 0xBF).
  { destruct (Z.eqb_spec b0 0xE0), (Z.eqb_spec b0 0xED), (Z.eqb_spec b0 0xF0),
      (Z.eqb_spec b0 0xF4); lia. }
  subst cp. f_equal; [euclid|]. f_equal; [euclid|]. f_equal; [euclid|]. f_equal. euclid.
Qed.

Lemma between_spec lo hi b : between lo hi b = true <-> lo <= b <= hi.
Proof. unfold between. rewrite andb_true_iff, !Z.leb_le. tauto. Qed.

(** On well-formed input the decoder replaces nothing, and encoding its
    output gives the input back. *)
Lemma utf8_roundtrip bs :
  well_formed_utf8 bs = true -> utf8_encode (utf8_decode bs) = bs.
Proof.
  unfold utf8_decode, utf8_encode.
  remember (List.length bs) as n eqn:Hn. revert bs Hn.
  induction n as [n IH] using lt_wf_ind. intros bs Hn.
  destruct bs as [|b0 r0]; [reflexivity|]. cbn [well_formed_utf8].
  destruct (between 0 0x7F b0) eqn:E0.
  { apply between_spec in E0. intros Hwf.
    rewrite decode_ascii by exact E0. cbn [flat_map].
    rewrite encode_ascii by exact E0. cbn [app]. f_equal.
    eapply IH; [|reflexivity|exact Hwf]. subst n. cbn. lia. }
  destruct r0 as [|b1 r1]; [discriminate|].
  destruct (between 0xC2 0xDF b0) eqn:E1.
  { apply between_spec in E1. intros Hwf.
    apply andb_true_iff in Hwf as [H1 Hwf]. apply between_spec in H1.
    rewrite decode_two by assumption. cbn [flat_map].
    rewrite encode_two by assumption. cbn [app]. do 2 f_equal.
    eapply IH; [|reflexivity|exact Hwf]. subst n. cbn. lia. }
  destruct r1 as [|b2 r2]; [discriminate|].
  destruct (between 0xE0 0xEF b0) eqn:E2.
  { apply between_spec in E2. intros Hwf.
    apply andb_true_iff in Hwf as [Hwf' Hwf]. apply andb_true_iff in Hwf' as [H1 H2].
    apply between_spec in H1, H2.
    rewrite decode_three by assumption. cbn [flat_map].
    rewrite encode_three by assumption. cbn [app]. do 3 f_equal.
    eapply IH; [|reflexivity|exact Hwf]. subst n. cbn. lia. }
  destruct r2 as [|b3 r3]; [discriminate|].
  intros Hwf.
  apply andb_true_iff in Hwf as [Hwf' Hwf]. apply andb_true_iff in Hwf' as [Hwf' H3].
  apply andb_true_iff in Hwf' as [Hwf' H2]. apply andb_true_iff in Hwf' as [H0 H1].
  apply between_spec in H0, H1, H2, H3.
  rewrite decode_four by assumption. cbn [flat_map].
  rewrite encode_four by assumption. cbn [app]. do 4 f_equal.
  eapply IH; [|reflexivity|exact Hwf]. subst n. cbn. lia.
Qed.

(** Decoding a well-formed buffer as UTF-8 and encoding the string again
    gives the buffer. *)
Lemma Buffer_utf8_roundtrip buf :
  well_formed_utf8 (map Z_of_byte buf) = true ->
  Buffer_from_utf8 (Buffer_toString_utf8 buf) = buf.
Proof.
  intros Hwf. unfold Buffer_from_utf8, Buffer_toString_utf8.
  rewrite list_byte_of_string_of_list_byte, (utf8_roundtrip _ Hwf).
  apply bytes_of_Z_of_bytes.
Qed.

End Utf8Properties.

(** ** The content route: decoding *)

Section DecodingProperties.
Import JS Net Encoding Content.

(** C5 (amended): for every base64 payload whose bytes are well-formed
    UTF-8, the text branch decodes it to a string whose UTF-8 encoding is
    exactly the bytes the payload carries, and encoding that string to
    base64 again gives a text that decodes to the same bytes. *)
Theorem text_roundtrip_on_well_formed_utf8 payload :
  well_formed_utf8 (map Z_of_byte (Buffer_from_base64 payload)) = true ->
  exists text,
    decode_text (JStr payload) = Text text
    /\ Buffer_from_utf8 text = Buffer_from_base64 payload
    /\ Buffer_from_base64 (Buffer_toString_base64 (Buffer_from_utf8 text))
       = Buffer_from_base64 payload.
Proof.
  intros Hwf. eexists. split; [reflexivity|].
  rewrite (Buffer_utf8_roundtrip _ Hwf). split; [reflexivity|].
  apply Buffer_base64_roundtrip.
Qed.

End DecodingProperties.

Section DecodingRuns.
Import JS Net GitHub Encoding Content Scenario.

(** C5 (as stated) fails: the text branch accepts the payload /w==, the
    single byte FF, for the path blob.bin; the decoded string is U+FFFD,
    and encoding it again gives the three bytes EF BF BD, in base64 77+9. *)
Lemma replacement_character_breaks_roundtrip :
  fst (Content.POST ascii_lowercase plain_url_parse None (serves "blob.bin" "/w==")
         (content_request "https://github.com/octocat/Hello-World" "blob.bin") [])
    = FileReply (mkFileContent (JStr "blob.bin") (JStr "blob.bin") (JNum 13) "bin"
                   (JStr "980a0d5") (Some (Buffer_toString_utf8 [xff])) false None None)
  /\ Buffer_from_base64 "/w==" = [xff]
  /\ Buffer_from_utf8 (Buffer_toString_utf8 (Buffer_from_base64 "/w==")) = [xef; xbf; xbd]
  /\ Buffer_toString_base64 (Buffer_from_utf8 (Buffer_toString_utf8 (Buffer_from_base64 "/w==")))
     = "77+9"
  /\ Buffer_from_utf8 (Buffer_toString_utf8 (Buffer_from_base64 "/w=="))
     <> Buffer_from_base64 "/w==".
Proof.
  split; [vm_compute; reflexivity|]. split; [vm_compute; reflexivity|].
  split; [vm_compute; reflexivity|]. split; [vm_compute; reflexivity|].
  vm_compute. discriminate.
Qed.

(** The payloads GitHub sends are wrapped in lines; the decoder skips the
    line feeds, so the re-encoded text is not the payload itself even when
    the bytes agree. *)
Lemma wrapped_payload_is_normalised :
  Buffer_toString_base64
    (Buffer_from_utf8 (Buffer_toString_utf8 (Buffer_from_base64 ("SGVsbG8g" ++ nl ++ "V29ybGQh"))))
  = "SGVsbG8gV29ybGQh".
Proof. vm_compute. reflexivity. Qed.

Lemma text_roundtrip_on_well_formed_utf8_witness :
  Buffer_from_base64 "4oKs" = [xe2; x82; xac]
  /\ well_formed_utf8 (map Z_of_byte (Buffer_from_base64 "4oKs")) = true
  /\ exists text,
      decode_text (JStr "4oKs") = Text text
      /\ Buffer_from_utf8 text = Buffer_from_base64 "4oKs"
      /\ Buffer_from_base64 (Buffer_toString_base64 (Buffer_from_utf8 text))
         = Buffer_from_base64 "4oKs".
Proof.
  assert (Hwf : well_formed_utf8 (map Z_of_byte (Buffer_from_base64 "4oKs")) = true)
    by (vm_compute; reflexivity).
  split; [vm_compute; reflexivity|]. split; [exact Hwf|].
  exact (text_roundtrip_on_well_formed_utf8 "4oKs" Hwf).
Defined.

End DecodingRuns.

(* ===================================================================== *)
(** * Further properties *)
(* ===================================================================== *)

(** ** Credential rotation: traces, cursor, recovery *)

Section RotationTraces.
Import JS Net Groq.

Variable env : ProcessEnv.
Variable net : Network.
Variable opts : GroqRequestOptions.

Local Abbreviation keys := (getApiKeys env).
Local Abbreviation request := (fun key => chat_request key opts).

Lemma push_if_set_nil v : push_if_set v = [] <-> v = None \/ v = Some EmptyString.
Proof.
  destruct v as [s|]; cbn.
  - destruct (String.eqb_spec s EmptyString) as [->|Hne].
    + split; auto.
    + split; [discriminate|]. intros [H|[= H]]; [discriminate|contradiction].
  - split; auto.
Qed.

(** X1: when none of the four environment variables holds a non-empty
    value, sendToGroq fails with the no-keys error without sending any
    request, and the cursor stays where it was. *)
Theorem sendToGroq_without_keys st log :
  (GROQ_API_KEY env = None \/ GROQ_API_KEY env = Some EmptyString) ->
  (GROQ_API_KEY_ALTERNATIVE_1 env = None \/ GROQ_API_KEY_ALTERNATIVE_1 env = Some EmptyString) ->
  (GROQ_API_KEY_ALTERNATIVE_2 env = None \/ GROQ_API_KEY_ALTERNATIVE_2 env = Some EmptyString) ->
  (GROQ_API_KEY_ALTERNATIVE_3 env = None \/ GROQ_API_KEY_ALTERNATIVE_3 env = Some EmptyString) ->
  sendToGroq env net opts st log
  = (failure "No GROQ API keys configured", mkState (currentApiKeyIndex st) false, log).
Proof.
  intros H0 H1 H2 H3.
  assert (Hkeys : keys = []).
  { unfold getApiKeys.
    apply push_if_set_nil in H0, H1, H2, H3. now rewrite H0, H1, H2, H3. }
  unfold sendToGroq. rewrite attemptRequest_eq.
  unfold attemptOnce, getCurrentApiKey. rewrite Hkeys. reflexivity.
Qed.

(** One pass from a cursor inside the list: the request carries the key
    under the cursor, and the pass either returns or moves one key on. *)
Lemma attemptOnce_in_range k flag key log :
  keys !! k = Some key ->
  (exists r st', attemptOnce env net opts (mkState k flag) log
                 = Done r st' (log ++ [request key]))
  \/ (attemptOnce env net opts (mkState k flag) log
        = Retry (mkState (S k) flag) (log ++ [request key])
      /\ (S k < List.length keys)%nat /\ flag = false).
Proof.
  intros Hkey. unfold attemptOnce.
  rewrite getCurrentApiKey_in_range by (cbn; eapply lookup_lt_Some; eassumption).
  cbn [currentApiKeyIndex allKeysExhausted]. rewrite Hkey, (lookup_key_nonempty _ _ _ Hkey).
  destruct (net log (chat_request key opts)) as [e|response]; [left; eauto|].
  destruct ((status response =? 429) && negb flag) eqn:E.
  - unfold switchToNextKey. cbn [currentApiKeyIndex allKeysExhausted].
    destruct (Nat.leb_spec (List.length keys) (S k)); [left; eauto|].
    right. apply andb_true_iff in E as [_ E]. apply negb_true_iff in E. auto.
  - destruct (negb (ok response)); [destruct (text _); left; eauto|].
    destruct (body response) as [e|data]; [left; eauto|].
    destruct (get data "choices"); [left; eauto|].
    destruct (negb (truthy _)); left; eauto.
Qed.

Lemma attemptRequest_trace n :
  forall k flag log,
    (List.length keys - k = n)%nat -> (k < List.length keys)%nat ->
    exists j,
      (1 <= j <= List.length keys - k)%nat
      /\ snd (attemptRequest env net opts (mkState k flag) log)
         = (log ++ map request (take j (drop k keys)))%list.
Proof.
  induction n as [|n IH]; intros k flag log Hn Hlt; [lia|].
  destruct (lookup_lt_is_Some_2 keys k Hlt) as [key Hkey].
  rewrite attemptRequest_eq, (drop_S _ _ _ Hkey).
  destruct (attemptOnce_in_range k flag key log Hkey)
    as [(r & st' & ->)|(-> & Hnext & _)].
  - exists 1%nat. split; [lia|]. reflexivity.
  - destruct (IH (S k) flag (log ++ [request key])%list ltac:(lia) Hnext) as (j & Hj & ->).
    exists (S j). split; [lia|]. cbn [take map]. now rewrite <- app_assoc.
Qed.

(** The requests of a call that runs on its own. *)
Lemma sendToGroq_trace st log :
  (currentApiKeyIndex st < List.length keys)%nat ->
  exists j,
    (1 <= j <= List.length keys - currentApiKeyIndex st)%nat
    /\ snd (sendToGroq env net opts st log)
       = (log ++ map request (take j (drop (currentApiKeyIndex st) keys)))%list.
Proof.
  intros Hlt. unfold sendToGroq.
  exact (attemptRequest_trace _ (currentApiKeyIndex st) false log eq_refl Hlt).
Qed.

(** X2: take a call that no other call overlaps (while it waits, no
    other call touches the two module variables).  From a cursor k inside
    a list of N keys, whatever the network answers, such a call returns
    after between one and N - k requests: one POST to the chat endpoint
    for each key from position k on, in order, each with that key as
    bearer token; what was in the log before stays in front. *)
Theorem sendToGroq_sends_consecutive_keys others fuel st log :
  Interleaved.undisturbed others ->
  (List.length keys < fuel)%nat ->
  (currentApiKeyIndex st < List.length keys)%nat ->
  exists j r st',
    (1 <= j <= List.length keys - currentApiKeyIndex st)%nat
    /\ Interleaved.sendToGroq fuel env net others opts st log
       = Some (r, st', (log ++ map request (take j (drop (currentApiKeyIndex st) keys)))%list)
    /\ attempted_keys (map request (take j (drop (currentApiKeyIndex st) keys)))
       = map Some (take j (drop (currentApiKeyIndex st) keys))
    /\ Forall (fun r => req_method r = "POST" /\ req_url r = GROQ_API_URL)
              (map request (take j (drop (currentApiKeyIndex st) keys))).
Proof.
  intros Hquiet Hfuel Hlt.
  rewrite (sendToGroq_undisturbed _ _ _ _ _ _ _ Hquiet Hfuel).
  destruct (sendToGroq_trace st log Hlt) as (j & Hj & Hlog).
  destruct (sendToGroq env net opts st log) as [[r st'] log'].
  cbn [snd] in Hlog. subst log'.
  exists j, r, st'. split; [exact Hj|]. split; [reflexivity|].
  split; [apply attempted_keys_chat_requests|].
  apply Forall_forall. intros q Hq.
  apply list_elem_of_In, in_map_iff in Hq as (key & <- & _). split; reflexivity.
Qed.

(** A run of rate-limited attempts followed by an attempt that returns:
    the call returns what that attempt returns. *)
Lemma attemptRequest_after_429s j :
  forall k log r st' log',
    (forall i, (i < j)%nat -> exists ki b,
        keys !! (k + i)%nat = Some ki
        /\ net (log ++ map request (take i (drop k keys)))%list (request ki)
           = Responded (mkResponse 429 b)) ->
    (k + j < List.length keys)%nat ->
    attemptOnce env net opts (mkState (k + j) false)
                (log ++ map request (take j (drop k keys)))%list = Done r st' log' ->
    attemptRequest env net opts (mkState k false) log = (r, st', log').
Proof.
  induction j as [|j IH]; intros k log r st' log' Hlimited Hlen Hlast.
  - rewrite Nat.add_0_r in Hlast. cbn [take map] in Hlast. rewrite app_nil_r in Hlast.
    now rewrite attemptRequest_eq, Hlast.
  - destruct (Hlimited 0%nat ltac:(lia)) as (k0 & b & Hk0 & Hnet0).
    rewrite Nat.add_0_r in Hk0. cbn [take map] in Hnet0. rewrite app_nil_r in Hnet0.
    rewrite attemptRequest_eq, (attemptOnce_429 _ _ _ k k0 log b Hk0 Hnet0).
    destruct (Nat.leb_spec (List.length keys) (S k)) as [Hend|_]; [lia|].
    rewrite (drop_S _ _ _ Hk0) in *. cbn [take map] in *.
    apply (IH (S k) (log ++ [request k0])%list).
    + intros i Hi. destruct (Hlimited (S i) ltac:(lia)) as (ki & b' & Hki & Hneti).
      exists ki, b'. split; [rewrite <- Hki; f_equal; lia|].
      cbn [take map] in Hneti. rewrite <- app_assoc. exact Hneti.
    + lia.
    + rewrite <- app_assoc. replace (S k + j)%nat with (k + S j)%nat by lia. exact Hlast.
Qed.

(** X3: take a call that no other call overlaps.  If its first j
    requests are rate-limited and the next key gets a 2xx answer with a
    non-empty completion, the call succeeds with that completion after
    j + 1 requests and leaves the cursor on the key that answered, j
    positions further, with the flag down. *)
Theorem sendToGroq_succeeds_on_later_key others fuel j st log key r data choices text :
  Interleaved.undisturbed others ->
  (List.length keys < fuel)%nat ->
  keys !! (currentApiKeyIndex st + j)%nat = Some key ->
  (forall i, (i < j)%nat -> exists ki b,
      keys !! (currentApiKeyIndex st + i)%nat = Some ki
      /\ net (log ++ map request (take i (drop (currentApiKeyIndex st) keys)))%list
             (request ki) = Responded (mkResponse 429 b)) ->
  net (log ++ map request (take j (drop (currentApiKeyIndex st) keys)))%list (request key)
    = Responded r ->
  ok r = true ->
  body r = Json data ->
  get data "choices" = inr choices ->
  get_opt (get_opt (index0_opt choices) "message") "content" = text ->
  truthy text = true ->
  Interleaved.sendToGroq fuel env net others opts st log
  = Some (succeeded text, mkState (currentApiKeyIndex st + j) false,
          (log ++ map request (take (S j) (drop (currentApiKeyIndex st) keys)))%list).
Proof.
  intros Hquiet Hfuel Hkey Hlimited Hnet Hok Hbody Hchoices Hcontent Htext.
  rewrite (sendToGroq_undisturbed _ _ _ _ _ _ _ Hquiet Hfuel). f_equal.
  assert (Hlen : (currentApiKeyIndex st + j < List.length keys)%nat)
    by (eapply lookup_lt_Some; eassumption).
  unfold sendToGroq. cbn [currentApiKeyIndex].
  apply (attemptRequest_after_429s j); [exact Hlimited|exact Hlen|].
  unfold attemptOnce.
  rewrite getCurrentApiKey_in_range by (cbn; exact Hlen).
  cbn [currentApiKeyIndex allKeysExhausted].
  rewrite Hkey, (lookup_key_nonempty _ _ _ Hkey), Hnet.
  assert (H429 : (status r =? 429) = false).
  { apply Z.eqb_neq. intros E. unfold ok in Hok. rewrite E in Hok. discriminate. }
  rewrite H429, Hok, Hbody, Hchoices. cbn [andb negb].
  rewrite Hcontent, Htext. cbn [negb].
  replace (take (S j) (drop (currentApiKeyIndex st) keys))
    with (take j (drop (currentApiKeyIndex st) keys) ++ [key])%list.
  - now rewrite map_app, app_assoc.
  - rewrite (take_S_r _ _ key); [reflexivity|].
    rewrite lookup_drop. exact Hkey.
Qed.

End RotationTraces.

Section RotationInvariants.
Import JS Net Groq.

Variable env : ProcessEnv.

Local Abbreviation keys := (getApiKeys env).

(** X4: in every state the module can reach, the cursor points at a
    configured key; with no key configured it is 0. *)
Theorem cursor_always_points_into_key_list st :
  reachable env st ->
  (currentApiKeyIndex st < List.length keys)%nat
  \/ (keys = [] /\ currentApiKeyIndex st = 0%nat).
Proof.
  destruct keys as [|k0 rest] eqn:Hkeys.
  - intros Hreach. right. split; [reflexivity|].
    induction Hreach as [|net opts st log _ IH]; [reflexivity|].
    unfold sendToGroq. rewrite attemptRequest_eq.
    unfold attemptOnce, getCurrentApiKey. rewrite Hkeys. exact IH.
  - intros Hreach. left.
    induction Hreach as [|net opts st log _ IH]; [cbn; lia|].
    unfold sendToGroq. rewrite <- Hkeys in *.
    apply attemptRequest_keeps_range. exact IH.
Qed.

(** X5: a call that exhausts the list rewinds the cursor, so the call
    after it starts over: of two calls one after the other, neither
    overlapped by another call, that are rate-limited on every request,
    the first starting from any cursor inside the list, the second sends
    one request for each of the N keys, from the first to the last, and
    fails with the exhausted error. *)
Theorem exhausted_call_is_followed_by_a_full_round
    others1 others2 fuel net1 net2 opts1 opts2 st log :
  Interleaved.undisturbed others1 ->
  Interleaved.undisturbed others2 ->
  (List.length keys < fuel)%nat ->
  (currentApiKeyIndex st < List.length keys)%nat ->
  all429 net1 ->
  all429 net2 ->
  exists r1 st1 log1,
    Interleaved.sendToGroq fuel env net1 others1 opts1 st log = Some (r1, st1, log1)
    /\ Interleaved.sendToGroq fuel env net2 others2 opts2 st1 log1
       = Some (failure exhausted_message, mkState 0 true,
               (log1 ++ map (fun key => chat_request key opts2) keys)%list).
Proof.
  intros Hq1 Hq2 Hfuel Hlt H1 H2.
  rewrite (sendToGroq_undisturbed env net1 opts1 _ _ _ _ Hq1 Hfuel).
  unfold sendToGroq at 1.
  rewrite (attemptRequest_all429 env net1 opts1 H1 _ (currentApiKeyIndex st) log eq_refl Hlt).
  eexists _, _, _. split; [reflexivity|].
  rewrite (sendToGroq_undisturbed env net2 opts2 _ _ _ _ Hq2 Hfuel).
  unfold sendToGroq. cbn [currentApiKeyIndex].
  rewrite (attemptRequest_all429 env net2 opts2 H2 _ 0%nat _ eq_refl) by lia.
  reflexivity.
Qed.

End RotationInvariants.

(** ** URL parsing and request headers *)

Section UrlAndHeaders.
Import JS Net GitHub.

Variable URL_parse : string -> option URL.

Lemma filter_Boolean_nonempty l x : In x (filter_Boolean l) -> x <> EmptyString.
Proof.
  unfold filter_Boolean. intros H. apply filter_In in H as [_ H].
  apply negb_true_iff in H. intros ->. discriminate.
Qed.

Lemma filter_Boolean_parts_free p x :
  In x (filter_Boolean (split "/" p)) -> has_char "/" x = false.
Proof.
  unfold filter_Boolean. intros H. apply filter_In in H as [H _].
  pose proof (split_parts_free "/" p) as Hfree.
  rewrite Forall_forall in Hfree. apply Hfree, list_elem_of_In, H.
Qed.

(** X6: parseGitHubUrl accepts a string exactly when it parses as a URL
    whose host contains github.com and whose path has at least two
    non-empty segments; owner and repo are then the first two of them, so
    both are non-empty and free of slashes, and further segments are
    ignored. *)
Theorem parseGitHubUrl_accepts_iff s owner repo :
  parseGitHubUrl URL_parse s = Some (owner, repo)
  <-> exists u rest,
        URL_parse s = Some u
        /\ includes "github.com" (hostname u) = true
        /\ filter_Boolean (split "/" (pathname u)) = owner :: repo :: rest
        /\ owner <> EmptyString /\ repo <> EmptyString
        /\ has_char "/" owner = false /\ has_char "/" repo = false.
Proof.
  unfold parseGitHubUrl. split.
  - destruct (URL_parse s) as [u|]; [|discriminate].
    destruct (includes "github.com" (hostname u)) eqn:Hhost; [|discriminate]. cbn [negb].
    destruct (filter_Boolean (split "/" (pathname u))) as [|o [|r rest]] eqn:E;
      cbn; try discriminate.
    intros [= <- <-]. exists u, rest.
    assert (Ho : In o (filter_Boolean (split "/" (pathname u)))) by (rewrite E; now left).
    assert (Hr : In r (filter_Boolean (split "/" (pathname u))))
      by (rewrite E; right; now left).
    split; [reflexivity|]. split; [exact Hhost|]. split; [exact E|].
    split; [exact (filter_Boolean_nonempty _ _ Ho)|].
    split; [exact (filter_Boolean_nonempty _ _ Hr)|].
    split; [exact (filter_Boolean_parts_free _ _ Ho)|exact (filter_Boolean_parts_free _ _ Hr)].
  - intros (u & rest & -> & -> & -> & _). reflexivity.
Qed.

(** What [getGitHubHeaders] puts into the headers. *)
Lemma getGitHubHeaders_spec token :
  In ("Accept", "application/vnd.github.v3+json") (getGitHubHeaders token)
  /\ In ("User-Agent", "codoc-webapp") (getGitHubHeaders token)
  /\ (forall v, In ("Authorization", v) (getGitHubHeaders token) ->
        exists t, token = Some t /\ t <> EmptyString /\ t <> "your_github_token_here"
                  /\ v = "Bearer " ++ t)
  /\ (forall t, token = Some t -> t <> EmptyString -> t <> "your_github_token_here" ->
        In ("Authorization", "Bearer " ++ t) (getGitHubHeaders token)).
Proof.
  unfold getGitHubHeaders. destruct token as [t|].
  - destruct (String.eqb_spec t EmptyString) as [->|Hne];
      [|destruct (String.eqb_spec t "your_github_token_here") as [->|Hph]]; cbn [negb andb].
    + repeat split; [now left|right; now left| |].
      * intros v [[=]|[[=]|[]]].
      * intros t [= <-] H. congruence.
    + repeat split; [now left|right; now left| |].
      * intros v [[=]|[[=]|[]]].
      * intros t [= <-] _ H. congruence.
    + repeat split; [now left|right; now left| |].
      * intros v [[=]|[[=]|[[= <-]|[]]]]. eauto.
      * intros t' [= <-] _ _. right. right. now left.
  - repeat split; [now left|right; now left| |].
    + intros v [[=]|[[=]|[]]].
    + discriminate.
Qed.

End UrlAndHeaders.

(** ** The tree builder: what the hierarchy holds *)

Section BuildShape.
Import JS Tree TreeFacts.

Variable items : list GitHubTreeItem.

Lemma push_child_lookup_full h p c a o' :
  push_child h p c !! a = Some o' ->
  exists o, h !! a = Some o /\ o_id o' = o_id o /\ o_name o' = o_name o
    /\ o_type o' = o_type o /\ o_path o' = o_path o
    /\ (o_children o' = o_children o
        \/ (a = p /\ exists cs, o_children o = Some cs
                                /\ o_children o' = Some (cs ++ [c])%list)).
Proof.
  unfold push_child. destruct (h !! p) as [parent|] eqn:Hp; [|eauto 10].
  destruct (o_children parent) as [cs|] eqn:Hcs; [|eauto 10].
  destruct (decide (p = a)) as [->|Hne].
  - rewrite list_lookup_insert_eq by (eapply lookup_lt_Some; eassumption).
    intros [= <-]. exists parent. cbn. eauto 12.
  - rewrite list_lookup_insert_ne by assumption. eauto 10.
Qed.

(** A push keeps every reference there was. *)
Lemma push_child_keeps_children h p c a o cs :
  h !! a = Some o -> o_children o = Some cs ->
  exists o' cs', push_child h p c !! a = Some o' /\ o_children o' = Some cs'
                 /\ cs ⊆ cs'.
Proof.
  intros Ha Hcs. unfold push_child. destruct (h !! p) as [parent|] eqn:Hp; [|eauto].
  destruct (o_children parent) as [cs0|] eqn:Hcs0; [|eauto].
  destruct (decide (p = a)) as [->|Hne].
  - rewrite list_lookup_insert_eq by (eapply lookup_lt_Some; eassumption).
    rewrite Ha in Hp. injection Hp as <-. rewrite Hcs in Hcs0. injection Hcs0 as <-.
    eexists _, _. split; [reflexivity|]. split; [reflexivity|].
    intros x Hx. apply elem_of_app. now left.
  - rewrite list_lookup_insert_ne by assumption. eauto.
Qed.

(** A push to a folder object adds the reference. *)
Lemma push_child_adds h p c o cs :
  h !! p = Some o -> o_children o = Some cs ->
  exists o', push_child h p c !! p = Some o' /\ o_children o' = Some (cs ++ [c])%list.
Proof.
  intros Hp Hcs. unfold push_child. rewrite Hp, Hcs.
  rewrite list_lookup_insert_eq by (eapply lookup_lt_Some; eassumption).
  eexists. split; reflexivity.
Qed.

(** The three ways an iteration of the loop can go. *)
Lemma add_item_cases st item :
  let n := List.length (heap st) in
  let node := mkObj (item_sha item) (last_segment (item_path item))
                    (if is_tree item then folder else file) (item_path item)
                    (if is_tree item then Some [] else None) in
  let nodeMap1 := <[item_path item := n]> (nodeMap st) in
  (parentPath (item_path item) = EmptyString
   /\ add_item st item = mkBuild (heap st ++ [node]) (root st ++ [n]) nodeMap1)
  \/ (parentPath (item_path item) <> EmptyString
      /\ exists p, nodeMap st !! parentPath (item_path item) = Some p
         /\ add_item st item = mkBuild (push_child (heap st ++ [node]) p n) (root st) nodeMap1)
  \/ (parentPath (item_path item) <> EmptyString
      /\ nodeMap st !! parentPath (item_path item) = None
      /\ add_item st item = mkBuild (heap st ++ [node]) (root st) nodeMap1).
Proof.
  intros n node nodeMap1. unfold add_item.
  fold (parentPath (item_path item)). fold (last_segment (item_path item)).
  fold n. fold node. fold nodeMap1.
  destruct (String.eqb_spec (parentPath (item_path item)) EmptyString) as [Hroot|Hne];
    [left; auto|right].
  assert (Hlook : nodeMap1 !! parentPath (item_path item)
                  = nodeMap st !! parentPath (item_path item)).
  { unfold nodeMap1. apply lookup_insert_ne. intros E.
    now apply (parentPath_neq (item_path item)). }
  rewrite Hlook.
  destruct (nodeMap st !! parentPath (item_path item)) as [p|]; [left|right]; eauto.
Qed.

Lemma object_of_entry_node item :
  object_of_entry item
    (mkObj (item_sha item) (last_segment (item_path item))
           (if is_tree item then folder else file) (item_path item)
           (if is_tree item then Some [] else None)).
Proof.
  unfold object_of_entry. cbn. repeat split; destruct (is_tree item); congruence.
Qed.

Lemma well_formed_empty_shaped : entry_shaped items (mkBuild [] [] ∅).
Proof.
  constructor; cbn.
  - intros a o H. try rewrite lookup_nil in H; discriminate H.
  - intros a o H. apply elem_of_nil in H as [].
  - intros p o cs c oc H. try rewrite lookup_nil in H; discriminate H.
Qed.

Lemma add_item_entry_shaped st item :
  item ∈ items -> well_formed items st -> entry_shaped items st ->
  entry_shaped items (add_item st item).
Proof.
  intros Hin Hwf [Hobj Hroot Hchild].
  pose proof (object_of_entry_node item) as Hnode.
  set (node := mkObj _ _ _ _ _) in Hnode.
  assert (Hobj1 : forall a o, (heap st ++ [node])%list !! a = Some o ->
                    exists it, it ∈ items /\ object_of_entry it o).
  { intros a o Ha. apply lookup_snoc_Some in Ha as [[_ Ha]|[_ <-]]; eauto. }
  assert (Hchild1 : forall p o cs c oc,
            (heap st ++ [node])%list !! p = Some o -> o_children o = Some cs -> c ∈ cs ->
            (heap st ++ [node])%list !! c = Some oc -> parentPath (o_path oc) = o_path o).
  { intros p o cs c oc Hp Hcs Hc Hoc.
    apply lookup_snoc_Some in Hp as [[_ Hp]|[_ <-]].
    - pose proof (wf_children _ _ Hwf _ _ _ _ Hp Hcs Hc) as Hlt.
      rewrite lookup_app_l in Hoc by lia. eauto.
    - subst node. cbn in Hcs. destruct (is_tree item); [|discriminate].
      injection Hcs as <-. apply elem_of_nil in Hc as []. }
  destruct (add_item_cases st item) as [(Htop & ->)|[(Hne & p & Hp & ->)|(Hne & _ & ->)]];
    fold node; constructor; cbn [heap root nodeMap]; try assumption.
  - intros a o Ha Ho. apply elem_of_app in Ha as [Ha|Ha].
    + pose proof (wf_root _ _ Hwf _ Ha) as Hlt.
      rewrite lookup_app_l in Ho by lia. eauto.
    + apply list_elem_of_singleton in Ha as ->.
      rewrite list_lookup_middle in Ho by reflexivity. injection Ho as <-. exact Htop.
  - intros a o' Ha.
    destruct (push_child_lookup_full _ _ _ _ _ Ha) as (o & Ho & Hid & Hnm & Hty & Hpa & Hk).
    destruct (Hobj1 _ _ Ho) as (it & Hit & Hid' & Hnm' & Hpa' & Hty' & Hk').
    exists it. split; [exact Hit|].
    unfold object_of_entry. rewrite Hid, Hnm, Hty, Hpa.
    repeat split; try assumption.
    + intros Hnone. apply Hk'. destruct Hk as [E|(_ & cs & _ & E)]; congruence.
    + intros Hblob. apply Hk' in Hblob.
      destruct Hk as [E|(_ & cs & E & _)]; congruence.
  - intros a o Ha Ho. pose proof (wf_root _ _ Hwf _ Ha) as Hlt.
    destruct (push_child_lookup_full _ _ _ _ _ Ho) as (o0 & Ho0 & _ & _ & _ & Hpa & _).
    rewrite lookup_app_l in Ho0 by lia. rewrite Hpa. eauto.
  - intros q o' cs' c oc' Hq Hcs' Hc Hoc.
    destruct (push_child_lookup_full _ _ _ _ _ Hq) as (o & Ho & _ & _ & _ & Hpa & Hk).
    destruct (push_child_lookup_full _ _ _ _ _ Hoc) as (oc & Hoc0 & _ & _ & _ & Hpc & _).
    rewrite Hpa, Hpc.
    destruct Hk as [E|(-> & cs & E & E')].
    + eapply Hchild1; [exact Ho|rewrite <- E; exact Hcs'|exact Hc|exact Hoc0].
    + rewrite E' in Hcs'. injection Hcs' as <-.
      apply elem_of_app in Hc as [Hc|Hc]; [eapply Hchild1; eassumption|].
      apply list_elem_of_singleton in Hc as ->.
      rewrite list_lookup_middle in Hoc0 by reflexivity. injection Hoc0 as <-.
      destruct (wf_map _ _ Hwf _ _ Hp) as (po & Hpo & Hpath).
      rewrite lookup_app_l in Ho by (eapply lookup_lt_Some; eassumption).
      rewrite Hpo in Ho. injection Ho as <-. subst node. cbn [o_path]. congruence.
  - intros a o Ha Ho. pose proof (wf_root _ _ Hwf _ Ha) as Hlt.
    rewrite lookup_app_l in Ho by lia. eauto.
Qed.

Lemma fold_add_item_entry_shaped l st :
  Forall (fun x => x ∈ items) l -> well_formed items st -> entry_shaped items st ->
  entry_shaped items (fold_left add_item l st).
Proof.
  intros Hall. revert st.
  induction Hall as [|x l Hx _ IH]; intros st Hwf Hes; cbn; [exact Hes|].
  apply IH; [apply add_item_well_formed|apply add_item_entry_shaped]; assumption.
Qed.

End BuildShape.

Section ReadBackShape.
Import JS Tree TreeFacts.

Variable h : list NodeObj.

(** What a successful read of one object gives. *)
Lemma read_node_spec fuel a n :
  read_node (S fuel) h a = Some n ->
  exists o, h !! a = Some o
    /\ node_id n = o_id o /\ node_name n = o_name o
    /\ node_type n = o_type o /\ node_path n = o_path o
    /\ match o_children o with
       | None => node_children n = None
       | Some cs => exists ms, node_children n = Some ms
                               /\ mapM (read_node fuel h) cs = Some ms
       end.
Proof.
  cbn [read_node]. destruct (h !! a) as [o|]; [|discriminate].
  exists o. split; [reflexivity|].
  destruct (o_children o) as [cs|].
  - destruct (mapM (read_node fuel h) cs) as [ms|]; [|discriminate].
    injection H as <-. cbn. eauto 10.
  - injection H as <-. cbn. auto.
Qed.

(** Every node of a tree that was read back is itself the read-back of an
    object: the one read, or one below it. *)
Lemma read_node_nodes fuel : forall a n m,
  read_node fuel h a = Some n -> In m (nodes_of n) ->
  exists b, descends h a b /\ represents h b m.
Proof.
  induction fuel as [|fuel IH]; intros a n m Hread Hm; [discriminate|].
  destruct (read_node_spec _ _ _ Hread) as (o & Ho & _ & _ & _ & _ & Hkids).
  destruct n as [i nm t pa c]. cbn [nodes_of node_children] in Hm, Hkids.
  destruct Hm as [<-|Hm].
  { exists a. split; [constructor|]. exists (S fuel). exact Hread. }
  destruct (o_children o) as [cs|] eqn:Hcs.
  - destruct Hkids as (ms & -> & Hmap).
    apply in_concat in Hm as (l & Hl & Hm).
    apply in_map_iff in Hl as (k & <- & Hk).
    apply mapM_Some_1 in Hmap.
    apply list_elem_of_In, list_elem_of_lookup_1 in Hk as [j Hj].
    destruct (Forall2_lookup_r _ _ _ _ _ Hmap Hj) as (c & Hc & Hreadc).
    destruct (IH _ _ _ Hreadc Hm) as (b & Hb & Hrep).
    exists b. split; [|exact Hrep].
    eapply descends_step; [exact Ho|exact Hcs| |exact Hb].
    eapply list_elem_of_lookup_2; eassumption.
  - rewrite Hkids in Hm. destruct Hm.
Qed.

(** Every object below one that was read is the read-back of a node of
    the tree read. *)
Lemma read_node_descends fuel : forall a n b,
  read_node fuel h a = Some n -> descends h a b ->
  exists m, In m (nodes_of n) /\ represents h b m.
Proof.
  induction fuel as [|fuel IH]; intros a n b Hread Hdesc; [discriminate|].
  destruct Hdesc as [a|p o cs c b Hp Hcs Hc Hdesc].
  { exists n. split; [destruct n; now left|]. exists (S fuel). exact Hread. }
  destruct (read_node_spec _ _ _ Hread) as (o' & Ho' & _ & _ & _ & _ & Hkids).
  rewrite Hp in Ho'. injection Ho' as <-. rewrite Hcs in Hkids.
  destruct Hkids as (ms & Hms & Hmap).
  apply mapM_Some_1 in Hmap.
  apply list_elem_of_lookup_1 in Hc as [j Hj].
  destruct (Forall2_lookup_l _ _ _ _ _ Hmap Hj) as (k & Hk & Hreadc).
  destruct (IH _ _ _ Hreadc Hdesc) as (m & Hm & Hrep).
  exists m. split; [|exact Hrep].
  destruct n as [i nm t pa ch]. cbn [node_children] in Hms. subst ch.
  cbn [nodes_of node_children]. right.
  apply in_concat. exists (nodes_of k). split; [|exact Hm].
  apply in_map, list_elem_of_In. eapply list_elem_of_lookup_2; eassumption.
Qed.

(** The fields of a node are those of the object it was read from. *)
Lemma represents_spec a n :
  represents h a n ->
  exists o, h !! a = Some o
    /\ node_id n = o_id o /\ node_name n = o_name o
    /\ node_type n = o_type o /\ node_path n = o_path o
    /\ match o_children o with
       | None => node_children n = None
       | Some cs => exists ms, node_children n = Some ms
                               /\ Forall2 (represents h) cs ms
       end.
Proof.
  intros [[|fuel] Hread]; [discriminate|].
  destruct (read_node_spec _ _ _ Hread) as (o & Ho & Hi & Hn & Ht & Hp & Hkids).
  exists o. repeat (split; [assumption|]).
  destruct (o_children o) as [cs|]; [|exact Hkids].
  destruct Hkids as (ms & Hms & Hmap). exists ms. split; [exact Hms|].
  apply mapM_Some_1 in Hmap. eapply Forall2_impl; [exact Hmap|].
  intros c m Hc. exists fuel. exact Hc.
Qed.

End ReadBackShape.

Section RootLevel.
Import JS Tree TreeFacts.

Variable items : list GitHubTreeItem.

Lemma push_child_path h p c a :
  o_path <$> push_child h p c !! a = o_path <$> h !! a.
Proof.
  unfold push_child. destruct (h !! p) as [parent|] eqn:Hp; [|reflexivity].
  destruct (o_children parent) as [cs|]; [|reflexivity].
  destruct (decide (p = a)) as [->|Hne].
  - rewrite list_lookup_insert_eq by (eapply lookup_lt_Some; eassumption).
    rewrite Hp. reflexivity.
  - now rewrite list_lookup_insert_ne.
Qed.

Lemma root_paths_ext (h h' : list NodeObj) (rs : list nat) :
  (forall a, a ∈ rs -> o_path <$> h' !! a = o_path <$> h !! a) ->
  omap (fun a => o_path <$> h' !! a) rs = omap (fun a => o_path <$> h !! a) rs.
Proof.
  induction rs as [|r rs IH]; intros Hext; [reflexivity|].
  cbn. rewrite (Hext r) by (now left).
  rewrite IH by (intros a Ha; apply Hext; now right). reflexivity.
Qed.

(** An iteration adds the path of a top-level entry at the end of the
    root list and leaves the root list alone otherwise. *)
Lemma add_item_root_paths st item :
  well_formed items st ->
  root_paths (add_item st item)
  = (root_paths st ++ if top_level item then [item_path item] else [])%list.
Proof.
  intros Hwf. unfold root_paths, top_level.
  assert (Hold : forall node a, a ∈ root st ->
            o_path <$> (heap st ++ [node])%list !! a = o_path <$> heap st !! a).
  { intros node a Ha. pose proof (wf_root _ _ Hwf _ Ha).
    now rewrite lookup_app_l by lia. }
  destruct (add_item_cases st item) as [(Htop & ->)|[(Hne & p & Hp & ->)|(Hne & _ & ->)]];
    cbn [heap root].
  - rewrite Htop. cbn [String.eqb]. rewrite omap_app. f_equal.
    + apply root_paths_ext, Hold.
    + cbn. rewrite list_lookup_middle by reflexivity. reflexivity.
  - apply String.eqb_neq in Hne. rewrite Hne, app_nil_r.
    apply root_paths_ext. intros a Ha. rewrite push_child_path. now apply Hold.
  - apply String.eqb_neq in Hne. rewrite Hne, app_nil_r.
    apply root_paths_ext, Hold.
Qed.

Lemma fold_add_item_root_paths l st :
  Forall (fun x => x ∈ items) l -> well_formed items st ->
  root_paths (fold_left add_item l st)
  = (root_paths st ++ map item_path (List.filter top_level l))%list.
Proof.
  intros Hall. revert st.
  induction Hall as [|x l Hx _ IH]; intros st Hwf; cbn [fold_left List.filter map].
  - now rewrite app_nil_r.
  - rewrite IH by (now apply add_item_well_formed).
    rewrite add_item_root_paths by assumption.
    destruct (top_level x); cbn [map]; rewrite <- app_assoc; reflexivity.
Qed.

Lemma represents_root_paths (h : list NodeObj) (rs : list nat) ns :
  Forall2 (represents h) rs ns ->
  omap (fun a => o_path <$> h !! a) rs = map node_path ns.
Proof.
  induction 1 as [|r n rs ns Hrep _ IH]; [reflexivity|].
  destruct (represents_spec _ _ _ Hrep) as (o & Ho & _ & _ & _ & Hp & _).
  cbn. rewrite Ho. cbn. now rewrite IH, Hp.
Qed.

End RootLevel.

Section HierarchyShape.
Import JS Tree TreeFacts.

Variable localeCompare : string -> string -> Z.

Local Abbreviation built := (build localeCompare).
Local Abbreviation tree := (buildFileTree localeCompare).

Lemma build_entry_shaped items : entry_shaped items (built items).
Proof.
  unfold build.
  assert (Hall : Forall (fun x => x ∈ items) (sortedItems localeCompare items)).
  { apply Forall_forall. intros x Hx. now rewrite sortedItems_perm in Hx. }
  apply fold_add_item_entry_shaped;
    [exact Hall|apply well_formed_empty|apply well_formed_empty_shaped].
Qed.

(** The root nodes are the read-backs of the objects [root] refers to. *)
Lemma buildFileTree_roots items :
  Forall2 (represents (heap (built items))) (root (built items)) (tree items).
Proof.
  pose proof (buildFileTree_reads localeCompare items) as Hread.
  unfold read_nodes in Hread. apply mapM_Some_1 in Hread.
  eapply Forall2_impl; [exact Hread|]. intros a n Ha. eexists. exact Ha.
Qed.

(** Every node of the hierarchy is the read-back of an object that lies
    at or below an object of [root]. *)
Lemma buildFileTree_nodes items m :
  In m (nodes_in (tree items)) ->
  exists r b, r ∈ root (built items) /\ descends (heap (built items)) r b
              /\ represents (heap (built items)) b m.
Proof.
  unfold nodes_in. intros Hm.
  apply in_concat in Hm as (l & Hl & Hm).
  apply in_map_iff in Hl as (n & <- & Hn).
  apply list_elem_of_In, list_elem_of_lookup_1 in Hn as [j Hj].
  destruct (Forall2_lookup_r _ _ _ _ _ (buildFileTree_roots items) Hj) as (r & Hr & [fuel Hread]).
  destruct (read_node_nodes _ _ _ _ _ Hread Hm) as (b & Hb & Hrep).
  exists r, b. split; [eapply list_elem_of_lookup_2; eassumption|auto].
Qed.

(** X7: every node of the returned hierarchy, at whatever depth, was made
    for an entry of the listing: its id is the entry's sha, its path the
    entry's path, its name the last segment of that path, and it is a
    folder with a children array exactly when the entry is a tree, a file
    without one otherwise. *)
Theorem buildFileTree_nodes_come_from_entries items m :
  In m (nodes_in (tree items)) ->
  exists item, item ∈ items /\ node_of_entry item m.
Proof.
  intros Hm. destruct (buildFileTree_nodes items m Hm) as (r & b & _ & _ & Hrep).
  destruct (represents_spec _ _ _ Hrep) as (o & Ho & Hi & Hn & Ht & Hp & Hkids).
  destruct (es_object _ _ (build_entry_shaped items) _ _ Ho)
    as (item & Hitem & Hi' & Hn' & Hp' & Ht' & Hk').
  exists item. split; [exact Hitem|].
  unfold node_of_entry. rewrite Hi, Hn, Ht, Hp. repeat split; try assumption.
  - intros Hnone. apply Hk'. destruct (o_children o) as [cs|]; [|reflexivity].
    destruct Hkids as (ms & Hms & _). congruence.
  - intros Hblob. apply Hk' in Hblob. rewrite Hblob in Hkids. exact Hkids.
Qed.

(** X8: the hierarchy nests by path: a node of the root list has an empty
    parent path, and a node in the children array of a node, at whatever
    depth, has that node's path as its parent path. *)
Theorem buildFileTree_children_lie_in_their_folder items :
  (forall n, In n (tree items) -> parentPath (node_path n) = EmptyString)
  /\ (forall m ms c, In m (nodes_in (tree items)) ->
        node_children m = Some ms -> In c ms ->
        parentPath (node_path c) = node_path m).
Proof.
  pose proof (build_entry_shaped items) as Hes. split.
  - intros n Hn.
    apply list_elem_of_In, list_elem_of_lookup_1 in Hn as [j Hj].
    destruct (Forall2_lookup_r _ _ _ _ _ (buildFileTree_roots items) Hj) as (r & Hr & Hrep).
    destruct (represents_spec _ _ _ Hrep) as (o & Ho & _ & _ & _ & Hp & _).
    rewrite Hp. eapply (es_root _ _ Hes); [|exact Ho].
    eapply list_elem_of_lookup_2; eassumption.
  - intros m ms c Hm Hms Hc.
    destruct (buildFileTree_nodes items m Hm) as (r & b & _ & _ & Hrep).
    destruct (represents_spec _ _ _ Hrep) as (o & Ho & _ & _ & _ & Hp & Hkids).
    destruct (o_children o) as [cs|] eqn:Hcs; [|congruence].
    destruct Hkids as (ms' & Hms' & Hall). rewrite Hms in Hms'. injection Hms' as <-.
    apply list_elem_of_In, list_elem_of_lookup_1 in Hc as [j Hj].
    destruct (Forall2_lookup_r _ _ _ _ _ Hall Hj) as (a & Ha & Hrepc).
    destruct (represents_spec _ _ _ Hrepc) as (oc & Hoc & _ & _ & _ & Hpc & _).
    rewrite Hp, Hpc. eapply (es_child _ _ Hes); [exact Ho|exact Hcs| |exact Hoc].
    eapply list_elem_of_lookup_2; eassumption.
Qed.

(** X9: the root list of the hierarchy holds one node for each entry
    whose path has a single segment, in the order of the sorted list, and
    nothing else. *)
Theorem buildFileTree_root_level items :
  map node_path (tree items)
  = map item_path (List.filter top_level (sortedItems localeCompare items)).
Proof.
  rewrite <- (represents_root_paths _ _ _ (buildFileTree_roots items)).
  change (omap _ (root (built items))) with (root_paths (built items)).
  unfold build.
  rewrite (fold_add_item_root_paths items); [reflexivity| |apply well_formed_empty].
  apply Forall_forall. intros x Hx. now rewrite sortedItems_perm in Hx.
Qed.

End HierarchyShape.

Section CompleteListing.
Import JS Tree TreeFacts.

Variable localeCompare : string -> string -> Z.
Variable items : list GitHubTreeItem.
Hypothesis listed : folders_listed items.

Local Abbreviation sorted := (sortedItems localeCompare items).

Lemma descends_mono (h h' : list NodeObj) a b :
  (forall p o cs, h !! p = Some o -> o_children o = Some cs ->
     exists o' cs', h' !! p = Some o' /\ o_children o' = Some cs' /\ cs ⊆ cs') ->
  descends h a b -> descends h' a b.
Proof.
  intros Hmono. induction 1 as [a|p o cs c a Hp Hcs Hc _ IH]; [constructor|].
  destruct (Hmono _ _ _ Hp Hcs) as (o' & cs' & Hp' & Hcs' & Hsub).
  eapply descends_step; [exact Hp'|exact Hcs'|apply Hsub, Hc|exact IH].
Qed.

Lemma descends_child (h : list NodeObj) r p o cs c :
  descends h r p -> h !! p = Some o -> o_children o = Some cs -> c ∈ cs ->
  descends h r c.
Proof.
  induction 1 as [a|q oq cq d a Hq Hcq Hd _ IH]; intros Hp Hcs Hc.
  - eapply descends_step; [exact Hp|exact Hcs|exact Hc|constructor].
  - eapply descends_step; [exact Hq|exact Hcq|exact Hd|]. now apply IH.
Qed.

Lemma snoc_keeps_children (h : list NodeObj) node p o cs :
  h !! p = Some o -> o_children o = Some cs ->
  exists o' cs', (h ++ [node])%list !! p = Some o' /\ o_children o' = Some cs' /\ cs ⊆ cs'.
Proof.
  intros Hp Hcs. exists o, cs. split; [|split; [exact Hcs|reflexivity]].
  rewrite lookup_app_l by (eapply lookup_lt_Some; eassumption). exact Hp.
Qed.

(** One iteration keeps the whole heap below [root], provided the folder
    of the entry has been looped over. *)
Lemma add_item_covered st done item :
  item ∈ items -> well_formed items st -> entry_shaped items st ->
  covered st -> recorded done st ->
  (parentPath (item_path item) <> EmptyString ->
   exists t, t ∈ done /\ item_path t = parentPath (item_path item)) ->
  covered (add_item st item) /\ recorded (done ++ [item]) (add_item st item).
Proof.
  intros Hin Hwf Hes Hcov Hrec Hparent.
  assert (Hrec' : forall st', nodeMap st' = <[item_path item := List.length (heap st)]> (nodeMap st) ->
                    recorded (done ++ [item]) st').
  { intros st' E x Hx. rewrite E. apply lookup_insert_is_Some.
    apply elem_of_app in Hx as [Hx|Hx]; [|apply list_elem_of_singleton in Hx as ->; now left].
    destruct (decide (item_path item = item_path x)); [now left|right].
    split; [assumption|]. now apply Hrec. }
  destruct (add_item_cases st item) as [(Htop & E)|[(Hne & p & Hp & E)|(Hne & Hnone & E)]];
    rewrite E; (split; [|apply Hrec'; reflexivity]); clear E Hrec'.
  - intros a Ha. cbn [heap root] in *. rewrite length_app in Ha. cbn in Ha.
    destruct (decide (a = List.length (heap st))) as [->|Hold].
    + eexists. split; [apply elem_of_app; right; now left|constructor].
    + destruct (Hcov a) as (r & Hr & Hdesc); [lia|].
      exists r. split; [apply elem_of_app; now left|].
      eapply descends_mono; [|exact Hdesc].
      intros q o cq Hq Hcq. eapply snoc_keeps_children; eassumption.
  - set (node := mkObj _ _ _ _ _).
    destruct (wf_map _ _ Hwf _ _ Hp) as (po & Hpo & Hpath).
    destruct (es_object _ _ Hes _ _ Hpo) as (t & Ht & _ & _ & Htpath & _ & Hkind).
    assert (Htree : is_tree t = true).
    { destruct (Hparent Hne) as (t' & _ & Ht').
      apply (proj2 (listed item Hin Hne) t Ht). congruence. }
    destruct (o_children po) as [cs|] eqn:Hcs;
      [|rewrite (proj1 Hkind eq_refl) in Htree; discriminate].
    assert (Hpo1 : (heap st ++ [node])%list !! p = Some po).
    { rewrite lookup_app_l by (eapply lookup_lt_Some; eassumption). exact Hpo. }
    destruct (push_child_adds _ p (List.length (heap st)) _ _ Hpo1 Hcs) as (po' & Hpo' & Hcs').
    assert (Hmono : forall q o cq, heap st !! q = Some o -> o_children o = Some cq ->
              exists o' cq', push_child (heap st ++ [node]) p (List.length (heap st)) !! q = Some o'
                             /\ o_children o' = Some cq' /\ cq ⊆ cq').
    { intros q o cq Hq Hcq. eapply push_child_keeps_children; [|exact Hcq].
      rewrite lookup_app_l by (eapply lookup_lt_Some; eassumption). exact Hq. }
    intros a Ha. cbn [heap root] in *. rewrite push_child_length, length_app in Ha. cbn in Ha.
    destruct (decide (a = List.length (heap st))) as [->|Hold].
    + destruct (Hcov p) as (r & Hr & Hdesc); [eapply lookup_lt_Some; eassumption|].
      exists r. split; [exact Hr|].
      eapply descends_child; [eapply descends_mono; [exact Hmono|exact Hdesc]
                             |exact Hpo'|exact Hcs'|].
      apply elem_of_app. right. now left.
    + destruct (Hcov a) as (r & Hr & Hdesc); [lia|].
      exists r. split; [exact Hr|]. eapply descends_mono; [exact Hmono|exact Hdesc].
  - exfalso. destruct (Hparent Hne) as (t & Ht & Htpath).
    destruct (Hrec t Ht) as [a Ha]. congruence.
Qed.

(** In the sorted list the folder of an entry stands before the entry. *)
Lemma folder_stands_before done e rest :
  sorted = (done ++ e :: rest)%list ->
  parentPath (item_path e) <> EmptyString ->
  exists t, t ∈ done /\ item_path t = parentPath (item_path e).
Proof.
  intros Hsplit Hne.
  assert (He : e ∈ items).
  { rewrite <- (sortedItems_perm localeCompare items), Hsplit.
    apply elem_of_app. right. now left. }
  destruct (proj1 (listed e He Hne)) as (t & Ht & Htpath).
  exists t. split; [|exact Htpath].
  rewrite <- (sortedItems_perm localeCompare items) in Ht.
  apply list_elem_of_lookup_1 in Ht as [i Hi].
  assert (Hlt : (i < List.length done)%nat).
  { eapply (sorted_position localeCompare items i (List.length done) t e);
      [exact Hi|rewrite Hsplit; now apply list_lookup_middle|].
    pose proof (depth_parentPath _ Hne) as Hd. rewrite <- Htpath in Hd.
    unfold precedes. lia. }
  rewrite Hsplit, lookup_app_l in Hi by exact Hlt.
  eapply list_elem_of_lookup_2; eassumption.
Qed.

Lemma fold_add_item_covered rest : forall done st,
  sorted = (done ++ rest)%list ->
  well_formed items st -> entry_shaped items st -> covered st -> recorded done st ->
  covered (fold_left add_item rest st).
Proof.
  induction rest as [|e rest IH]; intros done st Hsplit Hwf Hes Hcov Hrec; [exact Hcov|].
  assert (He : e ∈ items).
  { rewrite <- (sortedItems_perm localeCompare items), Hsplit.
    apply elem_of_app. right. now left. }
  destruct (add_item_covered st done e He Hwf Hes Hcov Hrec) as [Hcov' Hrec'].
  { intros Hne. eapply folder_stands_before; eassumption. }
  cbn [fold_left]. apply (IH (done ++ [e])%list).
  - now rewrite <- app_assoc.
  - now apply add_item_well_formed.
  - now apply add_item_entry_shaped.
  - exact Hcov'.
  - exact Hrec'.
Qed.

Lemma build_covered : covered (build localeCompare items).
Proof.
  unfold build. apply (fold_add_item_covered sorted []); [reflexivity|..].
  - apply well_formed_empty.
  - apply well_formed_empty_shaped.
  - intros a Ha. cbn in Ha. lia.
  - intros x Hx. apply elem_of_nil in Hx as [].
Qed.

End CompleteListing.

Section Completeness.
Import JS Tree TreeFacts.

Variable localeCompare : string -> string -> Z.

Lemma paths_of_nodes_of : forall n, paths_of n = map node_path (nodes_of n).
Proof.
  fix IH 1. intros [i nm t p [cs|]]; cbn; [|reflexivity].
  f_equal. induction cs as [|c cs IHcs]; cbn; [reflexivity|].
  rewrite map_app, <- IH, IHcs. reflexivity.
Qed.

Lemma paths_in_nodes_in ns : paths_in ns = map node_path (nodes_in ns).
Proof.
  unfold paths_in, nodes_in. induction ns as [|n ns IH]; cbn; [reflexivity|].
  now rewrite map_app, paths_of_nodes_of, IH.
Qed.

(** X10: when the listing lists its folders (every entry below the top
    level has a tree entry at its parent path, and only tree entries carry
    that path), no entry is lost: the path of every entry occurs in the
    returned hierarchy. *)
Theorem buildFileTree_keeps_every_entry items e :
  folders_listed items -> e ∈ items ->
  In (item_path e) (paths_in (buildFileTree localeCompare items)).
Proof.
  intros Hlisted He.
  assert (Hobj : exists a o, heap (build localeCompare items) !! a = Some o
                             /\ o_path o = item_path e).
  { unfold build. apply fold_add_item_allocates. now rewrite sortedItems_perm. }
  destruct Hobj as (a & o & Ha & Hpath).
  destruct (build_covered localeCompare items Hlisted a) as (r & Hr & Hdesc);
    [eapply lookup_lt_Some; eassumption|].
  apply list_elem_of_lookup_1 in Hr as [j Hj].
  destruct (Forall2_lookup_l _ _ _ _ _ (buildFileTree_roots localeCompare items) Hj)
    as (n & Hn & [fuel Hread]).
  destruct (read_node_descends _ _ _ _ _ Hread Hdesc) as (m & Hm & Hrep).
  destruct (represents_spec _ _ _ Hrep) as (o' & Ho' & _ & _ & _ & Hp & _).
  rewrite Ha in Ho'. injection Ho' as <-.
  rewrite paths_in_nodes_in, <- Hpath, <- Hp. apply in_map.
  unfold nodes_in. apply in_concat. exists (nodes_of n). split; [|exact Hm].
  apply in_map, list_elem_of_In. eapply list_elem_of_lookup_2; eassumption.
Qed.

End Completeness.

(** ** The requests of the GitHub routes *)

Section RouteRequests.
Import JS Net GitHub RouteFacts.

Lemma prefix_append p s : String.prefix p (p ++ s) = true.
Proof.
  induction p as [|a p IH]; [now destruct s|].
  rewrite append_cons. cbn [String.prefix]. destruct (ascii_dec a a); [exact IH|congruence].
Qed.

Lemma github_get_request token path :
  github_get token (get_request token ("https://api.github.com/repos/" ++ path)).
Proof.
  unfold github_get, get_request. cbn [req_method req_url req_headers req_body].
  repeat split. apply prefix_append.
Qed.

End RouteRequests.

(** ** The tree route: what it sends and what it answers *)

Section TreeRouteDiscipline.
Import JS Net GitHub RouteFacts.

Variable localeCompare : string -> string -> Z.
Variable URL_parse : string -> option URL.
Variable GITHUB_TOKEN : option string.
Variable net : Network.

Ltac route_leaf :=
  unfold Tree.caught;
  first
    [ exists []; split; [now rewrite app_nil_r|];
      split; [cbn; lia|]; split; [constructor|]
    | eexists [_]; split; [reflexivity|];
      split; [cbn; lia|]; split; [repeat constructor; apply github_get_request|]
    | eexists [_; _]; split; [now rewrite <- app_assoc|];
      split; [cbn; lia|]; split; [repeat constructor; apply github_get_request|]
    | eexists [_; _; _]; split; [now rewrite <- !app_assoc|];
      split; [cbn; lia|]; split; [repeat constructor; apply github_get_request|] ].

Ltac route_done :=
  cbn [fst];
  first [ left; split; reflexivity
        | right; left; split; reflexivity
        | right; right; reflexivity ].

(** X11: whatever the request body and whatever the network answers, the
    tree route sends at most three requests, each a GET without a body to
    the repository API with the headers of getGitHubHeaders, and adds them
    after what was sent before; an error answer has status 400, 404 or
    500; a 400 is answered before anything is sent, a 404 after exactly
    one request, and a tree only after all three requests, for the owner
    and repository parsed from the URL. *)
Theorem tree_POST_request_discipline request log :
  exists new,
    snd (Tree.POST localeCompare URL_parse GITHUB_TOKEN net request log) = (log ++ new)%list
    /\ (List.length new <= 3)%nat
    /\ Forall (github_get GITHUB_TOKEN) new
    /\ match fst (Tree.POST localeCompare URL_parse GITHUB_TOKEN net request log) with
       | Tree.ErrorReply code _ =>
           (code = 400 /\ new = []) \/ (code = 404 /\ List.length new = 1%nat) \/ code = 500
       | Tree.TreeReply owner repo _ tree _ =>
           List.length new = 3%nat
           /\ (exists body url, request = Json body /\ get body "url" = inr url
                 /\ parseGitHubUrl URL_parse (toString url) = Some (owner, repo))
           /\ exists items, tree = Tree.buildFileTree localeCompare items
       | Tree.OutsideInterface => List.length new = 3%nat
       end.
Proof.
  unfold Tree.POST.
  destruct request as [e|body]; [route_leaf; route_done|].
  destruct (destructure "body" body "url") as [e|url] eqn:Hurl; [route_leaf; route_done|].
  destruct (truthy url); cbn [negb]; [|route_leaf; route_done].
  destruct (parseGitHubUrl URL_parse (toString url)) as [[owner repo]|] eqn:Hparse;
    [|route_leaf; route_done].
  destruct (net log _) as [e|repoResponse]; [route_leaf; route_done|].
  destruct (ok repoResponse); cbn [negb].
  2:{ destruct (status repoResponse =? 404); route_leaf; route_done. }
  destruct (Net.body repoResponse) as [e|repoData]; [route_leaf; route_done|].
  unfold Tree.after_repo.
  destruct (get repoData "default_branch") as [e|defaultBranch]; [route_leaf; route_done|].
  destruct (net _ _) as [e|branchResponse]; [route_leaf; route_done|].
  destruct (ok branchResponse); cbn [negb]; [|route_leaf; route_done].
  destruct (Net.body branchResponse) as [e|branchData]; [route_leaf; route_done|].
  destruct (get branchData "commit") as [e|c1]; [route_leaf; route_done|].
  destruct (get c1 "commit") as [e|c2]; [route_leaf; route_done|].
  destruct (get c2 "tree") as [e|t]; [route_leaf; route_done|].
  destruct (get t "sha") as [e|treeSha]; [route_leaf; route_done|].
  destruct (net _ _) as [e|treeResponse]; [route_leaf; route_done|].
  destruct (ok treeResponse); cbn [negb]; [|route_leaf; route_done].
  destruct (Net.body treeResponse) as [e|treeData]; [route_leaf; route_done|].
  destruct (get treeData "tree") as [e|items]; [route_leaf; route_done|].
  destruct (Tree.decode_items items) as [l|]; route_leaf; cbn [fst]; [|reflexivity].
  split; [reflexivity|]. split; [|eauto]. exists body, url.
  apply destructure_inr in Hurl. auto.
Qed.

End TreeRouteDiscipline.

(** ** The content route: what it sends and what it answers *)

Section ContentRouteDiscipline.
Import JS Net GitHub Encoding RouteFacts.

Variable toLowerCase : string -> string.
Variable URL_parse : string -> option URL.
Variable GITHUB_TOKEN : option string.
Variable net : Network.

Ltac content_leaf :=
  unfold Content.caught;
  first
    [ exists []; split; [now rewrite app_nil_r|];
      split; [cbn; lia|]; split; [constructor|]
    | eexists [_]; split; [reflexivity|];
      split; [cbn; lia|]; split; [repeat constructor; apply github_get_request|] ];
  cbn [fst];
  try first [ left; split; [reflexivity|]; first [left; reflexivity|right; reflexivity]
            | right; left; split; reflexivity
            | right; right; reflexivity
            | reflexivity ].

(** X12: whatever the request body and whatever the network answers, the
    content route sends at most one request, a GET without a body to the
    repository API with the headers of getGitHubHeaders; an error answer
    has status 400, 404 or 500; a 400 comes before anything is sent unless
    it says that the path is not a file; a 404 and a file answer come
    after exactly one request. *)
Theorem content_POST_request_discipline request log :
  exists new,
    snd (Content.POST toLowerCase URL_parse GITHUB_TOKEN net request log) = (log ++ new)%list
    /\ (List.length new <= 1)%nat
    /\ Forall (github_get GITHUB_TOKEN) new
    /\ match fst (Content.POST toLowerCase URL_parse GITHUB_TOKEN net request log) with
       | Content.ErrorReply code msg =>
           (code = 400 /\ (new = [] \/ msg = "Path is not a file"))
           \/ (code = 404 /\ List.length new = 1%nat) \/ code = 500
       | Content.FileReply _ => List.length new = 1%nat
       | Content.OutsideInterface => List.length new = 1%nat
       end.
Proof.
  unfold Content.POST.
  destruct request as [e|body]; [content_leaf|].
  destruct (destructure "body" body "url") as [e|url]; [content_leaf|].
  destruct (negb (truthy url) || negb (truthy (get_opt body "path"))); [content_leaf|].
  destruct (parseGitHubUrl URL_parse (toString url)) as [[owner repo]|]; [|content_leaf].
  destruct (net log _) as [e|response]; [content_leaf|].
  destruct (ok response); cbn [negb].
  2:{ destruct (status response =? 404); content_leaf. }
  destruct (Net.body response) as [e|data]; [content_leaf|].
  unfold Content.respond.
  destruct (get data "type") as [e|type]; [content_leaf|].
  destruct (Content.is_file type); cbn [negb]; [|content_leaf].
  destruct (get_opt body "path"); try content_leaf.
  destruct (_ || _); [content_leaf|].
  destruct (Content.decode_text _); content_leaf.
Qed.

End ContentRouteDiscipline.

(** ** The content route: file answers and extensions *)

Section FileAnswers.
Import JS Net GitHub Encoding Content.

Variable toLowerCase : string -> string.
Variable URL_parse : string -> option URL.
Variable GITHUB_TOKEN : option string.
Variable net : Network.

Lemma arr_includes_In x l : arr_includes x l = true -> In x l.
Proof.
  unfold arr_includes. intros H. apply existsb_exists in H as (y & Hy & E).
  apply String.eqb_eq in E. now subst.
Qed.

(** The three extension lists share no extension. *)
Lemma media_kinds_disjoint e :
  (isImage e = true -> isVideo e = false /\ isPdf e = false)
  /\ (isVideo e = true -> isImage e = false /\ isPdf e = false)
  /\ (isPdf e = true -> isImage e = false /\ isVideo e = false).
Proof.
  split; [|split]; intros H; apply arr_includes_In in H; cbn in H;
    intuition (subst; reflexivity).
Qed.

(** X13: a file answer of the content route comes from a 2xx answer of
    the upstream to the one request of the route, whose JSON body says
    type file; name, path, size and sha are those of that body.  It is of
    one of two kinds.  For a path whose extension is in one of the three
    media lists it carries no content, the flag isMedia, the raw URL built
    from owner, repository, ref and path, and as media type the name of
    the one list that holds the extension, the lists being disjoint.  For
    any other path the content field of the upstream body is a string,
    and the answer carries what that string decodes to, as base64 and
    then as UTF-8, with the flag down and neither media type nor raw URL.
    The extension is that of the path of the request. *)
Theorem content_POST_file_answer request log f :
  fst (Content.POST toLowerCase URL_parse GITHUB_TOKEN net request log) = FileReply f ->
  exists body p owner repo r data,
    request = Json body /\ get_opt body "path" = JStr p
    /\ parseGitHubUrl URL_parse (toString (get_opt body "url")) = Some (owner, repo)
    /\ net log (get_request GITHUB_TOKEN
                  ("https://api.github.com/repos/" ++ owner ++ "/" ++ repo ++ "/contents/" ++ p
                     ++ "?ref=" ++ toString (or_else (get_opt body "branch") (JStr "main"))))
       = Responded r
    /\ ok r = true /\ Net.body r = Json data /\ get data "type" = inr (JStr "file")
    /\ name f = get_opt data "name" /\ path f = get_opt data "path"
    /\ size f = get_opt data "size" /\ sha f = get_opt data "sha"
    /\ extension f = extension_of toLowerCase p
    /\ isMedia f = isImage (extension f) || isVideo (extension f) || isPdf (extension f)
    /\ (isMedia f = true ->
          content f = None
          /\ rawUrl f = Some ("https://raw.githubusercontent.com/" ++ owner ++ "/" ++ repo ++ "/"
                              ++ toString (or_else (get_opt body "branch") (JStr "main"))
                              ++ "/" ++ p)
          /\ (mediaType f = Some "image" \/ mediaType f = Some "video"
              \/ mediaType f = Some "pdf")
          /\ (mediaType f = Some "image" <-> isImage (extension f) = true)
          /\ (mediaType f = Some "video" <-> isVideo (extension f) = true)
          /\ (mediaType f = Some "pdf" <-> isPdf (extension f) = true))
    /\ (isMedia f = false ->
          mediaType f = None /\ rawUrl f = None
          /\ exists payload,
               get_opt data "content" = JStr payload
               /\ content f = Some (Buffer_toString_utf8 (Buffer_from_base64 payload))).
Proof.
  unfold Content.POST, Content.caught.
  destruct request as [e|body]; [discriminate|].
  destruct (destructure "body" body "url") as [e|url] eqn:Hurl; [discriminate|].
  apply destructure_get_opt in Hurl. subst url.
  destruct (negb (truthy (get_opt body "url")) || negb (truthy (get_opt body "path")));
    [discriminate|].
  destruct (parseGitHubUrl URL_parse (toString (get_opt body "url")))
    as [[owner repo]|] eqn:Hparse; [|discriminate].
  destruct (get_opt body "path") as [| | | |p| |] eqn:Hpath.
  1-4,6-7:
    destruct (net log _) as [e|response]; [discriminate|];
    destruct (ok response); cbn [negb];
      [|destruct (status response =? 404); discriminate];
    destruct (Net.body response) as [e|data]; [discriminate|];
    unfold Content.respond, Content.caught;
    destruct (get data "type") as [e|type]; [discriminate|];
    destruct (is_file type); discriminate.
  cbn [toString].
  destruct (net log _) as [e|response] eqn:Hnet; [discriminate|].
  destruct (ok response) eqn:Hok; cbn [negb];
    [|destruct (status response =? 404); discriminate].
  destruct (Net.body response) as [e|data] eqn:Hbody; [discriminate|].
  unfold Content.respond, Content.caught.
  destruct (get data "type") as [e|type] eqn:Htype; [discriminate|].
  destruct (is_file type) eqn:Hfile; cbn [negb]; [|discriminate].
  assert (Htype' : type = JStr "file").
  { destruct type; try discriminate. cbn in Hfile. apply String.eqb_eq in Hfile. now subst. }
  subst type.
  destruct (media_kinds_disjoint (extension_of toLowerCase p)) as (Himg & Hvid & Hpdf).
  destruct (isImage (extension_of toLowerCase p) || isVideo (extension_of toLowerCase p)
            || isPdf (extension_of toLowerCase p)) eqn:Hmedia.
  - cbn [fst]. intros [= <-].
    cbn [extension isMedia content rawUrl mediaType name path size sha].
    exists body, p, owner, repo, response, data. rewrite Hmedia.
    split; [reflexivity|]. split; [exact Hpath|]. split; [exact Hparse|].
    split; [exact Hnet|]. split; [exact Hok|]. split; [exact Hbody|].
    split; [exact Htype|].
    split; [reflexivity|]. split; [reflexivity|]. split; [reflexivity|].
    split; [reflexivity|].
    split; [reflexivity|]. split; [reflexivity|]. split; [|discriminate]. intros _.
    split; [reflexivity|]. split; [reflexivity|].
    destruct (isImage (extension_of toLowerCase p)) eqn:Ei.
    { destruct (Himg eq_refl) as [-> ->]. repeat split; auto; discriminate. }
    destruct (isVideo (extension_of toLowerCase p)) eqn:Ev.
    { destruct (Hvid eq_refl) as [_ ->]. repeat split; auto; discriminate. }
    cbn [orb] in Hmedia. rewrite Hmedia. repeat split; auto; discriminate.
  - destruct (decode_text (get_opt data "content")) eqn:Hdec; try discriminate.
    cbn [fst]. intros [= <-].
    cbn [extension isMedia content rawUrl mediaType name path size sha].
    exists body, p, owner, repo, response, data. rewrite Hmedia.
    split; [reflexivity|]. split; [exact Hpath|]. split; [exact Hparse|].
    split; [exact Hnet|]. split; [exact Hok|]. split; [exact Hbody|].
    split; [exact Htype|].
    split; [reflexivity|]. split; [reflexivity|]. split; [reflexivity|].
    split; [reflexivity|].
    split; [reflexivity|]. split; [reflexivity|]. split; [discriminate|]. intros _.
    split; [reflexivity|]. split; [reflexivity|].
    unfold decode_text in Hdec. destruct (get_opt data "content"); try discriminate.
    injection Hdec as <-. eauto.
Qed.

End FileAnswers.

Section Extensions.
Import JS Content.

Lemma lower_ascii_idempotent a : lower_ascii (lower_ascii a) = lower_ascii a.
Proof. destruct a as [[] [] [] [] [] [] [] []]; reflexivity. Qed.

Lemma lower_ascii_dot a : Ascii.eqb (lower_ascii a) "."%char = Ascii.eqb a "."%char.
Proof. destruct a as [[] [] [] [] [] [] [] []]; reflexivity. Qed.

Lemma lower_ascii_keeps_ascii a :
  Nat.ltb (nat_of_ascii (lower_ascii a)) 128 = Nat.ltb (nat_of_ascii a) 128.
Proof. destruct a as [[] [] [] [] [] [] [] []]; reflexivity. Qed.

Lemma ascii_lowercase_idempotent s : ascii_lowercase (ascii_lowercase s) = ascii_lowercase s.
Proof.
  induction s as [|a s IH]; cbn; [reflexivity|].
  now rewrite lower_ascii_idempotent, IH.
Qed.

Lemma is_ascii_lowercase s : is_ascii (ascii_lowercase s) = is_ascii s.
Proof.
  induction s as [|a s IH]; [reflexivity|].
  cbn [ascii_lowercase is_ascii]. now rewrite lower_ascii_keeps_ascii, IH.
Qed.

Lemma split_ascii_lowercase s :
  split "." (ascii_lowercase s) = map ascii_lowercase (split "." s).
Proof.
  induction s as [|a s IH]; cbn; [reflexivity|].
  rewrite lower_ascii_dot. destruct (Ascii.eqb a "."); cbn; [now rewrite IH|].
  rewrite IH. destruct (split "." s); reflexivity.
Qed.

(** The segments of a string of ASCII characters are such strings. *)
Lemma split_is_ascii c s :
  is_ascii s = true -> Forall (fun p => is_ascii p = true) (split c s).
Proof.
  induction s as [|a s IH]; cbn [split is_ascii].
  - intros _. repeat constructor.
  - intros H. apply andb_true_iff in H as [Ha Hs]. specialize (IH Hs).
    destruct (Ascii.eqb a c).
    + constructor; [reflexivity|exact IH].
    + destruct (split c s) as [|h t].
      * constructor; [|constructor]. cbn [is_ascii]. now rewrite Ha.
      * inversion IH as [|? ? Hh Ht]; subst.
        constructor; [cbn [is_ascii]; now rewrite Ha, Hh|exact Ht].
Qed.

Lemma last_map {A B} (g : A -> B) (l : list A) : last (map g l) = g <$> last l.
Proof.
  induction l as [|x [|y l] IH]; [reflexivity..|].
  change (last (map g (x :: y :: l))) with (last (map g (y :: l))).
  change (last (x :: y :: l)) with (last (y :: l)). exact IH.
Qed.

Lemma split_app c s t :
  split c (s ++ String c t) = (split c s ++ split c t)%list.
Proof.
  induction s as [|a s IH].
  - change (EmptyString ++ String c t) with (String c t). cbn.
    now rewrite Ascii.eqb_refl.
  - rewrite append_cons. cbn. rewrite IH.
    destruct (Ascii.eqb a c); [reflexivity|].
    pose proof (split_not_nil c s). destruct (split c s); [congruence|reflexivity].
Qed.

Lemma last_app_nonempty {A} (l k : list A) : k <> [] -> last (l ++ k) = last k.
Proof.
  intros Hk. destruct k as [|x k]; [congruence|].
  rewrite last_app. now rewrite last_cons; destruct (last k).
Qed.

Variable toLowerCase : string -> string.

(** X14: the extension of a path is what follows its last dot, in lower
    case: for a path stem.ext whose ext holds no dot it is ext lower-cased,
    whatever the stem.  On a path of ASCII characters, where lower-casing
    lowers the letters A to Z and keeps every other character, the
    extension holds no dot, is already lower case, and does not depend on
    the case of the path. *)
Theorem extension_is_lowercased_suffix stem ext :
  (forall s, is_ascii s = true -> toLowerCase s = ascii_lowercase s) ->
  has_char "." ext = false ->
  extension_of toLowerCase (stem ++ "." ++ ext) = toLowerCase ext
  /\ (forall p, is_ascii p = true ->
        extension_of toLowerCase (toLowerCase p) = extension_of toLowerCase p
        /\ toLowerCase (extension_of toLowerCase p) = extension_of toLowerCase p
        /\ has_char "." (extension_of toLowerCase p) = false).
Proof.
  intros Hlower Hfree. split.
  - unfold extension_of, pop.
    change (stem ++ "." ++ ext) with (stem ++ String "." ext).
    rewrite split_app, last_app_nonempty by apply split_not_nil.
    now rewrite (split_free _ _ Hfree).
  - intros p Hp. unfold extension_of, pop.
    rewrite (Hlower p Hp), split_ascii_lowercase, last_map.
    pose proof (split_parts_free "." p) as Hparts.
    pose proof (split_is_ascii "." p Hp) as Hsegs.
    destruct (last (split "." p)) as [l|] eqn:Hl; cbn; [|auto].
    assert (Hin : l ∈ split "." p).
    { apply last_Some in Hl as [l' ->]. apply elem_of_app. right. now left. }
    rewrite Forall_forall in Hparts, Hsegs.
    specialize (Hparts _ Hin). specialize (Hsegs _ Hin).
    assert (Hl1 : toLowerCase l = ascii_lowercase l) by now apply Hlower.
    assert (Hl2 : toLowerCase (ascii_lowercase l) = ascii_lowercase l).
    { rewrite Hlower by now rewrite is_ascii_lowercase.
      apply ascii_lowercase_idempotent. }
    rewrite Hl1, Hl2. split; [reflexivity|]. split; [reflexivity|].
    clear -Hparts. induction l as [|a l IH]; cbn in *; [reflexivity|].
    rewrite lower_ascii_dot. destruct (Ascii.eqb a "."); [discriminate|auto].
Qed.

End Extensions.

(** ** Buffers: what the UTF-8 decoder gives on any input *)

Section Utf8Normalisation.
Import Encoding EncodingFacts.

Lemma between_true lo hi b : lo <= b <= hi -> between lo hi b = true.
Proof. apply between_spec. Qed.

Lemma between_false lo hi b : b < lo \/ hi < b -> between lo hi b = false.
Proof.
  intros H. destruct (between lo hi b) eqn:E; [|reflexivity].
  apply between_spec in E. lia.
Qed.

Lemma scalar_replacement : scalar 0xFFFD.
Proof. unfold scalar. lia. Qed.

(** A lead byte opens a character that can only end in a scalar value. *)

Lemma lead_ok b :
  is_byte b -> Forall scalar (fst (lead b)) /\ state_ok (snd (lead b)).
Proof.
  unfold is_byte. intros Hb.
  assert (Hcases : b <= 0x7F \/ 0x80 <= b < 0xC2 \/ 0xC2 <= b <= 0xDF
                   \/ 0xE0 <= b <= 0xEF \/ 0xF0 <= b <= 0xF4 \/ 0xF5 <= b) by lia.
  unfold lead.
  destruct Hcases as [H | [H | [H | [H | [H | H]]]]];
    repeat (match goal with
            | |- context [?x <=? ?y] => destruct (Z.leb_spec x y); try lia
            end; cbn [andb fst snd]).
  - split; [|exact I]. repeat constructor; lia.
  - split; [|exact I]. constructor; [apply scalar_replacement|constructor].
  - split; [constructor|]. cbn. unfold scalar. intros b1 Hb1. euclid.
  - split; [constructor|]. cbn. unfold scalar, second_lower, second_upper.
    intros b1 Hb1 b2 Hb2.
    destruct (Z.eqb_spec b 0xE0), (Z.eqb_spec b 0xED), (Z.eqb_spec b 0xF0),
      (Z.eqb_spec b 0xF4); try lia; euclid.
  - split; [constructor|]. cbn. unfold scalar, second_lower, second_upper.
    intros b1 Hb1 b2 Hb2 b3 Hb3.
    assert (Hfive : b = 0xF0 \/ b = 0xF1 \/ b = 0xF2 \/ b = 0xF3 \/ b = 0xF4) by lia.
    destruct Hfive as [-> | [-> | [-> | [-> | ->]]]]; cbn in Hb1 |- *; euclid.
  - split; [|exact I]. constructor; [apply scalar_replacement|constructor].
Qed.

Lemma decode_from_scalar bs : forall st,
  Forall is_byte bs -> state_ok st -> Forall scalar (utf8_decode_from st bs).
Proof.
  induction bs as [|b rest IH]; intros st Hbs Hst.
  - destruct st; cbn; [constructor|]. constructor; [apply scalar_replacement|constructor].
  - inversion Hbs as [|? ? Hb Hrest]; subst.
    destruct (lead_ok b Hb) as [Hout Hst'].
    cbn [utf8_decode_from]. destruct st as [|cp needed lower upper].
    + destruct (lead b) as [out st']. apply Forall_app. split; [exact Hout|].
      now apply IH.
    + destruct (Z.leb_spec lower b), (Z.leb_spec b upper); cbn [andb].
      2-4: destruct (lead b) as [out st']; constructor; [apply scalar_replacement|];
           apply Forall_app; split; [exact Hout|now apply IH].
      destruct needed as [|n].
      * constructor; [apply (Hst b); lia|]. now apply IH.
      * apply IH; [exact Hrest|]. apply (Hst b). lia.
Qed.

(** The encoding of a scalar value is a well-formed character. *)
Lemma encode_one_wf cp rest :
  scalar cp ->
  well_formed_utf8 (utf8_encode_one cp ++ rest) = well_formed_utf8 rest.
Proof.
  unfold scalar, utf8_encode_one. intros [Hrange Hsur].
  destruct (Z.leb_spec cp 0x7F).
  { cbn [app well_formed_utf8]. now rewrite between_true by lia. }
  destruct (Z.leb_spec cp 0x7FF).
  { cbn [app well_formed_utf8].
    rewrite (between_false 0 0x7F) by euclid.
    rewrite (between_true 0xC2 0xDF) by euclid.
    rewrite (between_true 0x80 0xBF) by euclid. reflexivity. }
  destruct (Z.leb_spec cp 0xFFFF).
  { cbn [app well_formed_utf8].
    rewrite (between_false 0 0x7F) by euclid.
    rewrite (between_false 0xC2 0xDF) by euclid.
    rewrite (between_true 0xE0 0xEF) by euclid.
    rewrite (between_true 0x80 0xBF (0x80 + cp mod 64)) by euclid.
    rewrite between_true; [reflexivity|].
    unfold second_lower, second_upper.
    destruct (Z.eqb_spec (0xE0 + cp / 4096) 0xE0), (Z.eqb_spec (0xE0 + cp / 4096) 0xED),
      (Z.eqb_spec (0xE0 + cp / 4096) 0xF0), (Z.eqb_spec (0xE0 + cp / 4096) 0xF4);
      euclid. }
  cbn [app well_formed_utf8].
  rewrite (between_false 0 0x7F) by euclid.
  rewrite (between_false 0xC2 0xDF) by euclid.
  rewrite (between_false 0xE0 0xEF) by euclid.
  rewrite (between_true 0xF0 0xF4) by euclid.
  rewrite (between_true 0x80 0xBF (0x80 + cp mod 64)) by euclid.
  rewrite (between_true 0x80 0xBF (0x80 + (cp / 64) mod 64)) by euclid.
  rewrite between_true; [reflexivity|].
  unfold second_lower, second_upper.
  destruct (Z.eqb_spec (0xF0 + cp / 262144) 0xE0), (Z.eqb_spec (0xF0 + cp / 262144) 0xED),
    (Z.eqb_spec (0xF0 + cp / 262144) 0xF0), (Z.eqb_spec (0xF0 + cp / 262144) 0xF4);
    euclid.
Qed.

Lemma encode_wf cps : Forall scalar cps -> well_formed_utf8 (utf8_encode cps) = true.
Proof.
  unfold utf8_encode. induction 1 as [|cp cps Hcp _ IH]; [reflexivity|].
  cbn [flat_map]. now rewrite encode_one_wf.
Qed.

Lemma encode_one_bytes cp : scalar cp -> Forall is_byte (utf8_encode_one cp).
Proof.
  unfold scalar, utf8_encode_one, is_byte. intros [Hrange Hsur].
  destruct (Z.leb_spec cp 0x7F); [repeat constructor; lia|].
  destruct (Z.leb_spec cp 0x7FF); [repeat constructor; euclid|].
  destruct (Z.leb_spec cp 0xFFFF); repeat constructor; euclid.
Qed.

Lemma encode_bytes cps : Forall scalar cps -> Forall is_byte (utf8_encode cps).
Proof.
  unfold utf8_encode. induction 1 as [|cp cps Hcp _ IH]; [constructor|].
  cbn [flat_map]. apply Forall_app. split; [now apply encode_one_bytes|exact IH].
Qed.

Lemma Z_of_byte_of_Z z : is_byte z -> Z_of_byte (byte_of_Z z) = z.
Proof.
  unfold is_byte, Z_of_byte, byte_of_Z. intros Hz.
  destruct (Byte.of_N (Z.to_N z)) as [b|] eqn:E.
  - apply Byte.to_of_N in E. cbn. rewrite E. lia.
  - apply Byte.of_N_None_iff in E. lia.
Qed.

Lemma Z_of_bytes_of_Z bs : Forall is_byte bs -> map Z_of_byte (map byte_of_Z bs) = bs.
Proof.
  induction 1 as [|b bs Hb _ IH]; [reflexivity|].
  cbn [map]. now rewrite Z_of_byte_of_Z, IH.
Qed.

(** What [toString("utf-8")] holds, as bytes, for any buffer. *)
Lemma decoded_bytes buf :
  Forall scalar (utf8_decode (map Z_of_byte buf)).
Proof.
  apply decode_from_scalar; [|exact I].
  apply Forall_forall. intros z Hz.
  apply list_elem_of_In, in_map_iff in Hz as (b & <- & _). apply Z_of_byte_range.
Qed.

(** X15: decoding any buffer as UTF-8 gives a string whose encoding is
    well-formed UTF-8, whatever the bytes were; decoding that encoding
    again gives the same string; and the encoding of the decoded string is
    the original buffer exactly when the buffer was well-formed UTF-8. *)
Theorem utf8_decoding_normalises buf :
  well_formed_utf8 (map Z_of_byte (Buffer_from_utf8 (Buffer_toString_utf8 buf))) = true
  /\ Buffer_toString_utf8 (Buffer_from_utf8 (Buffer_toString_utf8 buf))
     = Buffer_toString_utf8 buf
  /\ (Buffer_from_utf8 (Buffer_toString_utf8 buf) = buf
      <-> well_formed_utf8 (map Z_of_byte buf) = true).
Proof.
  pose proof (decoded_bytes buf) as Hscalar.
  pose proof (encode_wf _ Hscalar) as Hwf.
  pose proof (encode_bytes _ Hscalar) as Hbytes.
  assert (Hback : Buffer_from_utf8 (Buffer_toString_utf8 buf)
                  = map byte_of_Z (utf8_encode (utf8_decode (map Z_of_byte buf)))).
  { unfold Buffer_from_utf8, Buffer_toString_utf8.
    apply list_byte_of_string_of_list_byte. }
  rewrite Hback. split; [|split].
  - now rewrite Z_of_bytes_of_Z.
  - unfold Buffer_toString_utf8 at 1. rewrite Z_of_bytes_of_Z by exact Hbytes.
    now rewrite (utf8_roundtrip _ Hwf).
  - split.
    + intros E. rewrite <- E at 1. now rewrite Z_of_bytes_of_Z.
    + intros Hbuf. rewrite <- Hback. now apply Buffer_utf8_roundtrip.
Qed.

End Utf8Normalisation.

(** ** Buffers: base64 text with line breaks *)

Section WrappedBase64.
Import JS Encoding EncodingFacts Content.

Lemma sextets_strip_foreign s : sextets (strip_foreign s) = sextets s.
Proof.
  induction s as [|c s IH]; [reflexivity|]. cbn [strip_foreign sextets].
  destruct (Ascii.eqb c "=") eqn:Epad; cbn [orb].
  - cbn [sextets]. now rewrite Epad.
  - destruct (unbase64 c) as [v|] eqn:Eu.
    + rewrite bool_decide_eq_true_2 by eauto. cbn [sextets]. now rewrite Epad, Eu, IH.
    + rewrite bool_decide_eq_false_2 by (intros [? ?]; discriminate). exact IH.
Qed.

(** X16: a payload that is the base64 text of a buffer interrupted by
    characters outside the alphabet, such as the line breaks GitHub puts
    into the content field, decodes to that buffer, and the text branch of
    the content route answers with the UTF-8 reading of the buffer. *)
Theorem wrapped_base64_decodes_to_buffer payload buf :
  strip_foreign payload = Buffer_toString_base64 buf ->
  Buffer_from_base64 payload = buf
  /\ decode_text (JStr payload) = Text (Buffer_toString_utf8 buf).
Proof.
  intros Hstrip.
  assert (Hbuf : Buffer_from_base64 payload = buf).
  { unfold Buffer_from_base64. rewrite <- sextets_strip_foreign, Hstrip.
    apply Buffer_base64_roundtrip. }
  split; [exact Hbuf|]. cbn [decode_text]. now rewrite Hbuf.
Qed.

End WrappedBase64.

(** ** The chat client: results and requests of any call *)

Section ChatResults.
Import JS Net Groq GroqFacts.

Variable env : ProcessEnv.
Variable net : Network.
Variable opts : GroqRequestOptions.
Local Abbreviation keys := (getApiKeys env).
Local Abbreviation request := (fun key => chat_request key opts).

Lemma attemptOnce_well_shaped st log r st' log' :
  attemptOnce env net opts st log = Done r st' log' -> well_shaped r.
Proof.
  assert (Hfail : forall m, well_shaped (failure m)) by (intros m; right; cbn; eauto).
  unfold attemptOnce. destruct (getCurrentApiKey env st) as [[key|] st0];
    [|intros [= <- _ _]; apply Hfail].
  destruct (String.eqb key EmptyString); [intros [= <- _ _]; apply Hfail|].
  destruct (net log _) as [e|response]; [intros [= <- _ _]; apply Hfail|].
  destruct ((status response =? 429) && negb (allKeysExhausted st0)).
  { destruct (switchToNextKey env st0) as [[] st1]; [discriminate|].
    intros [= <- _ _]; apply Hfail. }
  destruct (negb (ok response)); [destruct (text _); intros [= <- _ _]; apply Hfail|].
  destruct (body response) as [e|data]; [intros [= <- _ _]; apply Hfail|].
  destruct (get data "choices") as [e|choices]; [intros [= <- _ _]; apply Hfail|].
  destruct (truthy _) eqn:Htruthy; cbn [negb]; intros [= <- _ _]; [|apply Hfail].
  left. cbn. eauto.
Qed.

(** What holds of every pass that returns holds of the closure. *)
Lemma attemptRequest_done (P : GroqResponse -> State -> list Request -> Prop) :
  (forall st log r st' log', attemptOnce env net opts st log = Done r st' log' -> P r st' log') ->
  forall st log,
    P (fst (fst (attemptRequest env net opts st log)))
      (snd (fst (attemptRequest env net opts st log)))
      (snd (attemptRequest env net opts st log)).
Proof.
  intros Hdone st.
  remember (List.length keys - currentApiKeyIndex st)%nat as n eqn:Hn.
  revert st Hn. induction n as [n IH] using lt_wf_ind. intros st Hn log.
  rewrite attemptRequest_eq. pose proof (attemptOnce_log env net opts st log) as Hstep.
  destruct (attemptOnce env net opts st log) as [r st' log'|st' log'] eqn:E.
  - cbn. eapply Hdone. exact E.
  - destruct Hstep as (_ & Hlt & Hnext & Hlt').
    apply (IH (List.length keys - currentApiKeyIndex st')%nat); [lia|reflexivity].
Qed.

Lemma sendToGroq_result_shape_helper st log :
  well_shaped (fst (fst (sendToGroq env net opts st log))).
Proof.
  unfold sendToGroq.
  apply (attemptRequest_done (fun r _ _ => well_shaped r)). apply attemptOnce_well_shaped.
Qed.

(** A pass that reports success has just sent a request that was answered
    in the 2xx range with a completion. *)
Lemma attemptOnce_success st log r st' log' :
  attemptOnce env net opts st log = Done r st' log' -> success r = true ->
  exists key resp data choices,
    log' = (log ++ [request key])%list
    /\ net log (request key) = Responded resp /\ ok resp = true
    /\ body resp = Json data /\ get data "choices" = inr choices
    /\ content r = Some (get_opt (get_opt (index0_opt choices) "message") "content").
Proof.
  unfold attemptOnce. destruct (getCurrentApiKey env st) as [[key|] st0];
    [|intros [= <- _ _]; discriminate].
  destruct (String.eqb key EmptyString); [intros [= <- _ _]; discriminate|].
  destruct (net log _) as [e|response] eqn:Hnet; [intros [= <- _ _]; discriminate|].
  destruct ((status response =? 429) && negb (allKeysExhausted st0)).
  { destruct (switchToNextKey env st0) as [[] st1]; [discriminate|].
    intros [= <- _ _]; discriminate. }
  destruct (ok response) eqn:Hok; cbn [negb];
    [|destruct (text _); intros [= <- _ _]; discriminate].
  destruct (body response) as [e|data] eqn:Hbody; [intros [= <- _ _]; discriminate|].
  destruct (get data "choices") as [e|choices] eqn:Hch; [intros [= <- _ _]; discriminate|].
  destruct (truthy _); cbn [negb]; intros [= <- _ <-]; [|discriminate].
  intros _. exists key, response, data, choices. auto 10.
Qed.

(** X17: whatever the cursor and whatever the network answers, the
    result of sendToGroq has one of two shapes: success with a completion
    that is truthy and no error, or failure with an error message and no
    completion; an empty completion is never reported as a success.  A
    success is the answer to the last request sent: that request was
    answered in the 2xx range, and the completion is the content of the
    first choice of that answer. *)
Theorem sendToGroq_result_is_well_shaped st log :
  well_shaped (fst (fst (sendToGroq env net opts st log)))
  /\ (success (fst (fst (sendToGroq env net opts st log))) = true ->
      exists before key resp data choices,
        snd (sendToGroq env net opts st log) = (before ++ [request key])%list
        /\ net before (request key) = Responded resp /\ ok resp = true
        /\ body resp = Json data /\ get data "choices" = inr choices
        /\ content (fst (fst (sendToGroq env net opts st log)))
           = Some (get_opt (get_opt (index0_opt choices) "message") "content")).
Proof.
  unfold sendToGroq. split.
  - apply (attemptRequest_done (fun r _ _ => well_shaped r)). apply attemptOnce_well_shaped.
  - apply (attemptRequest_done (fun r _ log' =>
             success r = true ->
             exists before key resp data choices,
               log' = (before ++ [request key])%list
               /\ net before (request key) = Responded resp /\ ok resp = true
               /\ body resp = Json data /\ get data "choices" = inr choices
               /\ content r = Some (get_opt (get_opt (index0_opt choices) "message") "content"))).
    intros st0 log0 r st' log' Hdone Hsucc.
    destruct (attemptOnce_success _ _ _ _ _ Hdone Hsucc) as (key & resp & data & choices & H).
    exists log0, key, resp, data, choices. exact H.
Qed.

(** The requests of a call from a cursor past the end: the cursor is
    rewound and the first key is tried once. *)
Lemma attemptRequest_past_end st log :
  (List.length keys <= currentApiKeyIndex st)%nat ->
  exists ks, snd (attemptRequest env net opts st log) = (log ++ map request ks)%list
             /\ ks ⊆ keys /\ (List.length ks <= 1)%nat.
Proof.
  intros Hge. rewrite attemptRequest_eq.
  assert (Hnone : exists ks, log = (log ++ map request ks)%list
                             /\ ks ⊆ keys /\ (List.length ks <= 1)%nat).
  { exists []. rewrite app_nil_r. split; [reflexivity|]. split; [|cbn; lia].
    intros x Hx. apply elem_of_nil in Hx as []. }
  unfold attemptOnce, getCurrentApiKey.
  destruct (Nat.eqb_spec (List.length keys) 0); [exact Hnone|].
  destruct (Nat.leb_spec (List.length keys) (currentApiKeyIndex st)); [|lia].
  cbn [currentApiKeyIndex allKeysExhausted].
  destruct (keys !! 0%nat) as [key|] eqn:Hkey; [|exact Hnone].
  assert (Hone : exists ks, (log ++ [request key])%list = (log ++ map request ks)%list
                            /\ ks ⊆ keys /\ (List.length ks <= 1)%nat).
  { exists [key]. split; [reflexivity|]. split; [|cbn; lia].
    intros x Hx. apply list_elem_of_singleton in Hx as ->.
    eapply list_elem_of_lookup_2; eassumption. }
  destruct (String.eqb key EmptyString); [exact Hnone|].
  destruct (net log _) as [e|response]; [exact Hone|].
  rewrite andb_false_r.
  destruct (negb (ok response)); [destruct (text _); exact Hone|].
  destruct (body response) as [e|data]; [exact Hone|].
  destruct (get data "choices"); [exact Hone|].
  destruct (negb (truthy _)); exact Hone.
Qed.

(** Every request of a call is a chat request for a configured key, and
    there are no more of them than keys. *)
Lemma sendToGroq_requests st log :
  exists ks, snd (sendToGroq env net opts st log) = (log ++ map request ks)%list
             /\ ks ⊆ keys /\ (List.length ks <= List.length keys)%nat.
Proof.
  unfold sendToGroq.
  destruct (Nat.lt_ge_cases (currentApiKeyIndex st) (List.length keys)) as [Hlt|Hge].
  - destruct (attemptRequest_trace env net opts _ (currentApiKeyIndex st) false log
                eq_refl Hlt) as (j & Hj & E).
    exists (take j (drop (currentApiKeyIndex st) keys)). split; [exact E|]. split.
    + intros x Hx. apply elem_of_take in Hx as (i & Hx & _).
      rewrite lookup_drop in Hx. eapply list_elem_of_lookup_2. exact Hx.
    + rewrite length_take, length_drop. lia.
  - destruct (attemptRequest_past_end (mkState (currentApiKeyIndex st) false) log Hge)
      as (ks & E & Hsub & Hlen).
    exists ks. split; [exact E|]. split; [exact Hsub|].
    destruct ks as [|k ks]; [cbn; lia|].
    assert (Hk : k ∈ keys) by (apply Hsub; now left).
    destruct keys; [apply elem_of_nil in Hk as []|cbn in *; lia].
Qed.

End ChatResults.

(** ** The generate-content route: what it sends and what it answers *)

Section GenerateDiscipline.
Import JS Net Groq GroqFacts GenContent.

Variable slice : nat -> nat -> string -> string.
Variable env : ProcessEnv.
Variable net : Network.




End GenerateDiscipline.

(** ** The component: collecting key files *)

Section KeyFiles.
Import JS Net Tree Layout LayoutFacts.

Variable toLowerCase : string -> string.
Variable info : RepoInfo.
Variable net : Network.

Lemma findFiles_node_key_files :
  forall n, Forall (key_file toLowerCase) (findFiles_node toLowerCase n).
Proof.
  fix IH 1. intros [i nm t p c]. cbn [findFiles_node]. destruct t.
  - destruct (is_key_file toLowerCase (mkFileNode i nm file p c)) eqn:E; [|constructor].
    constructor; [split; [reflexivity|exact E]|constructor].
  - destruct c as [cs|]; [|constructor].
    induction cs as [|k cs IHcs]; cbn [flat_map]; [constructor|].
    apply Forall_app. split; [apply IH|exact IHcs].
Qed.

Lemma findFiles_key_files nodes :
  Forall (key_file toLowerCase) (findFiles toLowerCase nodes).
Proof.
  unfold findFiles. induction nodes as [|n nodes IH]; cbn [flat_map]; [constructor|].
  apply Forall_app. split; [apply findFiles_node_key_files|exact IH].
Qed.

(** What the body of the loop adds for one node. *)
Lemma loop_body_delivered n (files : list JValue) log :
  match net log (content_request info n) with
  | Rejected _ => files
  | Responded response =>
      match Net.body response with
      | NotJson _ _ => files
      | Json data =>
          match get data "content" with
          | inl _ => files
          | inr c =>
              if ok response && truthy c
              then (files ++ [JObj [("path", JStr (node_path n)); ("content", c)]])%list
              else files
          end
      end
  end
  = (files ++ match delivered (net log (content_request info n)) with
              | Some c => [file_entry n c]
              | None => []
              end)%list.
Proof.
  unfold delivered. destruct (net log _) as [e|response]; [now rewrite app_nil_r|].
  destruct (Net.body response) as [e|data]; [now rewrite app_nil_r|].
  destruct data; cbn [get get_opt]; try (rewrite andb_false_r; now rewrite app_nil_r).
  destruct (ok response && truthy (assoc "content" fields)); [reflexivity|now rewrite app_nil_r].
Qed.

Lemma loaded_cons log n nodes :
  loaded info net log (n :: nodes)
  = (match delivered (net log (content_request info n)) with
     | Some c => [file_entry n c]
     | None => []
     end ++ loaded info net (log ++ [content_request info n]) nodes)%list.
Proof.
  unfold loaded. rewrite imap_cons. cbn [omap].
  unfold asked at 1. cbn [take map]. rewrite app_nil_r.
  replace (imap ((fun i n0 => file_entry n0 <$> delivered (asked info net log (n :: nodes) i n0))
                  ∘ S) nodes)
    with (imap (fun i n0 => file_entry n0
                              <$> delivered (asked info net (log ++ [content_request info n])
                                                   nodes i n0)) nodes).
  - destruct (delivered (net log (content_request info n))); reflexivity.
  - apply imap_ext. intros i x _. unfold asked, compose. cbn [take map].
    now rewrite <- app_assoc.
Qed.

(** The loop asks for every node in turn, and adds the entries of the
    nodes whose content arrived, in order. *)
Lemma fetch_key_files_spec nodes : forall files log,
  snd (fetch_key_files info net nodes files log)
  = (log ++ map (content_request info) nodes)%list
  /\ fst (fetch_key_files info net nodes files log)
     = (files ++ loaded info net log nodes)%list.
Proof.
  induction nodes as [|n nodes IH]; intros files log; cbn [fetch_key_files map].
  - rewrite !app_nil_r. split; reflexivity.
  - rewrite loop_body_delivered.
    destruct (IH (files ++ match delivered (net log (content_request info n)) with
                           | Some c => [file_entry n c]
                           | None => []
                           end)%list (log ++ [content_request info n])%list)
      as (Hlog & Hfiles).
    split; [rewrite Hlog, <- app_assoc; reflexivity|].
    rewrite Hfiles, loaded_cons, <- app_assoc. reflexivity.
Qed.

Lemma loaded_length log nodes :
  (List.length (loaded info net log nodes) <= List.length nodes)%nat.
Proof.
  revert log. induction nodes as [|n nodes IH]; intros log; [reflexivity|].
  rewrite loaded_cons, length_app. specialize (IH (log ++ [content_request info n])%list).
  destruct (delivered _); cbn [List.length]; lia.
Qed.

(** An entry that was loaded carries a truthy content. *)
Lemma loaded_truthy log nodes f :
  In f (loaded info net log nodes) ->
  exists n c, In n nodes /\ f = file_entry n c /\ truthy c = true.
Proof.
  revert log. induction nodes as [|n nodes IH]; intros log; [intros []|].
  rewrite loaded_cons, in_app_iff. intros [H|H].
  - unfold delivered in H. destruct (net log _) as [e|r]; [destruct H|].
    destruct (Net.body r) as [e|data]; [destruct H|].
    destruct (ok r && truthy (get_opt data "content")) eqn:E; [|destruct H].
    destruct H as [<-|[]]. apply andb_true_iff in E as [_ E].
    exists n, (get_opt data "content"). split; [now left|auto].
  - destruct (IH _ H) as (m & c & Hm & Hf & Hc). exists m, c. split; [now right|auto].
Qed.

(** X19: collectKeyFiles asks the content route for the first eight key
    files of the tree and for nothing else: one POST for each of them, in
    the order of the tree, whatever the answers; the nodes asked for are
    file nodes whose lower-cased name or path is a lower-cased key
    pattern.  What it returns holds, in the order of the nodes, the entry
    of path and content for each node whose request was answered in the
    2xx range with a JSON body of truthy content, with that content, and
    nothing else; so never more than eight entries. *)
Theorem collectKeyFiles_asks_for_first_eight_key_files log :
  snd (collectKeyFiles toLowerCase info net log)
  = (log ++ map (content_request info) (firstn 8 (findFiles toLowerCase (tree info))))%list
  /\ Forall (key_file toLowerCase) (firstn 8 (findFiles toLowerCase (tree info)))
  /\ fst (collectKeyFiles toLowerCase info net log)
     = loaded info net log (firstn 8 (findFiles toLowerCase (tree info)))
  /\ (forall i n c,
        firstn 8 (findFiles toLowerCase (tree info)) !! i = Some n ->
        delivered (asked info net log (firstn 8 (findFiles toLowerCase (tree info))) i n)
        = Some c ->
        In (file_entry n c) (fst (collectKeyFiles toLowerCase info net log)))
  /\ (List.length (fst (collectKeyFiles toLowerCase info net log)) <= 8)%nat.
Proof.
  unfold collectKeyFiles.
  destruct (fetch_key_files_spec (firstn 8 (findFiles toLowerCase (tree info))) [] log)
    as (Hlog & Hfiles).
  cbn [app] in Hfiles. rewrite Hfiles.
  split; [exact Hlog|]. split; [apply Forall_take, findFiles_key_files|].
  split; [reflexivity|]. split.
  - intros i n c Hn Hc. unfold loaded. apply list_elem_of_In, list_elem_of_omap.
    exists (Some (file_entry n c)). split; [|reflexivity].
    apply list_elem_of_lookup. exists i. rewrite list_lookup_imap, Hn. cbn. now rewrite Hc.
  - pose proof (loaded_length log (firstn 8 (findFiles toLowerCase (tree info)))) as H.
    rewrite length_take in H. lia.
Qed.

End KeyFiles.

(** ** The component: showing a chapter *)

Section ChapterView.
Import JS Net Tree Layout LayoutFacts.

Variable toLowerCase : string -> string.
Variable info : RepoInfo.

Local Abbreviation open_chapter := (generateChapterContent toLowerCase info).

Lemma collectKeyFiles_log net log :
  exists new, snd (collectKeyFiles toLowerCase info net log) = (log ++ new)%list
              /\ (List.length new <= 8)%nat /\ llm_requests new = [].
Proof.
  unfold collectKeyFiles.
  destruct (fetch_key_files_spec info net (firstn 8 (findFiles toLowerCase (tree info))) [] log)
    as (Hlog & _).
  eexists. split; [exact Hlog|]. split.
  - rewrite length_map, length_take. lia.
  - clear Hlog. unfold llm_requests.
    induction (firstn 8 (findFiles toLowerCase (tree info))) as [|n l IH];
      [reflexivity|exact IH].
Qed.

(** What fetching the content of a chapter does to the component. *)
Lemma fetch_chapter_frame net chapter c log :
  exists new,
    snd (fetch_chapter toLowerCase info net chapter c log) = (log ++ new)%list
    /\ (List.length new <= 9)%nat
    /\ (llm_requests new = []
        \/ exists before keyFiles,
             new = (before ++ [generate_request info chapter keyFiles])%list
             /\ llm_requests before = [])
    /\ match fst (fetch_chapter toLowerCase info net chapter c log) with
       | Rendered c' =>
           type (activeContent c') = chapter_view
           /\ chapterId (activeContent c') = Some (id chapter)
           /\ (forall k, k <> id chapter ->
                 generatedContent (docState c') !! k = generatedContent (docState c) !! k)
           /\ (isGenerating (docState c') = isGenerating (docState c)
               /\ isGeneratingContent (docState c') = isGeneratingContent (docState c)
               /\ currentGeneratingChapter (docState c') = currentGeneratingChapter (docState c)
               /\ chapters (docState c') = chapters (docState c)
               /\ doc_error (docState c') = doc_error (docState c))
           /\ (is_Some (error (activeContent c')) ->
                 docState c' = docState c /\ chapterContent (activeContent c') = None)
           /\ (forall text, chapterContent (activeContent c') = Some text ->
                 generatedContent (docState c') !! id chapter = Some text)
       | Crashed =>
           exists before keyFiles r data,
             new = (before ++ [generate_request info chapter keyFiles])%list
             /\ net (log ++ before)%list (generate_request info chapter keyFiles) = Responded r
             /\ ok r = true /\ Net.body r = Json data
             /\ (data = JNull \/ data = JUndefined)
       | OutsideInterface => False
       end.
Proof.
  unfold fetch_chapter.
  destruct (collectKeyFiles_log net log) as (before & Hlog & Hlen & Hllm).
  destruct (collectKeyFiles toLowerCase info net log) as [keyFiles log1].
  cbn [snd] in Hlog. subst log1.
  exists (before ++ [generate_request info chapter keyFiles])%list.
  assert (Hfail : forall e,
    let c' := show_error
                (mkComponent (mkContent chapter_view (Some (id chapter)) None (Some true) None)
                             false (docState c)) chapter e in
    type (activeContent c') = chapter_view
    /\ chapterId (activeContent c') = Some (id chapter)
    /\ (forall k, k <> id chapter ->
          generatedContent (docState c') !! k = generatedContent (docState c) !! k)
    /\ (isGenerating (docState c') = isGenerating (docState c)
        /\ isGeneratingContent (docState c') = isGeneratingContent (docState c)
        /\ currentGeneratingChapter (docState c') = currentGeneratingChapter (docState c)
        /\ chapters (docState c') = chapters (docState c)
        /\ doc_error (docState c') = doc_error (docState c))
    /\ (is_Some (error (activeContent c')) ->
          docState c' = docState c /\ chapterContent (activeContent c') = None)
    /\ (forall text, chapterContent (activeContent c') = Some text ->
          generatedContent (docState c') !! id chapter = Some text)).
  { intros e. cbn. split; [reflexivity|]. split; [reflexivity|]. split; [reflexivity|].
    split; [auto 10|]. split; [auto|]. intros text [=]. }
  assert (Hlog : forall (x : Shown Component),
            snd (x, ((log ++ before) ++ [generate_request info chapter keyFiles])%list)
            = (log ++ before ++ [generate_request info chapter keyFiles])%list)
    by (intros x; cbn [snd]; now rewrite app_assoc).
  assert (Hreq : (List.length (before ++ [generate_request info chapter keyFiles]) <= 9)%nat
                 /\ (llm_requests (before ++ [generate_request info chapter keyFiles]) = []
                     \/ exists before0 keyFiles0,
                          (before ++ [generate_request info chapter keyFiles])%list
                          = (before0 ++ [generate_request info chapter keyFiles0])%list
                          /\ llm_requests before0 = [])).
  { split; [rewrite length_app; cbn; lia|]. right. eauto. }
  destruct Hreq as [Hreq1 Hreq2].
  destruct (net (log ++ before)%list _) as [e|response] eqn:Hnet;
    [split; [apply Hlog|]; split; [exact Hreq1|]; split; [exact Hreq2|]; apply Hfail|].
  destruct (Net.body response) as [e|data] eqn:Hbody;
    [split; [apply Hlog|]; split; [exact Hreq1|]; split; [exact Hreq2|]; apply Hfail|].
  destruct (ok response) eqn:Hok; cbn [negb].
  2:{ destruct (get data "error") as [e|msg];
        (split; [apply Hlog|]; split; [exact Hreq1|]; split; [exact Hreq2|]; apply Hfail). }
  destruct (get data "content") as [e|text] eqn:Hcontent;
    (split; [apply Hlog|]; split; [exact Hreq1|]; split; [exact Hreq2|]); cbn [fst].
  - exists before, keyFiles, response, data.
    split; [reflexivity|]. split; [exact Hnet|]. split; [exact Hok|]. split; [exact Hbody|].
    destruct data; cbn in Hcontent; try discriminate; auto.
  - cbn. split; [reflexivity|]. split; [reflexivity|].
    split; [intros k Hk; now rewrite lookup_insert_ne|]. split; [auto 10|].
    split; [intros [? [=]]|].
    intros text' [= <-]. apply lookup_insert_eq.
Qed.

(** X20: whatever the network answers, showing a chapter sends at most
    nine requests of which at most one, the last, goes to the
    generate-content route, and ends in one of three ways.  As a rule the
    component is left on that chapter, and the documentation state has
    changed at most in the cache entry of the chapter: the outline, the
    flags and every other cache entry stay as they were; when the view
    ends in an error the cache is untouched and no content is shown; when
    it shows a content, that content is what the cache holds for the
    chapter.  The component is taken down when the generate-content
    route answers in the 2xx range with the body null: the state update
    that React runs later reads the content of that body and throws.
    And when the cache has no entry for the id of the chapter and that id
    is the name of a member of Object.prototype, nothing is sent and the
    member is put on display. *)
Theorem generateChapterContent_frame net chapter c log :
  exists new,
    snd (open_chapter net chapter c log) = (log ++ new)%list
    /\ (List.length new <= 9)%nat
    /\ (llm_requests new = []
        \/ exists before keyFiles,
             new = (before ++ [generate_request info chapter keyFiles])%list
             /\ llm_requests before = [])
    /\ match fst (open_chapter net chapter c log) with
       | Rendered c' =>
           type (activeContent c') = chapter_view
           /\ chapterId (activeContent c') = Some (id chapter)
           /\ (forall k, k <> id chapter ->
                 generatedContent (docState c') !! k = generatedContent (docState c) !! k)
           /\ (isGenerating (docState c') = isGenerating (docState c)
               /\ isGeneratingContent (docState c') = isGeneratingContent (docState c)
               /\ currentGeneratingChapter (docState c') = currentGeneratingChapter (docState c)
               /\ chapters (docState c') = chapters (docState c)
               /\ doc_error (docState c') = doc_error (docState c))
           /\ (is_Some (error (activeContent c')) ->
                 docState c' = docState c /\ chapterContent (activeContent c') = None)
           /\ (forall text, chapterContent (activeContent c') = Some text ->
                 generatedContent (docState c') !! id chapter = Some text)
       | Crashed =>
           exists before keyFiles r data,
             new = (before ++ [generate_request info chapter keyFiles])%list
             /\ net (log ++ before)%list (generate_request info chapter keyFiles) = Responded r
             /\ ok r = true /\ Net.body r = Json data
             /\ (data = JNull \/ data = JUndefined)
       | OutsideInterface =>
           new = []
           /\ generatedContent (docState c) !! id chapter = None
           /\ In (id chapter) Object_prototype
       end.
Proof.
  assert (Hfetch : fst (fetch_chapter toLowerCase info net chapter c log) <> OutsideInterface).
  { pose proof (fetch_chapter_frame net chapter c log) as (new & _ & _ & _ & H).
    intros E. now rewrite E in H. }
  assert (Hmissing :
    exists new,
      snd (fetch_chapter toLowerCase info net chapter c log) = (log ++ new)%list
      /\ (List.length new <= 9)%nat
      /\ (llm_requests new = []
          \/ exists before keyFiles,
               new = (before ++ [generate_request info chapter keyFiles])%list
               /\ llm_requests before = [])
      /\ match fst (fetch_chapter toLowerCase info net chapter c log) with
         | Rendered c' =>
             type (activeContent c') = chapter_view
             /\ chapterId (activeContent c') = Some (id chapter)
             /\ (forall k, k <> id chapter ->
                   generatedContent (docState c') !! k = generatedContent (docState c) !! k)
             /\ (isGenerating (docState c') = isGenerating (docState c)
                 /\ isGeneratingContent (docState c') = isGeneratingContent (docState c)
                 /\ currentGeneratingChapter (docState c')
                    = currentGeneratingChapter (docState c)
                 /\ chapters (docState c') = chapters (docState c)
                 /\ doc_error (docState c') = doc_error (docState c))
             /\ (is_Some (error (activeContent c')) ->
                   docState c' = docState c /\ chapterContent (activeContent c') = None)
             /\ (forall text, chapterContent (activeContent c') = Some text ->
                   generatedContent (docState c') !! id chapter = Some text)
         | Crashed =>
             exists before keyFiles r data,
               new = (before ++ [generate_request info chapter keyFiles])%list
               /\ net (log ++ before)%list (generate_request info chapter keyFiles)
                  = Responded r
               /\ ok r = true /\ Net.body r = Json data
               /\ (data = JNull \/ data = JUndefined)
         | OutsideInterface =>
             new = []
             /\ generatedContent (docState c) !! id chapter = None
             /\ In (id chapter) Object_prototype
         end).
  { destruct (fetch_chapter_frame net chapter c log) as (new & H1 & H2 & H3 & H4).
    exists new. split; [exact H1|]. split; [exact H2|]. split; [exact H3|].
    destruct (fst (fetch_chapter toLowerCase info net chapter c log)); [exact H4..|destruct H4]. }
  unfold generateChapterContent, cached.
  destruct (generatedContent (docState c) !! id chapter) as [v|] eqn:Hcached.
  - destruct (truthy v); [|exact Hmissing].
    exists []. rewrite app_nil_r. split; [reflexivity|]. split; [cbn; lia|].
    split; [now left|]. cbn. split; [reflexivity|]. split; [reflexivity|].
    split; [reflexivity|]. split; [auto 10|]. split; [intros [? [=]]|].
    intros text [= <-]. exact Hcached.
  - destruct (arr_includes (id chapter) Object_prototype) eqn:Hin; [|exact Hmissing].
    exists []. rewrite app_nil_r. split; [reflexivity|]. split; [cbn; lia|].
    split; [now left|]. cbn [fst]. split; [reflexivity|]. split; [reflexivity|].
    now apply arr_includes_In.
Qed.

(** A content on display is in the cache, and nothing else is set. *)
Lemma generateChapterContent_shown net chapter c log c' log' text :
  open_chapter net chapter c log = (Rendered c', log') ->
  chapterContent (activeContent c') = Some text ->
  activeContent c' = mkContent chapter_view (Some (id chapter)) (Some text) None None
  /\ generatedContent (docState c') !! id chapter = Some text.
Proof.
  unfold generateChapterContent, cached.
  assert (Hfetch : fetch_chapter toLowerCase info net chapter c log = (Rendered c', log') ->
            chapterContent (activeContent c') = Some text ->
            activeContent c' = mkContent chapter_view (Some (id chapter)) (Some text) None None
            /\ generatedContent (docState c') !! id chapter = Some text).
  { unfold fetch_chapter.
    destruct (collectKeyFiles toLowerCase info net log) as [keyFiles log1].
    destruct (net log1 _) as [e|response]; [intros [= <- _]; discriminate|].
    destruct (Net.body response) as [e|data]; [intros [= <- _]; discriminate|].
    destruct (ok response); cbn [negb];
      [|destruct (get data "error"); intros [= <- _]; discriminate].
    destruct (get data "content") as [e|text']; [discriminate|].
    intros [= <- _]. cbn. intros [= <-]. split; [reflexivity|]. apply lookup_insert_eq. }
  destruct (generatedContent (docState c) !! id chapter) as [v|] eqn:Hcached.
  - destruct (truthy v); [|exact Hfetch].
    intros [= <- _]. cbn. intros [= <-]. split; [reflexivity|exact Hcached].
  - destruct (arr_includes (id chapter) Object_prototype); [discriminate|exact Hfetch].
Qed.

(** X21: once showing a chapter has ended with a truthy content on
    display, showing the same chapter again changes nothing and sends
    nothing, whatever the network would answer. *)
Theorem shown_chapter_is_served_from_cache net net' chapter c log c' log' text :
  open_chapter net chapter c log = (Rendered c', log') ->
  chapterContent (activeContent c') = Some text ->
  truthy text = true ->
  open_chapter net' chapter c' log' = (Rendered c', log').
Proof.
  intros Hrun Hshown Htruthy.
  destruct (generateChapterContent_shown _ _ _ _ _ _ _ Hrun Hshown) as [Hactive Hcache].
  rewrite (cached_text_is_shown toLowerCase info net' chapter c' log' text Hcache Htruthy).
  destruct c' as [a l d]. cbn [activeContent leftSidebarOpen docState] in *.
  now rewrite Hactive.
Qed.

End ChapterView.

(** ** Runs of the further properties *)

Section FurtherGroqRuns.
Import JS Net Groq Scenario FurtherScenario.

Lemma sendToGroq_without_keys_witness :
  sendToGroq no_keys offline no_messages initial []
  = (failure "No GROQ API keys configured", mkState 0 false, []).
Proof.
  apply (sendToGroq_without_keys no_keys offline no_messages initial []).
  - left. reflexivity.
  - right. reflexivity.
  - left. reflexivity.
  - left. reflexivity.
Defined.

Lemma sendToGroq_sends_consecutive_keys_witness :
  Interleaved.undisturbed Interleaved.alone
  /\ (List.length (getApiKeys two_keys) < 3)%nat
  /\ (currentApiKeyIndex initial < List.length (getApiKeys two_keys))%nat
  /\ exists j r st', (1 <= j <= 2 - 0)%nat
    /\ Interleaved.sendToGroq 3 two_keys first_key_limited Interleaved.alone no_messages
         initial []
       = Some (r, st',
               ([] ++ map (fun key => chat_request key no_messages)
                          (take j (drop 0 (getApiKeys two_keys))))%list)
    /\ attempted_keys (map (fun key => chat_request key no_messages)
                           (take j (drop 0 (getApiKeys two_keys))))
       = map Some (take j (drop 0 (getApiKeys two_keys)))
    /\ Forall (fun r => req_method r = "POST" /\ req_url r = GROQ_API_URL)
              (map (fun key => chat_request key no_messages)
                   (take j (drop 0 (getApiKeys two_keys)))).
Proof.
  assert (Hfuel : (List.length (getApiKeys two_keys) < 3)%nat) by (cbn; lia).
  assert (Hcursor : (currentApiKeyIndex initial < List.length (getApiKeys two_keys))%nat)
    by (cbn; lia).
  split; [exact alone_undisturbed|]. split; [exact Hfuel|]. split; [exact Hcursor|].
  exact (sendToGroq_sends_consecutive_keys two_keys first_key_limited no_messages
           Interleaved.alone 3 initial [] alone_undisturbed Hfuel Hcursor).
Defined.

Lemma cursor_always_points_into_key_list_witness :
  (currentApiKeyIndex (mkState 1 false) < List.length (getApiKeys two_keys))%nat
  \/ (getApiKeys two_keys = [] /\ currentApiKeyIndex (mkState 1 false) = 0%nat).
Proof.
  apply (cursor_always_points_into_key_list two_keys (mkState 1 false)).
  apply second_key_state_reachable.
Defined.

Lemma sendToGroq_succeeds_on_later_key_witness :
  Interleaved.undisturbed Interleaved.alone
  /\ (List.length (getApiKeys two_keys) < 3)%nat
  /\ Interleaved.sendToGroq 3 two_keys first_key_limited Interleaved.alone no_messages
       initial []
     = Some (succeeded (JStr "ok"), mkState 1 false,
             [chat_request "key-0" no_messages; chat_request "key-1" no_messages]).
Proof.
  assert (Hfuel : (List.length (getApiKeys two_keys) < 3)%nat) by (cbn; lia).
  split; [exact alone_undisturbed|]. split; [exact Hfuel|].
  apply (sendToGroq_succeeds_on_later_key two_keys first_key_limited no_messages
           Interleaved.alone 3 1 initial []
           "key-1" (mkResponse 200 (Json (completion "ok"))) (completion "ok")
           (JArr [JObj [("message", JObj [("content", JStr "ok")])]]) (JStr "ok")).
  - exact alone_undisturbed.
  - exact Hfuel.
  - reflexivity.
  - intros i Hi. assert (i = 0%nat) as -> by lia.
    exists "key-0", (NotJson NonError true). split; reflexivity.
  - reflexivity.
  - reflexivity.
  - reflexivity.
  - reflexivity.
  - reflexivity.
  - reflexivity.
Defined.

Lemma exhausted_call_is_followed_by_a_full_round_witness :
  Interleaved.undisturbed Interleaved.alone
  /\ (List.length (getApiKeys two_keys) < 3)%nat
  /\ (currentApiKeyIndex (mkState 1 false) < List.length (getApiKeys two_keys))%nat
  /\ all429 always429
  /\ exists r1 st1 log1,
       Interleaved.sendToGroq 3 two_keys always429 Interleaved.alone no_messages
         (mkState 1 false) [] = Some (r1, st1, log1)
       /\ Interleaved.sendToGroq 3 two_keys always429 Interleaved.alone no_messages st1 log1
          = Some (failure exhausted_message, mkState 0 true,
                  (log1 ++ map (fun key => chat_request key no_messages)
                               (getApiKeys two_keys))%list).
Proof.
  assert (Hfuel : (List.length (getApiKeys two_keys) < 3)%nat) by (cbn; lia).
  assert (Hcursor : (currentApiKeyIndex (mkState 1 false)
                     < List.length (getApiKeys two_keys))%nat) by (cbn; lia).
  split; [exact alone_undisturbed|]. split; [exact Hfuel|]. split; [exact Hcursor|].
  split; [exact always429_all429|].
  exact (exhausted_call_is_followed_by_a_full_round two_keys
           Interleaved.alone Interleaved.alone 3 always429 always429
           no_messages no_messages (mkState 1 false) []
           alone_undisturbed alone_undisturbed Hfuel Hcursor
           always429_all429 always429_all429).
Defined.

End FurtherGroqRuns.

Section FurtherTreeRuns.
Import JS Tree TreeFacts Scenario FurtherScenario.

Lemma nested_listing_lists_its_folders : folders_listed nested_listing.
Proof.
  intros e He Hne. unfold nested_listing in He.
  apply elem_of_cons in He as [-> | He].
  - split.
    + exists (entry "a" "tree"). split; [right; left|reflexivity].
    + intros t Ht Hpath. unfold nested_listing in Ht.
      apply elem_of_cons in Ht as [-> | Ht]; [discriminate Hpath|].
      apply elem_of_cons in Ht as [-> | Ht]; [reflexivity|].
      apply list_elem_of_singleton in Ht as ->. discriminate Hpath.
  - apply elem_of_cons in He as [-> | He]; [now contradict Hne|].
    apply list_elem_of_singleton in He as ->. now contradict Hne.
Qed.

Lemma buildFileTree_nodes_come_from_entries_witness :
  exists item, item ∈ nested_listing /\ node_of_entry item nested_file.
Proof.
  apply (buildFileTree_nodes_come_from_entries code_unit_compare nested_listing nested_file).
  vm_compute. right. left. reflexivity.
Defined.

Lemma buildFileTree_keeps_every_entry_witness :
  In (item_path (entry "a/b.txt" "blob"))
     (paths_in (buildFileTree code_unit_compare nested_listing)).
Proof.
  apply (buildFileTree_keeps_every_entry code_unit_compare nested_listing
           (entry "a/b.txt" "blob")).
  - apply nested_listing_lists_its_folders.
  - left.
Defined.

End FurtherTreeRuns.

Section FurtherContentRuns.
Import JS Net GitHub Encoding EncodingFacts Content Scenario FurtherScenario.

Lemma content_POST_file_answer_witness :
  fst (Content.POST ascii_lowercase plain_url_parse None
         (serves "logo.PNG" "SGVsbG8gV29ybGQhCg==")
         (content_request "https://github.com/octocat/Hello-World" "logo.PNG") [])
  = FileReply (mkFileContent (JStr "logo.PNG") (JStr "logo.PNG") (JNum 13) "png"
                 (JStr "980a0d5") None true (Some "image")
                 (Some "https://raw.githubusercontent.com/octocat/Hello-World/main/logo.PNG"))
  /\ exists body p owner repo,
    content_request "https://github.com/octocat/Hello-World" "logo.PNG" = Json body
    /\ get_opt body "path" = JStr p
    /\ parseGitHubUrl plain_url_parse (toString (get_opt body "url")) = Some (owner, repo)
    /\ "png" = extension_of ascii_lowercase p.
Proof.
  assert (Hrun : fst (Content.POST ascii_lowercase plain_url_parse None
                        (serves "logo.PNG" "SGVsbG8gV29ybGQhCg==")
                        (content_request "https://github.com/octocat/Hello-World" "logo.PNG") [])
                 = FileReply (mkFileContent (JStr "logo.PNG") (JStr "logo.PNG") (JNum 13) "png"
                     (JStr "980a0d5") None true (Some "image")
                     (Some "https://raw.githubusercontent.com/octocat/Hello-World/main/logo.PNG")))
    by (vm_compute; reflexivity).
  split; [exact Hrun|].
  destruct (content_POST_file_answer ascii_lowercase plain_url_parse None
              (serves "logo.PNG" "SGVsbG8gV29ybGQhCg==")
              (content_request "https://github.com/octocat/Hello-World" "logo.PNG") []
              (mkFileContent (JStr "logo.PNG") (JStr "logo.PNG") (JNum 13) "png"
                 (JStr "980a0d5") None true (Some "image")
                 (Some "https://raw.githubusercontent.com/octocat/Hello-World/main/logo.PNG"))
              Hrun)
    as (body & p & owner & repo & r & data & Hbody & Hpath & Hparse & _ & _ & _ & _
        & _ & _ & _ & _ & Hext & _).
  exists body, p, owner, repo. auto.
Defined.

Lemma ascii_lowercase_on_ascii s : is_ascii s = true -> ascii_lowercase s = ascii_lowercase s.
Proof. reflexivity. Qed.

Lemma extension_is_lowercased_suffix_witness :
  (forall s, is_ascii s = true -> ascii_lowercase s = ascii_lowercase s)
  /\ has_char "." "MD" = false
  /\ extension_of ascii_lowercase ("README" ++ "." ++ "MD") = "md"
  /\ (forall p, is_ascii p = true ->
        extension_of ascii_lowercase (ascii_lowercase p) = extension_of ascii_lowercase p
        /\ ascii_lowercase (extension_of ascii_lowercase p) = extension_of ascii_lowercase p
        /\ has_char "." (extension_of ascii_lowercase p) = false).
Proof.
  split; [exact ascii_lowercase_on_ascii|]. split; [reflexivity|].
  exact (extension_is_lowercased_suffix ascii_lowercase "README" "MD"
           ascii_lowercase_on_ascii eq_refl).
Defined.

Lemma wrapped_base64_decodes_to_buffer_witness :
  Buffer_from_base64 wrapped_hi = [x68; x69]
  /\ decode_text (JStr wrapped_hi) = Text (Buffer_toString_utf8 [x68; x69]).
Proof.
  apply (wrapped_base64_decodes_to_buffer wrapped_hi [x68; x69]). reflexivity.
Defined.

End FurtherContentRuns.

Section FurtherLayoutRuns.
Import JS Net Layout Scenario FurtherScenario.

Lemma shown_chapter_is_served_from_cache_witness :
  generateChapterContent ascii_lowercase empty_repo answers_text intro initial []
  = (Rendered (mkComponent
       (mkContent chapter_view (Some "intro") (Some (JStr "# Intro")) None None) false
       (mkDocState false false None [] (<["intro" := JStr "# Intro"]> ∅) None)),
     [generate_request empty_repo intro []])
  /\ truthy (JStr "# Intro") = true
  /\ generateChapterContent ascii_lowercase empty_repo offline intro
       (mkComponent
          (mkContent chapter_view (Some "intro") (Some (JStr "# Intro")) None None) false
          (mkDocState false false None [] (<["intro" := JStr "# Intro"]> ∅) None))
       [generate_request empty_repo intro []]
     = (Rendered (mkComponent
          (mkContent chapter_view (Some "intro") (Some (JStr "# Intro")) None None) false
          (mkDocState false false None [] (<["intro" := JStr "# Intro"]> ∅) None)),
        [generate_request empty_repo intro []]).
Proof.
  assert (Hrun : generateChapterContent ascii_lowercase empty_repo answers_text intro initial []
                 = (Rendered (mkComponent
                      (mkContent chapter_view (Some "intro") (Some (JStr "# Intro")) None None)
                      false
                      (mkDocState false false None [] (<["intro" := JStr "# Intro"]> ∅) None)),
                    [generate_request empty_repo intro []]))
    by (vm_compute; reflexivity).
  split; [exact Hrun|]. split; [reflexivity|].
  exact (shown_chapter_is_served_from_cache ascii_lowercase empty_repo answers_text offline
           intro initial [] _ _ (JStr "# Intro") Hrun eq_refl eq_refl).
Defined.

End FurtherLayoutRuns.

(** ** The component: the outline *)

Section Outline.
Import JS Net Tree Layout Docs.

Lemma find_app_first {A} (P : A -> bool) (l k : list A) :
  List.find P (l ++ k) = match List.find P l with
                         | Some x => Some x
                         | None => List.find P k
                         end.
Proof.
  induction l as [|x l IH]; [reflexivity|]. cbn. destruct (P x); [reflexivity|exact IH].
Qed.

Lemma find_node_flatten i : forall n,
  find_node i n = List.find (fun m => String.eqb (id (chapter_of m)) i) (flatten_node n).
Proof.
  fix IH 1. intros [c cs]. cbn [find_node flatten_node sub_chapters List.find chapter_of].
  destruct (String.eqb (id c) i); [reflexivity|].
  destruct cs as [l|]; [|reflexivity].
  induction l as [|x l IHl]; [reflexivity|].
  cbn [flat_map]. rewrite find_app_first, <- IH.
  destruct (find_node i x); [reflexivity|exact IHl].
Qed.

Lemma findChapter_flatten chapters i :
  findChapter chapters i
  = List.find (fun m => String.eqb (id (chapter_of m)) i) (flattenChapters chapters).
Proof.
  unfold flattenChapters. induction chapters as [|x l IH]; [reflexivity|].
  cbn [findChapter flat_map]. rewrite find_app_first, <- find_node_flatten.
  destruct (find_node i x); [reflexivity|exact IH].
Qed.

(** X22: findChapter returns the first chapter with the given id in the
    order in which flattenChapters lists the outline (every chapter before
    its children, the children before the next chapter), and nothing when
    no chapter of the outline has that id; a click on an id that is not in
    the outline then changes nothing and sends nothing. *)
Theorem findChapter_is_first_in_flattened_order chapters i :
  findChapter chapters i
  = List.find (fun m => String.eqb (id (chapter_of m)) i) (flattenChapters chapters)
  /\ (findChapter chapters i = None
      <-> forall m, In m (flattenChapters chapters) -> id (chapter_of m) <> i)
  /\ (forall toLowerCase info net v log,
        chapters = Docs.chapters (Docs.docState v) ->
        (forall m, In m (flattenChapters chapters) -> id (chapter_of m) <> i) ->
        handleChapterClick toLowerCase info net i v log = (Rendered v, log)).
Proof.
  assert (Hnone : findChapter chapters i = None
                  <-> forall m, In m (flattenChapters chapters) -> id (chapter_of m) <> i).
  { rewrite findChapter_flatten. split.
    - intros Hfind m Hm E. apply (find_none _ _ Hfind) in Hm.
      apply String.eqb_neq in Hm. contradiction.
    - intros Hall. destruct (List.find _ _) as [m|] eqn:Hfind; [|reflexivity].
      apply find_some in Hfind as [Hm E]. apply String.eqb_eq in E.
      now apply Hall in Hm. }
  split; [apply findChapter_flatten|]. split; [exact Hnone|].
  intros toLowerCase info net v log -> Hall. unfold handleChapterClick.
  now rewrite (proj2 Hnone Hall).
Qed.

End Outline.

(** ** The component: generating the documentation *)

Section Batch.
Import JS Net Tree Layout Docs.

Variable toLowerCase : string -> string.
Variable info : RepoInfo.
Variable net : Network.

Lemma generateSingleChapterContent_log chapter keyFiles log :
  snd (generateSingleChapterContent info net chapter keyFiles log)
  = (log ++ [generate_request info (chapter_of chapter) keyFiles])%list.
Proof.
  unfold generateSingleChapterContent.
  destruct (net log _) as [e|response]; [reflexivity|].
  destruct (Net.body response) as [e|data]; [reflexivity|].
  destruct (negb (ok response)); [reflexivity|].
  destruct (get data "content"); reflexivity.
Qed.

(** One iteration sends one request and touches at most the cache entry
    of its chapter, where it can only store a truthy content. *)
Lemma generate_one_spec keyFiles d log chapter :
  let r := generate_one info net keyFiles (d, log) chapter in
  snd r = (log ++ [generate_request info (chapter_of chapter) keyFiles])%list
  /\ isGenerating (fst r) = isGenerating d
  /\ isGeneratingContent (fst r) = isGeneratingContent d
  /\ chapters (fst r) = chapters d
  /\ doc_error (fst r) = doc_error d
  /\ (generatedContent (fst r) = generatedContent d
      \/ exists content, truthy content = true
           /\ generatedContent (fst r)
              = <[id (chapter_of chapter) := content]> (generatedContent d)).
Proof.
  unfold generate_one.
  pose proof (generateSingleChapterContent_log chapter keyFiles log) as Hlog.
  destruct (generateSingleChapterContent info net chapter keyFiles log) as [content log'].
  cbn [snd] in Hlog. subst log'.
  destruct (truthy content) eqn:Ht; cbn; repeat (split; [reflexivity|]); eauto.
Qed.

(** The loop sends one request for each chapter, in order, whatever the
    answers; every cache entry it leaves was there before or is a truthy
    content stored for a chapter of the list. *)
Lemma batch_spec keyFiles l : forall d log,
  let r := fold_left (generate_one info net keyFiles) l (d, log) in
  snd r = (log ++ map (fun n => generate_request info (chapter_of n) keyFiles) l)%list
  /\ isGenerating (fst r) = isGenerating d
  /\ isGeneratingContent (fst r) = isGeneratingContent d
  /\ chapters (fst r) = chapters d
  /\ doc_error (fst r) = doc_error d
  /\ (forall k v, generatedContent (fst r) !! k = Some v ->
        generatedContent d !! k = Some v
        \/ (truthy v = true /\ exists n, In n l /\ id (chapter_of n) = k))
  /\ (forall k, (forall n, In n l -> id (chapter_of n) <> k) ->
        generatedContent (fst r) !! k = generatedContent d !! k).
Proof.
  induction l as [|x l IH]; intros d log; cbn [fold_left map].
  - cbn. rewrite app_nil_r. repeat (split; [reflexivity|]). split; [auto|reflexivity].
  - destruct (generate_one_spec keyFiles d log x) as (Hlog & Hg & Hgc & Hch & Herr & Hcache).
    destruct (generate_one info net keyFiles (d, log) x) as [d1 log1].
    cbn [fst snd] in *. subst log1.
    destruct (IH d1 (log ++ [generate_request info (chapter_of x) keyFiles])%list)
      as (Hlog' & Hg' & Hgc' & Hch' & Herr' & Hcache' & Hframe').
    split; [rewrite Hlog', <- app_assoc; reflexivity|].
    split; [congruence|]. split; [congruence|]. split; [congruence|]. split; [congruence|].
    split.
    + intros k v Hk. destruct (Hcache' k v Hk) as [Hold|(Ht & n & Hn & Hid)].
      * destruct Hcache as [E|(content & Ht & E)]; rewrite E in Hold; [now left|].
        apply lookup_insert_Some in Hold as [[<- <-]|[_ Hold]]; [|now left].
        right. split; [exact Ht|]. exists x. split; [now left|reflexivity].
      * right. split; [exact Ht|]. exists n. split; [now right|exact Hid].
    + intros k Hk. rewrite Hframe' by (intros n Hn; apply Hk; now right).
      destruct Hcache as [E|(content & _ & E)]; rewrite E; [reflexivity|].
      apply lookup_insert_ne. apply Hk. now left.
Qed.

(** X23: a run of generateDocumentation that stays inside the Chapter
    interface ends with both progress flags down, and in one of two ways.
    Without error: key files were found, the outline route was asked once,
    and after it the generate-content route was asked once for every
    chapter of the outline, children included, in the order of
    flattenChapters and whatever the answers to the earlier ones were; the
    current chapter is cleared.  With an error message: the outline and
    the cache are as before, nothing was sent to the generate-content
    route, and the outline route was asked at most once, and not at all
    when no key file was found.  In both cases every cache entry was there
    before or is a truthy content stored under the id of a chapter of the
    outline. *)
Theorem generateDocumentation_discipline d log d' log' :
  generateDocumentation toLowerCase info net d log = (Some d', log') ->
  isGenerating d' = false /\ isGeneratingContent d' = false
  /\ (forall k v, generatedContent d' !! k = Some v ->
        generatedContent d !! k = Some v
        \/ (truthy v = true
            /\ exists n, In n (flattenChapters (chapters d')) /\ id (chapter_of n) = k))
  /\ ((doc_error d' = None /\ currentGeneratingChapter d' = None
       /\ fst (collectKeyFiles toLowerCase info net log) <> []
       /\ log' = (snd (collectKeyFiles toLowerCase info net log)
                  ++ outline_request info (fst (collectKeyFiles toLowerCase info net log))
                  :: map (fun n => generate_request info (chapter_of n)
                                     (fst (collectKeyFiles toLowerCase info net log)))
                         (flattenChapters (chapters d')))%list)
      \/ (is_Some (doc_error d') /\ chapters d' = chapters d
          /\ generatedContent d' = generatedContent d
          /\ ((fst (collectKeyFiles toLowerCase info net log) = []
               /\ log' = snd (collectKeyFiles toLowerCase info net log))
              \/ (fst (collectKeyFiles toLowerCase info net log) <> []
                  /\ log' = (snd (collectKeyFiles toLowerCase info net log)
                             ++ [outline_request info (fst (collectKeyFiles toLowerCase info net log))])%list)))).
Proof.
  unfold generateDocumentation.
  destruct (collectKeyFiles toLowerCase info net log) as [keyFiles log1]. cbn [fst snd].
  assert (Hfail : forall e (d0 := mkDocs true (isGeneratingContent d) (currentGeneratingChapter d)
                                         (chapters d) (generatedContent d) None) logx,
            (keyFiles = [] /\ logx = log1
             \/ keyFiles <> [] /\ logx = (log1 ++ [outline_request info keyFiles])%list) ->
            (Some (failed d0 e), logx) = (Some d', log') ->
            isGenerating d' = false /\ isGeneratingContent d' = false
            /\ (forall k v, generatedContent d' !! k = Some v ->
                  generatedContent d !! k = Some v
                  \/ (truthy v = true
                      /\ exists n, In n (flattenChapters (chapters d'))
                                   /\ id (chapter_of n) = k))
            /\ ((doc_error d' = None /\ currentGeneratingChapter d' = None
                 /\ keyFiles <> []
                 /\ log' = (log1 ++ outline_request info keyFiles
                            :: map (fun n => generate_request info (chapter_of n) keyFiles)
                                   (flattenChapters (chapters d')))%list)
                \/ (is_Some (doc_error d') /\ chapters d' = chapters d
                    /\ generatedContent d' = generatedContent d
                    /\ ((keyFiles = [] /\ log' = log1)
                        \/ (keyFiles <> []
                            /\ log' = (log1 ++ [outline_request info keyFiles])%list))))).
  { intros e d0 logx Hlogx [= <- <-]. cbn.
    split; [reflexivity|]. split; [reflexivity|]. split; [auto|].
    right. split; [eauto|]. auto. }
  destruct keyFiles as [|f keyFiles]; cbn [List.length Nat.eqb].
  { apply Hfail. now left. }
  assert (Hsent : f :: keyFiles = [] /\ (log1 ++ [outline_request info (f :: keyFiles)])%list = log1
            \/ f :: keyFiles <> []
               /\ (log1 ++ [outline_request info (f :: keyFiles)])%list
                  = (log1 ++ [outline_request info (f :: keyFiles)])%list)
    by (right; split; [discriminate|reflexivity]).
  destruct (net log1 _) as [e|response]; [now apply Hfail|].
  destruct (Net.body response) as [e|data]; [now apply Hfail|].
  destruct (negb (ok response)).
  { destruct (get data "error") as [e|msg]; now apply Hfail. }
  destruct (get data "chapters") as [e|cs]; [now apply Hfail|].
  destruct (decode_chapters (or_else cs (JArr []))) as [outline|]; [|discriminate].
  set (d1 := mkDocs false true _ outline _ _).
  destruct (batch_spec (f :: keyFiles) (flattenChapters outline) d1
              (log1 ++ [outline_request info (f :: keyFiles)])%list)
    as (Hlog & Hg & Hgc & Hch & Herr & Hcache & _).
  destruct (fold_left _ _ _) as [d2 log2]. cbn [fst snd] in *.
  intros [= <- <-]. cbn [isGenerating isGeneratingContent generatedContent chapters
                         doc_error currentGeneratingChapter].
  rewrite Hg, Hch. subst d1. cbn [isGenerating chapters generatedContent doc_error] in *.
  split; [reflexivity|]. split; [reflexivity|]. split; [exact Hcache|].
  left. split; [exact Herr|]. split; [reflexivity|]. split; [discriminate|].
  rewrite Hlog, <- app_assoc. reflexivity.
Qed.


(** Where the cache entries after a run of [generateDocumentation] come
    from. *)
Lemma generateDocumentation_cache d log d' log' :
  generateDocumentation toLowerCase info net d log = (Some d', log') ->
  forall k v, generatedContent d' !! k = Some v ->
    generatedContent d !! k = Some v
    \/ (truthy v = true
        /\ exists n, In n (flattenChapters (chapters d')) /\ id (chapter_of n) = k).
Proof.
  unfold generateDocumentation.
  destruct (collectKeyFiles toLowerCase info net log) as [keyFiles log1].
  destruct (Nat.eqb (List.length keyFiles) 0); [intros [= <- <-]; cbn; auto|].
  destruct (net log1 _) as [e|response]; [intros [= <- <-]; cbn; auto|].
  destruct (Net.body response) as [e|data]; [intros [= <- <-]; cbn; auto|].
  destruct (negb (ok response)).
  { destruct (get data "error") as [e|msg]; intros [= <- <-]; cbn; auto. }
  destruct (get data "chapters") as [e|cs]; [intros [= <- <-]; cbn; auto|].
  destruct (decode_chapters (or_else cs (JArr []))) as [outline|]; [|discriminate].
  set (d1 := mkDocs false true _ outline _ _).
  destruct (batch_spec keyFiles (flattenChapters outline) d1
              (log1 ++ [outline_request info keyFiles])%list)
    as (_ & _ & _ & Hch & _ & Hcache & _).
  destruct (fold_left _ _ _) as [d2 log2]. cbn [fst snd] in *.
  intros [= <- <-]. cbn [generatedContent chapters]. rewrite Hch. exact Hcache.
Qed.


(** X24: when the cache held only truthy contents before a run of
    generateDocumentation, it holds only truthy contents after it, and a
    click on any chapter id that has a cache entry then sends nothing and
    leaves the documentation state as it is, whatever the network would
    answer; if the id is the id of a chapter of the outline, the cached
    content is put on display. *)
Theorem generated_chapter_opens_from_cache d log d' log' :
  generateDocumentation toLowerCase info net d log = (Some d', log') ->
  (forall k v, generatedContent d !! k = Some v -> truthy v = true) ->
  (forall k v, generatedContent d' !! k = Some v -> truthy v = true)
  /\ (forall net' a l chapterId text,
        generatedContent d' !! chapterId = Some text ->
        exists v',
          handleChapterClick toLowerCase info net' chapterId (mkView a l d') log'
          = (Rendered v', log')
          /\ docState v' = d'
          /\ (is_Some (findChapter (chapters d') chapterId) ->
              activeContent v'
              = mkContent chapter_view (Some chapterId) (Some text) None None)).
Proof.
  intros Hrun Hold.
  pose proof (generateDocumentation_cache _ _ _ _ Hrun) as Hcache.
  assert (Hnew : forall k v, generatedContent d' !! k = Some v -> truthy v = true).
  { intros k v Hk. destruct (Hcache k v Hk) as [H|[H _]]; [eapply Hold; exact H|exact H]. }
  split; [exact Hnew|].
  intros net' a l chapterId text Hentry. unfold handleChapterClick.
  cbn [docState]. rewrite findChapter_flatten.
  destruct (List.find _ _) as [node|] eqn:Hfind.
  - apply find_some in Hfind as [_ Hid]. apply String.eqb_eq in Hid.
    rewrite (cached_text_is_shown toLowerCase info net' (chapter_of node)
               (as_component (mkView a l d')) log' text);
      [|cbn; now rewrite Hid|exact (Hnew _ _ Hentry)].
    eexists. split; [reflexivity|].
    unfold with_component, as_component.
    cbn [docState activeContent leftSidebarOpen Layout.activeContent Layout.leftSidebarOpen
         Layout.docState Layout.generatedContent].
    split; [now destruct d'|]. intros _. now rewrite Hid.
  - exists (mkView a l d'). split; [reflexivity|]. split; [reflexivity|].
    intros [? [=]].
Qed.

End Batch.

Section FurtherDocsRuns.
Import JS Net Layout Docs Scenario FurtherScenario.

Lemma documentation_run :
  generateDocumentation ascii_lowercase readme_repo doc_backend Docs.initial [] = (Some documented, documented_log).
Proof. vm_compute. reflexivity. Qed.

Lemma generateDocumentation_discipline_witness :
  isGenerating documented = false /\ isGeneratingContent documented = false
  /\ (forall k v, generatedContent documented !! k = Some v ->
        generatedContent Docs.initial !! k = Some v
        \/ (truthy v = true
            /\ exists n, In n (flattenChapters (chapters documented))
                         /\ id (chapter_of n) = k))
  /\ ((doc_error documented = None /\ currentGeneratingChapter documented = None
       /\ fst (collectKeyFiles ascii_lowercase readme_repo doc_backend []) <> []
       /\ documented_log
          = (snd (collectKeyFiles ascii_lowercase readme_repo doc_backend [])
             ++ outline_request readme_repo (fst (collectKeyFiles ascii_lowercase readme_repo doc_backend []))
             :: map (fun n => generate_request readme_repo (chapter_of n)
                                (fst (collectKeyFiles ascii_lowercase readme_repo doc_backend [])))
                    (flattenChapters (chapters documented)))%list)
      \/ (is_Some (doc_error documented) /\ chapters documented = chapters Docs.initial
          /\ generatedContent documented = generatedContent Docs.initial
          /\ ((fst (collectKeyFiles ascii_lowercase readme_repo doc_backend []) = []
               /\ documented_log = snd (collectKeyFiles ascii_lowercase readme_repo doc_backend []))
              \/ (fst (collectKeyFiles ascii_lowercase readme_repo doc_backend []) <> []
                  /\ documented_log
                     = (snd (collectKeyFiles ascii_lowercase readme_repo doc_backend [])
                        ++ [outline_request readme_repo
                              (fst (collectKeyFiles ascii_lowercase readme_repo doc_backend []))])%list)))).
Proof.
  apply (generateDocumentation_discipline ascii_lowercase readme_repo doc_backend Docs.initial []
           documented documented_log).
  apply documentation_run.
Defined.

Lemma generated_chapter_opens_from_cache_witness :
  (forall k v, generatedContent documented !! k = Some v -> truthy v = true)
  /\ (forall net' a l chapterId text,
        generatedContent documented !! chapterId = Some text ->
        exists v',
          handleChapterClick ascii_lowercase readme_repo net' chapterId (mkView a l documented)
            documented_log = (Rendered v', documented_log)
          /\ docState v' = documented
          /\ (is_Some (findChapter (chapters documented) chapterId) ->
              activeContent v'
              = mkContent chapter_view (Some chapterId) (Some text) None None)).
Proof.
  apply (generated_chapter_opens_from_cache ascii_lowercase readme_repo doc_backend
           Docs.initial [] documented documented_log).
  - apply documentation_run.
  - intros k v H. unfold Docs.initial in H. cbn in H.
    try rewrite lookup_empty in H. discriminate H.
Defined.

End FurtherDocsRuns.

(** ** The generate-outline route *)

Section OutlineRoute.
Import JS Net Groq GroqFacts GenOutline.

Variable JSON_parse : string -> option JValue.
Variable fenced : string -> option string.
Variable trim : string -> string.
Variable slice : nat -> nat -> string -> string.
Variable env : ProcessEnv.
Variable net : Network.

Local Abbreviation route := (POST JSON_parse fenced trim slice env net).

Lemma outline_generate_not_400 repoName context st log :
  reply_status (fst (fst (generate JSON_parse fenced trim env net repoName context st log)))
  <> 400.
Proof.
  unfold generate.
  destruct (sendToGroq env net _ st log) as [[result st'] log'].
  destruct (negb (success result)); cbn [fst]; [discriminate|].
  unfold parse_outline. cbv zeta.
  destruct (default JUndefined (content result)); try discriminate.
  destruct (JSON_parse _); discriminate.
Qed.

(** The route when its chat call runs on its own. *)
Lemma generate_outline_POST_alone request st log :
  (exists ks prompt,
      snd (route request st log)
      = (log ++ map (fun key => chat_request key (options_for prompt)) ks)%list
      /\ ks ⊆ getApiKeys env /\ (List.length ks <= List.length (getApiKeys env))%nat)
  /\ (forall body repoName,
        request = Json body -> get body "repoName" = inr repoName ->
        (reply_status (fst (fst (route request st log))) = 400
         <-> truthy repoName = false \/ truthy (get_opt body "files") = false
             \/ is_zero (length_of (get_opt body "files")) = true))
  /\ match fst (fst (route request st log)) with
     | ErrorReply code msg =>
         is_Some msg
         /\ ((code = 400 /\ snd (fst (route request st log)) = st
              /\ snd (route request st log) = log)
             \/ code = 500)
     | OutlineReply chapters =>
         exists s prompt,
           content (fst (fst (sendToGroq env net (options_for prompt) st log)))
           = Some (JStr s)
           /\ JSON_parse (trim (default s (fenced s))) = Some chapters
     end
  /\ (forall repoName context,
        success (fst (fst (sendToGroq env net (options_for (prompt_of repoName context))
                             st log))) = true ->
        match fst (fst (generate JSON_parse fenced trim env net repoName context st log)) with
        | ErrorReply code msg => code = 500 /\ msg = Some parse_failure
        | OutlineReply _ => True
        end).
Proof.
  assert (Hnone : exists ks (prompt : string),
             log = (log ++ map (fun key => chat_request key (options_for prompt)) ks)%list
             /\ ks ⊆ getApiKeys env /\ (List.length ks <= List.length (getApiKeys env))%nat).
  { exists [], EmptyString. rewrite app_nil_r. split; [reflexivity|]. split; [|cbn; lia].
    intros x Hx. apply elem_of_nil in Hx as []. }
  split; [|split; [|split]].
  - unfold POST, caught.
    destruct request as [e|body]; [exact Hnone|].
    destruct (destructure "body" body "repoName") as [e|repoName]; [exact Hnone|].
    destruct (_ || _); [exact Hnone|].
    destruct (fileContext slice (get_opt body "files")) as [e|context]; [exact Hnone|].
    unfold generate.
    pose proof (sendToGroq_requests env net (options_for (prompt_of repoName context)) st log)
      as (ks & Hlog & Hsub & Hlen).
    destruct (sendToGroq env net _ st log) as [[result st'] log']. cbn [snd] in Hlog.
    destruct (negb (success result)); cbn [snd]; eauto.
  - intros body repoName -> Hname. apply (destructure_get "body") in Hname.
    unfold POST. rewrite Hname.
    destruct (truthy repoName), (truthy (get_opt body "files")),
      (is_zero (length_of (get_opt body "files"))); cbn [negb orb];
      try (split; [auto|reflexivity]).
    split; [|intros [H|[H|H]]; discriminate H].
    intros H. exfalso. revert H.
    destruct (fileContext slice (get_opt body "files")) as [e|context]; [cbn; discriminate|].
    apply outline_generate_not_400.
  - unfold POST, caught.
    destruct request as [e|body]; [cbn; split; [eauto|now right]|].
    destruct (destructure "body" body "repoName") as [e|repoName]; [cbn; split; [eauto|now right]|].
    destruct (_ || _); [cbn; split; [eauto|left; auto]|].
    destruct (fileContext slice (get_opt body "files")) as [e|context];
      [cbn; split; [eauto|now right]|].
    unfold generate.
    pose proof (sendToGroq_result_shape_helper env net
                  (options_for (prompt_of repoName context)) st log) as Hshape.
    destruct (sendToGroq env net _ st log) as [[result st'] log'] eqn:Hsend.
    cbn [fst snd] in *.
    destruct Hshape as [(Hs & He & c & Hc & Ht)|(Hs & Hc & m & He)]; rewrite Hs; cbn [negb fst].
    + rewrite Hc. change (default JUndefined (Some c)) with c.
      unfold parse_outline. cbv zeta.
      destruct c as [| | | |s| |]; try (split; [eauto|now right]).
      destruct (fenced s) as [inner|] eqn:Hf.
      * destruct (JSON_parse (trim inner)) as [chapters|] eqn:Hp;
          [|cbn; split; [eauto|now right]].
        exists s, (prompt_of repoName context). rewrite Hsend, Hf. auto.
      * destruct (JSON_parse (trim s)) as [chapters|] eqn:Hp;
          [|cbn; split; [eauto|now right]].
        exists s, (prompt_of repoName context). rewrite Hsend, Hf. auto.
    + rewrite He. split; [eauto|now right].
  - intros repoName context. unfold generate.
    destruct (sendToGroq env net _ st log) as [[result st'] log']. cbn [fst].
    intros ->. cbn [negb fst]. unfold parse_outline. cbv zeta.
    destruct (default JUndefined (content result)); try (split; reflexivity).
    destruct (JSON_parse _); [exact I|split; reflexivity].
Qed.

(** When the others leave the module variables alone, the route among
    them is the route on its own. *)
Lemma generate_outline_undisturbed others fuel repoName context st log :
  Interleaved.undisturbed others ->
  (List.length (getApiKeys env) < fuel)%nat ->
  InterleavedOutline.generate JSON_parse fenced trim fuel env net others repoName context st log
  = Some (generate JSON_parse fenced trim env net repoName context st log).
Proof.
  intros Hquiet Hfuel. unfold InterleavedOutline.generate, generate.
  rewrite (sendToGroq_undisturbed _ _ _ _ _ _ _ Hquiet Hfuel).
  destruct (sendToGroq env net _ st log) as [[result st'] log'].
  destruct (negb (success result)); reflexivity.
Qed.

Lemma generate_outline_POST_undisturbed others fuel request st log :
  Interleaved.undisturbed others ->
  (List.length (getApiKeys env) < fuel)%nat ->
  InterleavedOutline.POST JSON_parse fenced trim slice fuel env net others request st log
  = Some (route request st log).
Proof.
  intros Hquiet Hfuel. unfold InterleavedOutline.POST, POST.
  destruct request as [e|body]; [reflexivity|].
  destruct (destructure "body" body "repoName") as [e|repoName]; [reflexivity|].
  destruct (_ || _); [reflexivity|].
  destruct (fileContext slice (get_opt body "files")) as [e|context]; [reflexivity|].
  now apply generate_outline_undisturbed.
Qed.

(** X25: take a request to the generate-outline route whose chat call no
    other call overlaps.  Whatever the request body, the rotation state
    and the network, the route returns, having sent chat requests only,
    at most one for each configured key, all with the fixed system
    message and the prompt, temperature 0.3 and at most 2000 tokens.  For
    a body that is JSON other than null it answers 400 exactly when
    repoName is falsy, files is falsy, or files.length is 0, and then
    nothing is sent and the rotation state is left as it was.  Every
    error answer carries a message.  An outline is answered only when the
    completion is a string, and it is what JSON.parse makes of its
    trimmed fenced part, or of the trimmed string when there is no fence;
    once the chat call has succeeded, the only other answer is status 500
    with the fixed message Failed to parse documentation outline. *)
Theorem generate_outline_POST_discipline others fuel request st log :
  Interleaved.undisturbed others ->
  (List.length (getApiKeys env) < fuel)%nat ->
  exists reply st' log',
    InterleavedOutline.POST JSON_parse fenced trim slice fuel env net others request st log
    = Some (reply, st', log')
    /\ (exists ks prompt,
          log' = (log ++ map (fun key => chat_request key (options_for prompt)) ks)%list
          /\ ks ⊆ getApiKeys env /\ (List.length ks <= List.length (getApiKeys env))%nat)
    /\ (forall body repoName,
          request = Json body -> get body "repoName" = inr repoName ->
          (reply_status reply = 400
           <-> truthy repoName = false \/ truthy (get_opt body "files") = false
               \/ is_zero (length_of (get_opt body "files")) = true))
    /\ match reply with
       | ErrorReply code msg =>
           is_Some msg /\ ((code = 400 /\ st' = st /\ log' = log) \/ code = 500)
       | OutlineReply chapters =>
           exists s prompt result st1 log1,
             Interleaved.sendToGroq fuel env net others (options_for prompt) st log
             = Some (result, st1, log1)
             /\ content result = Some (JStr s)
             /\ JSON_parse (trim (default s (fenced s))) = Some chapters
       end
    /\ (forall repoName context result st1 log1,
          Interleaved.sendToGroq fuel env net others
            (options_for (prompt_of repoName context)) st log = Some (result, st1, log1) ->
          success result = true ->
          exists outcome st2 log2,
            InterleavedOutline.generate JSON_parse fenced trim fuel env net others
              repoName context st log = Some (outcome, st2, log2)
            /\ match outcome with
               | ErrorReply code msg => code = 500 /\ msg = Some parse_failure
               | OutlineReply _ => True
               end).
Proof.
  intros Hquiet Hfuel.
  rewrite (generate_outline_POST_undisturbed _ _ _ _ _ Hquiet Hfuel).
  pose proof (generate_outline_POST_alone request st log) as (H1 & H2 & H3 & H4).
  destruct (route request st log) as [[reply st'] log'] eqn:Hroute.
  cbn [fst snd] in *. exists reply, st', log'.
  split; [reflexivity|]. split; [exact H1|]. split; [exact H2|]. split.
  - destruct reply as [code msg|chapters]; [exact H3|].
    destruct H3 as (s & prompt & Hc & Hp).
    destruct (sendToGroq env net (options_for prompt) st log) as [[result st1] log1] eqn:Hsend.
    exists s, prompt, result, st1, log1.
    rewrite (sendToGroq_undisturbed _ _ _ _ _ _ _ Hquiet Hfuel), Hsend. auto.
  - intros repoName context result st1 log1 Hsend Hsucc.
    rewrite (sendToGroq_undisturbed _ _ _ _ _ _ _ Hquiet Hfuel) in Hsend.
    injection Hsend as Hsend. specialize (H4 repoName context).
    rewrite Hsend in H4. specialize (H4 Hsucc).
    rewrite (generate_outline_undisturbed _ _ _ _ _ _ Hquiet Hfuel).
    destruct (generate JSON_parse fenced trim env net repoName context st log)
      as [[outcome st2] log2].
    exists outcome, st2, log2. split; [reflexivity|exact H4].
Qed.

End OutlineRoute.

(** ** The generate-content route: the file context *)

Section FileContext.
Import JS Net Groq GenContent.

Variable slice : nat -> nat -> string -> string.

(** X26: the generate-content route falls back to the fixed text No
    specific files provided. exactly when files is missing, null or the
    empty array; for every non-empty array whose entries can be read the
    context starts with the header of the first file, and any other value
    of files makes the route fail. *)
Theorem fileContext_fallback_iff files :
  (fileContext slice files = inr no_files
   <-> files = JUndefined \/ files = JNull \/ files = JArr [])
  /\ (forall f l context,
        files = JArr (f :: l) -> fileContext slice files = inr context ->
        exists rest, context = "### " ++ rest)
  /\ (forall context, fileContext slice files = inr context ->
        files = JUndefined \/ files = JNull \/ exists l, files = JArr l).
Proof.
  assert (Hhead : forall f l context,
            fileContext slice (JArr (f :: l)) = inr context ->
            exists rest, context = "### " ++ rest).
  { intros f l context. cbn [fileContext file_entries].
    destruct (file_entry slice f) as [e|s] eqn:Hf; [discriminate|].
    destruct (file_entries slice l) as [e|ss]; [discriminate|].
    revert Hf. unfold file_entry.
    destruct (get f "path") as [e|p]; [discriminate|].
    destruct (get f "content") as [e|c]; [discriminate|].
    destruct (sliced_content slice c) as [e|text]; [discriminate|].
    intros [= <-].
    set (R := toString p ++ nl ++ "```" ++ nl ++ text ++ nl ++ "```").
    assert (Hjoin : exists tail, join (nl ++ nl) (("### " ++ R) :: ss) = "### " ++ tail).
    { unfold join. destruct ss as [|y ss]; cbn [String.concat]; eexists; reflexivity. }
    destruct Hjoin as [tail Hjoin]. rewrite Hjoin.
    change ("### " ++ tail) with (String "#" (String "#" (String "#" (String " " tail)))).
    cbn [String.eqb Ascii.eqb]. intros [= <-]. eauto. }
  split; [|split].
  - split.
    + destruct files as [| | | | |[|f l]|]; try discriminate; auto.
      intros H. destruct (Hhead f l _ H) as [rest E]. discriminate E.
    + intros [-> | [-> | ->]]; reflexivity.
  - intros f l context ->. apply Hhead.
  - intros context. destruct files; try discriminate; eauto.
Qed.

End FileContext.

(** ** The GitHub routes: authorization of what they send *)

Section GitHubRequests.
Import JS Net GitHub RouteFacts.

Variable toLowerCase : string -> string.
Variable URL_parse : string -> option URL.
Variable GITHUB_TOKEN : option string.
Variable net : Network.

Lemma github_get_properly_authorized r :
  github_get GITHUB_TOKEN r -> properly_authorized GITHUB_TOKEN r.
Proof.
  intros (_ & _ & Hheaders & _). unfold properly_authorized. rewrite Hheaders.
  apply getGitHubHeaders_spec.
Qed.

Ltac sent :=
  unfold Tree.caught, Content.caught; cbn [snd];
  first [ exists []; split; [now rewrite app_nil_r|constructor]
        | eexists; split; [rewrite <- ?app_assoc; reflexivity|];
          repeat constructor; apply github_get_request ].

Lemma tree_POST_sends_github_gets localeCompare request log :
  exists new,
    snd (Tree.POST localeCompare URL_parse GITHUB_TOKEN net request log) = (log ++ new)%list
    /\ Forall (github_get GITHUB_TOKEN) new.
Proof.
  unfold Tree.POST.
  destruct request as [e|body]; [sent|].
  destruct (destructure "body" body "url") as [e|url]; [sent|].
  destruct (truthy url); cbn [negb]; [|sent].
  destruct (parseGitHubUrl URL_parse (toString url)) as [[owner repo]|]; [|sent].
  destruct (net log _) as [e|repoResponse]; [sent|].
  destruct (ok repoResponse); cbn [negb];
    [|destruct (status repoResponse =? 404); sent].
  destruct (Net.body repoResponse) as [e|repoData]; [sent|].
  unfold Tree.after_repo.
  destruct (get repoData "default_branch") as [e|defaultBranch]; [sent|].
  destruct (net _ _) as [e|branchResponse]; [sent|].
  destruct (ok branchResponse); cbn [negb]; [|sent].
  destruct (Net.body branchResponse) as [e|branchData]; [sent|].
  destruct (get branchData "commit") as [e|c1]; [sent|].
  destruct (get c1 "commit") as [e|c2]; [sent|].
  destruct (get c2 "tree") as [e|t]; [sent|].
  destruct (get t "sha") as [e|treeSha]; [sent|].
  destruct (net _ _) as [e|treeResponse]; [sent|].
  destruct (ok treeResponse); cbn [negb]; [|sent].
  destruct (Net.body treeResponse) as [e|treeData]; [sent|].
  destruct (get treeData "tree") as [e|items]; [sent|].
  destruct (Tree.decode_items items); sent.
Qed.

Lemma content_POST_sends_github_gets request log :
  exists new,
    snd (Content.POST toLowerCase URL_parse GITHUB_TOKEN net request log) = (log ++ new)%list
    /\ Forall (github_get GITHUB_TOKEN) new.
Proof.
  unfold Content.POST.
  destruct request as [e|body]; [sent|].
  destruct (destructure "body" body "url") as [e|url]; [sent|].
  destruct (negb (truthy url) || negb (truthy (get_opt body "path"))); [sent|].
  destruct (parseGitHubUrl URL_parse (toString url)) as [[owner repo]|]; [|sent].
  destruct (net log _) as [e|response]; [sent|].
  destruct (ok response); cbn [negb]; [|destruct (status response =? 404); sent].
  destruct (Net.body response) as [e|data]; [sent|].
  unfold Content.respond.
  destruct (get data "type") as [e|type]; [sent|].
  destruct (Content.is_file type); cbn [negb]; [|sent].
  destruct (get_opt body "path"); try sent.
  destruct (_ || _); [sent|].
  destruct (Content.decode_text _); sent.
Qed.

(** X27: every request the tree route and the content route send, whatever
    the request body and the network answers, names the v3 media type and
    the user agent codoc-webapp, and carries an Authorization header only
    when GITHUB_TOKEN is set to a non-empty value other than the
    placeholder your_github_token_here; the header then is that token as a
    bearer token.  The placeholder is never sent upstream. *)
Theorem github_requests_never_carry_placeholder :
  (forall localeCompare request log,
     exists new,
       snd (Tree.POST localeCompare URL_parse GITHUB_TOKEN net request log) = (log ++ new)%list
       /\ Forall (properly_authorized GITHUB_TOKEN) new)
  /\ (forall request log,
        exists new,
          snd (Content.POST toLowerCase URL_parse GITHUB_TOKEN net request log) = (log ++ new)%list
          /\ Forall (properly_authorized GITHUB_TOKEN) new)
  /\ (GITHUB_TOKEN = Some "your_github_token_here" \/ GITHUB_TOKEN = Some EmptyString
      \/ GITHUB_TOKEN = None ->
      forall r v, properly_authorized GITHUB_TOKEN r ->
                  ~ In ("Authorization", v) (req_headers r)).
Proof.
  split; [|split].
  - intros localeCompare request log.
    destruct (tree_POST_sends_github_gets localeCompare request log) as (new & Hlog & Hall).
    exists new. split; [exact Hlog|].
    eapply Forall_impl; [exact Hall|]. exact github_get_properly_authorized.
  - intros request log.
    destruct (content_POST_sends_github_gets request log) as (new & Hlog & Hall).
    exists new. split; [exact Hlog|].
    eapply Forall_impl; [exact Hall|]. exact github_get_properly_authorized.
  - intros Htoken r v (_ & _ & Hauth & _) Hin.
    destruct (Hauth v Hin) as (t & Ht & Hne & Hph & _).
    destruct Htoken as [E | [E | E]]; congruence.
Qed.

End GitHubRequests.

(** ** The tree builder: every entry at most once *)

Section SingleParent.
Import JS Tree TreeFacts TreeCount.

Variable items : list GitHubTreeItem.

Lemma child_bounds st p c :
  well_formed items st -> child (heap st) p c -> (p < c < List.length (heap st))%nat.
Proof. intros Hwf (o & cs & Hp & Hcs & Hc). eapply (wf_children _ _ Hwf); eassumption. Qed.

(** Allocating an object adds no reference. *)
Lemma child_snoc h node p c :
  o_children node = None \/ o_children node = Some [] ->
  child (h ++ [node]) p c -> child h p c.
Proof.
  intros Hnode (o & cs & Hp & Hcs & Hc).
  apply lookup_snoc_Some in Hp as [[_ Hp]|[_ <-]]; [exists o, cs; auto|].
  destruct Hnode as [E|E]; rewrite E in Hcs; [discriminate|].
  injection Hcs as <-. apply elem_of_nil in Hc as [].
Qed.

(** A push adds one reference. *)
Lemma child_push h p0 n p c :
  child (push_child h p0 n) p c -> child h p c \/ (p = p0 /\ c = n).
Proof.
  intros (o' & cs' & Hp & Hcs' & Hc).
  destruct (push_child_lookup_full _ _ _ _ _ Hp) as (o & Ho & _ & _ & _ & _ & Hk).
  destruct Hk as [E|(-> & cs & E & E')].
  - left. exists o, cs'. rewrite <- E. auto.
  - rewrite E' in Hcs'. injection Hcs' as <-.
    apply elem_of_app in Hc as [Hc|Hc]; [left; exists o, cs; auto|].
    apply list_elem_of_singleton in Hc as ->. now right.
Qed.

Lemma single_parent_empty : single_parent (mkBuild [] [] ∅).
Proof.
  constructor; cbn.
  - constructor.
  - intros p c (o & cs & Hp & _). try rewrite lookup_nil in Hp; discriminate Hp.
  - intros p p' c (o & cs & Hp & _). try rewrite lookup_nil in Hp; discriminate Hp.
  - intros p o cs Hp. try rewrite lookup_nil in Hp; discriminate Hp.
Qed.

Lemma add_item_single_parent st item :
  well_formed items st -> single_parent st -> single_parent (add_item st item).
Proof.
  intros Hwf [Hroot Hapart Hparent Hkids].
  set (n := List.length (heap st)).
  pose proof (add_item_cases st item) as Hcases. cbv zeta in Hcases.
  set (node := mkObj _ _ _ _ _) in Hcases.
  assert (Hnode : o_children node = None \/ o_children node = Some [])
    by (subst node; cbn; destruct (is_tree item); auto).
  assert (Hfresh_root : n ∉ root st).
  { intros Hn. pose proof (wf_root _ _ Hwf _ Hn). unfold n in *. lia. }
  assert (Hfresh_child : forall p, ~ child (heap st) p n).
  { intros p Hc. pose proof (child_bounds _ _ _ Hwf Hc). unfold n in *. lia. }
  assert (Hkids1 : forall p o cs,
            (heap st ++ [node])%list !! p = Some o -> o_children o = Some cs -> NoDup cs).
  { intros p o cs Hp Hcs.
    apply lookup_snoc_Some in Hp as [[_ Hp]|[_ <-]]; [eauto|].
    destruct Hnode as [E|E]; rewrite E in Hcs; [discriminate|].
    injection Hcs as <-. constructor. }
  destruct Hcases as [(Htop & ->)|[(Hne & p0 & Hp0 & ->)|(Hne & _ & ->)]];
    constructor; cbn [heap root nodeMap].
  - apply NoDup_app. split; [exact Hroot|]. split; [|apply NoDup_singleton].
    intros x Hx Hx'. apply list_elem_of_singleton in Hx' as ->. contradiction.
  - intros p c Hc Hin. apply child_snoc in Hc; [|exact Hnode].
    apply elem_of_app in Hin as [Hin|Hin]; [eapply Hapart; eassumption|].
    apply list_elem_of_singleton in Hin as ->. eapply Hfresh_child; eassumption.
  - intros p p' c Hc Hc'. apply child_snoc in Hc, Hc'; try exact Hnode. eauto.
  - exact Hkids1.
  - exact Hroot.
  - intros p c Hc Hin. apply child_push in Hc as [Hc|[-> ->]].
    + apply child_snoc in Hc; [|exact Hnode]. eapply Hapart; eassumption.
    + contradiction.
  - intros p p' c Hc Hc'.
    apply child_push in Hc as [Hc|[-> ->]]; apply child_push in Hc' as [Hc'|[-> E]];
      try (apply child_snoc in Hc; [|exact Hnode]);
      try (apply child_snoc in Hc'; [|exact Hnode]).
    + eauto.
    + subst c. exfalso. eapply Hfresh_child; eassumption.
    + exfalso. eapply Hfresh_child; eassumption.
    + reflexivity.
  - intros p o' cs' Hp Hcs'.
    destruct (push_child_lookup_full _ _ _ _ _ Hp) as (o & Ho & _ & _ & _ & _ & Hk).
    destruct Hk as [E|(-> & cs & E & E')].
    + rewrite E in Hcs'. eapply Hkids1; [exact Ho|exact Hcs'].
    + rewrite E' in Hcs'. injection Hcs' as <-.
      apply NoDup_app. split; [eapply Hkids1; [exact Ho|exact E]|].
      split; [|apply NoDup_singleton].
      intros x Hx Hx'. apply list_elem_of_singleton in Hx' as ->.
      apply (Hfresh_child p0). apply (child_snoc _ _ _ _ Hnode).
      exists o, cs. auto.
  - exact Hroot.
  - intros p c Hc Hin. apply child_snoc in Hc; [|exact Hnode]. eapply Hapart; eassumption.
  - intros p p' c Hc Hc'. apply child_snoc in Hc, Hc'; try exact Hnode. eauto.
  - exact Hkids1.
Qed.

Lemma fold_add_item_single_parent l st :
  Forall (fun x => x ∈ items) l -> well_formed items st -> single_parent st ->
  single_parent (fold_left add_item l st).
Proof.
  intros Hall. revert st.
  induction Hall as [|x l Hx _ IH]; intros st Hwf Hsp; cbn; [exact Hsp|].
  apply IH; [now apply add_item_well_formed|now apply add_item_single_parent].
Qed.

End SingleParent.

Section Forest.
Import JS Tree TreeFacts TreeCount.

Variable h : list NodeObj.

Hypothesis forward : forall p c, child h p c -> (p < c < List.length h)%nat.
Hypothesis parent_unique : forall p p' c, child h p c -> child h p' c -> p = p'.
Hypothesis kids_nodup : forall p o cs, h !! p = Some o -> o_children o = Some cs -> NoDup cs.

Lemma descends_le a b : descends h a b -> (a <= b)%nat.
Proof.
  induction 1 as [a|p o cs c a Hp Hcs Hc _ IH]; [lia|].
  assert (Hchild : child h p c) by (exists o, cs; auto).
  apply forward in Hchild. lia.
Qed.

(** The last step of a path that is not empty. *)
Lemma descends_last b c :
  descends h b c -> b <> c -> exists p, descends h b p /\ child h p c.
Proof.
  induction 1 as [a|p o cs d a Hp Hcs Hd Hdesc IH]; [congruence|]. intros _.
  destruct (decide (d = a)) as [->|Hne].
  - exists p. split; [constructor|]. exists o, cs. auto.
  - destruct (IH Hne) as (q & Hq & Hchild). exists q. split; [|exact Hchild].
    eapply descends_step; eassumption.
Qed.

(** Two objects above the same object lie on one path. *)
Lemma descends_comparable a b x :
  descends h a x -> descends h b x -> descends h a b \/ descends h b a.
Proof.
  induction 1 as [a|p o cs c a Hp Hcs Hc Hdesc IH]; intros Hb; [now right|].
  destruct (IH Hb) as [Hcb|Hbc].
  - left. eapply descends_step; eassumption.
  - destruct (decide (b = c)) as [->|Hne].
    + left. eapply descends_step; [exact Hp|exact Hcs|exact Hc|constructor].
    + destruct (descends_last _ _ Hbc Hne) as (q & Hq & Hchild).
      assert (q = p) as -> by (eapply parent_unique; [exact Hchild|exists o, cs; auto]).
      now right.
Qed.

Lemma walk_descends fuel : forall a x, x ∈ walk fuel h a -> descends h a x.
Proof.
  induction fuel as [|fuel IH]; intros a x; cbn [walk]; [intros H; apply elem_of_nil in H as []|].
  destruct (h !! a) as [o|] eqn:Ho; [|intros H; apply elem_of_nil in H as []].
  intros Hx. apply elem_of_cons in Hx as [->|Hx]; [constructor|].
  destruct (o_children o) as [cs|] eqn:Hcs; [|apply elem_of_nil in Hx as []].
  apply list_elem_of_bind in Hx as (c & Hx & Hc).
  eapply descends_step; [exact Ho|exact Hcs|exact Hc|]. now apply IH.
Qed.

Lemma walk_bound fuel a x : x ∈ walk fuel h a -> (x < List.length h)%nat.
Proof.
  revert a. induction fuel as [|fuel IH]; intros a; cbn [walk];
    [intros H; apply elem_of_nil in H as []|].
  destruct (h !! a) as [o|] eqn:Ho; [|intros H; apply elem_of_nil in H as []].
  intros Hx. apply elem_of_cons in Hx as [->|Hx]; [eapply lookup_lt_Some; eassumption|].
  destruct (o_children o) as [cs|]; [|apply elem_of_nil in Hx as []].
  apply list_elem_of_bind in Hx as (c & Hx & _). eapply IH; eassumption.
Qed.

Lemma walk_NoDup fuel : forall a, NoDup (walk fuel h a).
Proof.
  induction fuel as [|fuel IH]; intros a; cbn [walk]; [constructor|].
  destruct (h !! a) as [o|] eqn:Ho; [|constructor].
  destruct (o_children o) as [cs|] eqn:Hcs; [|apply NoDup_singleton].
  assert (Hkid : forall c, c ∈ cs -> child h a c) by (intros c Hc; exists o, cs; auto).
  constructor.
  - intros Hin. apply list_elem_of_bind in Hin as (c & Hin & Hc).
    apply walk_descends, descends_le in Hin. apply Hkid, forward in Hc. lia.
  - apply NoDup_bind; [|intros; apply IH|eapply kids_nodup; eassumption].
    intros x1 x2 y Hx1 Hx2 Hy1 Hy2.
    apply walk_descends in Hy1, Hy2.
    destruct (descends_comparable _ _ _ Hy1 Hy2) as [H12|H21].
    + destruct (decide (x1 = x2)) as [E|Hne]; [exact E|exfalso].
      destruct (descends_last _ _ H12 Hne) as (q & Hq & Hchild).
      assert (q = a) as -> by (eapply parent_unique; [exact Hchild|now apply Hkid]).
      apply descends_le in Hq. apply Hkid, forward in Hx1. lia.
    + destruct (decide (x2 = x1)) as [E|Hne]; [now symmetry|exfalso].
      destruct (descends_last _ _ H21 Hne) as (q & Hq & Hchild).
      assert (q = a) as -> by (eapply parent_unique; [exact Hchild|now apply Hkid]).
      apply descends_le in Hq. apply Hkid, forward in Hx2. lia.
Qed.

Lemma roots_walk_NoDup fuel (R : list nat) :
  NoDup R -> (forall p c, child h p c -> c ∉ R) ->
  NoDup (R ≫= walk fuel h).
Proof.
  intros HR Hapart. apply NoDup_bind; [|intros; apply walk_NoDup|exact HR].
  intros x1 x2 y Hx1 Hx2 Hy1 Hy2.
  apply walk_descends in Hy1, Hy2.
  destruct (descends_comparable _ _ _ Hy1 Hy2) as [H12|H21].
  - destruct (decide (x1 = x2)) as [E|Hne]; [exact E|exfalso].
    destruct (descends_last _ _ H12 Hne) as (q & _ & Hchild).
    exact (Hapart _ _ Hchild Hx2).
  - destruct (decide (x2 = x1)) as [E|Hne]; [now symmetry|exfalso].
    destruct (descends_last _ _ H21 Hne) as (q & _ & Hchild).
    exact (Hapart _ _ Hchild Hx1).
Qed.

End Forest.

Section WalkAndRead.
Import JS Tree TreeFacts TreeCount.

Variable h : list NodeObj.

(** The nodes of a tree that was read back are the read-backs of the
    addresses walked, in the same order. *)
Lemma read_node_walk fuel : forall a n,
  read_node fuel h a = Some n -> Forall2 (represents h) (walk fuel h a) (nodes_of n).
Proof.
  induction fuel as [|fuel IH]; intros a n Hread; [discriminate|].
  assert (Hrep : represents h a n) by (exists (S fuel); exact Hread).
  destruct (read_node_spec _ _ _ _ Hread) as (o & Ho & _ & _ & _ & _ & Hkids).
  cbn [walk]. rewrite Ho. destruct n as [i nm t pa ch]. cbn [nodes_of node_children] in *.
  constructor; [exact Hrep|].
  destruct (o_children o) as [cs|].
  - destruct Hkids as (ms & -> & Hmap). apply mapM_Some_1 in Hmap.
    clear Hrep Hread Ho.
    induction Hmap as [|c m cs ms Hc _ IHm]; [constructor|].
    cbn. apply Forall2_app; [now apply IH|exact IHm].
  - rewrite Hkids. constructor.
Qed.

Lemma read_nodes_walk fuel (R : list nat) nodes :
  mapM (read_node fuel h) R = Some nodes ->
  Forall2 (represents h) (R ≫= walk fuel h) (nodes_in nodes).
Proof.
  intros Hmap. apply mapM_Some_1 in Hmap. unfold nodes_in.
  induction Hmap as [|r n R nodes Hr _ IH]; [constructor|].
  cbn. apply Forall2_app; [now apply read_node_walk|exact IH].
Qed.

(** Every object below one that was read is walked. *)
Lemma descends_walk fuel : forall a n b,
  read_node fuel h a = Some n -> descends h a b -> b ∈ walk fuel h a.
Proof.
  induction fuel as [|fuel IH]; intros a n b Hread Hdesc; [discriminate|].
  destruct (read_node_spec _ _ _ _ Hread) as (o & Ho & _ & _ & _ & _ & Hkids).
  cbn [walk]. rewrite Ho.
  destruct Hdesc as [a|p o' cs c b Hp Hcs Hc Hdesc]; [now left|].
  rewrite Ho in Hp. injection Hp as <-. rewrite Hcs in Hkids |- *.
  destruct Hkids as (ms & _ & Hmap). apply mapM_Some_1 in Hmap.
  right. apply list_elem_of_bind. exists c. split; [|exact Hc].
  apply list_elem_of_lookup_1 in Hc as [j Hj].
  destruct (Forall2_lookup_l _ _ _ _ _ Hmap Hj) as (m & _ & Hreadc).
  eapply IH; eassumption.
Qed.

End WalkAndRead.

Section MadeInOrder.
Import JS Tree TreeFacts TreeCount.

Variable items : list GitHubTreeItem.

Lemma push_child_made l h p n :
  Forall2 object_of_entry l h -> Forall2 object_of_entry l (push_child h p n).
Proof.
  intros Hall. unfold push_child.
  destruct (h !! p) as [parent|] eqn:Hp; [|exact Hall].
  destruct (o_children parent) as [cs|] eqn:Hcs; [|exact Hall].
  destruct (Forall2_lookup_r _ _ _ _ _ Hall Hp) as (item & Hitem & Hobj).
  rewrite <- (list_insert_id l p item Hitem).
  apply Forall2_insert; [exact Hall|].
  destruct Hobj as (Hi & Hn & Hpa & Ht & Hk). unfold object_of_entry. cbn.
  repeat split; try assumption.
  - discriminate.
  - intros Hblob. apply Hk in Hblob. congruence.
Qed.

(** The objects are made in the order of the list looped over: the
    object at address [a] is the one of the [a]-th entry. *)
Lemma fold_add_item_made rest : forall done st,
  Forall2 object_of_entry done (heap st) ->
  Forall2 object_of_entry (done ++ rest) (heap (fold_left add_item rest st)).
Proof.
  induction rest as [|item rest IH]; intros done st Hmade; cbn [fold_left].
  - now rewrite app_nil_r.
  - replace (done ++ item :: rest)%list with ((done ++ [item]) ++ rest)%list
      by (now rewrite <- app_assoc).
    apply IH.
    assert (Hnew : Forall2 object_of_entry (done ++ [item])
                     (heap st ++ [mkObj (item_sha item) (last_segment (item_path item))
                                        (if is_tree item then folder else file) (item_path item)
                                        (if is_tree item then Some [] else None)])).
    { apply Forall2_app; [exact Hmade|]. constructor; [|constructor].
      apply object_of_entry_node. }
    destruct (add_item_cases st item) as [(_ & ->)|[(_ & p & _ & ->)|(_ & _ & ->)]];
      cbn [heap]; [exact Hnew|now apply push_child_made|exact Hnew].
Qed.

End MadeInOrder.

Section OneNodePerEntry.
Import JS Tree TreeFacts TreeCount.

Variable localeCompare : string -> string -> Z.

Local Abbreviation built := (build localeCompare).
Local Abbreviation tree := (buildFileTree localeCompare).
Local Abbreviation sorted := (sortedItems localeCompare).

Lemma sorted_in_items items :
  Forall (fun x => x ∈ items) (sorted items).
Proof. apply Forall_forall. intros x Hx. now rewrite sortedItems_perm in Hx. Qed.

Lemma build_single_parent items : single_parent (built items).
Proof.
  unfold build. apply (fold_add_item_single_parent items);
    [apply sorted_in_items|apply well_formed_empty|apply single_parent_empty].
Qed.

Lemma build_made items : Forall2 object_of_entry (sorted items) (heap (built items)).
Proof.
  unfold build. apply (fold_add_item_made (sorted items) [] (mkBuild [] [] ∅)). constructor.
Qed.

Lemma entries_at_all (l : list GitHubTreeItem) : forall pre,
  entries_at (pre ++ l) (seq (List.length pre) (List.length l)) = l.
Proof.
  unfold entries_at. induction l as [|x l IH]; intros pre; [reflexivity|].
  cbn [List.length seq]. cbn. rewrite list_lookup_middle by reflexivity. cbn. f_equal.
  specialize (IH (pre ++ [x])%list). rewrite <- app_assoc, length_app in IH.
  cbn in IH. rewrite Nat.add_1_r in IH. exact IH.
Qed.

(** The listing of the final state: no address twice, every address
    inside the heap, and the nodes of the hierarchy are its read-backs. *)
Lemma build_listing items :
  NoDup (listing (built items))
  /\ (forall a, a ∈ listing (built items) -> (a < List.length (sorted items))%nat)
  /\ Forall2 (represents (heap (built items))) (listing (built items)) (nodes_in (tree items)).
Proof.
  pose proof (build_well_formed localeCompare items) as Hwf.
  pose proof (build_single_parent items) as Hsp.
  pose proof (build_made items) as Hmade.
  assert (Hfwd : forall p c, child (heap (built items)) p c ->
                   (p < c < List.length (heap (built items)))%nat)
    by (intros p c; apply (child_bounds items), Hwf).
  split; [|split].
  - apply roots_walk_NoDup;
      [exact Hfwd|apply (sp_parent _ Hsp)|apply (sp_kids _ Hsp)
      |apply (sp_root _ Hsp)|apply (sp_apart _ Hsp)].
  - intros a Ha. unfold listing in Ha. apply list_elem_of_bind in Ha as (r & Ha & _).
    apply walk_bound in Ha. now rewrite (Forall2_length _ _ _ Hmade).
  - apply read_nodes_walk. apply (buildFileTree_reads localeCompare).
Qed.

Lemma made_nodes sortedl (h : list NodeObj) l nodes :
  Forall2 object_of_entry sortedl h ->
  Forall2 (represents h) l nodes ->
  Forall2 node_of_entry (entries_at sortedl l) nodes.
Proof.
  intros Hmade. unfold entries_at. induction 1 as [|a n l nodes Hrep _ IH]; [constructor|].
  destruct (represents_spec _ _ _ Hrep) as (o & Ho & Hi & Hn & Ht & Hp & Hkids).
  destruct (Forall2_lookup_r _ _ _ _ _ Hmade Ho) as (item & Hitem & Hi' & Hn' & Hp' & Ht' & Hk').
  cbn. rewrite Hitem. cbn. constructor; [|exact IH].
  unfold node_of_entry. rewrite Hi, Hn, Ht, Hp. repeat split; try assumption.
  - intros Hnone. apply Hk'. destruct (o_children o) as [cs|]; [|reflexivity].
    destruct Hkids as (ms & Hms & _). congruence.
  - intros Hblob. apply Hk' in Hblob. rewrite Hblob in Hkids. exact Hkids.
Qed.

(** The entries the nodes of the hierarchy were made for, in the order
    of [nodes_in]. *)
Lemma buildFileTree_kept items :
  exists kept,
    Forall2 node_of_entry kept (nodes_in (tree items))
    /\ kept ⊆+ items
    /\ (folders_listed items -> kept ≡ₚ items).
Proof.
  destruct (build_listing items) as (Hnodup & Hbound & Hnodes).
  pose proof (build_made items) as Hmade.
  exists (entries_at (sorted items) (listing (built items))).
  assert (Hsub : listing (built items) ⊆+ seq 0 (List.length (sorted items))).
  { apply NoDup_submseteq; [exact Hnodup|]. intros a Ha.
    apply elem_of_seq. specialize (Hbound a Ha). lia. }
  assert (Hall : entries_at (sorted items) (seq 0 (List.length (sorted items))) = sorted items)
    by (apply (entries_at_all (sorted items) [])).
  assert (Hkept : entries_at (sorted items) (listing (built items)) ⊆+ sorted items).
  { rewrite <- Hall at 2. unfold entries_at. now apply bind_submseteq. }
  split; [eapply made_nodes; eassumption|]. split.
  - etransitivity; [exact Hkept|]. apply Permutation_submseteq, sortedItems_perm.
  - intros Hlisted. etransitivity; [|apply sortedItems_perm].
    apply (anti_symm submseteq); [exact Hkept|].
    rewrite <- Hall at 1. unfold entries_at. apply bind_submseteq.
    apply NoDup_submseteq; [apply NoDup_seq|]. intros a Ha. apply elem_of_seq in Ha.
    destruct (build_covered localeCompare items Hlisted a) as (r & Hr & Hdesc).
    { rewrite <- (Forall2_length _ _ _ Hmade). lia. }
    unfold listing. apply list_elem_of_bind. exists r. split; [|exact Hr].
    apply list_elem_of_lookup_1 in Hr as [j Hj].
    pose proof (buildFileTree_reads localeCompare items) as Hreads.
    unfold read_nodes in Hreads. apply mapM_Some_1 in Hreads.
    destruct (Forall2_lookup_l _ _ _ _ _ Hreads Hj) as (n' & _ & Hread').
    eapply descends_walk; eassumption.
Qed.

(** X28: every entry of the listing becomes at most one node of the
    hierarchy, and exactly one when the listing lists its folders: the
    nodes of the hierarchy, at all depths, are made one each for the
    entries of a list that is contained in the listing as a multiset, and
    that is a rearrangement of the whole listing when every entry below the
    top level has a tree entry at its parent path and only tree entries
    carry that path. *)
Theorem buildFileTree_one_node_per_entry items :
  exists kept,
    Forall2 node_of_entry kept (nodes_in (tree items))
    /\ kept ⊆+ items
    /\ (List.length (nodes_in (tree items)) <= List.length items)%nat
    /\ (folders_listed items ->
        kept ≡ₚ items
        /\ List.length (nodes_in (tree items)) = List.length items).
Proof.
  destruct (buildFileTree_kept items) as (kept & Hnodes & Hsub & Hperm).
  exists kept. split; [exact Hnodes|]. split; [exact Hsub|].
  rewrite <- (Forall2_length _ _ _ Hnodes). split.
  - now apply submseteq_length.
  - intros Hlisted. specialize (Hperm Hlisted). split; [exact Hperm|now rewrite Hperm].
Qed.

End OneNodePerEntry.

(** ** The component: file statistics *)

Section Statistics.
Import JS Tree TreeFacts TreeCount Stats.

Variable localeCompare : string -> string -> Z.

Local Abbreviation tree := (buildFileTree localeCompare).

(** On a tree whose file nodes have no children, [countNodes] counts
    every node once. *)
Lemma count_node_nodes : forall n acc,
  childless_files (nodes_of n) ->
  count_node n acc
  = mkCounts (fileCount acc + List.length (List.filter (fun m => negb (is_folder m)) (nodes_of n)))%nat
             (folderCount acc + List.length (List.filter is_folder (nodes_of n)))%nat.
Proof.
  fix IH 1. intros [i nm t p c] acc Hfiles. destruct t.
  - assert (c = None) as -> by (apply (Hfiles (mkFileNode i nm file p c)); [now left|reflexivity]).
    cbn. f_equal; lia.
  - cbn [count_node nodes_of node_children]. destruct c as [cs|]; [|cbn; f_equal; lia].
    cbn [List.filter is_folder node_type negb List.length].
    assert (Hsub : childless_files (List.concat (map nodes_of cs))).
    { intros m Hm. apply Hfiles. cbn. now right. }
    clear Hfiles.
    set (acc1 := mkCounts (fileCount acc) (S (folderCount acc))).
    assert (Hfold : fold_left (fun acc n => count_node n acc) cs acc1
              = mkCounts (fileCount acc1
                          + List.length (List.filter (fun m => negb (is_folder m))
                                           (List.concat (map nodes_of cs))))%nat
                         (folderCount acc1
                          + List.length (List.filter is_folder (List.concat (map nodes_of cs))))%nat).
    { generalize acc1. clear acc1. induction cs as [|x cs IHcs]; intros a.
      - cbn. destruct a. cbn. f_equal; lia.
      - cbn [fold_left map List.concat]. rewrite IH.
        + rewrite IHcs.
          * cbn [fileCount folderCount]. rewrite !List.filter_app, !length_app. f_equal; lia.
          * intros m Hm. apply Hsub. cbn. apply in_or_app. now right.
        + intros m Hm. apply Hsub. cbn. apply in_or_app. now left. }
    rewrite Hfold. subst acc1. cbn [fileCount folderCount]. f_equal; lia.
Qed.

Lemma countNodes_nodes nodes : forall acc,
  childless_files (nodes_in nodes) ->
  countNodes nodes acc
  = mkCounts (fileCount acc + List.length (List.filter (fun m => negb (is_folder m)) (nodes_in nodes)))%nat
             (folderCount acc + List.length (List.filter is_folder (nodes_in nodes)))%nat.
Proof.
  unfold countNodes, nodes_in. induction nodes as [|x nodes IH]; intros acc Hfiles.
  - cbn. destruct acc. cbn. f_equal; lia.
  - cbn [fold_left map List.concat]. rewrite IH, count_node_nodes.
    + cbn [fileCount folderCount]. rewrite !List.filter_app, !length_app. f_equal; lia.
    + intros m Hm. apply Hfiles. cbn. apply in_or_app. now left.
    + intros m Hm. apply Hfiles. cbn. apply in_or_app. now right.
Qed.

Lemma filter_length_submseteq {A} (f : A -> bool) (l k : list A) :
  l ⊆+ k -> (List.length (List.filter f l) <= List.length (List.filter f k))%nat.
Proof.
  induction 1 as [|x l k _ IH|x y l|x l k _ IH|l k m _ IH1 _ IH2]; cbn.
  - lia.
  - destruct (f x); cbn; lia.
  - destruct (f x), (f y); cbn; lia.
  - destruct (f x); cbn; lia.
  - lia.
Qed.

Lemma filter_length_Permutation {A} (f : A -> bool) (l k : list A) :
  l ≡ₚ k -> List.length (List.filter f l) = List.length (List.filter f k).
Proof.
  intros Hperm. apply Nat.le_antisymm; apply filter_length_submseteq, Permutation_submseteq;
    [exact Hperm|now symmetry].
Qed.

Lemma made_kinds kept nodes :
  Forall2 node_of_entry kept nodes ->
  childless_files nodes
  /\ List.length (List.filter (fun m => negb (is_folder m)) nodes)
     = List.length (List.filter (fun x => negb (is_tree x)) kept)
  /\ List.length (List.filter is_folder nodes) = List.length (List.filter is_tree kept).
Proof.
  induction 1 as [|item n kept nodes (_ & _ & _ & Ht & Hk) _ (IH1 & IH2 & IH3)].
  - split; [intros m []|]. split; reflexivity.
  - split; [|split].
    + intros m [<-|Hm]; [|now apply IH1].
      intros Hfile. apply Hk. rewrite Hfile in Ht. destruct (is_tree item); congruence.
    + cbn. unfold is_folder at 1. rewrite Ht. destruct (is_tree item); cbn; lia.
    + cbn. unfold is_folder at 1. rewrite Ht. destruct (is_tree item); cbn; lia.
Qed.

(** X29: the statistics the component shows for a tree that came from
    buildFileTree count its nodes, each once: the two counts add up to the
    number of nodes of the hierarchy; the file count is at most the number
    of non-tree entries of the listing and the folder count at most the
    number of tree entries, and when the listing lists its folders both are
    equal to these numbers. *)
Theorem stats_count_the_entries items :
  (fileCount (stats (tree items)) + folderCount (stats (tree items)))%nat
  = List.length (nodes_in (tree items))
  /\ (fileCount (stats (tree items))
      <= List.length (List.filter (fun x => negb (is_tree x)) items))%nat
  /\ (folderCount (stats (tree items)) <= List.length (List.filter is_tree items))%nat
  /\ (folders_listed items ->
      fileCount (stats (tree items))
      = List.length (List.filter (fun x => negb (is_tree x)) items)
      /\ folderCount (stats (tree items)) = List.length (List.filter is_tree items)).
Proof.
  destruct (buildFileTree_kept localeCompare items) as (kept & Hnodes & Hsub & Hperm).
  destruct (made_kinds _ _ Hnodes) as (Hfiles & Hf & Hd).
  unfold stats. rewrite (countNodes_nodes _ _ Hfiles). cbn [fileCount folderCount].
  rewrite Hf, Hd. split; [|split; [|split]].
  - rewrite <- (Forall2_length _ _ _ Hnodes). clear.
    induction kept as [|x kept IH]; [reflexivity|]. cbn. destruct (is_tree x); cbn; lia.
  - cbn. now apply filter_length_submseteq.
  - cbn. now apply filter_length_submseteq.
  - intros Hlisted. specialize (Hperm Hlisted). cbn.
    split; now apply filter_length_Permutation.
Qed.

End Statistics.

(** ** The tree route: where a tree answer comes from *)

Section TreeAnswer.
Import JS Net GitHub.

Variable localeCompare : string -> string -> Z.
Variable URL_parse : string -> option URL.
Variable GITHUB_TOKEN : option string.
Variable net : Network.

Local Abbreviation route := (Tree.POST localeCompare URL_parse GITHUB_TOKEN net).
Local Abbreviation GET := (get_request GITHUB_TOKEN).

(** X30: a tree answer of the tree route is the end of one chain of three
    upstream answers in the 2xx range: the repository of the owner and
    name parsed from the URL, whose default_branch is the branch of the
    answer; that branch, whose commit.commit.tree.sha names the tree; and
    that tree, asked for with recursive=1, whose entries buildFileTree
    turns into the tree of the answer and whose truncated flag is passed
    on.  Each request is sent after the one before was answered. *)
Theorem tree_POST_answer_follows_default_branch request log owner repo branch tree truncated :
  fst (route request log) = Tree.TreeReply owner repo branch tree truncated ->
  exists url r1 repoData r2 branchData c1 c2 t sha r3 treeData listing items,
    request = Json url
    /\ parseGitHubUrl URL_parse (toString (get_opt url "url")) = Some (owner, repo)
    /\ snd (route request log)
       = (log ++ [GET ("https://api.github.com/repos/" ++ owner ++ "/" ++ repo);
                  GET ("https://api.github.com/repos/" ++ owner ++ "/" ++ repo ++ "/branches/"
                         ++ toString branch);
                  GET ("https://api.github.com/repos/" ++ owner ++ "/" ++ repo ++ "/git/trees/"
                         ++ toString sha ++ "?recursive=1")])%list
    /\ net log (GET ("https://api.github.com/repos/" ++ owner ++ "/" ++ repo)) = Responded r1
    /\ ok r1 = true /\ body r1 = Json repoData
    /\ get repoData "default_branch" = inr branch
    /\ net (log ++ [GET ("https://api.github.com/repos/" ++ owner ++ "/" ++ repo)])%list
           (GET ("https://api.github.com/repos/" ++ owner ++ "/" ++ repo ++ "/branches/"
                   ++ toString branch)) = Responded r2
    /\ ok r2 = true /\ body r2 = Json branchData
    /\ get branchData "commit" = inr c1 /\ get c1 "commit" = inr c2
    /\ get c2 "tree" = inr t /\ get t "sha" = inr sha
    /\ net (log ++ [GET ("https://api.github.com/repos/" ++ owner ++ "/" ++ repo);
                    GET ("https://api.github.com/repos/" ++ owner ++ "/" ++ repo ++ "/branches/"
                           ++ toString branch)])%list
           (GET ("https://api.github.com/repos/" ++ owner ++ "/" ++ repo ++ "/git/trees/"
                   ++ toString sha ++ "?recursive=1")) = Responded r3
    /\ ok r3 = true /\ body r3 = Json treeData
    /\ get treeData "tree" = inr listing /\ Tree.decode_items listing = Some items
    /\ tree = Tree.buildFileTree localeCompare items
    /\ truncated = get_opt treeData "truncated".
Proof.
  unfold Tree.POST, Tree.caught.
  destruct request as [e|body]; [discriminate|].
  destruct (destructure "body" body "url") as [e|url] eqn:Hurl; [discriminate|].
  assert (Hurl' : get_opt body "url" = url) by (destruct body; cbn in Hurl |- *; congruence).
  destruct (truthy url); cbn [negb]; [|discriminate].
  destruct (parseGitHubUrl URL_parse (toString url)) as [[o r]|] eqn:Hparse; [|discriminate].
  destruct (net log _) as [e|r1] eqn:Hnet1; [discriminate|].
  destruct (ok r1) eqn:Hok1; cbn [negb]; [|destruct (status r1 =? 404); discriminate].
  destruct (Net.body r1) as [e|repoData] eqn:Hbody1; [discriminate|].
  unfold Tree.after_repo, Tree.caught.
  destruct (get repoData "default_branch") as [e|defaultBranch] eqn:Hbranch; [discriminate|].
  destruct (net (log ++ [_])%list _) as [e|r2] eqn:Hnet2; [discriminate|].
  destruct (ok r2) eqn:Hok2; cbn [negb]; [|discriminate].
  destruct (Net.body r2) as [e|branchData] eqn:Hbody2; [discriminate|].
  destruct (get branchData "commit") as [e|c1] eqn:Hc1; [discriminate|].
  destruct (get c1 "commit") as [e|c2] eqn:Hc2; [discriminate|].
  destruct (get c2 "tree") as [e|t] eqn:Ht; [discriminate|].
  destruct (get t "sha") as [e|sha] eqn:Hsha; [discriminate|].
  destruct (net ((log ++ [_]) ++ [_])%list _) as [e|r3] eqn:Hnet3; [discriminate|].
  destruct (ok r3) eqn:Hok3; cbn [negb]; [|discriminate].
  destruct (Net.body r3) as [e|treeData] eqn:Hbody3; [discriminate|].
  destruct (get treeData "tree") as [e|listing] eqn:Hlisting; [discriminate|].
  destruct (Tree.decode_items listing) as [items|] eqn:Hitems; [|discriminate].
  cbn [fst snd]. intros [= <- <- <- <- <-].
  rewrite <- !app_assoc in *. cbn [app] in *.
  exists body, r1, repoData, r2, branchData, c1, c2, t, sha, r3, treeData, listing, items.
  rewrite Hurl'. repeat (split; [first [reflexivity|assumption]|]). reflexivity.
Qed.

End TreeAnswer.

Section TreeAnswerRun.
Import JS Net GitHub Scenario TreeRun.

Lemma tree_POST_answer_follows_default_branch_witness :
  exists url r1 repoData r2 branchData c1 c2 t sha r3 treeData listing items,
    tree_request "https://github.com/octocat/Hello-World" = Json url
    /\ parseGitHubUrl plain_url_parse (toString (get_opt url "url"))
       = Some ("octocat", "Hello-World")
    /\ snd (Tree.POST code_unit_compare plain_url_parse None github_backend
              (tree_request "https://github.com/octocat/Hello-World") [])
       = ([] ++ [get_request None ("https://api.github.com/repos/" ++ "octocat" ++ "/"
                                     ++ "Hello-World");
                 get_request None ("https://api.github.com/repos/" ++ "octocat" ++ "/"
                                     ++ "Hello-World" ++ "/branches/"
                                     ++ toString (JStr "master"));
                 get_request None ("https://api.github.com/repos/" ++ "octocat" ++ "/"
                                     ++ "Hello-World" ++ "/git/trees/" ++ toString sha
                                     ++ "?recursive=1")])%list
    /\ github_backend [] (get_request None ("https://api.github.com/repos/" ++ "octocat" ++ "/"
                                              ++ "Hello-World")) = Responded r1
    /\ ok r1 = true /\ body r1 = Json repoData
    /\ get repoData "default_branch" = inr (JStr "master")
    /\ github_backend
         ([] ++ [get_request None ("https://api.github.com/repos/" ++ "octocat" ++ "/"
                                     ++ "Hello-World")])%list
         (get_request None ("https://api.github.com/repos/" ++ "octocat" ++ "/"
                              ++ "Hello-World" ++ "/branches/" ++ toString (JStr "master")))
       = Responded r2
    /\ ok r2 = true /\ body r2 = Json branchData
    /\ get branchData "commit" = inr c1 /\ get c1 "commit" = inr c2
    /\ get c2 "tree" = inr t /\ get t "sha" = inr sha
    /\ github_backend
         ([] ++ [get_request None ("https://api.github.com/repos/" ++ "octocat" ++ "/"
                                     ++ "Hello-World");
                 get_request None ("https://api.github.com/repos/" ++ "octocat" ++ "/"
                                     ++ "Hello-World" ++ "/branches/"
                                     ++ toString (JStr "master"))])%list
         (get_request None ("https://api.github.com/repos/" ++ "octocat" ++ "/"
                              ++ "Hello-World" ++ "/git/trees/" ++ toString sha
                              ++ "?recursive=1")) = Responded r3
    /\ ok r3 = true /\ body r3 = Json treeData
    /\ get treeData "tree" = inr listing /\ Tree.decode_items listing = Some items
    /\ Tree.buildFileTree code_unit_compare listing_items
       = Tree.buildFileTree code_unit_compare items
    /\ JBool false = get_opt treeData "truncated".
Proof.
  apply (tree_POST_answer_follows_default_branch code_unit_compare plain_url_parse None
           github_backend (tree_request "https://github.com/octocat/Hello-World") []
           "octocat" "Hello-World" (JStr "master")
           (Tree.buildFileTree code_unit_compare listing_items) (JBool false)).
  vm_compute. reflexivity.
Defined.

End TreeAnswerRun.

(** ** The chat client among other calls: what every run returns *)

Section InterleavedResults.
Import JS Net Groq GroqFacts.

Variable env : ProcessEnv.
Variable net : Network.
Variable others : Interleaved.Others.
Variable opts : GroqRequestOptions.




End InterleavedResults.

(** ** The component in front of the generate-content route *)

Section ServedContent.
Import JS Net Groq GroqFacts GenContent.



End ServedContent.

Section ReachableStates.
Import JS Net Tree Layout Docs.

Variable toLowerCase : string -> string.
Variable info : RepoInfo.

(** Every text in the cache is truthy. *)
Local Abbreviation all_truthy cache :=
  (forall k (v : JValue), cache !! k = Some v -> truthy v = true).





End ReachableStates.

Section ServedRuns.
Import JS Net Groq GroqFacts Layout Docs Scenario FurtherScenario.





Lemma generate_outline_POST_discipline_witness :
  Interleaved.undisturbed Interleaved.alone
  /\ (List.length (getApiKeys two_keys) < 3)%nat
  /\ fst (fst (GenOutline.POST parses_empty_array unfenced already_trimmed ascii_slice
                 two_keys completes_empty_outline outline_body Groq.initial []))
     = GenOutline.OutlineReply (JArr [])
  /\ exists reply st' log',
       InterleavedOutline.POST parses_empty_array unfenced already_trimmed ascii_slice 3
         two_keys completes_empty_outline Interleaved.alone outline_body Groq.initial []
       = Some (reply, st', log')
       /\ (exists ks prompt,
             log' = ([] ++ map (fun key => chat_request key (GenOutline.options_for prompt))
                               ks)%list
             /\ ks ⊆ getApiKeys two_keys
             /\ (List.length ks <= List.length (getApiKeys two_keys))%nat).
Proof.
  assert (Hfuel : (List.length (getApiKeys two_keys) < 3)%nat) by (cbn; lia).
  split; [exact alone_undisturbed|]. split; [exact Hfuel|].
  split; [vm_compute; reflexivity|].
  destruct (generate_outline_POST_discipline parses_empty_array unfenced already_trimmed
              ascii_slice two_keys completes_empty_outline Interleaved.alone 3 outline_body
              Groq.initial [] alone_undisturbed Hfuel)
    as (reply & st' & log' & Hrun & Hlog & _).
  exists reply, st', log'. split; [exact Hrun|exact Hlog].
Defined.

End ServedRuns.
